(** * ThreadCanvas: message tree, thread resolution, chaptering and layout

    A shallow embedding of the core of ThreadCanvas (src/App.tsx,
    src/services/gemini.ts, src/components/CanvasView.tsx, the sidebar and
    the message bubble of src/unnamed, src/types.ts, src/constants.ts), the
    properties its specification states, and further properties of the
    handlers, the streaming service and the canvas.

    Conventions of the embedding:
    - JavaScript strings are [string], with [trim], [toLowerCase], [length]
      and [slice] as they are on ASCII text; numbers that the code only uses
      as integers (timestamps, counters, indices) are [Z]; the layout's [y]
      coordinates, which are halved, are rationals [Q].
    - JavaScript arrays are lists.  [Array.prototype.sort] is stable, so it is
      a stable insertion sort on the comparator's sign.
    - React state is passed explicitly; a handler is a function on the state
      it closes over.  [Date.now()] is a parameter of each function that
      reads the clock.
    - Loops that the source does not bound take a fuel argument and return
      [None] (or [OutOfFuel]) when it runs out, so that their termination is
      a theorem and not an artefact of the model. *)

From Stdlib Require Import ZArith QArith List String Ascii Bool Lia DecimalString Sorted Lqa.
From stdpp Require Import gmap strings list.

Local Open Scope string_scope.
Local Open Scope list_scope.
Local Open Scope Z_scope.

(** [===] on strings. *)
Local Notation "a ==? b" := (String.eqb a b) (at level 70, no associativity).

(* ================================================================== *)
(** * JavaScript helpers *)
(* ================================================================== *)

(** [arr[i]] for an arbitrary integer index: [undefined] out of range. *)
Definition js_nth {A} (l : list A) (i : Z) : option A :=
  if i <? 0 then None else nth_error l (Z.to_nat i).

(** [arr.findIndex(p)]: the first index satisfying [p], or [-1]. *)
Fixpoint findIndex {A} (p : A -> bool) (l : list A) : Z :=
  match l with
  | [] => -1
  | x :: l' =>
      if p x then 0
      else let r := findIndex p l' in if r <? 0 then -1 else r + 1
  end.

(** [arr.length] as a JavaScript number. *)
Definition js_length {A} (l : list A) : Z := Z.of_nat (length l).

(** Stable sort by a comparator, as [Array.prototype.sort(cmp)] is since
    ES2019: [a] stays before [b] unless [cmp a b > 0]. *)
Fixpoint sort_insert {A} (cmp : A -> A -> Z) (x : A) (l : list A) : list A :=
  match l with
  | [] => [x]
  | y :: l' => if cmp x y <=? 0 then x :: y :: l' else y :: sort_insert cmp x l'
  end.

Definition js_sort {A} (cmp : A -> A -> Z) (l : list A) : list A :=
  foldr (sort_insert cmp) [] l.

(** Truthiness of a [string | null] value: [null] and the empty string are
    falsy. *)
Definition truthy (o : option string) : bool :=
  match o with
  | Some s => negb (s ==? "")
  | None => false
  end.

(** [===] on [string | null]. *)
Definition opt_eqb (a b : option string) : bool :=
  match a, b with
  | Some x, Some y => x ==? y
  | None, None => true
  | _, _ => false
  end.

(** Decimal rendering of an integer, as a template literal prints a number
    such as [Date.now()]. *)
Definition string_of_Z (z : Z) : string := NilZero.string_of_int (Z.to_int z).

(* ================================================================== *)
(** * Data model (src/types.ts, src/constants.ts) *)
(* ================================================================== *)

Inductive Author := USER | ASSISTANT.

Inductive MessageCategory := CONTEXT | BRAINSTORM | REFINEMENT | TANGENT | DECISION.

Record Message := {
  m_id : string;
  m_parentId : option string;
  m_author : Author;
  m_content : string;
  m_timestamp : Z;
  m_category : option MessageCategory;
  m_branchId : option string
}.

Record Chapter := {
  c_id : string;
  c_title : string;
  c_category : MessageCategory;
  c_startMessageId : string;
  c_messageCount : Z;
  c_subtopics : list string
}.

Definition Author_eqb (a b : Author) : bool :=
  match a, b with
  | USER, USER | ASSISTANT, ASSISTANT => true
  | _, _ => false
  end.

(** [ROOT_MESSAGE]; its timestamp is the clock reading at module load. *)
Definition ROOT_MESSAGE (t0 : Z) : Message :=
  {| m_id := "root"; m_parentId := None; m_author := ASSISTANT;
     m_content := "SYSTEM_ROOT"; m_timestamp := t0;
     m_category := Some CONTEXT; m_branchId := None |}.

Definition ROOT_ID : string := "root".
Definition GHOST_ID : string := "ghost-draft".

Definition INITIAL_MESSAGES (t0 : Z) : list Message := [ROOT_MESSAGE t0].

(** A message of the thread as [currentThread] returns it: the message and
    the sibling annotations that the [map] callback adds ([None] where the
    callback returns the message unannotated, or the field is [undefined]). *)
Record ThreadMsg := {
  tm_msg : Message;
  siblingCount : option Z;
  siblingIndex : option Z;
  prevSibling : option Message;
  nextSibling : option Message
}.

Definition plainMsg (m : Message) : ThreadMsg :=
  {| tm_msg := m; siblingCount := None; siblingIndex := None;
     prevSibling := None; nextSibling := None |}.

(* ================================================================== *)
(** * Thread resolver (src/App.tsx, [currentThread]) *)
(* ================================================================== *)

Definition MAX_DEPTH : Z := 5000.

(** The variables of the walk loop. *)
Record WalkState := {
  w_currentId : option string;
  w_loopSafety : Z;
  w_thread : list Message
}.

(** One evaluation of the loop guard and, if it holds, of the body. *)
Inductive WalkStep :=
| WalkNext (s : WalkState)   (* the body ran to its end *)
| WalkHalt (s : WalkState).  (* the guard failed, or the body hit [break] *)

Definition byId (i : string) (m : Message) : bool := m_id m ==? i.

Definition walk_step (messages : list Message) (s : WalkState) : WalkStep :=
  match w_currentId s with
  | Some currentId =>
      if negb (currentId ==? "") && (w_loopSafety s <? MAX_DEPTH) then
        let loopSafety := w_loopSafety s + 1 in
        match List.find (byId currentId) messages with
        | Some msg =>
            WalkNext {| w_currentId := m_parentId msg;
                        w_loopSafety := loopSafety;
                        w_thread := if negb (m_id msg ==? ROOT_ID)
                                    then msg :: w_thread s else w_thread s |}
        | None =>
            WalkHalt {| w_currentId := w_currentId s;
                        w_loopSafety := loopSafety;
                        w_thread := w_thread s |}
        end
      else WalkHalt s
  | None => WalkHalt s
  end.

(** The [while] loop: [None] when [fuel] iterations were not enough. *)
Fixpoint walk_loop (fuel : nat) (messages : list Message) (s : WalkState)
  : option WalkState :=
  match fuel with
  | O => None
  | S fuel' =>
      match walk_step messages s with
      | WalkNext s' => walk_loop fuel' messages s'
      | WalkHalt s' => Some s'
      end
  end.

Definition walk_init (headId : string) : WalkState :=
  {| w_currentId := Some headId; w_loopSafety := 0; w_thread := [] |}.

(** The walk of [currentThread]; [walk_loop_halts] below shows that the
    fuel given here is always enough. *)
Definition walk_fuel : nat := Z.to_nat (MAX_DEPTH + 1).

Definition walkThread (messages : list Message) (headId : string) : list Message :=
  match walk_loop walk_fuel messages (walk_init headId) with
  | Some s => w_thread s
  | None => []
  end.

Definition ghostMsg (activeBranchHeadId : string) (now : Z) : Message :=
  {| m_id := GHOST_ID; m_parentId := Some activeBranchHeadId; m_author := USER;
     m_content := ""; m_timestamp := now;
     m_category := None; m_branchId := None |}.

Definition byParent (p : option string) (m : Message) : bool :=
  opt_eqb (m_parentId m) p.

Definition byTimestampAsc (a b : Message) : Z := m_timestamp a - m_timestamp b.
Definition byTimestampDesc (a b : Message) : Z := m_timestamp b - m_timestamp a.

(** The children of [p] in the store, oldest first. *)
Definition sortedChildren (messages : list Message) (p : option string) : list Message :=
  js_sort byTimestampAsc (List.filter (byParent p) messages).

(** The value of [siblings] when the [map] callback reaches its
    [if (siblings.length >= 1)], for a message with a truthy [parentId]. *)
Definition siblingsOf (messages : list Message) (activeBranchHeadId : string)
    (isDraftingBranch : bool) (now : Z) (msg : Message) : list Message :=
  let siblings := sortedChildren messages (m_parentId msg) in
  let siblings :=
    if isDraftingBranch && opt_eqb (m_parentId msg) (Some activeBranchHeadId) then
      if existsb (byId GHOST_ID) siblings then siblings
      else siblings ++ [ghostMsg activeBranchHeadId now]
    else siblings in
  if m_id msg ==? GHOST_ID then
    sortedChildren messages (Some activeBranchHeadId) ++ [msg]
  else siblings.

(** [x?.id === 'ghost-draft' ? undefined : x] *)
Definition hideGhost (o : option Message) : option Message :=
  match o with
  | Some s => if m_id s ==? GHOST_ID then None else Some s
  | None => None
  end.

(** The [map] callback of [currentThread]. *)
Definition annotate (messages : list Message) (activeBranchHeadId : string)
    (isDraftingBranch : bool) (now : Z) (msg : Message) : ThreadMsg :=
  if negb (truthy (m_parentId msg)) then plainMsg msg
  else
    let siblings := siblingsOf messages activeBranchHeadId isDraftingBranch now msg in
    if js_length siblings >=? 1 then
      let index := findIndex (byId (m_id msg)) siblings in
      let prev := js_nth siblings (index - 1) in
      let next := js_nth siblings (index + 1) in
      {| tm_msg := msg;
         siblingCount := Some (js_length siblings);
         siblingIndex := Some (index + 1);
         prevSibling := hideGhost prev;
         nextSibling := hideGhost next |}
    else plainMsg msg.

(** [currentThread].  [clock 0] is the reading taken for the placeholder that
    is pushed on the thread, [clock (S i)] the one the callback may take at
    position [i]. *)
Definition currentThread (messages : list Message) (activeBranchHeadId : string)
    (isDraftingBranch : bool) (clock : nat -> Z) : list ThreadMsg :=
  let thread := walkThread messages activeBranchHeadId in
  let thread :=
    if isDraftingBranch then thread ++ [ghostMsg activeBranchHeadId (clock O)]
    else thread in
  imap (fun i msg =>
          annotate messages activeBranchHeadId isDraftingBranch (clock (S i)) msg)
       thread.

(* ================================================================== *)
(** * String helpers *)
(* ================================================================== *)

(** A string is a Rocq string, read one character per UTF-16 code unit of
    the JavaScript string.  The helpers below are [trim], [toLowerCase],
    [length] and [slice] on ASCII text, where every code unit is below 128.
    Beyond ASCII they differ from JavaScript, whose [trim] also removes the
    Unicode spaces, whose [toLowerCase] lowers every cased letter, and whose
    [length] and [slice] count code units where a Rocq string counts bytes;
    the properties that speak of the values of these helpers are therefore
    stated for ASCII text. *)
Definition isAscii (s : string) : bool :=
  forallb (fun c => Nat.ltb (nat_of_ascii c) 128) (list_ascii_of_string s).

(** The ASCII white space that [String.prototype.trim] removes: space, tab,
    line feed, vertical tab, form feed and carriage return. *)
Definition is_ws (c : ascii) : bool :=
  let n := nat_of_ascii c in
  Nat.eqb n 32 || (Nat.leb 9 n && Nat.leb n 13).

Fixpoint trimStart (s : string) : string :=
  match s with
  | EmptyString => EmptyString
  | String c s' => if is_ws c then trimStart s' else s
  end.

Definition js_trim (s : string) : string :=
  String.rev (trimStart (String.rev (trimStart s))).

(** [toLowerCase] on the ASCII letters. *)
Definition lower_ascii (c : ascii) : ascii :=
  let n := nat_of_ascii c in
  if Nat.leb 65 n && Nat.leb n 90 then ascii_of_nat (n + 32) else c.

Fixpoint toLowerCase (s : string) : string :=
  match s with
  | EmptyString => EmptyString
  | String c s' => String (lower_ascii c) (toLowerCase s')
  end.

(** [s.length] *)
Definition str_length (s : string) : Z := Z.of_nat (String.length s).

(** [s.slice(0, n)] for a literal [n >= 0]. *)
Definition slice0 (n : nat) (s : string) : string := substring 0 n s.

(** [hay.includes(needle)] *)
Fixpoint includes (hay needle : string) : bool :=
  String.prefix needle hay ||
  match hay with
  | EmptyString => false
  | String _ hay' => includes hay' needle
  end.

(** [arr.slice(start)], with JavaScript's reading of a negative start. *)
Definition slice_from {A} (l : list A) (start : Z) : list A :=
  let k := if start <? 0 then Z.max (js_length l + start) 0 else start in
  drop (Z.to_nat k) l.

(** [Array.from(new Set(l))]: the first occurrence of each string, in order. *)
Fixpoint uniq (seen l : list string) : list string :=
  match l with
  | [] => []
  | x :: l' =>
      if existsb (String.eqb x) seen then uniq seen l'
      else x :: uniq (x :: seen) l'
  end.

(* ================================================================== *)
(** * Application state (src/App.tsx, the [useState] and [useRef] cells) *)
(* ================================================================== *)

Inductive SwipeDirection := left | right.

Record AppState := {
  messages : list Message;
  activeBranchHeadId : string;
  inputText : string;
  isStreaming : bool;
  showCanvasTip : bool;
  chapters : list Chapter;
  isDraftingBranch : bool;
  swipeDirection : SwipeDirection;
  lastAnalyzedIndex : Z
}.

Definition setMessages (f : list Message -> list Message) (s : AppState) : AppState :=
  {| messages := f (messages s); activeBranchHeadId := activeBranchHeadId s;
     inputText := inputText s; isStreaming := isStreaming s;
     showCanvasTip := showCanvasTip s; chapters := chapters s;
     isDraftingBranch := isDraftingBranch s; swipeDirection := swipeDirection s;
     lastAnalyzedIndex := lastAnalyzedIndex s |}.

Definition setActiveBranchHeadId (h : string) (s : AppState) : AppState :=
  {| messages := messages s; activeBranchHeadId := h;
     inputText := inputText s; isStreaming := isStreaming s;
     showCanvasTip := showCanvasTip s; chapters := chapters s;
     isDraftingBranch := isDraftingBranch s; swipeDirection := swipeDirection s;
     lastAnalyzedIndex := lastAnalyzedIndex s |}.

Definition setInputText (t : string) (s : AppState) : AppState :=
  {| messages := messages s; activeBranchHeadId := activeBranchHeadId s;
     inputText := t; isStreaming := isStreaming s;
     showCanvasTip := showCanvasTip s; chapters := chapters s;
     isDraftingBranch := isDraftingBranch s; swipeDirection := swipeDirection s;
     lastAnalyzedIndex := lastAnalyzedIndex s |}.

Definition setIsStreaming (b : bool) (s : AppState) : AppState :=
  {| messages := messages s; activeBranchHeadId := activeBranchHeadId s;
     inputText := inputText s; isStreaming := b;
     showCanvasTip := showCanvasTip s; chapters := chapters s;
     isDraftingBranch := isDraftingBranch s; swipeDirection := swipeDirection s;
     lastAnalyzedIndex := lastAnalyzedIndex s |}.

Definition setShowCanvasTip (b : bool) (s : AppState) : AppState :=
  {| messages := messages s; activeBranchHeadId := activeBranchHeadId s;
     inputText := inputText s; isStreaming := isStreaming s;
     showCanvasTip := b; chapters := chapters s;
     isDraftingBranch := isDraftingBranch s; swipeDirection := swipeDirection s;
     lastAnalyzedIndex := lastAnalyzedIndex s |}.

Definition setChapters (f : list Chapter -> list Chapter) (s : AppState) : AppState :=
  {| messages := messages s; activeBranchHeadId := activeBranchHeadId s;
     inputText := inputText s; isStreaming := isStreaming s;
     showCanvasTip := showCanvasTip s; chapters := f (chapters s);
     isDraftingBranch := isDraftingBranch s; swipeDirection := swipeDirection s;
     lastAnalyzedIndex := lastAnalyzedIndex s |}.

Definition setIsDraftingBranch (b : bool) (s : AppState) : AppState :=
  {| messages := messages s; activeBranchHeadId := activeBranchHeadId s;
     inputText := inputText s; isStreaming := isStreaming s;
     showCanvasTip := showCanvasTip s; chapters := chapters s;
     isDraftingBranch := b; swipeDirection := swipeDirection s;
     lastAnalyzedIndex := lastAnalyzedIndex s |}.

Definition setSwipeDirection (d : SwipeDirection) (s : AppState) : AppState :=
  {| messages := messages s; activeBranchHeadId := activeBranchHeadId s;
     inputText := inputText s; isStreaming := isStreaming s;
     showCanvasTip := showCanvasTip s; chapters := chapters s;
     isDraftingBranch := isDraftingBranch s; swipeDirection := d;
     lastAnalyzedIndex := lastAnalyzedIndex s |}.

Definition setLastAnalyzedIndex (i : Z) (s : AppState) : AppState :=
  {| messages := messages s; activeBranchHeadId := activeBranchHeadId s;
     inputText := inputText s; isStreaming := isStreaming s;
     showCanvasTip := showCanvasTip s; chapters := chapters s;
     isDraftingBranch := isDraftingBranch s; swipeDirection := swipeDirection s;
     lastAnalyzedIndex := i |}.

(** The state of a new chat. *)
Definition initialState (t0 : Z) : AppState :=
  {| messages := INITIAL_MESSAGES t0; activeBranchHeadId := ROOT_ID;
     inputText := ""; isStreaming := false; showCanvasTip := false;
     chapters := []; isDraftingBranch := false; swipeDirection := right;
     lastAnalyzedIndex := 0 |}.

(* ================================================================== *)
(** * Branch navigator (src/App.tsx) *)
(* ================================================================== *)

(** ** [handleSendMessage] *)

(** Whether some stored message has [p] as its parent. *)
Definition hasChildren (msgs : list Message) (p : string) : bool :=
  existsb (byParent (Some p)) msgs.

(** [isBranching] of [handleSendMessage]. *)
Definition isBranching (msgs : list Message) (head : string) (wasDrafting : bool) : bool :=
  wasDrafting || (hasChildren msgs head && negb (head ==? "root")).

Definition newBranchChapter (content newMsgId : string) (now : Z) : Chapter :=
  {| c_id := "chap-" +:+ string_of_Z now;
     c_title := "Branch: " +:+ slice0 15 content
                +:+ (if str_length content >? 15 then "..." else "");
     c_category := DECISION;
     c_startMessageId := newMsgId;
     c_messageCount := 0;
     c_subtopics := [] |}.

(** [handleSendMessage] up to its [await]: every state update it queues
    before the response streams.  [clock k] is the reading of the [k]-th
    [Date.now()] of the handler's text. *)
Definition handleSendMessage (clock : nat -> Z) (s : AppState) : AppState :=
  if (js_trim (inputText s) ==? "") || isStreaming s then s
  else
    let content := inputText s in
    let wasDrafting := isDraftingBranch s in
    let head := activeBranchHeadId s in
    let newMsgId := "msg-" +:+ string_of_Z (clock 0%nat) in
    let parentHasChildren := hasChildren (messages s) head in
    let newMessage :=
      {| m_id := newMsgId; m_parentId := Some head; m_author := USER;
         m_content := content; m_timestamp := clock 1%nat;
         m_category := Some REFINEMENT;
         m_branchId := if wasDrafting
                       then Some ("b-" +:+ string_of_Z (clock 2%nat)) else None |} in
    let responseId := "resp-" +:+ string_of_Z (clock 4%nat) in
    let responsePlaceholder :=
      {| m_id := responseId; m_parentId := Some newMsgId; m_author := ASSISTANT;
         m_content := ""; m_timestamp := clock 5%nat + 1;
         m_category := None; m_branchId := None |} in
    let branching := isBranching (messages s) head wasDrafting in
    let s := setInputText "" s in
    let s := setIsStreaming true s in
    let s := setIsDraftingBranch false s in
    let s := if parentHasChildren then setShowCanvasTip true s else s in
    let s :=
      if branching then
        setChapters (fun prev => prev ++ [newBranchChapter content newMsgId (clock 3%nat)]) s
      else s in
    let s := setMessages (fun prev => prev ++ [newMessage]) s in
    let s := setActiveBranchHeadId newMsgId s in
    let s := setMessages (fun prev => prev ++ [responsePlaceholder]) s in
    setActiveBranchHeadId responseId s.

(** The [onChunk] callback of the stream, and the end of the handler. *)
Definition streamChunk (responseId fullResponse : string) (s : AppState) : AppState :=
  setMessages
    (map (fun m =>
            if m_id m ==? responseId then
              {| m_id := m_id m; m_parentId := m_parentId m; m_author := m_author m;
                 m_content := fullResponse; m_timestamp := m_timestamp m;
                 m_category := m_category m; m_branchId := m_branchId m |}
            else m)) s.

Definition streamEnd (s : AppState) : AppState := setIsStreaming false s.

(** ** [handleBranch] *)
Definition handleBranch (fromMessageId : string) (s : AppState) : AppState :=
  setIsDraftingBranch true (setActiveBranchHeadId fromMessageId s).

(** ** [handleSwipeBranch] *)

Inductive Direction := prev | next.

(** How a handler with an unbounded loop can end. *)
Inductive Outcome (A : Type) :=
| Done (a : A)      (* the handler returned *)
| Throws            (* an uncaught TypeError; what was queued before is dropped *)
| OutOfFuel.        (* the loop was still running when the fuel ran out *)
Arguments Done {A} a.
Arguments Throws {A}.
Arguments OutOfFuel {A}.

(** [nextIndex] after the wraparound, from [siblings.length], whether the
    current message is the draft placeholder, the direction and
    [currentIndex]. *)
Definition swipeIndex (len : Z) (isGhost : bool) (direction : Direction)
    (currentIndex : Z) : Z :=
  let nextIndex := match direction with
                   | next => currentIndex + 1
                   | prev => currentIndex - 1
                   end in
  let nextIndex := match direction with
                   | prev => if isGhost then len - 1 else nextIndex
                   | next => nextIndex
                   end in
  let nextIndex := if nextIndex >=? len then 0 else nextIndex in
  if nextIndex <? 0 then len - 1 else nextIndex.

(** One turn of the descent loop: the child of [pointer] with the greatest
    timestamp, or [None] when [pointer] has no child. *)
Definition descend_step (msgs : list Message) (pointer : string) : option string :=
  match js_sort byTimestampDesc (List.filter (byParent (Some pointer)) msgs) with
  | child :: _ => Some (m_id child)
  | [] => None
  end.

(** The descent loop [while (hasChild)]: [None] when [fuel] turns were not
    enough. *)
Fixpoint descend (fuel : nat) (msgs : list Message) (pointer : string) : option string :=
  match fuel with
  | O => None
  | S fuel' =>
      match descend_step msgs pointer with
      | Some child => descend fuel' msgs child
      | None => Some pointer
      end
  end.

Definition handleSwipeBranch (fuel : nat) (currentMsgId : string)
    (direction : Direction) (s : AppState) : Outcome AppState :=
  let s := setSwipeDirection (match direction with prev => left | next => right end) s in
  let currentMsg := List.find (byId currentMsgId) (messages s) in
  let isGhost := currentMsgId ==? GHOST_ID in
  let effectiveParentId :=
    match currentMsg with
    | Some m => m_parentId m
    | None => if isGhost then Some (activeBranchHeadId s) else None
    end in
  if negb (truthy effectiveParentId) then Done s
  else
    let siblings := sortedChildren (messages s) effectiveParentId in
    let currentIndex :=
      if isGhost then js_length siblings
      else findIndex (byId currentMsgId) siblings in
    if currentIndex =? -1 then Done s
    else
      let nextIndex := swipeIndex (js_length siblings) isGhost direction currentIndex in
      match js_nth siblings nextIndex with
      | None => Throws                      (* [targetSibling.id] of [undefined] *)
      | Some targetSibling =>
          let s := if isGhost then setIsDraftingBranch false s else s in
          match descend fuel (messages s) (m_id targetSibling) with
          | Some pointer => Done (setActiveBranchHeadId pointer s)
          | None => OutOfFuel
          end
      end.

(* ================================================================== *)
(** * Topic classifier (src/services/gemini.ts) *)
(* ================================================================== *)

Inductive Backend := GEMINI | OLLAMA.

(** What a prompt is built from.  The fixed text of the two template
    literals is left out: a provider is any function of the interpolated
    values. *)
Inductive Prompt :=
| TopicShiftPrompt (currentTopic lastUserMessage lastModelMessage : string)
| InitialTitlePrompt (text : string).

(** A batch entry [{role, content}]. *)
Record Turn := { role : string; content : string }.

Definition quote : ascii := ascii_of_nat 34.
Definition newline : string := String (ascii_of_nat 10) "".

(** [s.replace(/^"|"$/g, '')] *)
Definition stripQuotes (s : string) : string :=
  let s := match s with
           | String c s' => if Ascii.eqb c quote then s' else s
           | EmptyString => s
           end in
  match String.rev s with
  | String c r => if Ascii.eqb c quote then String.rev r else s
  | EmptyString => s
  end.

(** [arr.filter(m => m.role === r).pop()?.content || ""] *)
Definition lastContentOf (r : string) (newMessages : list Turn) : string :=
  match last (List.filter (fun m => role m ==? r) newMessages) with
  | Some m => content m
  | None => ""
  end.

(** [arr.join(sep)] *)
Fixpoint join (sep : string) (l : list string) : string :=
  match l with
  | [] => ""
  | [x] => x
  | x :: l' => x +:+ sep +:+ join sep l'
  end.

Section Classifier.

(** The two providers: the text they answer with, or [None] for the
    [null] that [executeGeminiAnalysis] and [callOllamaAnalysis] return
    when the call fails, throws or yields nothing. *)
Variable executeGeminiAnalysis : Prompt -> option string.
Variable callOllamaAnalysis : Prompt -> option string.

Definition strategies (preferredBackend : Backend) : list (Prompt -> option string) :=
  match preferredBackend with
  | OLLAMA => [callOllamaAnalysis; executeGeminiAnalysis]
  | GEMINI => [executeGeminiAnalysis; callOllamaAnalysis]
  end.

(** The [for (const strategy of strategies)] loop: the first truthy
    result, handed to [k]; [fallback] when every strategy fails. *)
Fixpoint firstResult (prompt : Prompt) (k : string -> string) (fallback : string)
    (l : list (Prompt -> option string)) : string :=
  match l with
  | [] => fallback
  | strategy :: l' =>
      match strategy prompt with
      | Some result =>
          if negb (result ==? "") then k result
          else firstResult prompt k fallback l'
      | None => firstResult prompt k fallback l'
      end
  end.

Definition generateInitialTitle (msgs : list Turn) (preferredBackend : Backend) : string :=
  let text := slice0 500 (join newline (map content msgs)) in
  firstResult (InitialTitlePrompt text)
    (fun result => stripQuotes (js_trim result))
    "Conversation Start"
    (strategies preferredBackend).

Definition analyzeTopicShift (currentTopic : option string) (newMessages : list Turn)
    (preferredBackend : Backend) : string :=
  match currentTopic with
  | Some topic =>
      if topic ==? "" then generateInitialTitle newMessages preferredBackend
      else
        let lastUserMessage := lastContentOf "user" newMessages in
        let lastModelMessage := lastContentOf "model" newMessages in
        firstResult
          (TopicShiftPrompt topic (slice0 300 lastUserMessage) (slice0 300 lastModelMessage))
          (fun result =>
             let clean := stripQuotes (js_trim result) in
             if toLowerCase clean ==? toLowerCase topic then "SAME" else clean)
          "SAME"
          (strategies preferredBackend)
  | None => generateInitialTitle newMessages preferredBackend
  end.

(** Every configured provider fails on every prompt. *)
Definition allProvidersFail : Prop :=
  forall p, (executeGeminiAnalysis p = None \/ executeGeminiAnalysis p = Some "")
         /\ (callOllamaAnalysis p = None \/ callOllamaAnalysis p = Some "").

End Classifier.

(* ================================================================== *)
(** * Chapter segmenter (src/App.tsx) *)
(* ================================================================== *)

Definition determineCategory (title : string) : MessageCategory :=
  let t := toLowerCase title in
  if t ==? "same" then REFINEMENT
  else if includes t "brainstorm" || includes t "idea" then BRAINSTORM
  else if includes t "decision" || includes t "select" then DECISION
  else if includes t "refine" || includes t "fix" || includes t "edit"
          || includes t "improve" then REFINEMENT
  else if includes t "context" || includes t "analyze" || includes t "greeting"
          || includes t "start" then CONTEXT
  else TANGENT.

Definition IGNORED_WORDS : list string :=
  ["hey"; "hello"; "hi"; "ok"; "okay"; "thanks"; "thank you"; "yes"; "no";
   "sure"; "start"].

Definition extractSubtopics (msgs : list Message) : list string :=
  map (fun m =>
         if str_length (m_content m) >? 55
         then js_trim (slice0 55 (m_content m)) +:+ "..."
         else m_content m)
      (take 2
         (List.filter
            (fun m =>
               let content := js_trim (toLowerCase (m_content m)) in
               let isIgnored := existsb (String.eqb content) IGNORED_WORDS in
               Author_eqb (m_author m) USER && negb isIgnored
               && (str_length (m_content m) >? 1))
            msgs)).

(** [Array.from(new Set([...a, ...b])).slice(0, 12)] *)
Definition mergeSubtopics (a b : list string) : list string :=
  take 12 (uniq [] (a ++ b)).

(** The polyfilled [findLastIndex] loop. *)
Fixpoint findLastIndex {A} (p : A -> bool) (l : list A) : Z :=
  match l with
  | [] => -1
  | x :: l' =>
      let r := findLastIndex p l' in
      if r >=? 0 then r + 1 else if p x then 0 else -1
  end.

(** What the evaluation effect captures when it calls the classifier: the
    closure of the [then] callback. *)
Record Dispatch := {
  d_currentTopic : option string;
  d_contextBlock : list Turn;
  d_bufferMessages : list Message;
  d_validMessages : list Message;
  d_newMessagesCount : Z
}.

Definition notGhost (m : Message) : bool := negb (m_id m ==? GHOST_ID).

Definition toTurn (m : Message) : Turn :=
  {| role := if Author_eqb (m_author m) USER then "user" else "model";
     content := m_content m |}.

(** The evaluation effect, on the messages of [currentThread]: the new
    value of [lastAnalyzedIndexRef.current] and the classifier call it
    dispatches, if any. *)
Definition evaluateThread (thread : list Message) (streaming : bool)
    (chaps : list Chapter) (cursor : Z) : Z * option Dispatch :=
  if negb streaming && (js_length thread >? 0) then
    let validMessages := List.filter notGhost thread in
    let totalCount := js_length validMessages in
    let cursor := if cursor >? totalCount then Z.max 0 (totalCount - 1) else cursor in
    let newMessagesCount := totalCount - cursor in
    let isTurnComplete := newMessagesCount >=? 1 in
    let isStart := (js_length chaps =? 0) && (totalCount >=? 1) in
    if isStart || isTurnComplete then
      let bufferMessages := slice_from validMessages cursor in
      if js_length bufferMessages =? 0 then (cursor, None)
      else
        (totalCount,
         Some {| d_currentTopic := match last chaps with
                                   | Some c => Some (c_title c)
                                   | None => None
                                   end;
                 d_contextBlock := map toTurn bufferMessages;
                 d_bufferMessages := bufferMessages;
                 d_validMessages := validMessages;
                 d_newMessagesCount := newMessagesCount |})
    else (cursor, None)
  else (cursor, None).

Definition byStart (i : string) (c : Chapter) : bool := c_startMessageId c ==? i.

Definition inThread (validMessages : list Message) (c : Chapter) : bool :=
  existsb (byId (c_startMessageId c)) validMessages.

(** The chapter that path 3 of the fold-in appends. *)
Definition newChapter (d : Dispatch) (result : string) (now : Z) (startMsg : Message)
  : Chapter :=
  {| c_id := "chap-" +:+ string_of_Z now;
     c_title := if result ==? "SAME" then "Greeting" else result;
     c_category := determineCategory result;
     c_startMessageId := m_id startMsg;
     c_messageCount := if d_newMessagesCount d =? 0 then 1 else d_newMessagesCount d;
     c_subtopics := extractSubtopics (d_bufferMessages d) |}.

(** The chapter that paths 1 and 2 write back: [{...existing, title,
    messageCount, subtopics}]. *)
Definition extendChapter (d : Dispatch) (title : string) (existing : Chapter) : Chapter :=
  {| c_id := c_id existing;
     c_title := title;
     c_category := c_category existing;
     c_startMessageId := c_startMessageId existing;
     c_messageCount := c_messageCount existing + d_newMessagesCount d;
     c_subtopics := mergeSubtopics (c_subtopics existing)
                      (extractSubtopics (d_bufferMessages d)) |}.

(** The [setChapters] callback that folds a classification result in.
    [js_nth prev (-1)] is [None], which is how the two [!== -1] tests
    read here. *)
Definition foldIn (d : Dispatch) (result : string) (now : Z) (prev : list Chapter)
  : list Chapter :=
  match d_bufferMessages d with
  | [] => prev
  | startMsg :: _ =>
      let manualChapterIndex := findIndex (byStart (m_id startMsg)) prev in
      match js_nth prev manualChapterIndex with
      | Some existing =>
          <[ Z.to_nat manualChapterIndex :=
               extendChapter d (if result ==? "SAME" then c_title existing else result)
                 existing ]> prev
      | None =>
          let lastRelevantChapIndex :=
            if (result ==? "SAME") && (js_length prev >? 0)
            then findLastIndex (inThread (d_validMessages d)) prev
            else -1 in
          match js_nth prev lastRelevantChapIndex with
          | Some lastChap =>
              <[ Z.to_nat lastRelevantChapIndex :=
                   extendChapter d (c_title lastChap) lastChap ]> prev
          | None => prev ++ [newChapter d result now startMsg]
          end
      end
  end.

(** The branch-switch effect that relocates the cursor. *)
Definition relocateCursor (thread : list Message) (streaming : bool)
    (chaps : list Chapter) (cursor : Z) : Z :=
  let relevantChapters := List.filter (inThread thread) chaps in
  match last relevantChapters with
  | Some lastChap =>
      let startIndex := findIndex (byId (c_startMessageId lastChap)) thread in
      if negb (startIndex =? -1) then
        let safeIndex := Z.min (js_length thread) (startIndex + c_messageCount lastChap) in
        if (cursor <? safeIndex) || (cursor >? js_length thread) then safeIndex
        else cursor
      else cursor
  | None =>
      if negb streaming && (js_length thread <? cursor) then 0 else cursor
  end.

(* ================================================================== *)
(** * Graph layout engine (src/components/CanvasView.tsx) *)
(* ================================================================== *)

Definition X_SPACING : Z := 340.
Definition Y_SPACING : Z := 190.

(** A grouped node.  The fields that only feed the rendering of a card
    ([preview], [hasCode], [hasList], [language]) are left out: neither the
    grouping nor the layout reads them. *)
Record GroupedNode := {
  g_id : string;
  g_startMessageId : string;
  g_messages : list Message;
  g_childrenIds : list string;
  g_x : Z;
  g_y : Q;
  g_depth : Z;
  g_title : string;
  g_timestamp : Z;
  g_internalChapters : list Chapter;
  g_isRoot : bool
}.

Definition set_y (g : GroupedNode) (y : Q) : GroupedNode :=
  {| g_id := g_id g; g_startMessageId := g_startMessageId g;
     g_messages := g_messages g; g_childrenIds := g_childrenIds g;
     g_x := g_x g; g_y := y; g_depth := g_depth g; g_title := g_title g;
     g_timestamp := g_timestamp g; g_internalChapters := g_internalChapters g;
     g_isRoot := g_isRoot g |}.

(** ** [groupMessages] *)

(** The three things the first [forEach] of [groupMessages] builds. *)
Record MessageIndex := {
  childrenMap : gmap string (list string);
  messageMap : gmap string Message;
  rootId : option string
}.

Definition indexStep (ix : MessageIndex) (m : Message) : MessageIndex :=
  let mm := <[ m_id m := m ]> (messageMap ix) in
  match m_parentId m with
  | Some p =>
      if negb (p ==? "") then
        {| childrenMap := <[ p := default [] (childrenMap ix !! p) ++ [m_id m] ]> (childrenMap ix);
           messageMap := mm; rootId := rootId ix |}
      else {| childrenMap := childrenMap ix; messageMap := mm; rootId := Some (m_id m) |}
  | None => {| childrenMap := childrenMap ix; messageMap := mm; rootId := Some (m_id m) |}
  end.

Definition indexMessages (allMessages : list Message) : MessageIndex :=
  foldl indexStep {| childrenMap := ∅; messageMap := ∅; rootId := None |} allMessages.

(** [childrenMap.get(id) || []] *)
Definition childrenOf (ix : MessageIndex) (i : string) : list string :=
  default [] (childrenMap ix !! i).

(** The [while (currId)] loop of [buildGroup]: the run of messages from
    [currId] on, and the visited set after it. *)
Fixpoint collectGroup (fuel : nat) (ix : MessageIndex) (currId : option string)
    (visited : gset string) (acc : list Message)
  : option (list Message * gset string) :=
  match fuel with
  | O => None
  | S fuel' =>
      match currId with
      | None => Some (acc, visited)
      | Some c =>
          if c ==? "" then Some (acc, visited)
          else if bool_decide (c ∈ visited) then Some (acc, visited)
          else
            match messageMap ix !! c with
            | None => Some (acc, visited)
            | Some msg =>
                let visited := {[ c ]} ∪ visited in
                let acc := acc ++ [msg] in
                match childrenOf ix c with
                | [only] => collectGroup fuel' ix (Some only) visited acc
                | _ => Some (acc, visited)
                end
            end
      end
  end.

Definition groupTitle (isRootNode : bool) (internalChapters : list Chapter)
    (currentGroupMessages : list Message) : string :=
  if isRootNode then "Start"
  else
    match last internalChapters with
    | Some mainChapter => c_title mainChapter
    | None =>
        match List.find (fun m => Author_eqb (m_author m) USER) currentGroupMessages with
        | Some firstUserMsg =>
            let raw := m_content firstUserMsg in
            slice0 35 raw +:+ (if str_length raw >? 35 then "..." else "")
        | None => "System"
        end
    end.

(** The node that [buildGroup] pushes, with the [childrenIds] that the
    [forEach] over the tail's children then adds to it. *)
Definition mkGroup (ix : MessageIndex) (chaps : list Chapter) (startMsgId : string)
    (depth : Z) (currentGroupMessages : list Message) (firstMsg tailMsg : Message)
    (childrenIds : list string) : GroupedNode :=
  let isRootNode := opt_eqb (Some (m_id firstMsg)) (rootId ix) in
  let internalChapters :=
    List.filter (fun c => existsb (byId (c_startMessageId c)) currentGroupMessages) chaps in
  {| g_id := m_id tailMsg;
     g_startMessageId := startMsgId;
     g_messages := currentGroupMessages;
     g_childrenIds := childrenIds;
     g_x := depth * X_SPACING + 50;
     g_y := 0%Q;
     g_depth := depth;
     g_title := groupTitle isRootNode internalChapters currentGroupMessages;
     g_timestamp := m_timestamp tailMsg;
     g_internalChapters := internalChapters;
     g_isRoot := isRootNode |}.

(** What a call of [buildGroup] leaves behind: the id it returns, the groups
    it pushed (its own first, then those of its children, in order) and the
    visited set. *)
Definition Built : Type := option string * list GroupedNode * gset string.

(** [tailChildren.forEach(childId => ...)], over any [build]. *)
Fixpoint buildChildren (build : string -> gset string -> option Built)
    (tailChildren : list string) (visited : gset string)
  : option (list string * list GroupedNode * gset string) :=
  match tailChildren with
  | [] => Some ([], [], visited)
  | childId :: rest =>
      match build childId visited with
      | None => None
      | Some (childGroupId, groups1, visited) =>
          match buildChildren build rest visited with
          | None => None
          | Some (ids, groups2, visited) =>
              Some ((if truthy childGroupId
                     then default "" childGroupId :: ids else ids),
                    groups1 ++ groups2, visited)
          end
      end
  end.

Fixpoint buildGroup (fuel : nat) (ix : MessageIndex) (chaps : list Chapter)
    (startMsgId : string) (depth : Z) (visited : gset string) : option Built :=
  match fuel with
  | O => None
  | S fuel' =>
      if bool_decide (startMsgId ∈ visited) then Some (None, [], visited)
      else
        match collectGroup fuel ix (Some startMsgId) visited [] with
        | None => None
        | Some (currentGroupMessages, visited) =>
            match head currentGroupMessages, last currentGroupMessages with
            | Some firstMsg, Some tailMsg =>
                match buildChildren
                        (fun childId v => buildGroup fuel' ix chaps childId (depth + 1) v)
                        (childrenOf ix (m_id tailMsg)) visited with
                | None => None
                | Some (childrenIds, groups, visited) =>
                    Some (Some (m_id tailMsg),
                          mkGroup ix chaps startMsgId depth currentGroupMessages
                            firstMsg tailMsg childrenIds :: groups,
                          visited)
                end
            | _, _ => Some (None, [], visited)
            end
        end
  end.

(** [groupMessages] with a given fuel for [buildGroup]. *)
Definition groupMessagesFuel (fuel : nat) (allMessages : list Message)
    (chaps : list Chapter) : option (list GroupedNode) :=
  match allMessages with
  | [] => Some []
  | _ =>
      let ix := indexMessages allMessages in
      if truthy (rootId ix) then
        match buildGroup fuel ix chaps (default "" (rootId ix)) 0 ∅ with
        | Some (_, groups, _) => Some groups
        | None => None
        end
      else Some []
  end.

Definition groupMessages (allMessages : list Message) (chaps : list Chapter)
  : option (list GroupedNode) :=
  groupMessagesFuel (S (length allMessages)) allMessages chaps.

(** ** [calculateGroupLayout] *)

(** A node object: its place in the [groups] array, which is its identity,
    and the fields the layout only reads.  The one field the layout writes,
    [y], lives in a list indexed by place. *)
Definition NodeRef : Type := nat * GroupedNode.

(** [groups.forEach(g => groupMap.set(g.id, g))], from place [i] on. *)
Fixpoint groupMapFrom (i : nat) (groups : list GroupedNode) (m : gmap string NodeRef)
  : gmap string NodeRef :=
  match groups with
  | [] => m
  | g :: rest => groupMapFrom (S i) rest (<[ g_id g := (i, g) ]> m)
  end.

Definition groupMapOf (groups : list GroupedNode) : gmap string NodeRef :=
  groupMapFrom 0 groups ∅.

Definition getGroupChildren (groupMap : gmap string NodeRef) (g : GroupedNode)
  : list NodeRef :=
  omap (fun i => groupMap !! i) (g_childrenIds g).

(** The mutable part of the layout: every node's current [y], and
    [processedNodes]. *)
Definition LayoutState : Type := list Q * gset string.

Definition yOf (ys : list Q) (n : NodeRef) : Q := default 0%Q (ys !! n.1).

(** [children.forEach(child => ...)] of [assignY], over any [assign]: the
    total height and the state after it. *)
Fixpoint layoutChildren (assign : NodeRef -> Q -> LayoutState -> option (Z * LayoutState))
    (children : list NodeRef) (currentY : Q) (totalHeight : Z) (st : LayoutState)
  : option (Z * LayoutState) :=
  match children with
  | [] => Some (totalHeight, st)
  | child :: rest =>
      match assign child currentY st with
      | None => None
      | Some (childHeight, st) =>
          layoutChildren assign rest
            (currentY + inject_Z (childHeight * Y_SPACING))%Q
            (totalHeight + childHeight) st
      end
  end.

Fixpoint assignY (fuel : nat) (groupMap : gmap string NodeRef) (node : NodeRef)
    (startY : Q) (st : LayoutState) : option (Z * LayoutState) :=
  match fuel with
  | O => None
  | S fuel' =>
      let '(ys, processedNodes) := st in
      if bool_decide (g_id node.2 ∈ processedNodes) then Some (1, st)
      else
        let processedNodes := {[ g_id node.2 ]} ∪ processedNodes in
        let children := getGroupChildren groupMap node.2 in
        match head children, last children with
        | Some firstChild, Some lastChild =>
            match layoutChildren (assignY fuel' groupMap) children startY 0
                    (ys, processedNodes) with
            | None => None
            | Some (totalHeight, (ys, processedNodes)) =>
                let firstChildY := yOf ys firstChild in
                let lastChildY := yOf ys lastChild in
                Some (totalHeight,
                      (<[ node.1 := ((firstChildY + lastChildY) / 2)%Q ]> ys,
                       processedNodes))
            end
        | _, _ => Some (1, (<[ node.1 := startY ]> ys, processedNodes))
        end
  end.

(** [roots.forEach(root => ...)] *)
Fixpoint layoutRoots (fuel : nat) (groupMap : gmap string NodeRef)
    (roots : list NodeRef) (currentRootY : Q) (st : LayoutState)
  : option LayoutState :=
  match roots with
  | [] => Some st
  | root :: rest =>
      match assignY fuel groupMap root currentRootY st with
      | None => None
      | Some (height, st) =>
          layoutRoots fuel groupMap rest
            (currentRootY + inject_Z (height * Y_SPACING))%Q st
      end
  end.

Definition nodeRefs (groups : list GroupedNode) : list NodeRef :=
  imap (fun i g => (i, g)) groups.

(** [calculateGroupLayout] with a given fuel for [assignY]. *)
Definition calculateGroupLayoutFuel (fuel : nat) (groups : list GroupedNode)
  : option (list GroupedNode) :=
  if js_length groups =? 0 then Some []
  else
    let groupMap := groupMapOf groups in
    let roots := List.filter (fun n : NodeRef => g_depth n.2 =? 0) (nodeRefs groups) in
    match layoutRoots fuel groupMap roots 100%Q (map g_y groups, ∅) with
    | Some (ys, _) => Some (zip_with set_y groups ys)
    | None => None
    end.

Definition calculateGroupLayout (groups : list GroupedNode) : option (list GroupedNode) :=
  calculateGroupLayoutFuel (S (length groups)) groups.

(** ** The layout as the specification words it, on a tree of groups *)

(** A group with the trees of its child groups. *)
#[local] Unset Elimination Schemes.
Inductive GTree := GNode (g : GroupedNode) (children : list GTree).
#[local] Set Elimination Schemes.

Definition rootNode (t : GTree) : GroupedNode :=
  match t with GNode g _ => g end.

Definition treeId (t : GTree) : string := g_id (rootNode t).

(** The array that [groupMessages] builds for a tree: every group before
    the groups of its children, the children in order. *)
Fixpoint flatten (t : GTree) : list GroupedNode :=
  match t with
  | GNode g cs => g :: flat_map flatten cs
  end.

Definition flattenF (cs : list GTree) : list GroupedNode := flat_map flatten cs.

(** The tree is the one its groups describe: each group sits at its depth
    and names the roots of its child trees, in order. *)
Fixpoint wfTree (depth : Z) (t : GTree) : Prop :=
  match t with
  | GNode g cs =>
      g_depth g = depth
      /\ g_childrenIds g = map treeId cs
      /\ (fix all (l : list GTree) : Prop :=
            match l with
            | [] => True
            | c :: l' => wfTree (depth + 1) c /\ all l'
            end) cs
  end.

(** The layout in the words of the specification: a leaf group gets
    [y = startY] and a subtree height of 1; a group with children lays each
    child out in sequence, each starting where the subtree of the one before
    ended, centres itself midway between the [y] of its first and of its
    last child, and returns the summed height. *)
Fixpoint layoutTree (t : GTree) (startY : Q) : GTree * Z :=
  match t with
  | GNode g cs =>
      let '(cs', total) :=
        (fix each (l : list GTree) (currentY : Q) : list GTree * Z :=
           match l with
           | [] => ([], 0)
           | c :: l' =>
               let '(c', h) := layoutTree c currentY in
               let '(l'', hs) := each l' (currentY + inject_Z (h * Y_SPACING))%Q in
               (c' :: l'', h + hs)
           end) cs startY in
      match head cs', last cs' with
      | Some firstChild, Some lastChild =>
          (GNode (set_y g ((g_y (rootNode firstChild) + g_y (rootNode lastChild)) / 2)%Q)
             cs', total)
      | _, _ => (GNode (set_y g startY) [], 1)
      end
  end.

Fixpoint layoutForest (l : list GTree) (currentY : Q) : list GTree * Z :=
  match l with
  | [] => ([], 0)
  | c :: l' =>
      let '(c', h) := layoutTree c currentY in
      let '(l'', hs) := layoutForest l' (currentY + inject_Z (h * Y_SPACING))%Q in
      (c' :: l'', h + hs)
  end.

(** Where the children of a group sit in the array, when the first of
    their trees starts at place [off]. *)
Fixpoint childRefs (off : nat) (cs : list GTree) : list NodeRef :=
  match cs with
  | [] => []
  | c :: cs' => (off, rootNode c) :: childRefs (off + length (flatten c)) cs'
  end.

(** The run [l] of groups sits in the array [groups] from place [off] on. *)
Definition locatedAt (groups : list GroupedNode) (off : nat) (l : list GroupedNode) : Prop :=
  exists pre post, groups = pre ++ l ++ post /\ length pre = off.

(** [g'] is [g] with another [y]. *)
Definition movedTo (g g' : GroupedNode) : Prop := g' = set_y g (g_y g').

(** The keys of [messageMap] are the ids of the messages it holds. *)
Definition keyedById (ix : MessageIndex) : Prop :=
  forall k m, messageMap ix !! k = Some m -> m_id m = k.

(** How many indexed messages [buildGroup] has not visited yet. *)
Definition unvisited (ix : MessageIndex) (visited : gset string) : nat :=
  size (dom (messageMap ix) ∖ visited).

(** [x = depth * X_SPACING + offset], the offset being 50. *)
Definition xByDepth (g : GroupedNode) : Prop := g_x g = g_depth g * X_SPACING + 50.

(** What a call of [buildGroup] at [depth] from [visited] leaves behind when
    it is well behaved: it only adds to the visited set, the ids of its
    groups are distinct and newly visited, and the groups are the array of
    a well-formed tree whose root has the returned id (or there is none). *)
Definition builtOk (depth : Z) (visited : gset string) (r : Built) : Prop :=
  let '(res, groups, visited') := r in
  visited ⊆ visited'
  /\ (forall g, In g groups -> g_id g ∈ visited' /\ g_id g ∉ visited)
  /\ List.NoDup (map g_id groups)
  /\ Forall xByDepth groups
  /\ match res with
     | None => groups = []
     | Some i => i <> "" /\ exists t, groups = flatten t /\ treeId t = i /\ wfTree depth t
     end.

(* ================================================================== *)
(** * Fixtures: the handcrafted trees of the specification's tests *)
(* ================================================================== *)

Definition mk (i : string) (p : option string) (a : Author) (t : Z) : Message :=
  {| m_id := i; m_parentId := p; m_author := a; m_content := "";
     m_timestamp := t; m_category := None; m_branchId := None |}.

Definition msgC : Message := mk "C" (Some "B") USER 10.
Definition msgD : Message := mk "D" (Some "B") USER 20.
Definition msgE : Message := mk "E" (Some "C") ASSISTANT 30.
Definition msgF : Message := mk "F" (Some "C") ASSISTANT 40.

(** root -> A -> B, and B has the children C (t=10) and D (t=20). *)
Definition forkTree (t0 tA tB : Z) : list Message :=
  [ ROOT_MESSAGE t0; mk "A" (Some "root") USER tA; mk "B" (Some "A") ASSISTANT tB;
    msgC; msgD ].

(** The same tree, where C has the children E (t=30) and F (t=40). *)
Definition deepTree (t0 tA tB : Z) : list Message :=
  forkTree t0 tA tB ++ [ msgE; msgF ].

(** Two messages that name each other as parent. *)
Definition cycleStore : list Message :=
  [ mk "P" (Some "Q") USER 1; mk "Q" (Some "P") ASSISTANT 2 ].

(** ** Shape of the store *)

(** [c] is the id of a stored message whose parent is [p]. *)
Definition childEdge (msgs : list Message) (p c : string) : Prop :=
  exists m, In m msgs /\ m_parentId m = Some p /\ m_id m = c.

(** The parent links of the store have no cycle: no id is its own
    descendant. *)
Definition acyclic (msgs : list Message) : Prop :=
  forall x, ~ tc (childEdge msgs) x x.

(** A walk along child edges: [p -> c1 -> c2 -> ...]. *)
Fixpoint chain (msgs : list Message) (p : string) (l : list string) : Prop :=
  match l with
  | [] => True
  | c :: l' => childEdge msgs p c /\ chain msgs c l'
  end.


Definition stateOf (msgs : list Message) (head : string) (drafting : bool) : AppState :=
  {| messages := msgs; activeBranchHeadId := head; inputText := "";
     isStreaming := false; showCanvasTip := false; chapters := [];
     isDraftingBranch := drafting; swipeDirection := right;
     lastAnalyzedIndex := 0 |}.

Definition catsThread : list Message :=
  [ {| m_id := "m2"; m_parentId := Some "r1"; m_author := USER;
       m_content := "How long do they live"; m_timestamp := 5;
       m_category := None; m_branchId := None |};
    {| m_id := "r2"; m_parentId := Some "m2"; m_author := ASSISTANT;
       m_content := "Around fifteen years"; m_timestamp := 6;
       m_category := None; m_branchId := None |} ].

(** The groups of the fork tree: the run root-A-B, and the leaves C and D. *)
Definition groupOf (i : string) (kids : list string) (depth : Z) : GroupedNode :=
  {| g_id := i; g_startMessageId := i; g_messages := []; g_childrenIds := kids;
     g_x := depth * X_SPACING + 50; g_y := 0%Q; g_depth := depth; g_title := "";
     g_timestamp := 0; g_internalChapters := []; g_isRoot := depth =? 0 |}.

Definition forkGroups : GTree :=
  GNode (groupOf "B" ["C"; "D"] 0)
    [ GNode (groupOf "C" [] 1) []; GNode (groupOf "D" [] 1) [] ].



(** The first exchange of a thread, and its second. *)
Definition hiThread : list Message :=
  [ {| m_id := "m1"; m_parentId := Some "root"; m_author := USER;
       m_content := "Tell me about cats"; m_timestamp := 3;
       m_category := None; m_branchId := None |};
    {| m_id := "r1"; m_parentId := Some "m1"; m_author := ASSISTANT;
       m_content := "Cats are mammals"; m_timestamp := 4;
       m_category := None; m_branchId := None |} ].

(* ================================================================== *)
(** * Response streaming (src/services/gemini.ts) *)
(* ================================================================== *)

(** ** [streamMockResponse] *)

(** The loop of [streamMockResponse] from index [i]: [len] is
    [chars.length], [rest] the characters from [i] on, [accumulated] the text
    read so far.  The result is the arguments of the calls of [onChunk]. *)
Fixpoint mockLoop (len i : nat) (rest : list ascii) (accumulated : string) : list string :=
  match rest with
  | [] => []
  | c :: rest' =>
      let accumulated := accumulated +:+ String c "" in
      if Nat.eqb (i mod 3) 0 || Nat.eqb i (len - 1)
      then accumulated :: mockLoop len (S i) rest' accumulated
      else mockLoop len (S i) rest' accumulated
  end.

(** [streamMockResponse] on the response that [Math.random] picked. *)
Definition streamMockResponse (response : string) : list string :=
  let chars := list_ascii_of_string response in
  mockLoop (length chars) 0 chars "".

(** The [onChunk] callback of [handleSendMessage] over the chunks of a
    stream: [fullResponse += chunk], then the update of the store. *)
Fixpoint receiveChunks (responseId fullResponse : string) (chunks : list string)
    (s : AppState) : string * AppState :=
  match chunks with
  | [] => (fullResponse, s)
  | chunk :: rest =>
      let fullResponse := fullResponse +:+ chunk in
      receiveChunks responseId fullResponse rest (streamChunk responseId fullResponse s)
  end.

(** ** [getOllamaModel] *)

Definition OLLAMA_PREFERENCES : list string :=
  ["llama3"; "llama3.1"; "mistral"; "gemma"; "llama2"].

(** The loop over the preferences: the first installed model whose name
    includes the first preference that some model's name includes. *)
Fixpoint preferredModel (preferences : list string) (models : list string) : option string :=
  match preferences with
  | [] => None
  | pref :: rest =>
      match List.find (fun name => includes name pref) models with
      | Some found => Some found
      | None => preferredModel rest models
      end
  end.

(** [getOllamaModel] over a given list of preferences: [cached] is
    [cachedOllamaModel], [tags] the names that [/api/tags] lists, or [None]
    when the request fails.  The result is the model and the cache after the
    call. *)
Definition getOllamaModelWith (preferences : list string) (cached : option string)
    (tags : option (list string)) : string * option string :=
  let detect :=
    match tags with
    | None => ("llama3", cached)
    | Some [] => ("llama3", cached)
    | Some (first :: others) =>
        match preferredModel preferences (first :: others) with
        | Some found => (found, Some found)
        | None => (first, Some first)
        end
    end in
  match cached with
  | Some c => if negb (c ==? "") then (c, cached) else detect
  | None => detect
  end.

Definition getOllamaModel (cached : option string) (tags : option (list string))
  : string * option string :=
  getOllamaModelWith OLLAMA_PREFERENCES cached tags.

(** ** [executeGeminiStream] *)

(** How the attempt on one model ends: the stream completes, or an error is
    thrown that the handler reads as a rate limit, as a missing model, or as
    neither. *)
Inductive AttemptEnd := Completes | RateLimit | NotFound | OtherError.

(** One attempt: the texts of the chunks that arrive before it ends. *)
Record Attempt := { a_texts : list string; a_end : AttemptEnd }.

Definition GEMINI_MODELS : list string :=
  ["gemini-flash-lite-latest"; "gemini-2.5-flash"; "gemini-3-pro-preview"].

Definition modelsToTry (modelIdOverride : option string) : list string :=
  match modelIdOverride with
  | Some o =>
      if negb (o ==? "") then o :: List.filter (fun id => negb (id ==? o)) GEMINI_MODELS
      else GEMINI_MODELS
  | None => GEMINI_MODELS
  end.

(** [if (chunk.text) onChunk(chunk.text)] over the chunks of an attempt. *)
Definition emitted (a : Attempt) : list string :=
  List.filter (fun text => negb (text ==? "")) (a_texts a).

(** What a run of [executeGeminiStream] does: its result, the chunks it
    hands to [onChunk], the models it tries, and whether it calls
    [handleRateLimit]. *)
Record GeminiRun := {
  g_success : bool;
  g_chunks : list string;
  g_tried : list string;
  g_tripped : bool
}.

(** The loop [for (const model of modelsToTry)]. *)
Fixpoint tryModels (gemini : string -> Attempt) (models : list string) : GeminiRun :=
  match models with
  | [] => {| g_success := false; g_chunks := []; g_tried := []; g_tripped := true |}
  | model :: rest =>
      let a := gemini model in
      match a_end a with
      | Completes =>
          {| g_success := true; g_chunks := emitted a; g_tried := [model];
             g_tripped := false |}
      | OtherError =>
          {| g_success := false; g_chunks := emitted a; g_tried := [model];
             g_tripped := false |}
      | RateLimit | NotFound =>
          let r := tryModels gemini rest in
          {| g_success := g_success r; g_chunks := emitted a ++ g_chunks r;
             g_tried := model :: g_tried r; g_tripped := g_tripped r |}
      end
  end.

Definition executeGeminiStream (apiKey : string) (isGlobalRateLimited : bool)
    (gemini : string -> Attempt) (modelIdOverride : option string) : GeminiRun :=
  if (apiKey ==? "") || isGlobalRateLimited
  then {| g_success := false; g_chunks := []; g_tried := []; g_tripped := false |}
  else tryModels gemini (modelsToTry modelIdOverride).

(** ** [streamResponse] *)

Inductive BackendType := LIVE (b : Backend) | SIMULATION.

(** A run of [streamResponse]: the backend it reports, if any, and the
    chunks it hands to [onChunk]. *)
Record StreamRun := { r_backend : BackendType; r_chunks : list string }.

(** [streamResponse]: [gemini] is the run of [executeGeminiStream], [ollama]
    the attempt of [streamOllamaResponse] (which completes or throws),
    [mock] the response that the simulation picks. *)
Definition streamResponse (preferredBackend : Backend) (gemini : GeminiRun)
    (ollama : Attempt) (mock : string) : StreamRun :=
  let ollamaOk := match a_end ollama with Completes => true | _ => false end in
  match preferredBackend with
  | GEMINI =>
      if g_success gemini
      then {| r_backend := LIVE GEMINI; r_chunks := g_chunks gemini |}
      else if ollamaOk
      then {| r_backend := LIVE OLLAMA; r_chunks := g_chunks gemini ++ emitted ollama |}
      else {| r_backend := SIMULATION;
              r_chunks := g_chunks gemini ++ emitted ollama ++ streamMockResponse mock |}
  | OLLAMA =>
      if ollamaOk
      then {| r_backend := LIVE OLLAMA; r_chunks := emitted ollama |}
      else if g_success gemini
      then {| r_backend := LIVE GEMINI; r_chunks := emitted ollama ++ g_chunks gemini |}
      else {| r_backend := SIMULATION;
              r_chunks := emitted ollama ++ g_chunks gemini ++ streamMockResponse mock |}
  end.

(* ================================================================== *)
(** * Further operations of src/App.tsx *)
(* ================================================================== *)

(** ** [findBestBranchHead] and [handleNavigate] *)

(** [parentIds.has(m.id)] negated: no stored message names [m] as its
    (truthy) parent. *)
Definition isLeaf (msgs : list Message) (m : Message) : bool :=
  negb (existsb (fun x => truthy (m_parentId x)
                          && opt_eqb (m_parentId x) (Some (m_id m))) msgs).

(** The ancestor test of [findBestBranchHead]: the loop
    [while (curr && safety < 1000)], with [safety] turns left. *)
Fixpoint passesThrough (safety : nat) (msgs : list Message) (targetMsgId : string)
    (curr : option string) : bool :=
  match safety with
  | O => false
  | S safety' =>
      match curr with
      | None => false
      | Some c =>
          if c ==? "" then false
          else if c ==? targetMsgId then true
          else passesThrough safety' msgs targetMsgId
                 (match List.find (byId c) msgs with
                  | Some msg => m_parentId msg
                  | None => None
                  end)
      end
  end.

Definition ANCESTOR_SAFETY : nat := Z.to_nat 1000.

(** The leaves whose ancestor chain passes through the target. *)
Definition descendantLeaves (msgs : list Message) (targetMsgId : string) : list Message :=
  List.filter (fun leaf => passesThrough ANCESTOR_SAFETY msgs targetMsgId (Some (m_id leaf)))
    (List.filter (isLeaf msgs) msgs).

(** [findBestBranchHead]; the fuel bounds its recursion on the root. *)
Fixpoint findBestBranchHead (fuel : nat) (msgs : list Message) (targetMsgId : string)
  : option string :=
  match fuel with
  | O => None
  | S fuel' =>
      if targetMsgId ==? ROOT_ID then
        match List.filter (byParent (Some ROOT_ID)) msgs with
        | child :: _ => findBestBranchHead fuel' msgs (m_id child)
        | [] => Some ROOT_ID
        end
      else
        match js_sort byTimestampDesc (descendantLeaves msgs targetMsgId) with
        | best :: _ => Some (m_id best)
        | [] => Some targetMsgId
        end
  end.

(** [handleNavigate], as far as the state goes. *)
Definition handleNavigate (fuel : nat) (clock : nat -> Z) (msgId : string) (s : AppState)
  : Outcome AppState :=
  match findBestBranchHead fuel (messages s) msgId with
  | None => OutOfFuel
  | Some newHead =>
      let thread := currentThread (messages s) (activeBranchHeadId s)
                      (isDraftingBranch s) clock in
      let s1 := setActiveBranchHeadId newHead (setIsDraftingBranch false s) in
      Done (if existsb (fun t => m_id (tm_msg t) ==? msgId) thread then s1
            else setLastAnalyzedIndex 0 s1)
  end.

(** ** [handleUpdateNodeTitle] and [handleResetChat] *)

(** [msg?.timestamp || 0] of the message a chapter starts at. *)
Definition startTimestamp (msgs : list Message) (c : Chapter) : Z :=
  match List.find (byId (c_startMessageId c)) msgs with
  | Some m => m_timestamp m
  | None => 0
  end.

Definition retitle (newTitle : string) (c : Chapter) : Chapter :=
  {| c_id := c_id c; c_title := newTitle; c_category := c_category c;
     c_startMessageId := c_startMessageId c; c_messageCount := c_messageCount c;
     c_subtopics := c_subtopics c |}.

Definition manualChapter (now : Z) (startMessageId newTitle : string) : Chapter :=
  {| c_id := "chap-manual-" +:+ string_of_Z now; c_title := newTitle;
     c_category := REFINEMENT; c_startMessageId := startMessageId;
     c_messageCount := 1; c_subtopics := [] |}.

(** The [setChapters] callback of [handleUpdateNodeTitle]. *)
Definition updateNodeTitle (now : Z) (msgs : list Message)
    (startMessageId newTitle : string) (prev : list Chapter) : list Chapter :=
  match List.find (byStart startMessageId) prev with
  | Some existing =>
      map (fun c => if c_id c ==? c_id existing then retitle newTitle c else c) prev
  | None =>
      js_sort (fun a b => startTimestamp msgs a - startTimestamp msgs b)
        (prev ++ [manualChapter now startMessageId newTitle])
  end.

Definition handleUpdateNodeTitle (now : Z) (startMessageId newTitle : string)
    (s : AppState) : AppState :=
  setChapters (updateNodeTitle now (messages s) startMessageId newTitle) s.

(** [handleResetChat]; [t0] is the timestamp of the root. *)
Definition handleResetChat (t0 : Z) (s : AppState) : AppState :=
  setIsDraftingBranch false
    (setShowCanvasTip false
       (setActiveBranchHeadId ROOT_ID
          (setLastAnalyzedIndex 0
             (setChapters (fun _ => [])
                (setMessages (fun _ => INITIAL_MESSAGES t0) s))))).

(** ** The two messages that [handleSendMessage] stores *)

Definition newMessage (clock : nat -> Z) (s : AppState) : Message :=
  {| m_id := "msg-" +:+ string_of_Z (clock 0%nat);
     m_parentId := Some (activeBranchHeadId s); m_author := USER;
     m_content := inputText s; m_timestamp := clock 1%nat;
     m_category := Some REFINEMENT;
     m_branchId := if isDraftingBranch s
                   then Some ("b-" +:+ string_of_Z (clock 2%nat)) else None |}.

Definition responsePlaceholder (clock : nat -> Z) : Message :=
  {| m_id := "resp-" +:+ string_of_Z (clock 4%nat);
     m_parentId := Some ("msg-" +:+ string_of_Z (clock 0%nat));
     m_author := ASSISTANT; m_content := ""; m_timestamp := clock 5%nat + 1;
     m_category := None; m_branchId := None |}.

(** The guard of [handleSendMessage]. *)
Definition sendRefused (s : AppState) : bool :=
  (js_trim (inputText s) ==? "") || isStreaming s.

(** ** The store as a forest, and the states the handlers reach *)

(** The ids of the store are distinct, and the parent of every message, if
    it has one, is the id of a message stored before it. *)
Definition forest (msgs : list Message) : Prop :=
  List.NoDup (map m_id msgs)
  /\ forall (k : nat) m p,
       msgs !! k = Some m -> m_parentId m = Some p ->
       exists (j : nat) a, (j < k)%nat /\ msgs !! j = Some a /\ m_id a = p.

(** A check of [forest] that runs: [seen] holds the ids met so far. *)
Fixpoint parentsFirst (seen : list string) (msgs : list Message) : bool :=
  match msgs with
  | [] => true
  | m :: rest =>
      negb (existsb (String.eqb (m_id m)) seen)
      && match m_parentId m with
         | Some p => existsb (String.eqb p) seen
         | None => true
         end
      && parentsFirst (m_id m :: seen) rest
  end.

(** A state whose store is a forest and whose head is stored. *)
Definition wellFormed (s : AppState) : Prop :=
  forest (messages s) /\ In (activeBranchHeadId s) (map m_id (messages s)).

(** The ids that [handleSendMessage] would create are not in the store. *)
Definition freshIds (clock : nat -> Z) (s : AppState) : Prop :=
  ~ In ("msg-" +:+ string_of_Z (clock O)) (map m_id (messages s))
  /\ ~ In ("resp-" +:+ string_of_Z (clock 4%nat)) (map m_id (messages s)).

(** The states that the handlers reach from a new chat: by typing, sending
    (with ids that are new), streaming, branching from and navigating to
    stored messages, swiping, renaming and resetting.  The effects of the
    segmenter write the chapters and the cursor only; every such write is
    let in. *)
Inductive Reachable : AppState -> Prop :=
| ReachInit t0 : Reachable (initialState t0)
| ReachInput text s : Reachable s -> Reachable (setInputText text s)
| ReachSend clock s :
    Reachable s -> freshIds clock s -> Reachable (handleSendMessage clock s)
| ReachChunk responseId fullResponse s :
    Reachable s -> Reachable (streamChunk responseId fullResponse s)
| ReachStreamEnd s : Reachable s -> Reachable (streamEnd s)
| ReachBranch fromMessageId s :
    Reachable s -> In fromMessageId (map m_id (messages s)) ->
    Reachable (handleBranch fromMessageId s)
| ReachSwipe fuel cur dir s s' :
    Reachable s -> handleSwipeBranch fuel cur dir s = Done s' -> Reachable s'
| ReachNavigate fuel clock msgId s s' :
    Reachable s -> In msgId (map m_id (messages s)) ->
    handleNavigate fuel clock msgId s = Done s' -> Reachable s'
| ReachRename now startMessageId newTitle s :
    Reachable s -> Reachable (handleUpdateNodeTitle now startMessageId newTitle s)
| ReachChapters f s : Reachable s -> Reachable (setChapters f s)
| ReachCursor n s : Reachable s -> Reachable (setLastAnalyzedIndex n s)
| ReachTip b s : Reachable s -> Reachable (setShowCanvasTip b s)
| ReachReset t0 s : Reachable s -> Reachable (handleResetChat t0 s).

(* ================================================================== *)
(** * Further operations of src/components/CanvasView.tsx *)
(* ================================================================== *)

(** The size of a card. *)
Definition GROUP_WIDTH : Z := 280.
Definition GROUP_HEIGHT : Z := 160.

(** ** [getRelativeTime] *)

Definition getRelativeTime (now timestamp : Z) : string :=
  let diff := now - timestamp in
  if diff <? 60000 then "Just now"
  else
    let mins := diff / 60000 in
    if mins <? 60 then string_of_Z mins +:+ "m ago"
    else
      let hours := mins / 60 in
      if hours <? 24 then string_of_Z hours +:+ "h ago"
      else string_of_Z (hours / 24) +:+ "d ago".

(** ** [activeGroupIds] *)

(** The loop [while (currentMsg)] of [activeGroupIds]: the ids it adds to
    [ancestorIds], or [None] when [fuel] turns were not enough. *)
Fixpoint ancestorLoop (fuel : nat) (msgs : list Message) (currentMsg : option Message)
    (ancestorIds : gset string) : option (gset string) :=
  match fuel with
  | O => None
  | S fuel' =>
      match currentMsg with
      | None => Some ancestorIds
      | Some m =>
          ancestorLoop fuel' msgs
            (List.find (fun x => opt_eqb (Some (m_id x)) (m_parentId m)) msgs)
            ({[ m_id m ]} ∪ ancestorIds)
      end
  end.

(** [activeGroupIds]: the ids of the nodes that are in [ancestorIds]. *)
Definition activeGroupIds (fuel : nat) (msgs : list Message) (activeBranchHeadId : string)
    (nodes : list GroupedNode) : option (gset string) :=
  match ancestorLoop fuel msgs (List.find (byId activeBranchHeadId) msgs) ∅ with
  | Some ancestorIds =>
      Some (list_to_set
              (List.filter (fun i => bool_decide (i ∈ ancestorIds)) (map g_id nodes)))
  | None => None
  end.

(** ** [edges] *)

Record Edge := { sourceX : Z; sourceY : Q; targetX : Z; targetY : Q }.

(** [new Map(nodes.map(n => [n.id, n]))] *)
Definition nodeMapOf (nodes : list GroupedNode) : gmap string GroupedNode :=
  foldl (fun mm n => <[ g_id n := n ]> mm) ∅ nodes.

(** The edge that is pushed for a node and one of its children. *)
Definition edgeBetween (node child : GroupedNode) : Edge :=
  {| sourceX := g_x node + GROUP_WIDTH;
     sourceY := (g_y node + inject_Z GROUP_HEIGHT / 2)%Q;
     targetX := g_x child;
     targetY := (g_y child + inject_Z GROUP_HEIGHT / 2)%Q |}.

(** The edges that leave one node: one for each child id that the map
    knows. *)
Definition edgesFrom (nodeMap : gmap string GroupedNode) (node : GroupedNode) : list Edge :=
  omap (fun childId => option_map (edgeBetween node) (nodeMap !! childId))
       (g_childrenIds node).

Definition edges (nodes : list GroupedNode) : list Edge :=
  flat_map (edgesFrom (nodeMapOf nodes)) nodes.

(* ================================================================== *)
(** * Sidebar (src/unnamed/part_001, [displayedChapters]) *)
(* ================================================================== *)

(** [new Map(allMessages.map(m => [m.id, m]))]: a later message replaces an
    earlier one with the same id. *)
Definition messageMapOf (allMessages : list Message) : gmap string Message :=
  foldl (fun mm m => <[ m_id m := m ]> mm) ∅ allMessages.

(** Case C of the filter: the walk up from the start of a chapter, with
    [hops] turns left of its 500. *)
Fixpoint reachesThread (hops : nat) (messageMap : gmap string Message)
    (activeThreadIds : gset string) (curr : option Message) : bool :=
  match hops with
  | O => false
  | S hops' =>
      match curr with
      | None => false
      | Some m =>
          if bool_decide (m_id m ∈ activeThreadIds) then true
          else
            match m_parentId m with
            | Some p =>
                if negb (p ==? "")
                then reachesThread hops' messageMap activeThreadIds (messageMap !! p)
                else false
            | None => false
            end
      end
  end.

Definition SIDEBAR_HOPS : nat := Z.to_nat 500.

(** The callback of [chapters.filter]. *)
Definition isRelevant (messageMap : gmap string Message) (activeThreadIds : gset string)
    (searchQuery : string) (c : Chapter) : bool :=
  if bool_decide (c_startMessageId c ∈ activeThreadIds) then true
  else if negb (js_trim searchQuery ==? "") then
    let lower := toLowerCase searchQuery in
    includes (toLowerCase (c_title c)) lower
    || existsb (fun s => includes (toLowerCase s) lower) (c_subtopics c)
  else
    reachesThread SIDEBAR_HOPS messageMap activeThreadIds
      (messageMap !! c_startMessageId c).

(** [(msg?.timestamp || 0)] of the message a chapter starts at. *)
Definition startTime (messageMap : gmap string Message) (c : Chapter) : Z :=
  match messageMap !! c_startMessageId c with
  | Some m => m_timestamp m
  | None => 0
  end.

Definition displayedChapters (chapters : list Chapter)
    (currentThreadMessages allMessages : list Message) (searchQuery : string)
  : list Chapter :=
  let messageMap := messageMapOf allMessages in
  let activeThreadIds : gset string := list_to_set (map m_id currentThreadMessages) in
  js_sort (fun a b => startTime messageMap a - startTime messageMap b)
    (List.filter (isRelevant messageMap activeThreadIds searchQuery) chapters).

(** [m] is a stored message whose parent, as the map has it, is [p]. *)
Definition parentIn (messageMap : gmap string Message) (m p : Message) : Prop :=
  exists i, m_parentId m = Some i /\ i <> "" /\ messageMap !! i = Some p.

(* ================================================================== *)
(** * Predicates of the further properties *)
(* ================================================================== *)

(** Each message of the list is the child of the one before it, or a child
    of the root (which the thread leaves out). *)
Definition parentLinked (l : list Message) : Prop :=
  forall (k : nat) a b, l !! k = Some a -> l !! S k = Some b ->
    m_parentId b = Some (m_id a) \/ m_parentId b = Some ROOT_ID.

(** The errors after which [executeGeminiStream] goes on to the next model. *)
Definition softFailure (e : AttemptEnd) : bool :=
  match e with
  | RateLimit | NotFound => true
  | Completes | OtherError => false
  end.

(** ** The geometry of the canvas *)

(** The number of groups without child groups in a tree. *)
Fixpoint leafCount (t : GTree) : Z :=
  match t with
  | GNode _ cs =>
      match cs with
      | [] => 1
      | _ => foldr Z.add 0 (map leafCount cs)
      end
  end.

Definition leafCountF (cs : list GTree) : Z := foldr Z.add 0 (map leafCount cs).

(** Two groups are a column or a row apart. *)
Definition spaced (a b : GroupedNode) : Prop :=
  g_x a + X_SPACING <= g_x b \/ g_x b + X_SPACING <= g_x a
  \/ (g_y a + inject_Z Y_SPACING <= g_y b)%Q
  \/ (g_y b + inject_Z Y_SPACING <= g_y a)%Q.

(** The cards of two groups, [GROUP_WIDTH] wide and [GROUP_HEIGHT] high,
    have a point in common. *)
Definition cardsOverlap (a b : GroupedNode) : Prop :=
  g_x a < g_x b + GROUP_WIDTH /\ g_x b < g_x a + GROUP_WIDTH
  /\ (g_y a < g_y b + inject_Z GROUP_HEIGHT)%Q
  /\ (g_y b < g_y a + inject_Z GROUP_HEIGHT)%Q.

(** Two groups of one depth are a row apart. *)
Definition rowsApart (a b : GroupedNode) : Prop :=
  g_depth a = g_depth b ->
  (g_y a + inject_Z Y_SPACING <= g_y b)%Q \/ (g_y b + inject_Z Y_SPACING <= g_y a)%Q.

(** [R] holds of every two elements at different places of the list. *)
Fixpoint pairwise {A} (R : A -> A -> Prop) (l : list A) : Prop :=
  match l with
  | [] => True
  | x :: l' => Forall (R x) l' /\ pairwise R l'
  end.

(** Every [y] of the list lies in the band of [height] rows from [startY]. *)
Definition inBand (startY : Q) (height : Z) (l : list GroupedNode) : Prop :=
  Forall (fun g => (startY <= g_y g)%Q
                   /\ (g_y g <= startY + inject_Z ((height - 1) * Y_SPACING))%Q) l.

(** A group without child groups, and their number in an array of groups. *)
Definition childless (g : GroupedNode) : bool :=
  match g_childrenIds g with
  | [] => true
  | _ => false
  end.

Definition leafGroups (groups : list GroupedNode) : Z :=
  js_length (List.filter childless groups).

(** ** The contents of the groups *)

(** Each message of the run is followed by its only child. *)
Definition singleChildRun (ix : MessageIndex) (l : list Message) : Prop :=
  forall (k : nat) a b, l !! k = Some a -> l !! S k = Some b ->
    childrenOf ix (m_id a) = [m_id b].

(** A group holds a run of messages that starts at its start message and
    ends at the message that gives it its id and its timestamp. *)
Definition groupShape (ix : MessageIndex) (g : GroupedNode) : Prop :=
  exists front tailMsg firstMsg,
    g_messages g = front ++ [tailMsg]
    /\ head (g_messages g) = Some firstMsg
    /\ g_id g = m_id tailMsg
    /\ g_timestamp g = m_timestamp tailMsg
    /\ g_startMessageId g = m_id firstMsg
    /\ singleChildRun ix (g_messages g).

(** What a call of [buildGroup] from [visited] leaves behind, as to the
    messages of its groups: they are indexed messages, newly visited, no
    two with the same id; and every message newly visited is in a group. *)
Definition contentsOk (ix : MessageIndex) (visited : gset string) (r : Built) : Prop :=
  let '(_, groups, visited') := r in
  let all := flat_map g_messages groups in
  List.NoDup (map m_id all)
  /\ (forall m, In m all -> messageMap ix !! m_id m = Some m /\ m_id m ∉ visited)
  /\ (forall i, i ∈ visited' <-> i ∈ visited \/ In i (map m_id all))
  /\ Forall (groupShape ix) groups.

(** ** Fixtures of the further properties *)

(** A chapter of two messages that starts the cats thread, and the call that
    the evaluation effect dispatches on that thread from cursor 0. *)
Definition catsChapter : Chapter :=
  {| c_id := "c1"; c_title := "Cats"; c_category := CONTEXT;
     c_startMessageId := "m2"; c_messageCount := 2; c_subtopics := [] |}.

Definition catsDispatch : Dispatch :=
  {| d_currentTopic := Some "Cats"; d_contextBlock := map toTurn catsThread;
     d_bufferMessages := catsThread; d_validMessages := catsThread;
     d_newMessagesCount := 2 |}.

(* ================================================================== *)
(** * Theorems *)
(* ================================================================== *)

(** ** Helper lemmas on the JavaScript list operations *)

(** Turn a boolean comparison on [Z] in hypothesis [H] into its
    proposition. *)
Ltac zb H :=
  try rewrite Z.geb_leb in H; try rewrite Z.gtb_ltb in H;
  first [ apply Z.ltb_lt in H | apply Z.ltb_ge in H
        | apply Z.leb_le in H | apply Z.leb_gt in H
        | apply Z.eqb_eq in H | apply Z.eqb_neq in H ].

Lemma sort_insert_length {A} (cmp : A -> A -> Z) x l :
  length (sort_insert cmp x l) = S (length l).
Proof.
  induction l as [|y l IH]; simpl; [reflexivity|].
  destruct (cmp x y <=? 0); simpl; congruence.
Qed.

Lemma js_sort_length {A} (cmp : A -> A -> Z) (l : list A) :
  length (js_sort cmp l) = length l.
Proof.
  induction l as [|x l IH]; simpl; [reflexivity|].
  rewrite sort_insert_length. f_equal. exact IH.
Qed.

Lemma sort_insert_In {A} (cmp : A -> A -> Z) x y l :
  In y (sort_insert cmp x l) <-> y = x \/ In y l.
Proof.
  induction l as [|z l IH]; simpl; [intuition congruence|].
  destruct (cmp x z <=? 0); simpl; [intuition congruence|].
  rewrite IH. intuition congruence.
Qed.

Lemma js_sort_In {A} (cmp : A -> A -> Z) (l : list A) y :
  In y (js_sort cmp l) <-> In y l.
Proof.
  induction l as [|x l IH]; simpl; [tauto|].
  rewrite sort_insert_In. fold (js_sort cmp l). rewrite IH. intuition congruence.
Qed.

Lemma findIndex_range {A} (p : A -> bool) l :
  -1 <= findIndex p l < js_length l.
Proof.
  unfold js_length. induction l as [|x l IH]; simpl length; simpl findIndex; [lia|].
  destruct (p x); [lia|].
  destruct (findIndex p l <? 0) eqn:E; lia.
Qed.

Lemma findIndex_app_last {A} (p : A -> bool) l x :
  (forall y, In y l -> p y = false) -> p x = true ->
  findIndex p (l ++ [x]) = js_length l.
Proof.
  unfold js_length. intros Hl Hx. induction l as [|y l IH]; simpl.
  - rewrite Hx. reflexivity.
  - rewrite (Hl y) by (left; reflexivity).
    rewrite IH by (intros z Hz; apply Hl; right; exact Hz).
    destruct (Z.of_nat (length l) <? 0) eqn:E; lia.
Qed.

Lemma js_nth_beyond {A} (l : list A) i :
  js_length l <= i -> js_nth l i = None.
Proof.
  unfold js_nth, js_length. intros H.
  destruct (i <? 0) eqn:E; [reflexivity|].
  apply nth_error_None. lia.
Qed.

Lemma js_nth_In {A} (l : list A) i x : js_nth l i = Some x -> In x l.
Proof.
  unfold js_nth. destruct (i <? 0); [discriminate|]. apply nth_error_In.
Qed.

Lemma js_nth_lookup {A} (l : list A) (i : Z) :
  0 <= i -> js_nth l i = l !! Z.to_nat i.
Proof.
  intros Hi. unfold js_nth. destruct (i <? 0) eqn:E; zb E; [lia|].
  revert l. generalize (Z.to_nat i). intros n l. revert n.
  induction l as [|x l IH]; intros [|n]; simpl; auto.
Qed.

Lemma findIndex_lookup {A} (p : A -> bool) (l : list A) :
  0 <= findIndex p l ->
  exists x, l !! Z.to_nat (findIndex p l) = Some x /\ p x = true.
Proof.
  induction l as [|y l IH]; simpl; [lia|].
  destruct (p y) eqn:Py; [intros _; exists y; auto|].
  destruct (findIndex p l <? 0) eqn:E; zb E; [lia|]. intros _.
  destruct (IH E) as (x & Hx & Hp). exists x. split; [|exact Hp].
  replace (Z.to_nat (findIndex p l + 1)) with (S (Z.to_nat (findIndex p l))) by lia.
  exact Hx.
Qed.

(* ------------------------------------------------------------------ *)
(** ** Thread resolver *)
(* ------------------------------------------------------------------ *)

Section Walk.

Variable msgs : list Message.

(** A step never moves the counter by more than one, and only a step that
    found a message adds to the thread. *)
Lemma walk_step_next s s' :
  walk_step msgs s = WalkNext s' ->
  w_loopSafety s < MAX_DEPTH /\ w_loopSafety s' = w_loopSafety s + 1
  /\ (length (w_thread s') <= S (length (w_thread s)))%nat.
Proof.
  unfold walk_step. destruct (w_currentId s) as [c|]; [|discriminate].
  destruct (negb (c ==? "") && (w_loopSafety s <? MAX_DEPTH)) eqn:G; [|discriminate].
  apply andb_true_iff in G as [_ G]. apply Z.ltb_lt in G.
  destruct (List.find (byId c) msgs) as [m|]; [|discriminate].
  intros [= <-]. simpl. split; [exact G|]. split; [reflexivity|].
  destruct (negb (m_id m ==? ROOT_ID)); simpl; lia.
Qed.

Lemma walk_step_halt s s' :
  walk_step msgs s = WalkHalt s' ->
  w_thread s' = w_thread s
  /\ (s' = s \/ (w_loopSafety s < MAX_DEPTH /\ w_loopSafety s' = w_loopSafety s + 1)).
Proof.
  unfold walk_step. destruct (w_currentId s) as [c|]; [|intros [= <-]; auto].
  destruct (negb (c ==? "") && (w_loopSafety s <? MAX_DEPTH)) eqn:G;
    [|intros [= <-]; auto].
  apply andb_true_iff in G as [_ G]. apply Z.ltb_lt in G.
  destruct (List.find (byId c) msgs) as [m|]; [discriminate|].
  intros [= <-]. simpl. auto.
Qed.

(** The loop halts as soon as the fuel exceeds what is left of the hop
    budget, whatever the store holds. *)
Lemma walk_loop_halts fuel : forall s,
  0 <= w_loopSafety s <= MAX_DEPTH ->
  MAX_DEPTH - w_loopSafety s < Z.of_nat fuel ->
  exists s', walk_loop fuel msgs s = Some s'
    /\ w_loopSafety s <= w_loopSafety s' <= MAX_DEPTH
    /\ Z.of_nat (length (w_thread s')) - Z.of_nat (length (w_thread s))
       <= w_loopSafety s' - w_loopSafety s.
Proof.
  induction fuel as [|fuel IH]; intros s Hs Hf; [simpl in Hf; lia|].
  simpl. destruct (walk_step msgs s) as [s1|s1] eqn:E.
  - apply walk_step_next in E as (Hlt & Hls & Hth).
    destruct (IH s1) as (s' & Hrun & Hb & Hlen); [lia|lia|].
    exists s'. split; [exact Hrun|]. split; lia.
  - apply walk_step_halt in E as (Hth & [-> | (Hlt & Hls)]).
    + exists s. split; [reflexivity|]. split; lia.
    + exists s1. split; [reflexivity|]. rewrite Hth. split; lia.
Qed.

End Walk.

(** C8: the walk of [currentThread] halts on every store and every head,
    cyclic or dangling parent links included, after at most 5000 turns of
    its loop; the thread it returns is the one collected when it halts, and
    holds at most 5000 messages. *)
Theorem C8_walk_terminates_within_bound (msgs : list Message) (headId : string) :
  exists s,
    walk_loop walk_fuel msgs (walk_init headId) = Some s
    /\ 0 <= w_loopSafety s <= 5000
    /\ walkThread msgs headId = w_thread s
    /\ js_length (walkThread msgs headId) <= 5000.
Proof.
  destruct (walk_loop_halts msgs walk_fuel (walk_init headId))
    as (s & Hrun & Hb & Hlen).
  - simpl. unfold MAX_DEPTH. lia.
  - unfold walk_fuel, MAX_DEPTH. simpl w_loopSafety. lia.
  - exists s. unfold walkThread. rewrite Hrun.
    simpl in Hb, Hlen. unfold MAX_DEPTH, js_length in *.
    repeat split; try lia; reflexivity.
Qed.

(** On a store whose parent links form a cycle the walk is cut off after
    exactly 5000 hops. *)
Example walk_cycle_truncated :
  option_map w_loopSafety (walk_loop walk_fuel cycleStore (walk_init "P")) = Some 5000
  /\ js_length (walkThread cycleStore "P") = 5000.
Proof. vm_compute. split; reflexivity. Qed.

(** A dangling head stops the walk at once, with an empty thread. *)
Example walk_dangling :
  walkThread cycleStore "nowhere" = [].
Proof. vm_compute. reflexivity. Qed.


Lemma tm_msg_annotate msgs head drafting now msg :
  tm_msg (annotate msgs head drafting now msg) = msg.
Proof.
  unfold annotate. destruct (negb (truthy (m_parentId msg))); [reflexivity|].
  destruct (js_length _ >=? 1); reflexivity.
Qed.

Lemma map_tm_msg_imap (f : nat -> Message -> ThreadMsg) (l : list Message) :
  (forall i x, tm_msg (f i x) = x) -> map tm_msg (imap f l) = l.
Proof.
  revert f. induction l as [|x l IH]; intros f Hf; [reflexivity|].
  simpl. rewrite Hf. f_equal. apply IH. intros i y. apply Hf.
Qed.

Lemma hideGhost_real o p : hideGhost o = Some p -> m_id p <> GHOST_ID.
Proof.
  destruct o as [s|]; simpl; [|discriminate].
  destruct (m_id s ==? GHOST_ID) eqn:E; [discriminate|].
  intros [= <-]. apply String.eqb_neq. exact E.
Qed.

(** No annotation ever names the placeholder as a neighbour. *)
Lemma annotate_neighbours_real msgs head drafting now msg p :
  prevSibling (annotate msgs head drafting now msg) = Some p
  \/ nextSibling (annotate msgs head drafting now msg) = Some p ->
  m_id p <> GHOST_ID.
Proof.
  unfold annotate. destruct (negb (truthy (m_parentId msg)));
    [simpl; intros [|]; discriminate|].
  destruct (js_length _ >=? 1); simpl; [|intros [|]; discriminate].
  intros [H|H]; exact (hideGhost_real _ _ H).
Qed.

Lemma In_imap_annotate msgs head drafting (clock : nat -> Z) l t :
  In t (imap (fun i msg => annotate msgs head drafting (clock (S i)) msg) l) ->
  exists now msg, t = annotate msgs head drafting now msg.
Proof.
  intros H. apply list_elem_of_In, elem_of_lookup_imap in H as (i & x & -> & _).
  eauto.
Qed.

Lemma sortedChildren_In msgs p m :
  In m (sortedChildren msgs p) <-> In m msgs /\ m_parentId m = p.
Proof.
  unfold sortedChildren. rewrite js_sort_In, filter_In. unfold byParent.
  split; intros [H1 H2]; split; try exact H1.
  - destruct (m_parentId m) as [a|], p as [b|]; simpl in H2; try discriminate;
      [apply String.eqb_eq in H2; congruence|reflexivity].
  - rewrite H2. destruct p; simpl; [apply String.eqb_refl|reflexivity].
Qed.

Lemma js_nth_app_before_last {A} (l : list A) (x : A) :
  js_nth (l ++ [x]) (js_length l - 1) = last l.
Proof.
  unfold js_nth, js_length. destruct l as [|a l] using rev_ind; [reflexivity|].
  clear IHl. rewrite last_snoc, length_app. simpl length.
  destruct (Z.of_nat (length l + 1) - 1 <? 0) eqn:E; [apply Z.ltb_lt in E; lia|].
  replace (Z.to_nat (Z.of_nat (length l + 1) - 1)) with (length l) by lia.
  rewrite <- app_assoc. rewrite nth_error_app2 by lia.
  replace (length l - length l)%nat with O by lia. reflexivity.
Qed.

Section Draft.

Variable msgs : list Message.
Variable head : string.
Hypothesis store_real : forall m, In m msgs -> m_id m <> GHOST_ID.
Hypothesis head_nonempty : head <> "".

Let real := sortedChildren msgs (Some head).

Lemma real_not_ghost m : In m real -> byId GHOST_ID m = false.
Proof.
  intros H. apply sortedChildren_In in H as [H _].
  apply String.eqb_neq. apply store_real. exact H.
Qed.

(** The sibling group that the placeholder computes for itself. *)
Lemma siblingsOf_ghost now now' :
  siblingsOf msgs head true now' (ghostMsg head now) = real ++ [ghostMsg head now].
Proof. unfold siblingsOf. simpl m_id. reflexivity. Qed.

(** The sibling group of a stored child of the fork point. *)
Lemma siblingsOf_child now msg :
  In msg msgs -> m_parentId msg = Some head ->
  siblingsOf msgs head true now msg = real ++ [ghostMsg head now].
Proof.
  intros Hin Hp. unfold siblingsOf. rewrite Hp. simpl opt_eqb.
  rewrite String.eqb_refl. simpl andb.
  replace (existsb (byId GHOST_ID) (sortedChildren msgs (Some head))) with false.
  - destruct (m_id msg ==? GHOST_ID) eqn:E; [|reflexivity].
    apply String.eqb_eq in E. destruct (store_real msg Hin E).
  - symmetry. apply not_true_is_false. intros H.
    apply existsb_exists in H as (x & Hx & Hg).
    rewrite (real_not_ghost x Hx) in Hg. discriminate.
Qed.

Lemma annotate_ghost now now' :
  annotate msgs head true now' (ghostMsg head now)
  = {| tm_msg := ghostMsg head now;
       siblingCount := Some (js_length real + 1);
       siblingIndex := Some (js_length real + 1);
       prevSibling := last real;
       nextSibling := None |}.
Proof.
  unfold annotate. simpl m_parentId. simpl truthy.
  destruct (head ==? "") eqn:E; [apply String.eqb_eq in E; contradiction|].
  simpl negb. rewrite siblingsOf_ghost. cbv zeta.
  assert (Hlen : js_length (real ++ [ghostMsg head now]) = js_length real + 1).
  { unfold js_length. rewrite length_app. simpl. lia. }
  rewrite Hlen.
  destruct (js_length real + 1 >=? 1) eqn:G;
    [|zb G; unfold js_length in G; lia].
  simpl m_id.
  rewrite (findIndex_app_last (byId GHOST_ID) real (ghostMsg head now))
    by (auto using real_not_ghost).
  f_equal.
  - rewrite js_nth_app_before_last.
    destruct (last real) as [p|] eqn:L; [|reflexivity]. simpl.
    assert (In p real) as Hp.
    { apply list_elem_of_In. apply last_Some_elem_of. exact L. }
    apply real_not_ghost in Hp. unfold byId in Hp. rewrite Hp. reflexivity.
  - rewrite js_nth_beyond; [reflexivity|]. rewrite Hlen. lia.
Qed.

End Draft.

(** C9: while a branch is being drafted, on a store that holds no message
    with the placeholder's id and with a non-empty head id:
    - the thread is the real thread followed by the placeholder;
    - the placeholder's own sibling group is the stored children of the fork
      point, oldest first, followed by the placeholder, so that its index is
      the size of the group;
    - in the group of every stored child of the fork point the placeholder
      is the extra, last sibling;
    - no annotation of the thread has the placeholder as previous or next
      sibling. *)
Theorem C9_draft_placeholder (msgs : list Message) (head : string) (clock : nat -> Z) :
  (forall m, In m msgs -> m_id m <> GHOST_ID) ->
  head <> "" ->
  let ghost := ghostMsg head (clock O) in
  let real := sortedChildren msgs (Some head) in
  let thread := currentThread msgs head true clock in
  (exists front,
      thread = front ++ [ {| tm_msg := ghost;
                             siblingCount := Some (js_length real + 1);
                             siblingIndex := Some (js_length real + 1);
                             prevSibling := last real;
                             nextSibling := None |} ]
      /\ map tm_msg front = walkThread msgs head)
  /\ (forall now, siblingsOf msgs head true now ghost = real ++ [ghost])
  /\ (forall m, In m real <-> In m msgs /\ m_parentId m = Some head)
  /\ js_length real = js_length (List.filter (byParent (Some head)) msgs)
  /\ (forall now msg, In msg msgs -> m_parentId msg = Some head ->
        siblingsOf msgs head true now msg = real ++ [ghostMsg head now])
  /\ (forall t p, In t thread ->
        prevSibling t = Some p \/ nextSibling t = Some p -> m_id p <> GHOST_ID).
Proof.
  intros Hstore Hhead ghost real thread.
  split; [|split; [|split; [|split; [|split]]]].
  - exists (imap (fun i msg => annotate msgs head true (clock (S i)) msg)
              (walkThread msgs head)).
    split.
    + unfold thread, currentThread. rewrite imap_app. f_equal.
      simpl. f_equal. apply annotate_ghost; assumption.
    + apply map_tm_msg_imap. intros. apply tm_msg_annotate.
  - intros now. apply siblingsOf_ghost.
  - intros m. apply sortedChildren_In.
  - unfold real, sortedChildren, js_length. rewrite js_sort_length. reflexivity.
  - intros now msg. apply siblingsOf_child; assumption.
  - intros t p Hin Hp. apply In_imap_annotate in Hin as (now & msg & ->).
    exact (annotate_neighbours_real _ _ _ _ _ _ Hp).
Qed.

(** C9 at B of the fork tree: the thread of head B in draft mode. *)
Lemma C9_draft_placeholder_witness :
  last (currentThread (forkTree 0 1 2) "B" true (fun _ => 99))
  = Some {| tm_msg := ghostMsg "B" 99; siblingCount := Some 3; siblingIndex := Some 3;
            prevSibling := Some msgD; nextSibling := None |}.
Proof.
  destruct (C9_draft_placeholder (forkTree 0 1 2) "B" (fun _ => 99))
    as ((front & Hthread & _) & _).
  - intros m Hm. vm_compute in Hm.
    repeat (destruct Hm as [<-|Hm]; [vm_compute; discriminate|]). destruct Hm.
  - discriminate.
  - rewrite Hthread. rewrite last_snoc. vm_compute. reflexivity.
Defined.

(* ------------------------------------------------------------------ *)
(** ** Branch navigator: swiping *)
(* ------------------------------------------------------------------ *)

(** The head of a list sorted newest-first is at least as recent as every
    element. *)
Lemma js_sort_desc_head (l : list Message) x rest :
  js_sort byTimestampDesc l = x :: rest ->
  forall y, In y l -> m_timestamp y <= m_timestamp x.
Proof.
  revert x rest. induction l as [|a l IH]; intros x rest H y Hy; [destruct Hy|].
  simpl in H. fold (js_sort byTimestampDesc l) in H.
  destruct (js_sort byTimestampDesc l) as [|b r] eqn:E.
  - destruct l as [|a' l']; [|pose proof (js_sort_length byTimestampDesc (a' :: l')) as HL;
                               rewrite E in HL; discriminate].
    simpl in H. injection H as <- _. destruct Hy as [<-|[]]. lia.
  - simpl in H. unfold byTimestampDesc in H at 1.
    destruct (m_timestamp b - m_timestamp a <=? 0) eqn:C; zb C;
      injection H as <- _; destruct Hy as [<-|Hy]; try lia;
      specialize (IH b r eq_refl y Hy); lia.
Qed.

(** One turn of the descent goes to a stored child, and to the most recent
    one. *)
Lemma descend_step_latest msgs p c :
  descend_step msgs p = Some c ->
  exists child, In child msgs /\ m_parentId child = Some p /\ m_id child = c
    /\ forall o, In o msgs -> m_parentId o = Some p ->
         m_timestamp o <= m_timestamp child.
Proof.
  unfold descend_step.
  destruct (js_sort byTimestampDesc (List.filter (byParent (Some p)) msgs))
    as [|child rest] eqn:E; [discriminate|].
  intros [= <-]. exists child.
  assert (In child (sortedChildren msgs (Some p))) as Hin.
  { apply sortedChildren_In. rewrite <- (sortedChildren_In msgs (Some p) child).
    unfold sortedChildren. apply js_sort_In.
    apply (js_sort_In byTimestampDesc). rewrite E. left. reflexivity. }
  apply sortedChildren_In in Hin as [Hin Hp].
  repeat split; try assumption.
  intros o Ho Hop. apply (js_sort_desc_head _ _ _ E).
  apply filter_In. split; [exact Ho|]. unfold byParent. rewrite Hop. simpl.
  apply String.eqb_refl.
Qed.

Lemma descend_step_edge msgs p c :
  descend_step msgs p = Some c -> childEdge msgs p c.
Proof.
  intros H. apply descend_step_latest in H as (m & ? & ? & ? & _).
  exists m. auto.
Qed.

(** Where the descent stops there is no child left. *)
Lemma descend_leaf fuel : forall msgs p leaf,
  descend fuel msgs p = Some leaf -> descend_step msgs leaf = None.
Proof.
  induction fuel as [|fuel IH]; intros msgs p leaf; simpl; [discriminate|].
  destruct (descend_step msgs p) as [c|] eqn:E; [apply IH|].
  intros [= <-]. exact E.
Qed.

Lemma findIndex_found {A} (p : A -> bool) l x :
  In x l -> p x = true -> 0 <= findIndex p l.
Proof.
  induction l as [|y l IH]; intros Hin Hx; [destruct Hin|]. simpl.
  destruct (p y) eqn:Py; [lia|].
  destruct Hin as [->|Hin]; [congruence|].
  specialize (IH Hin Hx). destruct (findIndex p l <? 0) eqn:E; zb E; lia.
Qed.

(** The index arithmetic of a swipe between stored siblings is the
    successor and predecessor modulo the size of the group. *)
Lemma swipeIndex_wraps len i :
  0 <= i < len ->
  swipeIndex len false next i = (i + 1) mod len
  /\ swipeIndex len false prev i = (i - 1) mod len.
Proof.
  intros Hi. unfold swipeIndex. split.
  - destruct (i + 1 >=? len) eqn:E; zb E.
    + replace (i + 1) with len by lia. rewrite Z.mod_same by lia. reflexivity.
    + destruct (i + 1 <? 0) eqn:F; zb F; [lia|].
      rewrite Z.mod_small by lia. reflexivity.
  - destruct (i - 1 >=? len) eqn:E; zb E; [lia|].
    destruct (i - 1 <? 0) eqn:F; zb F.
    + replace (i - 1) with (-1 + 1 * len - len + 0) by lia.
      replace (-1 + 1 * len - len + 0) with ((len - 1) + (-1) * len) by lia.
      rewrite Z.mod_add by lia. rewrite Z.mod_small by lia. reflexivity.
    + rewrite Z.mod_small by lia. reflexivity.
Qed.

(** A swipe from a stored message: the head goes to the leaf that the
    descent reaches from the sibling at the wrapped index. *)
Lemma handleSwipeBranch_stored fuel cur dir s m p target leaf :
  cur <> GHOST_ID ->
  List.find (byId cur) (messages s) = Some m ->
  m_parentId m = Some p -> p <> "" ->
  let siblings := sortedChildren (messages s) (Some p) in
  let i := findIndex (byId cur) siblings in
  js_nth siblings (match dir with
                   | next => (i + 1) mod js_length siblings
                   | prev => (i - 1) mod js_length siblings
                   end) = Some target ->
  descend fuel (messages s) (m_id target) = Some leaf ->
  handleSwipeBranch fuel cur dir s
  = Done (setActiveBranchHeadId leaf
            (setSwipeDirection (match dir with prev => left | next => right end) s)).
Proof.
  intros Hcur Hfind Hp Hpne siblings i Htarget Hdesc.
  unfold handleSwipeBranch. cbn [messages setSwipeDirection].
  rewrite Hfind, Hp. cbn [truthy].
  destruct (p ==? "") eqn:E; [apply String.eqb_eq in E; contradiction|].
  destruct (cur ==? GHOST_ID) eqn:G; [apply String.eqb_eq in G; contradiction|].
  cbn [negb]. fold siblings. fold i.
  assert (Hi : 0 <= i < js_length siblings).
  { split; [|apply findIndex_range].
    apply find_some in Hfind as [Hin Hid].
    apply (findIndex_found _ _ m); [|exact Hid].
    apply sortedChildren_In. split; assumption. }
  destruct (i =? -1) eqn:I; zb I; [lia|].
  destruct (swipeIndex_wraps _ _ Hi) as [Hn Hpv].
  replace (swipeIndex (js_length siblings) false dir i)
    with (match dir with
          | next => (i + 1) mod js_length siblings
          | prev => (i - 1) mod js_length siblings
          end) by (destruct dir; congruence).
  rewrite Htarget. cbv beta iota zeta.
  change (messages (setSwipeDirection _ s)) with (messages s).
  rewrite Hdesc. reflexivity.
Qed.

(** C4: a swipe between stored siblings moves to the next or previous index
    modulo the size of the group (so 'next' past the end is index 0 and
    'prev' before the start is the last index); the head is then set to the
    leaf reached from that sibling by going, at each level, to the child
    with the greatest timestamp.  On the fork tree, 'next' from D selects C;
    when C has the children E (t=30) and F (t=40), the head lands on F. *)
Theorem C4_swipe_wraps_and_descends :
  (forall len i, 0 <= i < len ->
     swipeIndex len false next i = (i + 1) mod len
     /\ swipeIndex len false prev i = (i - 1) mod len)
  /\ (forall fuel cur dir s m p target leaf,
        cur <> GHOST_ID ->
        List.find (byId cur) (messages s) = Some m ->
        m_parentId m = Some p -> p <> "" ->
        let siblings := sortedChildren (messages s) (Some p) in
        let i := findIndex (byId cur) siblings in
        js_nth siblings (match dir with
                         | next => (i + 1) mod js_length siblings
                         | prev => (i - 1) mod js_length siblings
                         end) = Some target ->
        descend fuel (messages s) (m_id target) = Some leaf ->
        handleSwipeBranch fuel cur dir s
        = Done (setActiveBranchHeadId leaf
                  (setSwipeDirection (match dir with prev => left | next => right end) s))
        /\ descend_step (messages s) leaf = None)
  /\ (forall msgs p c, descend_step msgs p = Some c ->
        exists child, In child msgs /\ m_parentId child = Some p /\ m_id child = c
          /\ forall o, In o msgs -> m_parentId o = Some p ->
               m_timestamp o <= m_timestamp child)
  /\ (forall t0 tA tB fuel,
        sortedChildren (forkTree t0 tA tB) (Some "B") = [msgC; msgD]
        /\ handleSwipeBranch (S fuel) "D" next (stateOf (forkTree t0 tA tB) "D" false)
           = Done (stateOf (forkTree t0 tA tB) "C" false)
        /\ handleSwipeBranch (S (S fuel)) "D" next (stateOf (deepTree t0 tA tB) "D" false)
           = Done (stateOf (deepTree t0 tA tB) "F" false)).
Proof.
  split; [exact swipeIndex_wraps|]. split; [|split].
  - intros. split; [eapply handleSwipeBranch_stored; eassumption|].
    eapply descend_leaf; eassumption.
  - exact descend_step_latest.
  - intros. vm_compute. repeat split; reflexivity.
Qed.

(** C4 on the deep tree: the hypotheses of the general statements hold at
    the swipe from D. *)
Lemma C4_swipe_wraps_and_descends_witness :
  handleSwipeBranch 2 "D" next (stateOf (deepTree 0 1 2) "D" false)
  = Done (stateOf (deepTree 0 1 2) "F" false)
  /\ swipeIndex 2 false next 1 = 0.
Proof.
  destruct C4_swipe_wraps_and_descends as (Hidx & Hswipe & _).
  split.
  - refine (proj1 (Hswipe 2%nat "D" next (stateOf (deepTree 0 1 2) "D" false)
                     msgD "B" msgC "F" _ _ _ _ _ _)).
    + discriminate.
    + reflexivity.
    + reflexivity.
    + discriminate.
    + reflexivity.
    + reflexivity.
  - refine (proj1 (Hidx 2 1 _)). lia.
Defined.

(* ------------------------------------------------------------------ *)
(** ** Branch navigator: termination of the descent *)
(* ------------------------------------------------------------------ *)

Section Descent.

Variable msgs : list Message.

(** When the fuel runs out, the descent has walked that many child
    edges. *)
Lemma descend_out_of_fuel fuel : forall p,
  descend fuel msgs p = None ->
  exists l, length l = fuel /\ chain msgs p l.
Proof.
  induction fuel as [|fuel IH]; intros p H.
  - exists []. split; [reflexivity|exact I].
  - simpl in H. destruct (descend_step msgs p) as [c|] eqn:E; [|discriminate].
    destruct (IH c H) as (l & Hl & Hc).
    exists (c :: l). split; [simpl; congruence|].
    split; [apply descend_step_edge; exact E|exact Hc].
Qed.

Lemma chain_ids p l : chain msgs p l -> incl l (map m_id msgs).
Proof.
  revert p. induction l as [|c l IH]; intros p H x Hx; [destruct Hx|].
  destruct H as [(m & Hm & _ & Hid) Hc]. destruct Hx as [<-|Hx].
  - rewrite <- Hid. apply in_map. exact Hm.
  - exact (IH c Hc x Hx).
Qed.

Lemma chain_app p l1 c l2 : chain msgs p (l1 ++ c :: l2) -> chain msgs c l2.
Proof.
  revert p. induction l1 as [|a l1 IH]; intros p H.
  - exact (proj2 H).
  - exact (IH a (proj2 H)).
Qed.

Lemma chain_reaches p l1 c l2 :
  chain msgs p (l1 ++ c :: l2) -> tc (childEdge msgs) p c.
Proof.
  revert p. induction l1 as [|a l1 IH]; intros p [He Hc].
  - apply tc_once. exact He.
  - eapply tc_l; [exact He|]. exact (IH a Hc).
Qed.

(** In a store without a cycle, no walk along child edges is longer than
    the store. *)
Lemma chain_bounded p l :
  acyclic msgs -> chain msgs p l -> (length l <= length msgs)%nat.
Proof.
  intros Hacyc Hc.
  destruct (ListDec.NoDup_dec string_dec l) as [Hnd|Hdup].
  - rewrite <- (length_map m_id msgs).
    apply NoDup_incl_length; [exact Hnd|]. exact (chain_ids p l Hc).
  - apply ListDec.not_NoDup in Hdup as (a & l1 & l2 & l3 & ->);
      [|intros a b; destruct (string_dec a b); [left|right]; assumption].
    apply chain_app in Hc. exfalso. apply (Hacyc a).
    exact (chain_reaches a l2 a l3 Hc).
Qed.

(** The forest precondition makes the descent halt, within one turn more
    than the store has messages. *)
Lemma descend_terminates start :
  acyclic msgs ->
  exists leaf, descend (S (length msgs)) msgs start = Some leaf
               /\ descend_step msgs leaf = None.
Proof.
  intros Hacyc.
  destruct (descend (S (length msgs)) msgs start) as [leaf|] eqn:E.
  - exists leaf. split; [reflexivity|]. exact (descend_leaf _ _ _ _ E).
  - apply descend_out_of_fuel in E as (l & Hl & Hc).
    apply (chain_bounded _ _ Hacyc) in Hc. lia.
Qed.


End Descent.






(** A rank that grows along every child edge rules cycles out. *)
Lemma acyclic_by_rank (msgs : list Message) (rank : string -> nat) :
  (forall m p, In m msgs -> m_parentId m = Some p -> (rank p < rank (m_id m))%nat) ->
  acyclic msgs.
Proof.
  intros Hrank.
  assert (forall x y, tc (childEdge msgs) x y -> (rank x < rank y)%nat) as Htc.
  { intros x y H. induction H as [x y (m & Hm & Hp & <-)|x y z (m & Hm & Hp & <-) _ IH].
    - exact (Hrank m x Hm Hp).
    - specialize (Hrank m x Hm Hp). lia. }
  intros x H. specialize (Htc x x H). lia.
Qed.



(* ------------------------------------------------------------------ *)
(** ** Branch navigator: submitting content *)
(* ------------------------------------------------------------------ *)

(** C1 as stated fails: a draft started on a leaf.  A has no children, so
    the submission is a linear continuation, and the chapter is created all
    the same, because the branch was drafted explicitly. *)
Lemma C1_draft_on_leaf_creates_chapter :
  let msgs := [ROOT_MESSAGE 0; mk "A" (Some "root") USER 1] in
  let s := setInputText "hello" (stateOf msgs "A" true) in
  hasChildren msgs "A" = false
  /\ chapters (handleSendMessage (fun _ => 5) s)
     = [ {| c_id := "chap-5"; c_title := "Branch: hello"; c_category := DECISION;
            c_startMessageId := "msg-5"; c_messageCount := 0; c_subtopics := [] |} ].
Proof. vm_compute. split; reflexivity. Qed.

(** C1, amended: a submission that passes the guard appends the new message
    under the active head, and eagerly creates a chapter that starts at the
    new message with a message count of 0 exactly when the branch was
    drafted explicitly, or the head already had children and is not the
    root; otherwise the chapter list is unchanged.  A blank input or a
    running stream leaves the whole state unchanged. *)
Theorem C1_eager_chapter_on_submit (clock : nat -> Z) (s : AppState) :
  let s' := handleSendMessage clock s in
  let head := activeBranchHeadId s in
  let newMsgId := "msg-" +:+ string_of_Z (clock O) in
  let branching :=
    isDraftingBranch s || (hasChildren (messages s) head && negb (head ==? "root")) in
  (js_trim (inputText s) <> "" -> isStreaming s = false ->
     (exists newMessage responsePlaceholder,
         messages s' = messages s ++ [newMessage; responsePlaceholder]
         /\ m_id newMessage = newMsgId /\ m_parentId newMessage = Some head
         /\ m_parentId responsePlaceholder = Some newMsgId)
     /\ (branching = true ->
           exists c, chapters s' = chapters s ++ [c]
                     /\ c_startMessageId c = newMsgId /\ c_messageCount c = 0)
     /\ (branching = false -> chapters s' = chapters s))
  /\ (js_trim (inputText s) = "" \/ isStreaming s = true -> s' = s).
Proof.
  intros s' head newMsgId branching. split.
  - intros Hin Hst. unfold s', handleSendMessage.
    apply String.eqb_neq in Hin. rewrite Hin, Hst. cbn [orb].
    fold head. fold newMsgId.
    change (isBranching (messages s) head (isDraftingBranch s)) with branching.
    destruct (hasChildren (messages s) head), branching; cbn;
      (split; [eexists; eexists; rewrite <- app_assoc; simpl; eauto|]);
      (split; [intros; try discriminate; eexists; eauto|intros; try discriminate; reflexivity]).
  - intros H. unfold s', handleSendMessage.
    destruct H as [H|H]; [rewrite H; reflexivity|].
    rewrite H. rewrite orb_true_r. reflexivity.
Qed.

(** C1 on the fork tree: typing under B, which has two children. *)
Lemma C1_eager_chapter_on_submit_witness :
  let s := setInputText "hello" (stateOf (forkTree 0 1 2) "B" false) in
  js_trim (inputText s) <> "" /\ isStreaming s = false
  /\ exists c, chapters (handleSendMessage (fun _ => 5) s) = chapters s ++ [c]
               /\ c_startMessageId c = "msg-5" /\ c_messageCount c = 0.
Proof.
  split; [discriminate|]. split; [reflexivity|].
  refine (proj1 (proj2 (proj1 (C1_eager_chapter_on_submit (fun _ => 5)
            (setInputText "hello" (stateOf (forkTree 0 1 2) "B" false))) _ _)) _).
  - discriminate.
  - reflexivity.
  - reflexivity.
Defined.

(* ------------------------------------------------------------------ *)
(** ** Topic classifier *)
(* ------------------------------------------------------------------ *)

Section ClassifierFacts.

Variable gemini ollama : Prompt -> option string.

Lemma firstResult_all_fail prompt k fallback l :
  (forall strategy, In strategy l ->
     strategy prompt = None \/ strategy prompt = Some "") ->
  firstResult prompt k fallback l = fallback.
Proof.
  induction l as [|st l IH]; intros H; [reflexivity|]. simpl.
  destruct (H st (or_introl eq_refl)) as [-> | ->]; simpl;
    apply IH; intros st' Hst'; apply H; right; exact Hst'.
Qed.

Lemma strategies_fail backend prompt :
  allProvidersFail gemini ollama ->
  forall strategy, In strategy (strategies gemini ollama backend) ->
    strategy prompt = None \/ strategy prompt = Some "".
Proof.
  intros Hfail strategy Hin. destruct (Hfail prompt) as [Hg Ho].
  destruct backend; simpl in Hin; destruct Hin as [<-|[<-|[]]]; assumption.
Qed.

End ClassifierFacts.

(** C7 as stated fails when no prior topic exists: with both providers
    failing, the call answers "Conversation Start", not "SAME". *)
Lemma C7_no_prior_topic_not_SAME :
  let failing := fun _ : Prompt => @None string in
  allProvidersFail failing failing
  /\ analyzeTopicShift failing failing None
       [ {| role := "user"; content := "Hi" |} ] GEMINI = "Conversation Start"
  /\ "Conversation Start" <> "SAME".
Proof.
  split; [intros p; split; left; reflexivity|].
  split; [reflexivity|discriminate].
Qed.

(** C7, amended: when every configured provider fails, the classification
    answers "SAME" if there is a prior topic title (a non-empty string), and
    "Conversation Start" if there is none ([null], or the empty title). *)
Theorem C7_all_providers_fail (gemini ollama : Prompt -> option string)
    (currentTopic : option string) (newMessages : list Turn) (backend : Backend) :
  allProvidersFail gemini ollama ->
  analyzeTopicShift gemini ollama currentTopic newMessages backend
  = if truthy currentTopic then "SAME" else "Conversation Start".
Proof.
  intros Hfail. unfold analyzeTopicShift, generateInitialTitle.
  destruct currentTopic as [topic|]; simpl.
  - destruct (topic ==? ""); simpl;
      apply firstResult_all_fail; intros; eapply strategies_fail; eassumption.
  - apply firstResult_all_fail; intros; eapply strategies_fail; eassumption.
Qed.

(** C7 with a prior topic and both providers down. *)
Lemma C7_all_providers_fail_witness :
  allProvidersFail (fun _ => None) (fun _ => Some "")
  /\ analyzeTopicShift (fun _ => None) (fun _ => Some "") (Some "Dinner Ideas")
       [ {| role := "user"; content := "Let us do 1920s" |} ] OLLAMA = "SAME".
Proof.
  assert (H : allProvidersFail (fun _ => None) (fun _ => Some "")).
  { intros p. split; [left|right]; reflexivity. }
  split; [exact H|].
  exact (C7_all_providers_fail (fun _ => None) (fun _ => Some "") (Some "Dinner Ideas")
           [ {| role := "user"; content := "Let us do 1920s" |} ] OLLAMA H).
Defined.

(** A provider that answers is heard: the answer is trimmed, unquoted, and
    becomes "SAME" when it repeats the current topic. *)
Example analyzeTopicShift_answers :
  analyzeTopicShift (fun _ => Some " Party Invitation ") (fun _ => None)
    (Some "1920s Party") [] GEMINI = "Party Invitation"
  /\ analyzeTopicShift (fun _ => None) (fun _ => Some "dinner ideas")
       (Some "Dinner Ideas") [] GEMINI = "SAME".
Proof. split; reflexivity. Qed.

(* ------------------------------------------------------------------ *)
(** ** Chapter segmenter: the fold-in *)
(* ------------------------------------------------------------------ *)

Lemma findIndex_none {A} (p : A -> bool) l :
  (forall x, In x l -> p x = false) -> findIndex p l = -1.
Proof.
  induction l as [|y l IH]; intros H; [reflexivity|]. simpl.
  rewrite (H y (or_introl eq_refl)). rewrite IH by (intros; apply H; right; assumption).
  reflexivity.
Qed.

Lemma findLastIndex_range {A} (p : A -> bool) l :
  -1 <= findLastIndex p l < js_length l.
Proof.
  unfold js_length. induction l as [|x l IH]; simpl length; simpl findLastIndex; [lia|].
  destruct (findLastIndex p l >=? 0) eqn:E; zb E; [lia|].
  destruct (p x); lia.
Qed.

Lemma findLastIndex_none {A} (p : A -> bool) l :
  findLastIndex p l = -1 <-> forall x, In x l -> p x = false.
Proof.
  induction l as [|y l IH]; simpl; [intuition|].
  pose proof (findLastIndex_range p l) as R.
  destruct (findLastIndex p l >=? 0) eqn:E; zb E.
  - split; [lia|]. intros H.
    assert (findLastIndex p l = -1) by (apply IH; intros; apply H; right; assumption).
    lia.
  - assert (findLastIndex p l = -1) as Hl by lia.
    destruct (p y) eqn:Py.
    + split; [lia|]. intros H. rewrite (H y (or_introl eq_refl)) in Py. discriminate.
    + split; [|reflexivity]. intros _ x [<-|Hx]; [exact Py|].
      apply IH; assumption.
Qed.

Lemma js_nth_Some_range {A} (l : list A) i x :
  js_nth l i = Some x -> 0 <= i < js_length l.
Proof.
  unfold js_nth, js_length. destruct (i <? 0) eqn:E; [discriminate|]. zb E.
  intros H. assert (nth_error l (Z.to_nat i) <> None) as H' by congruence.
  apply nth_error_Some in H'. lia.
Qed.







(* ------------------------------------------------------------------ *)
(** ** Chapter segmenter: two batches on one thread *)
(* ------------------------------------------------------------------ *)

Lemma filter_notGhost_id (l : list Message) :
  (forall m, In m l -> m_id m <> GHOST_ID) -> List.filter notGhost l = l.
Proof.
  induction l as [|x l IH]; intros H; [reflexivity|]. simpl.
  unfold notGhost at 1.
  destruct (m_id x ==? GHOST_ID) eqn:E.
  - apply String.eqb_eq in E. destruct (H x (or_introl eq_refl) E).
  - simpl. f_equal. apply IH. intros; apply H; right; assumption.
Qed.

Lemma inThread_false_byStart thread ch m :
  inThread thread ch = false -> In m thread -> byStart (m_id m) ch = false.
Proof.
  unfold inThread, byStart, byId. intros H Hin.
  destruct (c_startMessageId ch ==? m_id m) eqn:E; [|reflexivity].
  apply String.eqb_eq in E.
  assert (existsb (fun m0 => m_id m0 ==? c_startMessageId ch) thread = true) as C.
  { apply existsb_exists. exists m. split; [exact Hin|]. apply String.eqb_eq. auto. }
  congruence.
Qed.

Lemma inThread_app_false l1 l2 ch :
  inThread (l1 ++ l2) ch = false -> inThread l1 ch = false.
Proof.
  unfold inThread. rewrite existsb_app. intros H.
  apply orb_false_iff in H as [H _]. exact H.
Qed.

(** A dispatch of the evaluation effect, when the thread holds no
    placeholder and the cursor is inside it. *)
Lemma evaluateThread_dispatch thread chaps cursor b rest :
  (forall m, In m thread -> m_id m <> GHOST_ID) ->
  0 <= cursor ->
  drop (Z.to_nat cursor) thread = b :: rest ->
  evaluateThread thread false chaps cursor
  = (js_length thread,
     Some {| d_currentTopic := match last chaps with
                               | Some c => Some (c_title c)
                               | None => None
                               end;
             d_contextBlock := map toTurn (b :: rest);
             d_bufferMessages := b :: rest;
             d_validMessages := thread;
             d_newMessagesCount := js_length (b :: rest) |}).
Proof.
  intros Hreal Hc Hdrop. unfold evaluateThread.
  assert (Hlen : js_length thread = cursor + js_length (b :: rest)).
  { unfold js_length. rewrite <- Hdrop, length_drop.
    assert (Z.to_nat cursor < length thread)%nat.
    { destruct (Nat.lt_ge_cases (Z.to_nat cursor) (length thread)) as [|G]; [assumption|].
      rewrite drop_ge in Hdrop by exact G. discriminate. }
    lia. }
  assert (Hpos : 1 <= js_length (b :: rest)) by (unfold js_length; simpl; lia).
  rewrite filter_notGhost_id by exact Hreal. cbn [negb andb].
  destruct (js_length thread >? 0) eqn:G; zb G; [|lia].
  destruct (cursor >? js_length thread) eqn:G2; zb G2; [lia|].
  replace (js_length thread - cursor) with (js_length (b :: rest)) by lia.
  destruct (js_length (b :: rest) >=? 1) eqn:G3; zb G3; [|lia].
  rewrite orb_true_r.
  unfold slice_from. destruct (cursor <? 0) eqn:G4; zb G4; [lia|].
  rewrite Hdrop.
  destruct (js_length (b :: rest) =? 0) eqn:G5; zb G5; [lia|]. reflexivity.
Qed.

Section TwoBatches.

Variables thread1 ext : list Message.
Variable chaps0 : list Chapter.
Variables b1 b2 : Message.
Variables rest1 rest2 : list Message.
Variable cursor0 : Z.

Hypothesis real : forall m, In m (thread1 ++ ext) -> m_id m <> GHOST_ID.
Hypothesis unique : List.NoDup (map m_id (thread1 ++ ext)).
Hypothesis cursor_ok : 0 <= cursor0.
Hypothesis batch1 : drop (Z.to_nat cursor0) thread1 = b1 :: rest1.
Hypothesis batch2 : ext = b2 :: rest2.
Hypothesis fresh : forall ch, In ch chaps0 -> inThread (thread1 ++ ext) ch = false.

Lemma b1_in_thread1 : In b1 thread1.
Proof.
  apply list_elem_of_In. apply (subseteq_drop (Z.to_nat cursor0)).
  rewrite batch1. left.
Qed.

Lemma no_manual_chapter m : In m (thread1 ++ ext) ->
  findIndex (byStart (m_id m)) chaps0 = -1.
Proof.
  intros Hm. apply findIndex_none. intros ch Hch.
  exact (inThread_false_byStart _ _ _ (fresh ch Hch) Hm).
Qed.

(** The first fold-in finds no chapter on the thread and creates one. *)
Lemma first_fold d1 now1 :
  d_bufferMessages d1 = b1 :: rest1 -> d_validMessages d1 = thread1 ->
  foldIn d1 "SAME" now1 chaps0 = chaps0 ++ [newChapter d1 "SAME" now1 b1].
Proof.
  intros Hb Hv. unfold foldIn. rewrite Hb, Hv.
  rewrite no_manual_chapter by (apply in_or_app; left; exact b1_in_thread1).
  cbn [js_nth Z.ltb Z.compare].
  assert (findLastIndex (inThread thread1) chaps0 = -1) as ->.
  { apply findLastIndex_none. intros ch Hch.
    exact (inThread_app_false _ _ _ (fresh ch Hch)). }
  destruct (("SAME" ==? "SAME") && (js_length chaps0 >? 0))%bool; reflexivity.
Qed.

End TwoBatches.

Lemma findIndex_unique (pre : list Message) b post :
  List.NoDup (map m_id (pre ++ b :: post)) ->
  findIndex (byId (m_id b)) (pre ++ b :: post) = js_length pre.
Proof.
  unfold js_length. induction pre as [|a pre IH]; intros Hnd.
  - simpl. unfold byId. rewrite String.eqb_refl. reflexivity.
  - simpl in Hnd. apply List.NoDup_cons_iff in Hnd as [Ha Hnd].
    cbn [app findIndex]. unfold byId at 1.
    destruct (m_id a ==? m_id b) eqn:E.
    + apply String.eqb_eq in E. exfalso. apply Ha. rewrite E, map_app.
      apply in_or_app. right. left. reflexivity.
    + rewrite (IH Hnd).
      destruct (Z.of_nat (length pre) <? 0) eqn:G; zb G; simpl length; lia.
Qed.

Lemma findIndex_first {A} (p : A -> bool) (l : list A) (i : nat) x :
  l !! i = Some x -> p x = true ->
  (forall (j : nat) y, (j < i)%nat -> l !! j = Some y -> p y = false) ->
  findIndex p l = Z.of_nat i.
Proof.
  revert i. induction l as [|y l IH]; intros [|i] Hx Hp Hbefore; simpl in *;
    try discriminate.
  - injection Hx as ->. rewrite Hp. reflexivity.
  - rewrite (Hbefore 0%nat y) by (try lia; reflexivity).
    rewrite (IH i Hx Hp)
      by (intros j z Hj Hz; apply (Hbefore (S j) z); [lia|exact Hz]).
    destruct (Z.of_nat i <? 0) eqn:E; zb E; lia.
Qed.

Lemma findLastIndex_last {A} (p : A -> bool) (l : list A) (i : nat) x :
  l !! i = Some x -> p x = true ->
  (forall (j : nat) y, (i < j)%nat -> l !! j = Some y -> p y = false) ->
  findLastIndex p l = Z.of_nat i.
Proof.
  revert i. induction l as [|y l IH]; intros [|i] Hx Hp Hafter; simpl in *;
    try discriminate.
  - injection Hx as ->.
    assert (findLastIndex p l = -1) as ->.
    { apply findLastIndex_none. intros z Hz.
      apply list_elem_of_In, list_elem_of_lookup in Hz as [j Hj].
      apply (Hafter (S j) z); [lia|exact Hj]. }
    cbn. rewrite Hp. reflexivity.
  - rewrite (IH i Hx Hp)
      by (intros j z Hj Hz; apply (Hafter (S j) z); [lia|exact Hz]).
    destruct (Z.of_nat i >=? 0) eqn:E; zb E; lia.
Qed.

Lemma findLastIndex_lookup {A} (p : A -> bool) (l : list A) :
  0 <= findLastIndex p l ->
  exists x, l !! Z.to_nat (findLastIndex p l) = Some x /\ p x = true.
Proof.
  induction l as [|y l IH]; simpl; [lia|].
  destruct (findLastIndex p l >=? 0) eqn:E; zb E.
  - intros _. destruct (IH E) as (x & Hx & Hp). exists x. split; [|exact Hp].
    replace (Z.to_nat (findLastIndex p l + 1)) with (S (Z.to_nat (findLastIndex p l)))
      by lia.
    exact Hx.
  - destruct (p y) eqn:Py; [|lia]. intros _. exists y. auto.
Qed.

Lemma inThread_spec thread ch :
  inThread thread ch = true <-> In (c_startMessageId ch) (map m_id thread).
Proof.
  unfold inThread, byId. rewrite existsb_exists, in_map_iff. split.
  - intros (m & Hm & E). apply String.eqb_eq in E. exists m. auto.
  - intros (m & E & Hm). exists m. split; [exact Hm|]. apply String.eqb_eq. exact E.
Qed.

Lemma inThread_app_l l1 l2 ch : inThread l1 ch = true -> inThread (l1 ++ l2) ch = true.
Proof. unfold inThread. rewrite existsb_app. intros ->. reflexivity. Qed.

(** The three paths of the fold-in of a "SAME" result. *)
Lemma foldIn_same_at d now prev b rest (i : nat) e :
  d_bufferMessages d = b :: rest ->
  prev !! i = Some e ->
  findIndex (byStart (m_id b)) prev = Z.of_nat i
  \/ (findIndex (byStart (m_id b)) prev = -1
      /\ findLastIndex (inThread (d_validMessages d)) prev = Z.of_nat i) ->
  foldIn d "SAME" now prev = <[i := extendChapter d (c_title e) e]> prev.
Proof.
  intros Hb He Hi. unfold foldIn. rewrite Hb.
  assert (Hn : js_nth prev (Z.of_nat i) = Some e).
  { rewrite js_nth_lookup by lia. rewrite Nat2Z.id. exact He. }
  destruct Hi as [-> | [-> ->]].
  - rewrite Hn, Nat2Z.id. reflexivity.
  - cbn [js_nth Z.ltb Z.compare].
    assert ((js_length prev >? 0) = true) as ->.
    { apply Z.gtb_lt. apply js_nth_Some_range in Hn. lia. }
    cbn [String.eqb Ascii.eqb Bool.eqb andb].
    rewrite Hn, Nat2Z.id. reflexivity.
Qed.

Lemma foldIn_same_cases d now prev b rest :
  d_bufferMessages d = b :: rest ->
  foldIn d "SAME" now prev = prev ++ [newChapter d "SAME" now b]
  \/ exists (i : nat) e,
       prev !! i = Some e
       /\ (c_startMessageId e = m_id b \/ inThread (d_validMessages d) e = true)
       /\ foldIn d "SAME" now prev = <[i := extendChapter d (c_title e) e]> prev.
Proof.
  intros Hb.
  pose proof (findIndex_range (byStart (m_id b)) prev) as R1.
  destruct (Z.eq_dec (findIndex (byStart (m_id b)) prev) (-1)) as [E1|E1].
  - pose proof (findLastIndex_range (inThread (d_validMessages d)) prev) as R2.
    destruct (Z.eq_dec (findLastIndex (inThread (d_validMessages d)) prev) (-1))
      as [E2|E2].
    + left. unfold foldIn. rewrite Hb, E1. cbn [js_nth Z.ltb Z.compare].
      rewrite E2. destruct (("SAME" ==? "SAME") && (js_length prev >? 0))%bool; reflexivity.
    + right.
      destruct (findLastIndex_lookup (inThread (d_validMessages d)) prev)
        as (e & He & Hp); [lia|].
      exists (Z.to_nat (findLastIndex (inThread (d_validMessages d)) prev)), e.
      split; [exact He|]. split; [right; exact Hp|].
      apply (foldIn_same_at d now prev b rest _ e Hb He). right.
      split; [exact E1|]. lia.
  - right.
    destruct (findIndex_lookup (byStart (m_id b)) prev) as (e & He & Hp); [lia|].
    exists (Z.to_nat (findIndex (byStart (m_id b)) prev)), e.
    split; [exact He|]. split.
    + left. unfold byStart in Hp. apply String.eqb_eq in Hp. exact Hp.
    + apply (foldIn_same_at d now prev b rest _ e Hb He). left. lia.
Qed.

(** The first message of the first batch is on the thread; that of the
    second batch is not on the thread of the first. *)
Lemma batch_heads (thread1 ext : list Message) b1 rest1 b2 rest2 (cursor0 : Z) :
  List.NoDup (map m_id (thread1 ++ ext)) ->
  drop (Z.to_nat cursor0) thread1 = b1 :: rest1 ->
  ext = b2 :: rest2 ->
  In b1 thread1 /\ ~ In (m_id b2) (map m_id thread1) /\ m_id b1 <> m_id b2.
Proof.
  intros Hnd Hb1 ->.
  assert (H1 : In b1 thread1).
  { apply list_elem_of_In. apply (subseteq_drop (Z.to_nat cursor0)).
    rewrite Hb1. left. }
  assert (H2 : ~ In (m_id b2) (map m_id thread1)).
  { intros Hin. rewrite map_app in Hnd. simpl in Hnd.
    apply NoDup_remove_2 in Hnd. apply Hnd. apply in_or_app. left. exact Hin. }
  split; [exact H1|]. split; [exact H2|].
  intros E. apply H2. rewrite <- E. apply in_map. exact H1.
Qed.

(** A "SAME" result extends the last chapter that starts in the thread,
    when no chapter starts at the first message of the batch. *)
Lemma foldIn_same_extends d now prev b rest (i : nat) e :
  d_bufferMessages d = b :: rest ->
  In b (d_validMessages d) ->
  prev !! i = Some e ->
  inThread (d_validMessages d) e = true ->
  (forall (j : nat) ch, (i < j)%nat -> prev !! j = Some ch ->
     inThread (d_validMessages d) ch = false) ->
  (forall (j : nat) ch, (j <= i)%nat -> prev !! j = Some ch ->
     c_startMessageId ch <> m_id b) ->
  foldIn d "SAME" now prev = <[i := extendChapter d (c_title e) e]> prev.
Proof.
  intros Hb Hin He Hthread Hlater Hearlier.
  apply (foldIn_same_at d now prev b rest i e Hb He). right. split.
  - apply findIndex_none. intros ch Hch.
    apply list_elem_of_In, list_elem_of_lookup in Hch as [j Hj].
    destruct (Nat.le_gt_cases j i) as [Hle|Hgt].
    + unfold byStart. apply String.eqb_neq. exact (Hearlier j ch Hle Hj).
    + exact (inThread_false_byStart _ _ _ (Hlater j ch Hgt Hj) Hin).
  - exact (findLastIndex_last _ _ i e He Hthread Hlater).
Qed.

Lemma insert_app_middle {A} (l : list A) (x y : A) (r : list A) :
  <[length l := y]> ((l ++ [x]) ++ r) = l ++ y :: r.
Proof.
  rewrite <- app_assoc. simpl.
  induction l as [|a l IH]; simpl; [reflexivity|]. f_equal. exact IH.
Qed.

Lemma insert_app_left {A} (l r : list A) (i : nat) (x : A) :
  (i < length l)%nat -> <[i := x]> (l ++ r) = <[i := x]> l ++ r.
Proof.
  revert i. induction l as [|a l IH]; intros [|i] Hi; simpl in *; try lia;
    [reflexivity|]. f_equal. apply IH. lia.
Qed.

(** The branch-switch effect leaves the cursor alone when it stands at the
    end of the last chapter that starts in the thread. *)
Lemma relocateCursor_keeps_between (thread pre : list Message) b post chaps0 c added
    streaming cursor :
  thread = pre ++ b :: post ->
  List.NoDup (map m_id thread) ->
  (forall ch, In ch (chaps0 ++ added) -> inThread thread ch = false) ->
  c_startMessageId c = m_id b ->
  cursor = Z.min (js_length thread) (js_length pre + c_messageCount c) ->
  relocateCursor thread streaming (chaps0 ++ c :: added) cursor = cursor.
Proof.
  intros -> Hnd Hfresh Hstart Hcur. unfold relocateCursor.
  assert (Hnone : forall l, (forall ch, In ch l -> inThread (pre ++ b :: post) ch = false) ->
            List.filter (inThread (pre ++ b :: post)) l = []).
  { induction l as [|ch l IH]; intros H; [reflexivity|]. simpl.
    rewrite (H ch (or_introl eq_refl)). apply IH.
    intros; apply H; right; assumption. }
  assert (List.filter (inThread (pre ++ b :: post)) (chaps0 ++ c :: added) = [c]) as ->.
  { rewrite List.filter_app.
    rewrite (Hnone chaps0) by (intros; apply Hfresh, in_or_app; left; assumption).
    simpl. rewrite (Hnone added) by (intros; apply Hfresh, in_or_app; right; assumption).
    replace (inThread (pre ++ b :: post) c) with true; [reflexivity|].
    symmetry. unfold inThread. apply existsb_exists. exists b.
    split; [apply in_or_app; right; left; reflexivity|].
    unfold byId. rewrite Hstart. apply String.eqb_refl. }
  cbn [last]. rewrite Hstart, (findIndex_unique pre b post Hnd).
  destruct (js_length pre =? -1) eqn:E; zb E; [unfold js_length in E; lia|].
  cbn [negb]. rewrite <- Hcur.
  destruct (cursor <? cursor) eqn:G1; zb G1; [lia|].
  destruct (cursor >? js_length (pre ++ b :: post)) eqn:G2; zb G2; [lia|].
  reflexivity.
Qed.

(** Both fold-ins extend the last chapter that starts on the thread. *)
Lemma same_chapter_twice (thread1 ext : list Message) (chaps0 added : list Chapter)
    (b1 b2 : Message) (rest1 rest2 : list Message) (d1 d2 : Dispatch) (now1 now2 : Z)
    (i : nat) e :
  In b1 thread1 ->
  ~ In (m_id b2) (map m_id thread1) ->
  d_bufferMessages d1 = b1 :: rest1 ->
  d_bufferMessages d2 = b2 :: rest2 ->
  d_validMessages d1 = thread1 ->
  d_validMessages d2 = thread1 ++ ext ->
  ext = b2 :: rest2 ->
  chaps0 !! i = Some e ->
  inThread thread1 e = true ->
  (forall (j : nat) ch, (i < j)%nat -> (chaps0 ++ added) !! j = Some ch ->
     inThread (thread1 ++ ext) ch = false) ->
  (forall (j : nat) ch, (j < i)%nat -> chaps0 !! j = Some ch ->
     c_startMessageId ch <> m_id b1 /\ c_startMessageId ch <> m_id b2) ->
  foldIn d1 "SAME" now1 chaps0 = <[i := extendChapter d1 (c_title e) e]> chaps0
  /\ foldIn d2 "SAME" now2 (foldIn d1 "SAME" now1 chaps0 ++ added)
     = <[i := extendChapter d2 (c_title e) (extendChapter d1 (c_title e) e)]> chaps0
       ++ added.
Proof.
  intros b1_on_thread b2_new buffer1 buffer2 valid1 valid2 ext_starts
    He Hin Hlater Hearlier.
  assert (Hb2 : In b2 (thread1 ++ ext)).
  { apply in_or_app. right. rewrite ext_starts. left. reflexivity. }
  assert (Hi : (i < length chaps0)%nat) by (apply lookup_lt_Some in He; exact He).
  assert (He_b2 : c_startMessageId e <> m_id b2).
  { intros E. apply b2_new. rewrite <- E. apply inThread_spec. exact Hin. }
  assert (Hlater0 : forall (j : nat) ch, (i < j)%nat -> chaps0 !! j = Some ch ->
            inThread (thread1 ++ ext) ch = false).
  { intros j ch Hj Hch. apply (Hlater j ch Hj).
    rewrite lookup_app_l by (apply lookup_lt_Some in Hch; exact Hch). exact Hch. }
  assert (F1 : foldIn d1 "SAME" now1 chaps0 = <[i := extendChapter d1 (c_title e) e]> chaps0).
  { destruct (byStart (m_id b1) e) eqn:Eb.
    - apply (foldIn_same_at d1 now1 chaps0 b1 rest1 i e buffer1 He). left.
      apply (findIndex_first _ _ i e He Eb).
      intros j y Hj Hy. unfold byStart. apply String.eqb_neq.
      exact (proj1 (Hearlier j y Hj Hy)).
    - apply (foldIn_same_extends d1 now1 chaps0 b1 rest1 i e buffer1).
      + rewrite valid1. exact b1_on_thread.
      + exact He.
      + rewrite valid1. exact Hin.
      + rewrite valid1. intros j ch Hj Hch.
        exact (inThread_app_false _ _ _ (Hlater0 j ch Hj Hch)).
      + intros j ch Hj Hch. destruct (Nat.eq_dec j i) as [->|Hne].
        * rewrite He in Hch. injection Hch as <-.
          unfold byStart in Eb. apply String.eqb_neq. exact Eb.
        * apply (Hearlier j ch); [lia|exact Hch]. }
  split; [exact F1|]. rewrite F1.
  set (e1 := extendChapter d1 (c_title e) e).
  assert (He1 : (<[i := e1]> chaps0 ++ added) !! i = Some e1).
  { rewrite lookup_app_l by (rewrite length_insert; exact Hi).
    apply list_lookup_insert_eq. exact Hi. }
  rewrite (foldIn_same_extends d2 now2 (<[i := e1]> chaps0 ++ added) b2 rest2 i e1
             buffer2).
  - rewrite insert_app_left by (rewrite length_insert; exact Hi).
    rewrite list_insert_insert_eq. reflexivity.
  - rewrite valid2. exact Hb2.
  - exact He1.
  - rewrite valid2. apply inThread_app_l. exact Hin.
  - rewrite valid2. intros j ch Hj Hch. apply (Hlater j ch Hj).
    destruct (Nat.lt_ge_cases j (length chaps0)) as [Hlt|Hge].
    + rewrite lookup_app_l in Hch by (rewrite length_insert; exact Hlt).
      rewrite list_lookup_insert_ne in Hch by lia.
      rewrite lookup_app_l by exact Hlt. exact Hch.
    + rewrite lookup_app_r in Hch by (rewrite length_insert; exact Hge).
      rewrite length_insert in Hch. rewrite lookup_app_r by exact Hge. exact Hch.
  - intros j ch Hj Hch.
    rewrite lookup_app_l in Hch by (rewrite length_insert; lia).
    destruct (Nat.eq_dec j i) as [->|Hne].
    + rewrite list_lookup_insert_eq in Hch by exact Hi. injection Hch as <-. exact He_b2.
    + rewrite list_lookup_insert_ne in Hch by congruence.
      apply (Hearlier j ch); [lia|exact Hch].
Qed.

(** A chapter of the list before that starts at the first message of the
    second batch is left alone by the first fold-in. *)
Lemma first_fold_spares (thread1 : list Message) (chaps0 : list Chapter)
    (b1 b2 : Message) (rest1 : list Message) (d1 : Dispatch) (now1 : Z)
    (k : nat) e2 :
  In b1 thread1 ->
  ~ In (m_id b2) (map m_id thread1) ->
  d_bufferMessages d1 = b1 :: rest1 ->
  d_validMessages d1 = thread1 ->
  (k < length chaps0)%nat ->
  foldIn d1 "SAME" now1 chaps0 !! k = Some e2 ->
  c_startMessageId e2 = m_id b2 ->
  chaps0 !! k = Some e2.
Proof.
  intros b1_on_thread b2_new buffer1 valid1 Hk He2 Hstart.
  assert (Hb1b2 : m_id b1 <> m_id b2).
  { intros E. apply b2_new. rewrite <- E. apply in_map. exact b1_on_thread. }
  destruct (foldIn_same_cases d1 now1 chaps0 b1 rest1 buffer1)
    as [F|(i & e & He & Hwhy & F)]; rewrite F in He2.
  - rewrite lookup_app_l in He2 by exact Hk. exact He2.
  - destruct (Nat.eq_dec k i) as [->|Hne].
    + exfalso. rewrite list_lookup_insert_eq in He2 by exact Hk.
      injection He2 as <-. cbn [c_startMessageId extendChapter] in Hstart.
      destruct Hwhy as [E|E].
      * rewrite E in Hstart. exact (Hb1b2 Hstart).
      * rewrite valid1 in E. apply inThread_spec in E. rewrite Hstart in E.
        exact (b2_new E).
    + rewrite list_lookup_insert_ne in He2 by congruence. exact He2.
Qed.

Lemma foldIn_same_length d now prev b rest :
  d_bufferMessages d = b :: rest ->
  (length prev <= length (foldIn d "SAME" now prev))%nat.
Proof.
  intros Hb.
  destruct (foldIn_same_cases d now prev b rest Hb) as [->|(i & e & _ & _ & ->)].
  - rewrite length_app. lia.
  - rewrite length_insert. lia.
Qed.

(** The branch-switch effect leaves a cursor at the end of the thread
    alone. *)
Lemma relocateCursor_at_end (thread : list Message) streaming chaps :
  relocateCursor thread streaming chaps (js_length thread) = js_length thread.
Proof.
  unfold relocateCursor.
  destruct (last (List.filter (inThread thread) chaps)) as [lastChap|].
  - destruct (negb (findIndex (byId (c_startMessageId lastChap)) thread =? -1));
      [|reflexivity].
    cbv zeta.
    set (safe := Z.min (js_length thread) _).
    destruct (js_length thread <? safe) eqn:G1; zb G1; [unfold safe in G1; lia|].
    destruct (js_length thread >? js_length thread) eqn:G2; zb G2; [lia|].
    reflexivity.
  - destruct (js_length thread <? js_length thread) eqn:G; zb G; [lia|].
    rewrite andb_false_r. reflexivity.
Qed.

(** C5 as stated fails, in two ways.  First, the message that opens the
    second batch may have been submitted as a branch: [handleSendMessage]
    then appends a chapter that starts at it, with a message count of 0.
    The first path of the fold-in writes the second batch into that chapter,
    and the list ends with two chapters, one per batch.  Second, when a
    chapter of the thread exists before the first batch, both batches extend
    it, and its message count is its earlier count plus the two batch sizes
    (here 2 + 2 + 2), not their sum. *)
Lemma C5_two_batches_two_chapters :
  (exists d1 d2,
     let eager := newBranchChapter "How long do they live" "m2" 5 in
     let greeting :=
       {| c_id := "chap-7"; c_title := "Greeting"; c_category := REFINEMENT;
          c_startMessageId := "m1"; c_messageCount := 2;
          c_subtopics := ["Tell me about cats"] |} in
     evaluateThread hiThread false [] 0 = (2, Some d1)
     /\ d_bufferMessages d1 = hiThread
     /\ foldIn d1 "SAME" 7 [] = [greeting]
     /\ evaluateThread (hiThread ++ catsThread) false [greeting; eager] 2 = (4, Some d2)
     /\ d_bufferMessages d2 = catsThread
     /\ foldIn d2 "SAME" 8 [greeting; eager]
        = [ greeting;
            {| c_id := "chap-5"; c_title := "Branch: How long do the...";
               c_category := DECISION; c_startMessageId := "m2";
               c_messageCount := 2; c_subtopics := ["How long do they live"] |} ])
  /\ (exists d1 d2,
        let greeting :=
          {| c_id := "chap-3"; c_title := "Greeting"; c_category := REFINEMENT;
             c_startMessageId := "m1"; c_messageCount := 2;
             c_subtopics := ["Tell me about cats"] |} in
        let more :=
          [ mk "m3" (Some "r2") USER 10; mk "r3" (Some "m3") ASSISTANT 11 ] in
        evaluateThread (hiThread ++ catsThread) false [greeting] 2 = (4, Some d1)
        /\ d_bufferMessages d1 = catsThread
        /\ evaluateThread (hiThread ++ catsThread ++ more) false
             (foldIn d1 "SAME" 8 [greeting]) 4 = (6, Some d2)
        /\ d_bufferMessages d2 = more
        /\ foldIn d2 "SAME" 12 (foldIn d1 "SAME" 8 [greeting])
           = [ {| c_id := "chap-3"; c_title := "Greeting"; c_category := REFINEMENT;
                  c_startMessageId := "m1"; c_messageCount := 6;
                  c_subtopics := ["Tell me about cats"; "How long do they live"] |} ]).
Proof.
  split; eexists; eexists; repeat split; vm_compute; reflexivity.
Qed.

(** C5, amended: two consecutive batches of one thread, both answered
    "SAME"; [added] are the chapters appended to the list between the two
    fold-ins, as [handleSendMessage] does for a branch.  The thread holds no
    placeholder and its ids are distinct.  The first evaluation dispatches
    the messages from the cursor on; after the thread has grown by [ext], the
    second evaluation dispatches [ext].  Then:
    - if no chapter of the list, and none of the appended ones, starts in the
      thread, the first fold-in appends one chapter that starts at the first
      message of the first batch, and the second appends nothing: it extends
      that same chapter, the last one that starts in the thread, whose
      message count becomes the sum of the two batch sizes; the branch-switch
      effect, which runs when the chapter list changes, leaves the cursor
      where the evaluations put it;
    - if the chapter [e] at position [i] is the last one that starts in the
      thread, the appended ones included, and no chapter before it starts at
      the first message of either batch, both fold-ins extend [e]: nothing
      is appended, and the message count of [e] grows by the sum of the two
      batch sizes (it equals that sum when the count was 0, as for a chapter
      created eagerly at the first message of the first batch);
    - if a chapter starts at the first message of the second batch, the
      second fold-in extends the first such chapter by the size of the
      second batch alone, and the first fold-in had left that chapter as it
      was: the two batches are counted in two chapters. *)
Theorem C5_same_twice_one_chapter
    (thread1 ext : list Message) (chaps0 added : list Chapter)
    (b1 b2 : Message) (rest1 rest2 : list Message) (cursor0 now1 now2 : Z) :
  (forall m, In m (thread1 ++ ext) -> m_id m <> GHOST_ID) ->
  List.NoDup (map m_id (thread1 ++ ext)) ->
  0 <= cursor0 ->
  drop (Z.to_nat cursor0) thread1 = b1 :: rest1 ->
  ext = b2 :: rest2 ->
  exists d1 d2,
    evaluateThread thread1 false chaps0 cursor0 = (js_length thread1, Some d1)
    /\ d_bufferMessages d1 = b1 :: rest1
    /\ evaluateThread (thread1 ++ ext) false (foldIn d1 "SAME" now1 chaps0 ++ added)
         (js_length thread1)
       = (js_length (thread1 ++ ext), Some d2)
    /\ d_bufferMessages d2 = ext
    /\ ((forall ch, In ch (chaps0 ++ added) -> inThread (thread1 ++ ext) ch = false) ->
        exists c,
          foldIn d2 "SAME" now2 (foldIn d1 "SAME" now1 chaps0 ++ added)
          = chaps0 ++ c :: added
          /\ length (foldIn d2 "SAME" now2 (foldIn d1 "SAME" now1 chaps0 ++ added))
             = length (foldIn d1 "SAME" now1 chaps0 ++ added)
          /\ c_startMessageId c = m_id b1
          /\ c_messageCount c = js_length (b1 :: rest1) + js_length ext
          /\ (forall streaming,
                relocateCursor thread1 streaming (foldIn d1 "SAME" now1 chaps0)
                  (js_length thread1) = js_length thread1
                /\ relocateCursor (thread1 ++ ext) streaming
                     (foldIn d1 "SAME" now1 chaps0 ++ added) (js_length thread1)
                   = js_length thread1
                /\ relocateCursor (thread1 ++ ext) streaming
                     (foldIn d2 "SAME" now2 (foldIn d1 "SAME" now1 chaps0 ++ added))
                     (js_length (thread1 ++ ext)) = js_length (thread1 ++ ext)))
    /\ (forall (i : nat) e,
          chaps0 !! i = Some e ->
          inThread thread1 e = true ->
          (forall (j : nat) ch, (i < j)%nat -> (chaps0 ++ added) !! j = Some ch ->
             inThread (thread1 ++ ext) ch = false) ->
          (forall (j : nat) ch, (j < i)%nat -> chaps0 !! j = Some ch ->
             c_startMessageId ch <> m_id b1 /\ c_startMessageId ch <> m_id b2) ->
          exists c,
            foldIn d2 "SAME" now2 (foldIn d1 "SAME" now1 chaps0 ++ added)
            = <[i := c]> chaps0 ++ added
            /\ c_id c = c_id e /\ c_title c = c_title e
            /\ c_startMessageId c = c_startMessageId e
            /\ c_messageCount c
               = c_messageCount e + js_length (b1 :: rest1) + js_length ext)
    /\ (forall (k : nat) e2,
          (foldIn d1 "SAME" now1 chaps0 ++ added) !! k = Some e2 ->
          c_startMessageId e2 = m_id b2 ->
          (forall (j : nat) ch, (j < k)%nat ->
             (foldIn d1 "SAME" now1 chaps0 ++ added) !! j = Some ch ->
             c_startMessageId ch <> m_id b2) ->
          ((k < length chaps0)%nat -> chaps0 !! k = Some e2)
          /\ exists c,
               foldIn d2 "SAME" now2 (foldIn d1 "SAME" now1 chaps0 ++ added)
               = <[k := c]> (foldIn d1 "SAME" now1 chaps0 ++ added)
               /\ c_id c = c_id e2 /\ c_title c = c_title e2
               /\ c_startMessageId c = m_id b2
               /\ c_messageCount c = c_messageCount e2 + js_length ext).
Proof.
  intros Hreal Huniq Hc Hb1 Hext.
  set (pre := take (Z.to_nat cursor0) thread1).
  assert (Hsplit : thread1 = pre ++ b1 :: rest1).
  { rewrite <- Hb1. symmetry. apply take_drop. }
  assert (Hsplit2 : thread1 ++ ext = pre ++ b1 :: (rest1 ++ ext)).
  { transitivity ((pre ++ b1 :: rest1) ++ ext); [f_equal; exact Hsplit|].
    rewrite <- app_assoc. reflexivity. }
  assert (Hk : js_length pre + js_length (b1 :: rest1) = js_length thread1).
  { pose proof (f_equal length Hsplit) as HL. rewrite length_app in HL.
    unfold js_length. lia. }
  assert (E1 := evaluateThread_dispatch thread1 chaps0 cursor0 b1 rest1
                  (fun m Hm => Hreal m (in_or_app _ _ _ (or_introl Hm))) Hc Hb1).
  assert (Hdrop2 : drop (Z.to_nat (js_length thread1)) (thread1 ++ ext) = b2 :: rest2).
  { unfold js_length. rewrite Nat2Z.id, drop_app_length. exact Hext. }
  assert (Hpos : 0 <= js_length thread1) by (unfold js_length; lia).
  destruct (batch_heads thread1 ext b1 rest1 b2 rest2 cursor0 Huniq Hb1 Hext)
    as (Hin1 & Hnew2 & Hb1b2).
  assert (Hb2 : In b2 (thread1 ++ ext)).
  { apply in_or_app. right. rewrite Hext. left. reflexivity. }
  rewrite E1. eexists. eexists.
  split; [reflexivity|]. split; [reflexivity|].
  split; [apply (evaluateThread_dispatch (thread1 ++ ext) _ _ b2 rest2 Hreal Hpos Hdrop2)|].
  split; [symmetry; exact Hext|].
  assert (Hn1 : (if js_length (b1 :: rest1) =? 0 then 1 else js_length (b1 :: rest1))
                = js_length (b1 :: rest1)).
  { destruct (js_length (b1 :: rest1) =? 0) eqn:Z0; zb Z0; [|reflexivity].
    unfold js_length in Z0. simpl in Z0. lia. }
  split; [|split].
  - intros Hfresh.
    assert (Hfresh0 : forall ch, In ch chaps0 -> inThread (thread1 ++ ext) ch = false)
      by (intros; apply Hfresh, in_or_app; left; assumption).
    erewrite (first_fold thread1 ext chaps0 b1 rest1 cursor0 Hb1 Hfresh0) by reflexivity.
    match goal with |- context [chaps0 ++ [?C1]] => set (c1 := C1) end.
    erewrite (foldIn_same_extends _ now2 ((chaps0 ++ [c1]) ++ added) b2 rest2
                (length chaps0) c1).
    + rewrite insert_app_middle. eexists. split; [reflexivity|].
      split; [rewrite !length_app; simpl; lia|].
      split; [reflexivity|].
      split.
      { cbn [c_messageCount extendChapter newChapter d_newMessagesCount c1].
        rewrite Hext, Hn1. reflexivity. }
      intros streaming. split; [|split].
      * apply relocateCursor_at_end.
      * rewrite <- app_assoc.
        apply (relocateCursor_keeps_between (thread1 ++ ext) pre b1 (rest1 ++ ext));
          [exact Hsplit2|exact Huniq|exact Hfresh|reflexivity|].
        cbn [c_messageCount newChapter d_newMessagesCount c1]. rewrite Hn1.
        assert (js_length (thread1 ++ ext) = js_length thread1 + js_length ext)
          by (unfold js_length; rewrite length_app; lia).
        assert (0 <= js_length ext) by (unfold js_length; lia).
        lia.
      * apply relocateCursor_at_end.
    + reflexivity.
    + exact Hb2.
    + rewrite <- app_assoc. apply list_lookup_middle. reflexivity.
    + cbn [d_validMessages]. unfold inThread. apply existsb_exists. exists b1.
      split; [apply in_or_app; left; exact Hin1|].
      unfold byId. cbn [c_startMessageId newChapter c1]. apply String.eqb_refl.
    + cbn [d_validMessages]. intros j ch Hj Hch. apply Hfresh. apply in_or_app. right.
      rewrite lookup_app_r in Hch by (rewrite length_app; simpl; lia).
      apply list_elem_of_In. exact (list_elem_of_lookup_2 _ _ _ Hch).
    + intros j ch Hj Hch. rewrite <- app_assoc in Hch. cbn [app] in Hch.
      destruct (Nat.eq_dec j (length chaps0)) as [->|Hne].
      * rewrite list_lookup_middle in Hch by reflexivity. injection Hch as <-.
        cbn [c_startMessageId newChapter c1]. exact Hb1b2.
      * rewrite lookup_app_l in Hch by lia.
        apply list_elem_of_lookup_2, list_elem_of_In in Hch.
        pose proof (inThread_false_byStart _ _ _ (Hfresh0 ch Hch) Hb2) as Hf.
        unfold byStart in Hf. apply String.eqb_neq. exact Hf.
  - intros i e He Hin Hlater Hearlier.
    match goal with
    | |- context [foldIn ?D2 "SAME" now2 (foldIn ?D1 "SAME" now1 chaps0 ++ added)] =>
      destruct (same_chapter_twice thread1 ext chaps0 added b1 b2 rest1 rest2 D1 D2
                  now1 now2 i e Hin1 Hnew2 eq_refl eq_refl eq_refl eq_refl Hext
                  He Hin Hlater Hearlier)
        as [_ ->] end.
    eexists. split; [reflexivity|].
    cbn [c_id c_title c_startMessageId c_messageCount extendChapter d_newMessagesCount].
    rewrite Hext. repeat split; reflexivity.
  - intros k e2 He2 Hstart Hearlier. split.
    + intros Hlt.
      match type of He2 with
      | (foldIn ?D1 _ _ _ ++ _) !! _ = _ =>
          apply (first_fold_spares thread1 chaps0 b1 b2 rest1 D1 now1 k e2 Hin1 Hnew2
                   eq_refl eq_refl Hlt); [|exact Hstart];
          pose proof (foldIn_same_length D1 now1 chaps0 b1 rest1 eq_refl) as Hlen
      end.
      rewrite lookup_app_l in He2 by lia. exact He2.
    + eexists. split.
      * eapply (foldIn_same_at _ now2 _ b2 rest2 k e2); [reflexivity|exact He2|].
        left. apply (findIndex_first _ _ k e2 He2).
        -- unfold byStart. rewrite Hstart. apply String.eqb_refl.
        -- intros j y Hj Hy. unfold byStart. apply String.eqb_neq.
           exact (Hearlier j y Hj Hy).
      * cbn [c_id c_title c_startMessageId c_messageCount extendChapter
                d_newMessagesCount].
        rewrite Hext. repeat split; try reflexivity. exact Hstart.
Qed.

(** C5 on a thread of two exchanges: from an empty chapter list; from the
    chapter created eagerly at the first message; and with a chapter
    created eagerly at the third message, between the two fold-ins. *)
Lemma C5_same_twice_one_chapter_witness :
  (exists d1 d2 c,
     evaluateThread hiThread false [] 0 = (2, Some d1)
     /\ evaluateThread (hiThread ++ catsThread) false (foldIn d1 "SAME" 7 [] ++ []) 2
        = (4, Some d2)
     /\ foldIn d2 "SAME" 8 (foldIn d1 "SAME" 7 [] ++ []) = [c]
     /\ c_startMessageId c = "m1"
     /\ c_messageCount c = 4)
  /\ (exists d1 d2 c,
        evaluateThread hiThread false [newBranchChapter "Tell me about cats" "m1" 2] 0
        = (2, Some d1)
        /\ evaluateThread (hiThread ++ catsThread) false
             (foldIn d1 "SAME" 7 [newBranchChapter "Tell me about cats" "m1" 2] ++ []) 2
           = (4, Some d2)
        /\ foldIn d2 "SAME" 8
             (foldIn d1 "SAME" 7 [newBranchChapter "Tell me about cats" "m1" 2] ++ [])
           = [c]
        /\ c_startMessageId c = "m1"
        /\ c_messageCount c = 0 + 2 + 2)
  /\ (exists d1 d2 c,
        evaluateThread hiThread false [] 0 = (2, Some d1)
        /\ evaluateThread (hiThread ++ catsThread) false
             (foldIn d1 "SAME" 7 []
              ++ [newBranchChapter "How long do they live" "m2" 5]) 2
           = (4, Some d2)
        /\ foldIn d2 "SAME" 8
             (foldIn d1 "SAME" 7 []
              ++ [newBranchChapter "How long do they live" "m2" 5])
           = <[1%nat := c]>
               (foldIn d1 "SAME" 7 []
                ++ [newBranchChapter "How long do they live" "m2" 5])
        /\ c_startMessageId c = "m2"
        /\ c_messageCount c = 0 + 2).
Proof.
  split; [|split].
  - destruct (C5_same_twice_one_chapter hiThread catsThread [] []
                (hd (mk "" None USER 0) hiThread) (hd (mk "" None USER 0) catsThread)
                (tl hiThread) (tl catsThread) 0 7 8)
      as (d1 & d2 & E1 & _ & E2 & _ & A & _).
    + intros m Hm. vm_compute in Hm.
      repeat (destruct Hm as [<-|Hm]; [vm_compute; discriminate|]). destruct Hm.
    + vm_compute. repeat constructor; simpl; intuition discriminate.
    + lia.
    + reflexivity.
    + reflexivity.
    + destruct A as (c & F & _ & Hs & Hc & _); [intros ch []|].
      exists d1, d2, c. repeat split; assumption.
  - destruct (C5_same_twice_one_chapter hiThread catsThread
                [newBranchChapter "Tell me about cats" "m1" 2] []
                (hd (mk "" None USER 0) hiThread) (hd (mk "" None USER 0) catsThread)
                (tl hiThread) (tl catsThread) 0 7 8)
      as (d1 & d2 & E1 & _ & E2 & _ & _ & B & _).
    + intros m Hm. vm_compute in Hm.
      repeat (destruct Hm as [<-|Hm]; [vm_compute; discriminate|]). destruct Hm.
    + vm_compute. repeat constructor; simpl; intuition discriminate.
    + lia.
    + reflexivity.
    + reflexivity.
    + destruct (B 0%nat (newBranchChapter "Tell me about cats" "m1" 2))
        as (c & F & _ & _ & Hs & Hc).
      * reflexivity.
      * reflexivity.
      * intros [|j] ch Hj Hch; [lia|discriminate].
      * intros j ch Hj; lia.
      * exists d1, d2, c. repeat split; assumption.
  - destruct (C5_same_twice_one_chapter hiThread catsThread []
                [newBranchChapter "How long do they live" "m2" 5]
                (hd (mk "" None USER 0) hiThread) (hd (mk "" None USER 0) catsThread)
                (tl hiThread) (tl catsThread) 0 7 8)
      as (d1 & d2 & E1 & _ & E2 & _ & _ & _ & C).
    + intros m Hm. vm_compute in Hm.
      repeat (destruct Hm as [<-|Hm]; [vm_compute; discriminate|]). destruct Hm.
    + vm_compute. repeat constructor; simpl; intuition discriminate.
    + lia.
    + reflexivity.
    + reflexivity.
    + assert (Ed : Some d1
                   = Some {| d_currentTopic := None;
                             d_contextBlock := map toTurn hiThread;
                             d_bufferMessages := hiThread;
                             d_validMessages := hiThread;
                             d_newMessagesCount := 2 |}).
      { apply (f_equal snd) in E1. symmetry. exact E1. }
      injection Ed as Ed.
      destruct (C 1%nat (newBranchChapter "How long do they live" "m2" 5))
        as (_ & c & F & _ & _ & Hs & Hc).
      * rewrite Ed. reflexivity.
      * reflexivity.
      * rewrite Ed. intros [|j] ch Hj Hch; [|lia].
        vm_compute in Hch. injection Hch as <-. discriminate.
      * exists d1, d2, c. repeat split; assumption.
Defined.

(* ------------------------------------------------------------------ *)
(** ** Graph layout: trees of groups *)
(* ------------------------------------------------------------------ *)

(** Induction on a tree of groups, with the children as a list. *)
Lemma GTree_ind (P : GTree -> Prop) :
  (forall g cs, Forall P cs -> P (GNode g cs)) -> forall t, P t.
Proof.
  intros Hnode. fix IH 1. intros [g cs]. apply Hnode.
  induction cs as [|c cs IHcs]; constructor; [apply IH|exact IHcs].
Qed.

Lemma wfTree_node depth g cs :
  wfTree depth (GNode g cs)
  <-> g_depth g = depth /\ g_childrenIds g = map treeId cs
      /\ Forall (wfTree (depth + 1)) cs.
Proof.
  simpl. 
  assert (forall l, (fix all (l : list GTree) : Prop :=
                       match l with
                       | [] => True
                       | c :: l' => wfTree (depth + 1) c /\ all l'
                       end) l <-> Forall (wfTree (depth + 1)) l) as H.
  { induction l as [|c l IH]; [split; auto|].
    rewrite Forall_cons_iff, IH. reflexivity. }
  rewrite H. reflexivity.
Qed.

Lemma layoutTree_node g cs startY :
  layoutTree (GNode g cs) startY
  = let '(cs', total) := layoutForest cs startY in
    match head cs', last cs' with
    | Some firstChild, Some lastChild =>
        (GNode (set_y g ((g_y (rootNode firstChild) + g_y (rootNode lastChild)) / 2)%Q)
           cs', total)
    | _, _ => (GNode (set_y g startY) [], 1)
    end.
Proof.
  simpl.
  assert (forall l y,
     (fix each (l : list GTree) (currentY : Q) : list GTree * Z :=
        match l with
        | [] => ([], 0)
        | c :: l' =>
            let '(c', h) := layoutTree c currentY in
            let '(l'', hs) := each l' (currentY + inject_Z (h * Y_SPACING))%Q in
            (c' :: l'', h + hs)
        end) l y = layoutForest l y) as H.
  { induction l as [|c l IH]; intros y; [reflexivity|].
    simpl. destruct (layoutTree c y) as [c' h]. rewrite IH. reflexivity. }
  rewrite H. reflexivity.
Qed.

Lemma flatten_node g cs : flatten (GNode g cs) = g :: flattenF cs.
Proof. reflexivity. Qed.

Lemma flattenF_cons c cs : flattenF (c :: cs) = flatten c ++ flattenF cs.
Proof. reflexivity. Qed.

Lemma movedTo_set_y g y : movedTo g (set_y g y).
Proof. reflexivity. Qed.

Lemma layoutForest_length cs : forall y,
  length (layoutForest cs y).1 = length cs.
Proof.
  induction cs as [|c cs IH]; intros y; [reflexivity|]. simpl.
  destruct (layoutTree c y) as [c' h].
  specialize (IH (y + inject_Z (h * Y_SPACING))%Q).
  destruct (layoutForest cs _) as [l' hs]. simpl in *. congruence.
Qed.

(** The layout moves groups and changes nothing else: the laid-out tree
    flattens to the same groups, each with its new [y]. *)
Lemma layoutTree_moves t : forall y,
  Forall2 movedTo (flatten t) (flatten (layoutTree t y).1).
Proof.
  induction t as [g cs IH] using GTree_ind. intros y.
  rewrite layoutTree_node.
  assert (forall y, Forall2 movedTo (flattenF cs) (flattenF (layoutForest cs y).1)) as HF.
  { clear y. induction IH as [|c cs Hc _ IHcs]; intros y; [constructor|].
    cbn [layoutForest]. specialize (Hc y). destruct (layoutTree c y) as [c' h].
    specialize (IHcs (y + inject_Z (h * Y_SPACING))%Q).
    destruct (layoutForest cs _) as [l' hs]. cbn [fst] in *.
    rewrite !flattenF_cons. apply Forall2_app; assumption. }
  specialize (HF y). pose proof (layoutForest_length cs y) as HL.
  destruct (layoutForest cs y) as [cs' total]. cbn [fst] in *.
  destruct cs' as [|c1 cs1].
  - destruct cs; [|discriminate]. cbn [head last fst].
    rewrite !flatten_node. constructor; [apply movedTo_set_y|constructor].
  - cbn [head]. destruct (last (c1 :: cs1)) as [cl|] eqn:L.
    + cbn [fst]. rewrite !flatten_node.
      constructor; [apply movedTo_set_y|exact HF].
    + apply last_None in L. discriminate.
Qed.

Lemma layoutTree_size t y :
  length (flatten (layoutTree t y).1) = length (flatten t).
Proof. symmetry. eapply Forall2_length, layoutTree_moves. Qed.

Lemma movedTo_zip l l' :
  Forall2 movedTo l l' -> zip_with set_y l (map g_y l') = l'.
Proof.
  induction 1 as [|g g' l l' H _ IH]; [reflexivity|].
  simpl. rewrite IH. f_equal. symmetry. exact H.
Qed.

(* ------------------------------------------------------------------ *)
(** ** Graph layout: the array of groups and its map *)
(* ------------------------------------------------------------------ *)

Lemma groupMapFrom_other gs : forall k m i,
  ~ In i (map g_id gs) -> groupMapFrom k gs m !! i = m !! i.
Proof.
  induction gs as [|g gs IH]; intros k m i Hi; [reflexivity|].
  simpl. rewrite IH by (intros H; apply Hi; right; exact H).
  apply lookup_insert_ne. intros E. apply Hi. left. exact E.
Qed.

(** With distinct ids, the map sends every id to the group that has it and
    to its place in the array. *)
Lemma groupMapFrom_lookup gs : forall k m (i : nat) g,
  List.NoDup (map g_id gs) -> gs !! i = Some g ->
  groupMapFrom k gs m !! g_id g = Some ((k + i)%nat, g).
Proof.
  induction gs as [|g0 gs IH]; intros k m i g Hnd Hi; [discriminate|].
  simpl in Hnd. apply NoDup_cons_iff in Hnd as [Hnotin Hnd].
  destruct i as [|i]; simpl in Hi.
  - injection Hi as <-. simpl. rewrite groupMapFrom_other by exact Hnotin.
    rewrite lookup_insert_eq. rewrite Nat.add_0_r. reflexivity.
  - simpl. rewrite (IH (S k) _ i g Hnd Hi). rewrite Nat.add_succ_r. reflexivity.
Qed.

Lemma insert_middle {A} (l : list A) (x v : A) (r : list A) (off : nat) :
  length l = off -> <[ off := v ]> (l ++ x :: r) = l ++ v :: r.
Proof.
  intros <-. induction l as [|a l IH]; simpl; [reflexivity|]. f_equal. exact IH.
Qed.

Lemma lookup_middle {A} (l : list A) (x : A) (r : list A) (off : nat) :
  length l = off -> (l ++ x :: r) !! off = Some x.
Proof. intros <-. apply list_lookup_middle. reflexivity. Qed.

Lemma omap_cons_Some {A B} (f : A -> option B) x y l :
  f x = Some y -> omap f (x :: l) = y :: omap f l.
Proof. intros H. change (omap f (x :: l)) with
  (match f x with Some y => y :: omap f l | None => omap f l end).
  rewrite H. reflexivity. Qed.

Section Located.

Variable groups : list GroupedNode.
Hypothesis groups_nodup : List.NoDup (map g_id groups).

Lemma located_lookup off g l :
  locatedAt groups off (g :: l) -> groups !! off = Some g.
Proof.
  intros (pre & post & -> & Hlen). simpl. apply lookup_middle. exact Hlen.
Qed.

Lemma located_tail off g l :
  locatedAt groups off (g :: l) -> locatedAt groups (S off) l.
Proof.
  intros (pre & post & -> & Hlen). exists (pre ++ [g]), post.
  split; [rewrite <- app_assoc; reflexivity|]. rewrite length_app. simpl. lia.
Qed.

Lemma located_app_l off l1 l2 :
  locatedAt groups off (l1 ++ l2) -> locatedAt groups off l1.
Proof.
  intros (pre & post & -> & Hlen). exists pre, (l2 ++ post).
  split; [rewrite <- app_assoc; reflexivity|exact Hlen].
Qed.

Lemma located_app_r off l1 l2 :
  locatedAt groups off (l1 ++ l2) -> locatedAt groups (off + length l1) l2.
Proof.
  intros (pre & post & -> & Hlen). exists (pre ++ l1), post.
  split; [rewrite <- !app_assoc; reflexivity|]. rewrite length_app. lia.
Qed.

Lemma located_nodup off l :
  locatedAt groups off l -> List.NoDup (map g_id l).
Proof.
  intros (pre & post & E & _). revert groups_nodup. rewrite E, !map_app.
  intros H. apply NoDup_app_remove_l in H. apply NoDup_app_remove_r in H. exact H.
Qed.

Lemma groupMap_located off g l :
  locatedAt groups off (g :: l) ->
  groupMapOf groups !! g_id g = Some (off, g).
Proof.
  intros H. apply located_lookup in H.
  exact (groupMapFrom_lookup groups 0 ∅ off g groups_nodup H).
Qed.

(** The children that a group finds through the map are the roots of its
    child trees, at the places where these start. *)
Lemma getGroupChildren_located cs : forall off,
  locatedAt groups off (flattenF cs) ->
  omap (fun i => groupMapOf groups !! i) (map treeId cs) = childRefs off cs.
Proof.
  induction cs as [|c cs IH]; intros off H; [reflexivity|].
  rewrite flattenF_cons in H.
  change (map treeId (c :: cs)) with (treeId c :: map treeId cs).
  rewrite (omap_cons_Some _ _ (off, rootNode c)).
  - cbn [childRefs]. f_equal. apply IH. apply located_app_r. exact H.
  - apply located_app_l in H. destruct c as [g cs']. rewrite flatten_node in H.
    exact (groupMap_located _ _ _ H).
Qed.

End Located.

(* ------------------------------------------------------------------ *)
(** ** Graph layout: [assignY] refines the layout of the tree *)
(* ------------------------------------------------------------------ *)

Lemma layoutForest_sizes cs : forall y,
  Forall2 (fun c c' => length (flatten c') = length (flatten c))
          cs (layoutForest cs y).1.
Proof.
  induction cs as [|c cs IH]; intros y; [constructor|].
  cbn [layoutForest]. pose proof (layoutTree_size c y) as Hc.
  destruct (layoutTree c y) as [c' h].
  specialize (IH (y + inject_Z (h * Y_SPACING))%Q).
  destruct (layoutForest cs _) as [l' hs]. cbn [fst] in *.
  constructor; assumption.
Qed.

Lemma layoutForest_cons c cs y :
  layoutForest (c :: cs) y
  = ((layoutTree c y).1
       :: (layoutForest cs (y + inject_Z ((layoutTree c y).2 * Y_SPACING))%Q).1,
     (layoutTree c y).2
       + (layoutForest cs (y + inject_Z ((layoutTree c y).2 * Y_SPACING))%Q).2).
Proof.
  cbn [layoutForest]. destruct (layoutTree c y) as [c' h]. cbn [fst snd].
  destruct (layoutForest cs _) as [l' hs]. reflexivity.
Qed.

(** After the children are laid out, the [y] of each child's root is read
    at the place where the child's tree starts. *)
Lemma roots_at cs cs' : forall off (A C : list Q),
  length A = off ->
  Forall2 (fun c c' => length (flatten c') = length (flatten c)) cs cs' ->
  Forall2 (fun (r : NodeRef) c' =>
             (A ++ map g_y (flattenF cs') ++ C) !! r.1 = Some (g_y (rootNode c')))
          (childRefs off cs) cs'.
Proof.
  intros off A C Hlen H. revert off A Hlen.
  induction H as [|c c' cs cs' Hsz _ IH]; intros off A Hlen; [constructor|].
  cbn [childRefs]. rewrite flattenF_cons, map_app, <- (app_assoc (map g_y (flatten c'))).
  constructor.
  - cbn [fst]. destruct c' as [g' l']. rewrite flatten_node. cbn [map rootNode].
    rewrite <- app_comm_cons. apply lookup_middle. exact Hlen.
  - specialize (IH (off + length (flatten c))%nat (A ++ map g_y (flatten c'))).
    rewrite <- app_assoc in IH. apply IH.
    rewrite length_app, length_map. lia.
Qed.

Lemma childRefs_length cs : forall off, length (childRefs off cs) = length cs.
Proof. induction cs as [|c cs IH]; intros off; simpl; [reflexivity|]. rewrite IH. reflexivity. Qed.

Section Refinement.

Variable groups : list GroupedNode.
Hypothesis groups_nodup : List.NoDup (map g_id groups).

(** What [assignY] with fuel [f] does on a tree of at most [f] groups
    whose groups have not been processed: it returns the height that the
    specification gives, writes the [y] that the specification gives to
    the groups of the tree and to no other, and marks them processed. *)
Let refinesAt (f : nat) : Prop :=
  forall t depth off startY (A B C : list Q) (processed : gset string),
    wfTree depth t ->
    locatedAt groups off (flatten t) ->
    length A = off -> length B = length (flatten t) ->
    (forall g, In g (flatten t) -> g_id g ∉ processed) ->
    (length (flatten t) <= f)%nat ->
    exists processed',
      assignY f (groupMapOf groups) (off, rootNode t) startY (A ++ B ++ C, processed)
      = Some ((layoutTree t startY).2,
              (A ++ map g_y (flatten (layoutTree t startY).1) ++ C, processed'))
      /\ forall i, i ∈ processed' <-> i ∈ processed \/ In i (map g_id (flatten t)).

Lemma layoutChildren_forest f :
  refinesAt f ->
  forall cs depth off startY h0 (A B C : list Q) (processed : gset string),
    Forall (wfTree depth) cs ->
    locatedAt groups off (flattenF cs) ->
    length A = off -> length B = length (flattenF cs) ->
    (forall g, In g (flattenF cs) -> g_id g ∉ processed) ->
    (length (flattenF cs) <= f)%nat ->
    exists processed',
      layoutChildren (assignY f (groupMapOf groups)) (childRefs off cs) startY h0
        (A ++ B ++ C, processed)
      = Some (h0 + (layoutForest cs startY).2,
              (A ++ map g_y (flattenF (layoutForest cs startY).1) ++ C, processed'))
      /\ forall i, i ∈ processed' <-> i ∈ processed \/ In i (map g_id (flattenF cs)).
Proof.
  intros Href cs. induction cs as [|c cs IH];
    intros depth off startY h0 A B C processed Hwf Hloc HA HB Hfresh Hsize.
  - destruct B; [|discriminate]. exists processed. cbn. split.
    + rewrite Z.add_0_r. reflexivity.
    + intros i. tauto.
  - rewrite flattenF_cons in *. rewrite length_app in HB, Hsize.
    apply Forall_cons_iff in Hwf as [Hwfc Hwfcs].
    pose proof (located_nodup groups groups_nodup _ _ Hloc) as Hnd.
    rewrite map_app in Hnd.
    rewrite <- (take_drop (length (flatten c)) B), <- (app_assoc (take _ B)).
    assert (Hdisj : forall g, In g (flattenF cs) -> ~ In (g_id g) (map g_id (flatten c))).
    { intros g Hg Hin. apply NoDup_ListNoDup, NoDup_app in Hnd as (_ & Hdisj & _).
      apply (Hdisj (g_id g)); [apply list_elem_of_In; exact Hin|].
      apply list_elem_of_In. apply in_map. exact Hg. }
    destruct (Href c depth off startY A (take (length (flatten c)) B)
                (drop (length (flatten c)) B ++ C) processed) as (p1 & E1 & Hp1);
      [ exact Hwfc
      | exact (located_app_l groups groups_nodup _ _ _ Hloc)
      | exact HA
      | rewrite length_take; lia
      | intros g Hg; apply Hfresh; apply in_or_app; left; exact Hg
      | lia
      | ].
    cbn [childRefs layoutChildren]. rewrite E1.
    destruct (IH depth (off + length (flatten c))%nat
                (startY + inject_Z ((layoutTree c startY).2 * Y_SPACING))%Q
                (h0 + (layoutTree c startY).2)
                (A ++ map g_y (flatten (layoutTree c startY).1))
                (drop (length (flatten c)) B) C p1) as (p2 & E2 & Hp2);
      [ exact Hwfcs
      | exact (located_app_r groups groups_nodup _ _ _ Hloc)
      | rewrite length_app, length_map, layoutTree_size; lia
      | rewrite length_drop; lia
      | intros g Hg Hin; apply Hp1 in Hin as [Hin|Hin];
        [ apply (Hfresh g); [apply in_or_app; right; exact Hg|exact Hin]
        | exact (Hdisj g Hg Hin) ]
      | lia
      | ].
    exists p2. rewrite <- app_assoc in E2. rewrite E2.
    rewrite layoutForest_cons. cbn [fst snd].
    rewrite flattenF_cons, map_app, <- !app_assoc. split.
    + rewrite Z.add_assoc. reflexivity.
    + intros i. rewrite Hp2, Hp1, map_app, in_app_iff. tauto.
Qed.

Lemma assignY_refines f : refinesAt f.
Proof.
  induction f as [|f IHf];
    intros [g cs] depth off startY A B C processed Hwf Hloc HA HB Hfresh Hsize.
  { rewrite flatten_node in Hsize. simpl in Hsize. lia. }
  apply wfTree_node in Hwf as (_ & Hkids & Hwfcs).
  rewrite flatten_node in *. cbn [length] in HB, Hsize.
  destruct B as [|b0 B]; [discriminate|]. injection HB as HB.
  pose proof (located_tail groups groups_nodup _ _ _ Hloc) as Hloc'.
  assert (Hchildren : getGroupChildren (groupMapOf groups) g = childRefs (S off) cs).
  { unfold getGroupChildren. rewrite Hkids.
    exact (getGroupChildren_located groups groups_nodup cs (S off) Hloc'). }
  pose proof (located_nodup groups groups_nodup _ _ Hloc) as Hnd.
  cbn [map] in Hnd. apply List.NoDup_cons_iff in Hnd as [Hg_notin _].
  cbn [assignY rootNode snd fst].
  rewrite bool_decide_eq_false_2 by (apply Hfresh; left; reflexivity).
  rewrite Hchildren.
  destruct (layoutChildren_forest f IHf cs (depth + 1) (S off) startY 0
              (A ++ [b0]) B C ({[ g_id g ]} ∪ processed))
    as (p' & E & Hp');
    [ exact Hwfcs | exact Hloc' | rewrite length_app; simpl; lia | exact HB
    | intros g' Hg'; apply not_elem_of_union; split;
      [ intros Heq; apply elem_of_singleton in Heq; apply Hg_notin;
        rewrite <- Heq; apply in_map; exact Hg'
      | apply Hfresh; right; exact Hg' ]
    | lia
    | ].
  assert (Hroots := roots_at cs (layoutForest cs startY).1 (S off) (A ++ [b0]) C
                      ltac:(rewrite length_app; simpl; lia)
                      (layoutForest_sizes cs startY)).
  rewrite layoutTree_node.
  pose proof (layoutForest_length cs startY) as Hlen.
  destruct (layoutForest cs startY) as [cs' total]. cbn [fst snd] in *.
  destruct cs as [|c1 cs1].
  - (* a leaf group *)
    destruct cs'; [|discriminate]. destruct B; [|discriminate].
    cbn [childRefs head last]. exists ({[ g_id g ]} ∪ processed). split.
    + cbn [flatten flat_map map fst snd app]. rewrite insert_middle by exact HA.
      reflexivity.
    + intros i. rewrite elem_of_union, elem_of_singleton. simpl. intuition.
  - (* a group with children *)
    rewrite <- (app_assoc A [b0]) in E. cbn [app] in E |- *. rewrite E.
    pose proof (Forall2_length _ _ _ Hroots) as Hlen2.
    destruct (head (childRefs (S off) (c1 :: cs1))) as [firstChild|] eqn:Hh;
      [|discriminate].
    destruct (last (childRefs (S off) (c1 :: cs1))) as [lastChild|] eqn:Hl;
      [|apply last_None in Hl; discriminate].
    rewrite head_lookup in Hh. rewrite last_lookup in Hl.
    destruct (Forall2_lookup_l _ _ _ _ _ Hroots Hh) as (c1' & Hh' & Hy1).
    destruct (Forall2_lookup_l _ _ _ _ _ Hroots Hl) as (cl' & Hl' & Hyl).
    rewrite Hlen2, <- last_lookup in Hl'. rewrite <- head_lookup in Hh'.
    rewrite Hh', Hl'. exists p'. split.
    + unfold yOf. rewrite Hy1, Hyl. cbn [default fst snd Z.add].
      rewrite flatten_node. cbn [map g_y set_y].
      rewrite <- (app_assoc A [b0]). cbn [app].
      rewrite insert_middle by exact HA. reflexivity.
    + intros i. rewrite Hp', elem_of_union, elem_of_singleton. simpl. intuition.
Qed.

End Refinement.

(** Below its root, a well-formed tree has no group of the root's depth. *)
Lemma wfTree_depths t : forall depth,
  wfTree depth t -> Forall (fun g => depth <= g_depth g) (flatten t).
Proof.
  induction t as [g cs IH] using GTree_ind. intros depth Hwf.
  apply wfTree_node in Hwf as (Hd & _ & Hcs). rewrite flatten_node.
  constructor; [lia|].
  induction cs as [|c cs IHcs]; [constructor|].
  apply Forall_cons_iff in IH as [IHc IH]. apply Forall_cons_iff in Hcs as [Hc Hcs].
  rewrite flattenF_cons. apply Forall_app. split.
  - eapply Forall_impl; [exact (IHc _ Hc)|]. simpl. intros; lia.
  - exact (IHcs IH Hcs).
Qed.

Lemma no_roots_below (l : list GroupedNode) : forall k,
  Forall (fun g => 1 <= g_depth g) l ->
  List.filter (fun n : NodeRef => g_depth n.2 =? 0) (imap (fun i g => ((k + i)%nat, g)) l) = [].
Proof.
  induction l as [|g l IH]; intros k H; [reflexivity|].
  apply Forall_cons_iff in H as [Hg H]. cbn [imap List.filter snd].
  destruct (g_depth g =? 0) eqn:E; zb E; [lia|].
  rewrite <- (IH (S k) H). f_equal. apply imap_ext. intros i x _. simpl.
  f_equal. lia.
Qed.

(** On the array of a well-formed tree with distinct ids,
    [calculateGroupLayout] returns, and returns the array of the tree as
    the specification lays it out from y = 100. *)
Lemma calculateGroupLayout_tree (t : GTree) :
  wfTree 0 t -> List.NoDup (map g_id (flatten t)) ->
  calculateGroupLayout (flatten t) = Some (flatten (layoutTree t 100).1).
Proof.
  intros Hwf Hnd. unfold calculateGroupLayout, calculateGroupLayoutFuel.
  destruct (js_length (flatten t) =? 0) eqn:E0.
  { zb E0. destruct t. rewrite flatten_node in E0. unfold js_length in E0.
    simpl in E0. lia. }
  clear E0.
  assert (Hroots : List.filter (fun n : NodeRef => g_depth n.2 =? 0) (nodeRefs (flatten t))
                   = [(O, rootNode t)]).
  { destruct t as [g cs]. pose proof Hwf as Hwf'.
    apply wfTree_node in Hwf' as (Hd & _ & Hcs).
    rewrite flatten_node. unfold nodeRefs. cbn [imap List.filter snd rootNode].
    rewrite Hd. cbn [Z.eqb]. f_equal.
    apply (no_roots_below (flattenF cs) 1).
    clear -Hcs. induction cs as [|c cs IH]; [constructor|].
    apply Forall_cons_iff in Hcs as [Hc Hcs]. rewrite flattenF_cons.
    apply Forall_app. split; [|exact (IH Hcs)].
    exact (wfTree_depths c (0 + 1) Hc). }
  rewrite Hroots. cbn [layoutRoots].
  destruct (assignY_refines (flatten t) Hnd (S (length (flatten t))) t 0 O 100%Q
              [] (map g_y (flatten t)) [] ∅) as (p' & E & _);
    [ exact Hwf
    | exists [], []; split; [rewrite app_nil_r; reflexivity|reflexivity]
    | reflexivity
    | apply length_map
    | intros; apply not_elem_of_empty
    | lia
    | ].
  cbn [app] in E. rewrite app_nil_r in E. rewrite E.
  rewrite app_nil_r. f_equal.
  apply movedTo_zip. apply layoutTree_moves.
Qed.

(* ------------------------------------------------------------------ *)
(** ** Graph layout: [groupMessages] builds the array of a tree *)
(* ------------------------------------------------------------------ *)

Lemma indexMessages_keyed (msgs : list Message) : keyedById (indexMessages msgs).
Proof.
  unfold indexMessages.
  assert (forall ix, keyedById ix -> keyedById (foldl indexStep ix msgs)) as H.
  { induction msgs as [|m l IH]; intros ix Hix; [exact Hix|].
    simpl. apply IH. intros k x Hk.
    assert (messageMap (indexStep ix m) = <[ m_id m := m ]> (messageMap ix)) as E.
    { unfold indexStep. destruct (m_parentId m) as [p|]; [|reflexivity].
      destruct (negb (p ==? "")); reflexivity. }
    rewrite E in Hk. destruct (decide (m_id m = k)) as [<-|Hne].
    - rewrite lookup_insert_eq in Hk. injection Hk as <-. reflexivity.
    - rewrite lookup_insert_ne in Hk by exact Hne. exact (Hix k x Hk). }
  apply H. intros k m Hk. cbn [messageMap] in Hk. rewrite lookup_empty in Hk. discriminate.
Qed.

Lemma indexMessages_size (msgs : list Message) :
  (size (dom (messageMap (indexMessages msgs))) <= length msgs)%nat.
Proof.
  unfold indexMessages.
  assert (forall ix, (size (dom (messageMap (foldl indexStep ix msgs)))
                      <= size (dom (messageMap ix)) + length msgs)%nat) as H.
  { induction msgs as [|m l IH]; intros ix; [simpl; lia|].
    simpl. etransitivity; [apply IH|].
    assert (messageMap (indexStep ix m) = <[ m_id m := m ]> (messageMap ix)) as ->.
    { unfold indexStep. destruct (m_parentId m) as [p|]; [|reflexivity].
      destruct (negb (p ==? "")); reflexivity. }
    rewrite dom_insert_L.
    pose proof (size_union_alt {[ m_id m ]} (dom (messageMap ix))) as Hu.
    pose proof (subseteq_size (dom (messageMap ix) ∖ {[ m_id m ]}) (dom (messageMap ix))
                  ltac:(set_solver)) as Hs.
    rewrite size_singleton in Hu. lia. }
  specialize (H {| childrenMap := ∅; messageMap := ∅; rootId := None |}).
  simpl in H. rewrite dom_empty_L, size_empty in H. exact H.
Qed.

Lemma unvisited_mono ix (v v' : gset string) :
  v ⊆ v' -> (unvisited ix v' <= unvisited ix v)%nat.
Proof. intros H. apply subseteq_size. set_solver. Qed.

Lemma unvisited_visit ix (v : gset string) c m :
  messageMap ix !! c = Some m -> c ∉ v ->
  (unvisited ix ({[ c ]} ∪ v) < unvisited ix v)%nat.
Proof.
  intros Hm Hc. apply subset_size. apply strict_spec_alt. split; [set_solver|].
  assert (c ∈ dom (messageMap ix)) by (apply elem_of_dom; eauto).
  set_solver.
Qed.

Section Grouping.

Variable ix : MessageIndex.
Variable chaps : list Chapter.
Hypothesis keyed : keyedById ix.

(** The [while] loop of [buildGroup] halts when the fuel exceeds the
    number of unvisited messages; every message it collects has a
    non-empty id that was not visited before and is visited after. *)
Lemma collectGroup_spec fuel : forall cur visited acc,
  (unvisited ix visited < fuel)%nat ->
  exists new visited',
    collectGroup fuel ix cur visited acc = Some (acc ++ new, visited')
    /\ visited ⊆ visited'
    /\ (forall m, In m new -> m_id m ∈ visited' /\ (m_id m ∉ visited) /\ m_id m <> "")
    /\ ((new <> []) -> (unvisited ix visited' < unvisited ix visited)%nat).
Proof.
  induction fuel as [|fuel IH]; intros cur visited acc Hfuel; [lia|].
  assert (Hstop : exists new visited',
             Some (acc, visited) = Some (acc ++ new, visited')
             /\ visited ⊆ visited'
             /\ (forall m, In m new ->
                   m_id m ∈ visited' /\ (m_id m ∉ visited) /\ m_id m <> "")
             /\ ((new <> []) -> (unvisited ix visited' < unvisited ix visited)%nat)).
  { exists [], visited. rewrite app_nil_r. repeat split; try done. }
  cbn [collectGroup]. destruct cur as [c|]; [|exact Hstop].
  destruct (c ==? "") eqn:Ec; [exact Hstop|]. apply String.eqb_neq in Ec.
  destruct (bool_decide (c ∈ visited)) eqn:Ev; [exact Hstop|].
  apply bool_decide_eq_false_1 in Ev.
  destruct (messageMap ix !! c) as [msg|] eqn:Em; [|exact Hstop].
  pose proof (keyed c msg Em) as Hid.
  pose proof (unvisited_visit ix visited c msg Em Ev) as Hless.
  assert (Hone : exists new visited',
             Some (acc ++ [msg], {[ c ]} ∪ visited) = Some (acc ++ new, visited')
             /\ visited ⊆ visited'
             /\ (forall m, In m new ->
                   m_id m ∈ visited' /\ (m_id m ∉ visited) /\ m_id m <> "")
             /\ ((new <> []) -> (unvisited ix visited' < unvisited ix visited)%nat)).
  { exists [msg], ({[ c ]} ∪ visited). split; [reflexivity|].
    split; [set_solver|]. split; [|intros _; exact Hless].
    intros m [<-|[]]. rewrite Hid. split; [set_solver|]. split; assumption. }
  destruct (childrenOf ix c) as [|only [|]]; [exact Hone| |exact Hone].
  destruct (IH (Some only) ({[ c ]} ∪ visited) (acc ++ [msg])) as (new & v' & E & Hsub & Hnew & Hlt);
    [lia|].
  exists (msg :: new), v'. rewrite E, <- app_assoc. split; [reflexivity|].
  split; [set_solver|]. split.
  - intros m [<-|Hm].
    + rewrite Hid. split; [set_solver|]. split; assumption.
    + destruct (Hnew m Hm) as (H1 & H2 & H3). split; [exact H1|].
      split; [set_solver|exact H3].
  - intros _. pose proof (unvisited_mono ix _ _ Hsub). lia.
Qed.

(** The [forEach] over the children of a group's tail, for a [build] that
    is well behaved from every larger visited set. *)
Lemma buildChildren_spec (build : string -> gset string -> option Built) depth :
  forall (l : list string) (visited : gset string),
  (forall c v, visited ⊆ v -> exists r, build c v = Some r /\ builtOk depth v r) ->
  exists ts visited',
    buildChildren build l visited = Some (map treeId ts, flattenF ts, visited')
    /\ visited ⊆ visited'
    /\ (forall g, In g (flattenF ts) -> g_id g ∈ visited' /\ g_id g ∉ visited)
    /\ List.NoDup (map g_id (flattenF ts))
    /\ Forall xByDepth (flattenF ts)
    /\ Forall (wfTree depth) ts.
Proof.
  induction l as [|c l IH]; intros visited Hbuild.
  { exists [], visited. cbn. repeat split; try done; constructor. }
  destruct (Hbuild c visited ltac:(done)) as ([[res groups1] v1] & E1 & Hsub1 & Hids1 & Hnd1 & Hx1 & Hres).
  destruct (IH v1) as (ts & v2 & E2 & Hsub2 & Hids2 & Hnd2 & Hx2 & Hwf2).
  { intros c' v Hv. apply Hbuild. set_solver. }
  cbn [buildChildren]. rewrite E1, E2.
  destruct res as [i|].
  - destruct Hres as (Hi & t & -> & <- & Hwft).
    exists (t :: ts), v2. cbn [truthy default].
    destruct (treeId t ==? "") eqn:Ei; [apply String.eqb_eq in Ei; contradiction|].
    cbn [negb map]. rewrite flattenF_cons. split; [reflexivity|].
    split; [set_solver|]. split; [|split; [|split]].
    + intros g Hg. apply in_app_or in Hg as [Hg|Hg].
      * destruct (Hids1 g Hg). split; [set_solver|assumption].
      * destruct (Hids2 g Hg). split; [assumption|set_solver].
    + rewrite map_app. apply List.NoDup_app; [exact Hnd1|exact Hnd2|].
      intros a Ha Hb. apply in_map_iff in Ha as (g1 & <- & Hg1).
      apply in_map_iff in Hb as (g2 & Heq & Hg2).
      destruct (Hids1 g1 Hg1) as [Hin _]. destruct (Hids2 g2 Hg2) as [_ Hout].
      rewrite Heq in Hout. contradiction.
    + apply Forall_app. split; assumption.
    + constructor; assumption.
  - subst groups1. exists ts, v2. cbn [truthy app]. split; [reflexivity|].
    split; [set_solver|]. split; [|split; [|split]]; try assumption.
    intros g Hg. destruct (Hids2 g Hg). split; [assumption|set_solver].
Qed.

(** [buildGroup] returns when the fuel exceeds the number of unvisited
    messages, and is well behaved. *)
Lemma buildGroup_spec fuel : forall startMsgId depth visited,
  (unvisited ix visited < fuel)%nat ->
  exists r, buildGroup fuel ix chaps startMsgId depth visited = Some r
            /\ builtOk depth visited r.
Proof.
  induction fuel as [|fuel IH]; intros startMsgId depth visited Hfuel; [lia|].
  assert (Hnone : exists r, Some (@None string, @nil GroupedNode, visited) = Some r
                            /\ builtOk depth visited r).
  { eexists. split; [reflexivity|]. cbn. repeat split; try done; constructor. }
  cbn [buildGroup]. destruct (bool_decide (startMsgId ∈ visited)); [exact Hnone|].
  destruct (collectGroup_spec (S fuel) (Some startMsgId) visited [] Hfuel)
    as (new & v1 & E & Hsub & Hnew & Hlt).
  rewrite E. cbn [app].
  destruct new as [|firstMsg rest] using rev_ind.
  { cbn [head last]. eexists. split; [reflexivity|].
    cbn. repeat split; try done; constructor. }
  clear IHrest. rename firstMsg into tailMsg.
  rewrite last_snoc.
  destruct (head (rest ++ [tailMsg])) as [firstMsg|] eqn:Hh;
    [|destruct rest; discriminate].
  destruct (Hnew tailMsg) as (Htin & Htout & Htne);
    [apply in_or_app; right; left; reflexivity|].
  specialize (Hlt ltac:(intros Hnil; destruct rest; discriminate)).
  destruct (buildChildren_spec
              (fun childId v => buildGroup fuel ix chaps childId (depth + 1) v)
              (depth + 1) (childrenOf ix (m_id tailMsg)) v1)
    as (ts & v2 & E2 & Hsub2 & Hids2 & Hnd2 & Hx2 & Hwf2).
  { intros c v Hv. apply IH. pose proof (unvisited_mono ix _ _ Hv). lia. }
  rewrite E2. eexists. split; [reflexivity|].
  cbn [builtOk]. split; [set_solver|]. split; [|split; [|split; [|split]]].
  - intros g [<-|Hg]; cbn [g_id mkGroup].
    + split; [set_solver|exact Htout].
    + destruct (Hids2 g Hg). split; [assumption|set_solver].
  - cbn [map g_id mkGroup]. constructor; [|exact Hnd2].
    intros Hin. apply in_map_iff in Hin as (g & Heq & Hg).
    destruct (Hids2 g Hg) as [_ Hout]. rewrite Heq in Hout. contradiction.
  - constructor; [reflexivity|exact Hx2].
  - exact Htne.
  - exists (GNode (mkGroup ix chaps startMsgId depth (rest ++ [tailMsg])
                     firstMsg tailMsg (map treeId ts)) ts).
    split; [reflexivity|]. split; [reflexivity|].
    apply wfTree_node. split; [reflexivity|]. split; [reflexivity|exact Hwf2].
Qed.

End Grouping.

(** [groupMessages] returns on every store, and what it returns is empty or
    the array of a well-formed tree of depth 0 with distinct group ids;
    every group has [x = depth * X_SPACING + 50]. *)
Lemma groupMessages_tree (msgs : list Message) (chaps : list Chapter) :
  exists groups,
    groupMessages msgs chaps = Some groups
    /\ Forall xByDepth groups
    /\ (groups = []
        \/ exists t, groups = flatten t /\ wfTree 0 t
                     /\ List.NoDup (map g_id (flatten t))).
Proof.
  unfold groupMessages, groupMessagesFuel.
  destruct msgs as [|m0 l]; [exists []; repeat split; [constructor|left; reflexivity]|].
  set (msgs := m0 :: l). set (ix := indexMessages msgs).
  destruct (truthy (rootId ix));
    [|exists []; repeat split; [constructor|left; reflexivity]].
  destruct (buildGroup_spec ix chaps (indexMessages_keyed msgs) (S (length msgs))
              (default "" (rootId ix)) 0 ∅)
    as ([[res groups] v] & E & _ & _ & Hnd & Hx & Hres).
  { unfold unvisited. pose proof (indexMessages_size msgs).
    pose proof (subseteq_size (dom (messageMap ix) ∖ ∅) (dom (messageMap ix))
                  ltac:(set_solver)). fold ix in H. lia. }
  rewrite E. exists groups. split; [reflexivity|]. split; [exact Hx|].
  destruct res as [i|].
  - destruct Hres as (_ & t & -> & _ & Hwf). right. exists t. auto.
  - left. exact Hres.
Qed.


Lemma movedTo_xByDepth l l' :
  Forall2 movedTo l l' -> Forall xByDepth l -> Forall xByDepth l'.
Proof.
  induction 1 as [|g g' l l' H _ IH]; intros Hx; [constructor|].
  apply Forall_cons_iff in Hx as [Hg Hl]. constructor; [|exact (IH Hl)].
  rewrite H. exact Hg.
Qed.

(** C6: on every store, [groupMessages] returns the array of a tree of
    groups (or nothing), [calculateGroupLayout] returns on it, and the
    result is that tree laid out as the specification says, from y = 100:
    - every group has x = depth * X_SPACING + 50;
    - a group without child groups gets y = startY and a subtree height
      of 1;
    - the children of a group are laid out in sequence, each starting where
      the subtree of the one before ended, that is [height * Y_SPACING]
      further down;
    - a group with children gets y = (firstChild.y + lastChild.y) / 2 and
      the sum of its children's heights.
    The same holds for [calculateGroupLayout] on the array of any
    well-formed tree of groups with distinct ids. *)
Theorem C6_group_layout :
  (forall msgs chaps,
     exists groups laid,
       groupMessages msgs chaps = Some groups
       /\ calculateGroupLayout groups = Some laid
       /\ Forall xByDepth groups /\ Forall xByDepth laid
       /\ ((groups = [] /\ laid = [])
           \/ exists t, groups = flatten t /\ wfTree 0 t
                        /\ laid = flatten (layoutTree t 100).1))
  /\ (forall g startY,
        layoutTree (GNode g []) startY = (GNode (set_y g startY) [], 1))
  /\ (forall c cs startY,
        layoutForest (c :: cs) startY
        = ((layoutTree c startY).1
             :: (layoutForest cs
                   (startY + inject_Z ((layoutTree c startY).2 * Y_SPACING))%Q).1,
           (layoutTree c startY).2
             + (layoutForest cs
                  (startY + inject_Z ((layoutTree c startY).2 * Y_SPACING))%Q).2))
  /\ (forall g c cs startY,
        exists firstChild lastChild,
          head (layoutForest (c :: cs) startY).1 = Some firstChild
          /\ last (layoutForest (c :: cs) startY).1 = Some lastChild
          /\ layoutTree (GNode g (c :: cs)) startY
             = (GNode (set_y g ((g_y (rootNode firstChild)
                                 + g_y (rootNode lastChild)) / 2)%Q)
                  (layoutForest (c :: cs) startY).1,
                (layoutForest (c :: cs) startY).2))
  /\ (forall t, wfTree 0 t -> List.NoDup (map g_id (flatten t)) ->
        calculateGroupLayout (flatten t) = Some (flatten (layoutTree t 100).1)).
Proof.
  split; [|split; [|split; [|split]]].
  - intros msgs chaps.
    destruct (groupMessages_tree msgs chaps) as (groups & E & Hx & [-> | (t & -> & Hwf & Hnd)]).
    + exists [], []. split; [exact E|]. split; [reflexivity|].
      split; [constructor|]. split; [constructor|]. left. split; reflexivity.
    + exists (flatten t), (flatten (layoutTree t 100).1).
      split; [exact E|]. split; [exact (calculateGroupLayout_tree t Hwf Hnd)|].
      split; [exact Hx|]. split.
      * exact (movedTo_xByDepth _ _ (layoutTree_moves t 100) Hx).
      * right. exists t. auto.
  - reflexivity.
  - exact layoutForest_cons.
  - intros g c cs startY. rewrite layoutTree_node.
    pose proof (layoutForest_length (c :: cs) startY) as Hlen.
    destruct (layoutForest (c :: cs) startY) as [cs' total]. cbn [fst snd] in *.
    destruct cs' as [|c1 cs1]; [discriminate|].
    destruct (last (c1 :: cs1)) as [cl|] eqn:L; [|apply last_None in L; discriminate].
    exists c1, cl. repeat split.
  - exact calculateGroupLayout_tree.
Qed.

(** C6 on the groups of the fork tree: B sits midway between C and D. *)
Lemma C6_group_layout_witness :
  wfTree 0 forkGroups
  /\ List.NoDup (map g_id (flatten forkGroups))
  /\ calculateGroupLayout (flatten forkGroups)
     = Some (flatten (layoutTree forkGroups 100).1)
  /\ map g_y (flatten (layoutTree forkGroups 100).1) = [(390 # 2)%Q; 100%Q; 290%Q].
Proof.
  assert (Hwf : wfTree 0 forkGroups) by (simpl; repeat split).
  assert (Hnd : List.NoDup (map g_id (flatten forkGroups))).
  { simpl. repeat constructor; simpl; intuition discriminate. }
  split; [exact Hwf|]. split; [exact Hnd|].
  split; [|reflexivity].
  exact (proj2 (proj2 (proj2 (proj2 C6_group_layout))) forkGroups Hwf Hnd).
Defined.

(* ================================================================== *)
(** * Further properties *)
(* ================================================================== *)

(* ------------------------------------------------------------------ *)
(** ** Sorting *)
(* ------------------------------------------------------------------ *)

Lemma sort_insert_perm {A} (cmp : A -> A -> Z) x l :
  Permutation (sort_insert cmp x l) (x :: l).
Proof.
  induction l as [|y l IH]; simpl; [reflexivity|].
  destruct (cmp x y <=? 0); [reflexivity|].
  rewrite IH. apply perm_swap.
Qed.

Lemma js_sort_perm {A} (cmp : A -> A -> Z) (l : list A) :
  Permutation (js_sort cmp l) l.
Proof.
  induction l as [|x l IH]; simpl; [reflexivity|].
  fold (js_sort cmp l). rewrite sort_insert_perm, IH. reflexivity.
Qed.

Section SortByKey.

Context {A : Type}.
Variable key : A -> Z.

Let cmp (a b : A) : Z := key a - key b.
Let le (a b : A) : Prop := key a <= key b.

Lemma sort_insert_sorted x l :
  StronglySorted le l -> StronglySorted le (sort_insert cmp x l).
Proof.
  induction 1 as [|y l Hs IH Hy]; simpl; [repeat constructor|].
  unfold cmp at 1. destruct (key x - key y <=? 0) eqn:E; zb E.
  - constructor; [constructor; assumption|].
    constructor; [unfold le; lia|].
    eapply Forall_impl; [exact Hy|]. unfold le. simpl. intros; lia.
  - constructor; [exact IH|].
    apply Forall_forall. intros z Hz. apply list_elem_of_In, sort_insert_In in Hz.
    destruct Hz as [->|Hz]; [unfold le; lia|].
    rewrite Forall_forall in Hy. apply Hy, list_elem_of_In. exact Hz.
Qed.

(** Sorting with the comparator [a, b => key a - key b] orders the list by
    [key]. *)
Lemma js_sort_sorted l : StronglySorted le (js_sort cmp l).
Proof.
  induction l as [|x l IH]; simpl; [constructor|].
  apply sort_insert_sorted. exact IH.
Qed.

End SortByKey.

Lemma StronglySorted_lookup {A} (R : A -> A -> Prop) (l : list A) (i j : nat) a b :
  StronglySorted R l -> (i < j)%nat -> l !! i = Some a -> l !! j = Some b -> R a b.
Proof.
  intros Hs. revert i j. induction Hs as [|x l Hs IH Hx]; intros i j Hij Ha Hb;
    [discriminate|].
  destruct j as [|j]; [lia|]. destruct i as [|i]; simpl in Ha, Hb.
  - injection Ha as <-. rewrite Forall_forall in Hx. apply Hx.
    eapply list_elem_of_lookup_2. exact Hb.
  - apply (IH i j); [lia|assumption|assumption].
Qed.

(** X1: the sibling group of [p] is the stored messages whose parent is
    [p], each exactly once, ordered by ascending timestamp. *)
Theorem X1_sortedChildren_sorted_permutation (msgs : list Message) (p : option string) :
  Permutation (sortedChildren msgs p) (List.filter (byParent p) msgs)
  /\ StronglySorted (fun a b => m_timestamp a <= m_timestamp b) (sortedChildren msgs p).
Proof.
  split; [apply js_sort_perm|]. apply (js_sort_sorted m_timestamp).
Qed.

(* ------------------------------------------------------------------ *)
(** ** Thread resolver: annotations and the shape of the thread *)
(* ------------------------------------------------------------------ *)

Lemma findIndex_app_found {A} (p : A -> bool) (l r : list A) x :
  In x l -> p x = true -> findIndex p (l ++ r) = findIndex p l.
Proof.
  induction l as [|y l IH]; intros Hin Hx; [destruct Hin|]. simpl.
  destruct (p y) eqn:Py; [reflexivity|].
  destruct Hin as [->|Hin]; [congruence|]. rewrite (IH Hin Hx). reflexivity.
Qed.

Lemma js_nth_negative {A} (l : list A) (i : Z) : i < 0 -> js_nth l i = None.
Proof. intros Hi. unfold js_nth. destruct (i <? 0) eqn:E; zb E; [reflexivity|lia]. Qed.

Lemma unique_by_id (msgs : list Message) a b :
  List.NoDup (map m_id msgs) -> In a msgs -> In b msgs -> m_id a = m_id b -> a = b.
Proof.
  induction msgs as [|m l IH]; intros Hnd Ha Hb E; [destruct Ha|].
  simpl in Hnd. apply List.NoDup_cons_iff in Hnd as [Hm Hnd].
  destruct Ha as [<-|Ha], Hb as [<-|Hb]; try reflexivity.
  - exfalso. apply Hm. rewrite E. apply in_map. exact Hb.
  - exfalso. apply Hm. rewrite <- E. apply in_map. exact Ha.
  - exact (IH Hnd Ha Hb E).
Qed.

Lemma sortedChildren_NoDup (msgs : list Message) p :
  List.NoDup (map m_id msgs) -> List.NoDup (sortedChildren msgs p).
Proof.
  intros Hnd. apply NoDup_ListNoDup.
  rewrite (js_sort_perm byTimestampAsc (List.filter (byParent p) msgs)).
  apply NoDup_ListNoDup. apply List.NoDup_filter.
  apply (List.NoDup_map_inv m_id). exact Hnd.
Qed.

Section StoredAnnotation.

Variable msgs : list Message.
Variables (head : string) (drafting : bool) (now : Z) (msg : Message).
Hypothesis ids_unique : List.NoDup (map m_id msgs).
Hypothesis store_real : forall m, In m msgs -> m_id m <> GHOST_ID.
Hypothesis stored : In msg msgs.
Hypothesis has_parent : truthy (m_parentId msg) = true.

Let sorted := sortedChildren msgs (m_parentId msg).
Let i := findIndex (byId (m_id msg)) sorted.

Lemma msg_in_sorted : In msg sorted.
Proof. apply sortedChildren_In. split; [exact stored|reflexivity]. Qed.

Lemma stored_siblings_shape :
  exists extra,
    siblingsOf msgs head drafting now msg = sorted ++ extra
    /\ (extra = [] \/ extra = [ghostMsg head now]).
Proof.
  unfold siblingsOf. fold sorted.
  destruct (m_id msg ==? GHOST_ID) eqn:E;
    [apply String.eqb_eq in E; destruct (store_real msg stored E)|].
  destruct (drafting && opt_eqb (m_parentId msg) (Some head)).
  - destruct (existsb (byId GHOST_ID) sorted).
    + exists []. rewrite app_nil_r. auto.
    + exists [ghostMsg head now]. auto.
  - exists []. rewrite app_nil_r. auto.
Qed.

Lemma stored_index : 0 <= i < js_length sorted /\ sorted !! Z.to_nat i = Some msg.
Proof.
  pose proof (findIndex_range (byId (m_id msg)) sorted) as Hr. fold i in Hr.
  assert (0 <= i) as Hi.
  { apply (findIndex_found _ _ msg msg_in_sorted). unfold byId. apply String.eqb_refl. }
  split; [lia|].
  destruct (findIndex_lookup (byId (m_id msg)) sorted Hi) as (x & Hx & Hp).
  fold i in Hx. rewrite Hx. f_equal.
  apply (unique_by_id msgs); [exact ids_unique| |exact stored|].
  - apply list_elem_of_lookup_2, list_elem_of_In, sortedChildren_In in Hx. tauto.
  - unfold byId in Hp. apply String.eqb_eq in Hp. exact Hp.
Qed.

Lemma sorted_sibling (j : nat) x :
  sorted !! j = Some x ->
  In x msgs /\ m_parentId x = m_parentId msg /\ m_id x <> GHOST_ID.
Proof.
  intros Hx. apply list_elem_of_lookup_2, list_elem_of_In, sortedChildren_In in Hx.
  destruct Hx as [Hin Hp]. split; [exact Hin|]. split; [exact Hp|]. exact (store_real x Hin).
Qed.

End StoredAnnotation.

Lemma stored_siblings_exact (msgs : list Message) (head : string) (drafting : bool)
    (now : Z) (msg : Message) :
  (forall m, In m msgs -> m_id m <> GHOST_ID) ->
  In msg msgs ->
  siblingsOf msgs head drafting now msg
  = sortedChildren msgs (m_parentId msg)
    ++ (if drafting && opt_eqb (m_parentId msg) (Some head)
        then [ghostMsg head now] else []).
Proof.
  intros Hreal Hin. unfold siblingsOf.
  destruct (m_id msg ==? GHOST_ID) eqn:E;
    [apply String.eqb_eq in E; destruct (Hreal msg Hin E)|].
  destruct (drafting && opt_eqb (m_parentId msg) (Some head)); [|symmetry; apply app_nil_r].
  assert (existsb (byId GHOST_ID) (sortedChildren msgs (m_parentId msg)) = false) as ->;
    [|reflexivity].
  destruct (existsb (byId GHOST_ID) (sortedChildren msgs (m_parentId msg))) eqn:G;
    [|reflexivity].
  apply existsb_exists in G as (x & Hx & Hg). apply sortedChildren_In in Hx as [Hx _].
  unfold byId in Hg. apply String.eqb_eq in Hg. destruct (Hreal x Hx Hg).
Qed.

(** X2: in a store with distinct ids and no stored placeholder, the
    annotation of a stored message with a parent reports a 1-based index
    within the sibling count; the count is the number of stored children of
    the message's parent, plus one for the placeholder exactly when a branch
    is being drafted at that parent, so it exceeds the stored siblings by at
    most one; its previous sibling, if any, is another
    stored child of the same parent that is not newer, and its next
    sibling, if any, one that is not older; the first sibling has no
    previous one. *)
Theorem X2_annotation_of_stored_message (msgs : list Message) (head : string)
    (drafting : bool) (now : Z) (msg : Message) :
  List.NoDup (map m_id msgs) ->
  (forall m, In m msgs -> m_id m <> GHOST_ID) ->
  In msg msgs ->
  truthy (m_parentId msg) = true ->
  let t := annotate msgs head drafting now msg in
  exists n k,
    siblingCount t = Some n /\ siblingIndex t = Some k
    /\ 1 <= k <= n
    /\ k <= js_length (sortedChildren msgs (m_parentId msg)) <= n
    /\ n <= js_length (sortedChildren msgs (m_parentId msg)) + 1
    /\ n = js_length (sortedChildren msgs (m_parentId msg))
           + (if drafting && opt_eqb (m_parentId msg) (Some head) then 1 else 0)
    /\ (k = 1 -> prevSibling t = None)
    /\ (forall p, prevSibling t = Some p ->
          In p msgs /\ m_parentId p = m_parentId msg /\ p <> msg
          /\ m_timestamp p <= m_timestamp msg)
    /\ (forall q, nextSibling t = Some q ->
          In q msgs /\ m_parentId q = m_parentId msg /\ q <> msg
          /\ m_timestamp msg <= m_timestamp q).
Proof.
  intros Hnd Hreal Hin Hpar t.
  set (sorted := sortedChildren msgs (m_parentId msg)).
  set (i := findIndex (byId (m_id msg)) sorted).
  destruct (stored_siblings_shape msgs head drafting now msg Hreal Hin)
    as (extra & Hsib & Hextra).
  destruct (stored_index msgs msg Hnd Hin) as (Hi & Hmsg). fold sorted i in Hi, Hmsg.
  pose proof (js_sort_sorted m_timestamp (List.filter (byParent (m_parentId msg)) msgs))
    as Hsorted.
  change (StronglySorted (fun a b => m_timestamp a <= m_timestamp b) sorted) in Hsorted.
  pose proof (sortedChildren_NoDup msgs (m_parentId msg) Hnd) as Hnd'. fold sorted in Hnd'.
  assert (Hlen : js_length (sorted ++ extra) = js_length sorted + js_length extra).
  { unfold js_length. rewrite length_app. lia. }
  assert (Hex : 0 <= js_length extra) by (unfold js_length; lia).
  assert (Hidx : findIndex (byId (m_id msg)) (sorted ++ extra) = i).
  { apply (findIndex_app_found _ _ _ msg).
    - exact (msg_in_sorted msgs msg Hin).
    - unfold byId. apply String.eqb_refl. }
  exists (js_length (sorted ++ extra)), (i + 1).
  unfold t, annotate. rewrite Hpar. cbn [negb]. rewrite Hsib. cbv zeta.
  fold sorted. rewrite Hidx.
  destruct (js_length (sorted ++ extra) >=? 1) eqn:G; zb G; [|lia].
  cbn [siblingCount siblingIndex prevSibling nextSibling].
  split; [reflexivity|]. split; [reflexivity|]. split; [lia|]. split; [lia|].
  assert (Hextra' : extra = if drafting && opt_eqb (m_parentId msg) (Some head)
                            then [ghostMsg head now] else []).
  { apply (app_inv_head sorted).
    transitivity (siblingsOf msgs head drafting now msg); [symmetry; exact Hsib|].
    exact (stored_siblings_exact msgs head drafting now msg Hreal Hin). }
  split; [destruct Hextra as [-> | ->]; rewrite Hlen; unfold js_length; simpl; lia|].
  split.
  { rewrite Hlen, Hextra'.
    destruct (drafting && opt_eqb (m_parentId msg) (Some head)); reflexivity. }
  replace (i + 1 - 1) with i by lia.
  assert (Hprev : forall p, hideGhost (js_nth (sorted ++ extra) (i - 1)) = Some p ->
                    sorted !! (Z.to_nat i - 1)%nat = Some p /\ 1 <= i).
  { intros p Hp. destruct (Z.eq_dec i 0) as [E0|E0].
    - rewrite js_nth_negative in Hp by lia. discriminate.
    - rewrite js_nth_lookup in Hp by lia.
      replace (Z.to_nat (i - 1)) with (Z.to_nat i - 1)%nat in Hp by lia.
      rewrite lookup_app_l in Hp by (unfold js_length in Hi; lia).
      destruct (sorted !! (Z.to_nat i - 1)%nat) as [x|] eqn:Ex; [|discriminate].
      simpl in Hp. destruct (m_id x ==? GHOST_ID); [discriminate|].
      injection Hp as <-. split; [reflexivity|lia]. }
  assert (Hnext : forall q, hideGhost (js_nth (sorted ++ extra) (i + 1)) = Some q ->
                    sorted !! (Z.to_nat i + 1)%nat = Some q).
  { intros q Hq. rewrite js_nth_lookup in Hq by lia.
    replace (Z.to_nat (i + 1)) with (Z.to_nat i + 1)%nat in Hq by lia.
    destruct (Nat.lt_ge_cases (Z.to_nat i + 1) (length sorted)) as [Hlt|Hge].
    - rewrite lookup_app_l in Hq by exact Hlt.
      destruct (sorted !! (Z.to_nat i + 1)%nat) as [x|] eqn:Ex; [|discriminate].
      simpl in Hq. destruct (m_id x ==? GHOST_ID); [discriminate|].
      injection Hq as <-. reflexivity.
    - rewrite lookup_app_r in Hq by exact Hge.
      destruct Hextra as [-> | ->].
      + rewrite lookup_nil in Hq. discriminate.
      + destruct (Z.to_nat i + 1 - length sorted)%nat; simpl in Hq; discriminate. }
  split; [|split].
  - intros Hk. assert (i = 0) as E0 by lia. rewrite E0.
    rewrite js_nth_negative by lia. reflexivity.
  - intros p Hp. destruct (Hprev p Hp) as [Hlk Hi1].
    destruct (sorted_sibling msgs msg Hreal _ _ Hlk) as (H1 & H2 & _).
    split; [exact H1|]. split; [exact H2|]. split.
    + intros ->. apply NoDup_ListNoDup in Hnd'.
      pose proof (NoDup_lookup _ _ _ _ Hnd' Hlk Hmsg). lia.
    + apply (StronglySorted_lookup _ sorted (Z.to_nat i - 1) (Z.to_nat i) p msg Hsorted);
        [lia|exact Hlk|exact Hmsg].
  - intros q Hq. specialize (Hnext q Hq).
    destruct (sorted_sibling msgs msg Hreal _ _ Hnext) as (H1 & H2 & _).
    split; [exact H1|]. split; [exact H2|]. split.
    + intros ->. apply NoDup_ListNoDup in Hnd'.
      pose proof (NoDup_lookup _ _ _ _ Hnd' Hnext Hmsg). lia.
    + apply (StronglySorted_lookup _ sorted (Z.to_nat i) (Z.to_nat i + 1) msg q Hsorted);
        [lia|exact Hmsg|exact Hnext].
Qed.

Ltac real_store :=
  let m := fresh "m" in let Hm := fresh "Hm" in
  intros m Hm; vm_compute in Hm;
  repeat (destruct Hm as [<-|Hm]; [vm_compute; discriminate|]); destruct Hm.

Ltac distinct_ids := vm_compute; repeat constructor; simpl; intuition discriminate.

(** X2 at D of the fork tree: second of two siblings, after C. *)
Lemma X2_annotation_of_stored_message_witness :
  exists n k,
    siblingCount (annotate (forkTree 0 1 2) "D" false 0 msgD) = Some n
    /\ siblingIndex (annotate (forkTree 0 1 2) "D" false 0 msgD) = Some k
    /\ 1 <= k <= n
    /\ n <= js_length (sortedChildren (forkTree 0 1 2) (m_parentId msgD)) + 1.
Proof.
  destruct (X2_annotation_of_stored_message (forkTree 0 1 2) "D" false 0 msgD)
    as (n & k & Hn & Hk & Hb & _ & Hone & _).
  - distinct_ids.
  - real_store.
  - vm_compute. tauto.
  - reflexivity.
  - exists n, k. auto.
Defined.

Section WalkShape.

Variable msgs : list Message.

Let threadOk (s : WalkState) : Prop :=
  Forall (fun m => In m msgs /\ m_id m <> ROOT_ID) (w_thread s)
  /\ parentLinked (w_thread s)
  /\ match w_thread s with
     | [] => True
     | b :: _ => w_currentId s = m_parentId b \/ m_parentId b = Some ROOT_ID
     end.

Lemma walk_step_threadOk s s' :
  threadOk s -> walk_step msgs s = WalkNext s' -> threadOk s'.
Proof.
  intros (Hall & Hlink & Hcur). unfold walk_step.
  destruct (w_currentId s) as [c|] eqn:Ec; [|discriminate].
  destruct (negb (c ==? "") && (w_loopSafety s <? MAX_DEPTH)); [|discriminate].
  destruct (List.find (byId c) msgs) as [m|] eqn:Ef; [|discriminate].
  apply find_some in Ef as [Hin Hid]. unfold byId in Hid. apply String.eqb_eq in Hid.
  intros [= <-]. unfold threadOk. cbn [w_thread w_currentId].
  destruct (m_id m ==? ROOT_ID) eqn:Er; cbn [negb].
  - apply String.eqb_eq in Er. split; [exact Hall|]. split; [exact Hlink|].
    destruct (w_thread s) as [|b l]; [exact I|]. right.
    destruct Hcur as [Hcur|Hcur]; [|exact Hcur]. rewrite <- Hcur, <- Hid, Er. reflexivity.
  - apply String.eqb_neq in Er. split; [constructor; [split; assumption|exact Hall]|].
    split; [|left; reflexivity].
    intros k a b Ha Hb. destruct k as [|k].
    + simpl in Ha, Hb. injection Ha as <-.
      destruct (w_thread s) as [|b' l]; [discriminate|]. simpl in Hb. injection Hb as <-.
      destruct Hcur as [Hcur|Hcur]; [left|right; exact Hcur].
      rewrite <- Hcur, Hid. reflexivity.
    + exact (Hlink k a b Ha Hb).
Qed.

Lemma walk_step_halt_thread s s' :
  walk_step msgs s = WalkHalt s' -> w_thread s' = w_thread s.
Proof.
  unfold walk_step. destruct (w_currentId s) as [c|]; [|intros [= <-]; reflexivity].
  destruct (negb (c ==? "") && (w_loopSafety s <? MAX_DEPTH)); [|intros [= <-]; reflexivity].
  destruct (List.find (byId c) msgs); [discriminate|]. intros [= <-]. reflexivity.
Qed.

Lemma walk_loop_threadOk fuel : forall s s',
  threadOk s -> walk_loop fuel msgs s = Some s' ->
  Forall (fun m => In m msgs /\ m_id m <> ROOT_ID) (w_thread s')
  /\ parentLinked (w_thread s')
  /\ exists pre, w_thread s' = pre ++ w_thread s.
Proof.
  induction fuel as [|fuel IH]; intros s s' Hok Hrun; [discriminate|].
  simpl in Hrun. destruct (walk_step msgs s) as [s1|s1] eqn:E.
  - destruct (IH s1 s' (walk_step_threadOk s s1 Hok E) Hrun) as (H1 & H2 & pre & Hpre).
    split; [exact H1|]. split; [exact H2|].
    assert (exists pre1, w_thread s1 = pre1 ++ w_thread s) as (pre1 & Hpre1).
    { revert E. unfold walk_step.
      destruct (w_currentId s) as [c|]; [|discriminate].
      destruct (negb (c ==? "") && (w_loopSafety s <? MAX_DEPTH)); [|discriminate].
      destruct (List.find (byId c) msgs) as [m|]; [|discriminate].
      intros [= <-]. cbn [w_thread].
      destruct (negb (m_id m ==? ROOT_ID)); [exists [m]|exists []]; reflexivity. }
    exists (pre ++ pre1). rewrite Hpre, Hpre1, app_assoc. reflexivity.
  - injection Hrun as <-. rewrite (walk_step_halt_thread s s1 E).
    destruct Hok as (H1 & H2 & _). split; [exact H1|]. split; [exact H2|].
    exists []. reflexivity.
Qed.

End WalkShape.

(** X3: every message of a resolved thread is a stored message other than
    the root, and each is the child of the one before it (or a child of the
    root, which is left out).  When the head is a stored message other than
    the root, it is the last message of the thread; when no stored message
    has the head's id, the thread is empty. *)
Theorem X3_thread_shape (msgs : list Message) (headId : string) :
  Forall (fun m => In m msgs /\ m_id m <> ROOT_ID) (walkThread msgs headId)
  /\ parentLinked (walkThread msgs headId)
  /\ (forall m0, List.find (byId headId) msgs = Some m0 -> headId <> "" ->
        m_id m0 <> ROOT_ID -> last (walkThread msgs headId) = Some m0)
  /\ (List.find (byId headId) msgs = None -> walkThread msgs headId = []).
Proof.
  destruct (walk_loop_halts msgs walk_fuel (walk_init headId))
    as (s & Hrun & _ & _).
  { simpl. unfold MAX_DEPTH. lia. }
  { unfold walk_fuel, MAX_DEPTH. simpl w_loopSafety. lia. }
  assert (Hinit : Forall (fun m => In m msgs /\ m_id m <> ROOT_ID) (w_thread (walk_init headId))
                  /\ parentLinked (w_thread (walk_init headId))
                  /\ match w_thread (walk_init headId) with
                     | [] => True
                     | b :: _ => w_currentId (walk_init headId) = m_parentId b
                                 \/ m_parentId b = Some ROOT_ID
                     end).
  { simpl. split; [constructor|]. split; [|exact I]. intros k a b Ha. discriminate. }
  destruct (walk_loop_threadOk msgs walk_fuel _ _ Hinit Hrun) as (H1 & H2 & _).
  unfold walkThread. rewrite Hrun. split; [exact H1|]. split; [exact H2|].
  assert (Hfuel : walk_fuel = S (Z.to_nat MAX_DEPTH)).
  { unfold walk_fuel, MAX_DEPTH. lia. }
  rewrite Hfuel in Hrun. cbn [walk_loop] in Hrun. split.
  - intros m0 Hfind Hne Hroot.
    unfold walk_step in Hrun. cbn [walk_init w_currentId w_loopSafety w_thread] in Hrun.
    apply String.eqb_neq in Hne. rewrite Hne in Hrun.
    replace (0 <? MAX_DEPTH) with true in Hrun by reflexivity.
    cbn [negb andb] in Hrun. rewrite Hfind in Hrun.
    apply String.eqb_neq in Hroot. rewrite Hroot in Hrun. cbn [negb] in Hrun.
    pose proof Hfind as Hfind'. apply find_some in Hfind' as [Hin Hid].
    apply String.eqb_neq in Hroot.
    match type of Hrun with walk_loop ?f _ ?s1 = _ =>
      destruct (walk_loop_threadOk msgs f s1 s) as (_ & _ & pre & Hpre);
        [|exact Hrun|]
    end.
    + cbn [w_thread w_currentId]. split; [constructor; [split; assumption|constructor]|].
      split; [|left; reflexivity].
      intros k a b Ha Hb. destruct k; simpl in Hb; discriminate.
    + rewrite Hpre. cbn [w_thread]. apply last_snoc.
  - intros Hfind.
    unfold walk_step in Hrun. cbn [walk_init w_currentId w_loopSafety w_thread] in Hrun.
    rewrite Hfind in Hrun.
    destruct (negb (headId ==? "") && (0 <? MAX_DEPTH)); injection Hrun as <-; reflexivity.
Qed.

(** X3 on the fork tree, from D. *)
Lemma X3_thread_shape_witness :
  last (walkThread (forkTree 0 1 2) "D") = Some msgD.
Proof.
  refine (proj1 (proj2 (proj2 (X3_thread_shape (forkTree 0 1 2) "D"))) msgD _ _ _).
  - reflexivity.
  - discriminate.
  - discriminate.
Defined.

(* ------------------------------------------------------------------ *)
(** ** Branch navigator: what a swipe can and cannot do *)
(* ------------------------------------------------------------------ *)

Lemma swipeIndex_in_range len i dir :
  0 <= i < len -> 0 <= swipeIndex len false dir i < len.
Proof.
  intros Hi. destruct (swipeIndex_wraps len i Hi) as [Hn Hp].
  destruct dir; [rewrite Hp|rewrite Hn]; apply Z.mod_pos_bound; lia.
Qed.

Lemma js_nth_in_range {A} (l : list A) i :
  0 <= i < js_length l -> exists x, js_nth l i = Some x.
Proof.
  intros Hi. rewrite js_nth_lookup by lia. apply lookup_lt_is_Some.
  unfold js_length in Hi. lia.
Qed.

Lemma descend_stored fuel : forall msgs start leaf,
  descend fuel msgs start = Some leaf ->
  leaf = start \/ In leaf (map m_id msgs).
Proof.
  induction fuel as [|fuel IH]; intros msgs start leaf; simpl; [discriminate|].
  destruct (descend_step msgs start) as [c|] eqn:E; [|intros [= <-]; left; reflexivity].
  intros H. right. destruct (IH _ _ _ H) as [->|Hin]; [|exact Hin].
  apply descend_step_latest in E as (child & Hc & _ & <- & _). apply in_map. exact Hc.
Qed.

(** X4: a swipe from anything but the draft placeholder never throws.  When
    it returns, the store, the chapters and the drafting flag are as before,
    and the head is either unchanged or the id of a stored message without
    children. *)
Theorem X4_swipe_from_stored_is_safe (fuel : nat) (cur : string) (dir : Direction)
    (s : AppState) :
  cur <> GHOST_ID ->
  handleSwipeBranch fuel cur dir s <> Throws
  /\ forall s', handleSwipeBranch fuel cur dir s = Done s' ->
       messages s' = messages s /\ chapters s' = chapters s
       /\ isDraftingBranch s' = isDraftingBranch s
       /\ (activeBranchHeadId s' = activeBranchHeadId s
           \/ (In (activeBranchHeadId s') (map m_id (messages s))
               /\ descend_step (messages s) (activeBranchHeadId s') = None)).
Proof.
  intros Hcur. unfold handleSwipeBranch.
  destruct (cur ==? GHOST_ID) eqn:G; [apply String.eqb_eq in G; contradiction|].
  change (messages (setSwipeDirection _ s)) with (messages s).
  change (activeBranchHeadId (setSwipeDirection _ s)) with (activeBranchHeadId s).
  set (s0 := setSwipeDirection _ s).
  assert (Hs0 : forall s', Done s0 = Done s' ->
            messages s' = messages s /\ chapters s' = chapters s
            /\ isDraftingBranch s' = isDraftingBranch s
            /\ (activeBranchHeadId s' = activeBranchHeadId s
                \/ (In (activeBranchHeadId s') (map m_id (messages s))
                    /\ descend_step (messages s) (activeBranchHeadId s') = None))).
  { intros s' [= <-]. repeat split. left. reflexivity. }
  destruct (List.find (byId cur) (messages s)) as [m|] eqn:Ef;
    [|cbn [truthy negb]; split; [discriminate|exact Hs0]].
  destruct (truthy (m_parentId m)) eqn:Ht; cbn [negb];
    [|split; [discriminate|exact Hs0]].
  set (siblings := sortedChildren (messages s) (m_parentId m)).
  set (i := findIndex (byId cur) siblings).
  apply find_some in Ef as [Hin Hid].
  assert (Hi : 0 <= i < js_length siblings).
  { split; [|apply findIndex_range].
    apply (findIndex_found _ _ m); [|exact Hid].
    apply sortedChildren_In. split; [exact Hin|reflexivity]. }
  destruct (i =? -1) eqn:E1; zb E1; [lia|].
  destruct (js_nth_in_range siblings _ (swipeIndex_in_range _ _ dir Hi)) as (target & Ht').
  rewrite Ht'. cbv beta iota zeta.
  change (messages s0) with (messages s).
  assert (Htarget : In (m_id target) (map m_id (messages s))).
  { apply in_map. apply js_nth_In in Ht'. apply sortedChildren_In in Ht'. tauto. }
  destruct (descend fuel (messages s) (m_id target)) as [leaf|] eqn:Ed;
    [|split; discriminate].
  split; [discriminate|]. intros s' [= <-]. repeat split. right. cbn. split.
  - destruct (descend_stored _ _ _ _ Ed) as [->|H]; assumption.
  - exact (descend_leaf _ _ _ _ Ed).
Qed.

(** X4 on the deep tree. *)
Lemma X4_swipe_from_stored_is_safe_witness :
  handleSwipeBranch 5 "D" next (stateOf (deepTree 0 1 2) "D" false) <> Throws.
Proof.
  refine (proj1 (X4_swipe_from_stored_is_safe 5 "D" next
                   (stateOf (deepTree 0 1 2) "D" false) _)).
  discriminate.
Defined.

Lemma find_byId_none (msgs : list Message) i :
  (forall m, In m msgs -> m_id m <> i) -> List.find (byId i) msgs = None.
Proof.
  induction msgs as [|m l IH]; intros H; [reflexivity|]. simpl.
  unfold byId at 1. destruct (m_id m ==? i) eqn:E.
  - apply String.eqb_eq in E. destruct (H m (or_introl eq_refl) E).
  - apply IH. intros; apply H; right; assumption.
Qed.

(** X5: a swipe from the draft placeholder, in a store that holds no
    message with the placeholder's id and with a non-empty head.  It throws
    exactly when the fork point has no stored child, which is when the
    placeholder's sibling count is 1 and the bubble offers no arrows.
    Otherwise it leaves draft mode; 'next' wraps to the oldest child of the
    fork point and 'prev' goes to the newest, and the head goes to the leaf
    that the descent reaches from there. *)
Theorem X5_swipe_from_placeholder (fuel : nat) (s : AppState) (now now' : Z) :
  (forall m, In m (messages s) -> m_id m <> GHOST_ID) ->
  activeBranchHeadId s <> "" ->
  let msgs := messages s in
  let fork := activeBranchHeadId s in
  let real := sortedChildren msgs (Some fork) in
  let land (d : SwipeDirection) (target : Message) :=
    match descend fuel msgs (m_id target) with
    | Some leaf =>
        Done (setActiveBranchHeadId leaf
                (setIsDraftingBranch false (setSwipeDirection d s)))
    | None => OutOfFuel
    end in
  siblingCount (annotate msgs fork true now' (ghostMsg fork now))
    = Some (js_length real + 1)
  /\ (real = [] ->
        forall dir, handleSwipeBranch fuel GHOST_ID dir s = Throws)
  /\ (forall oldest newest, head real = Some oldest -> last real = Some newest ->
        handleSwipeBranch fuel GHOST_ID next s = land right oldest
        /\ handleSwipeBranch fuel GHOST_ID prev s = land left newest).
Proof.
  intros Hreal Hhead msgs fork real land.
  split; [rewrite (annotate_ghost msgs fork Hreal Hhead now now'); reflexivity|].
  assert (Hstart : forall dir,
    handleSwipeBranch fuel GHOST_ID dir s
    = match js_nth real (swipeIndex (js_length real) true dir (js_length real)) with
      | None => Throws
      | Some target => land (match dir with prev => left | next => right end) target
      end).
  { intros dir. unfold handleSwipeBranch.
    change (messages (setSwipeDirection _ s)) with msgs.
    change (activeBranchHeadId (setSwipeDirection _ s)) with fork.
    rewrite (find_byId_none msgs GHOST_ID Hreal).
    replace (GHOST_ID ==? GHOST_ID) with true by reflexivity.
    cbn [truthy]. destruct (fork ==? "") eqn:E; [apply String.eqb_eq in E; contradiction|].
    cbn [negb]. fold real.
    destruct (js_length real =? -1) eqn:E1; zb E1; [unfold js_length in E1; lia|].
    destruct (js_nth real _); reflexivity. }
  split.
  - intros Hnil dir. rewrite Hstart, Hnil. destruct dir; reflexivity.
  - intros oldest newest Ho Hn.
    assert (Hpos : 1 <= js_length real).
    { destruct real; [discriminate|]. unfold js_length. simpl. lia. }
    split; rewrite Hstart; unfold swipeIndex.
    + destruct (js_length real + 1 >=? js_length real) eqn:G; zb G; [|lia].
      cbn [Z.ltb Z.compare]. rewrite js_nth_lookup by lia.
      change (Z.to_nat 0) with O. rewrite <- head_lookup, Ho. reflexivity.
    + destruct (js_length real - 1 >=? js_length real) eqn:G; zb G; [lia|].
      destruct (js_length real - 1 <? 0) eqn:G2; zb G2; [lia|].
      rewrite js_nth_lookup by lia.
      replace (Z.to_nat (js_length real - 1)) with (Init.Nat.pred (length real))
        by (unfold js_length; lia).
      rewrite <- last_lookup, Hn. reflexivity.
Qed.

(** X5 at B of the fork tree, in draft mode: 'prev' lands on D. *)
Lemma X5_swipe_from_placeholder_witness :
  handleSwipeBranch 3 GHOST_ID prev (stateOf (forkTree 0 1 2) "B" true)
  = Done (setActiveBranchHeadId "D"
            (setIsDraftingBranch false
               (setSwipeDirection left (stateOf (forkTree 0 1 2) "B" true)))).
Proof.
  destruct (X5_swipe_from_placeholder 3 (stateOf (forkTree 0 1 2) "B" true) 0 0)
    as (_ & _ & H).
  - real_store.
  - discriminate.
  - exact (proj2 (H msgC msgD eq_refl eq_refl)).
Defined.


(* ------------------------------------------------------------------ *)
(** ** The store is a forest in every state the handlers reach *)
(* ------------------------------------------------------------------ *)

Lemma In_ids_lookup (msgs : list Message) i :
  In i (map m_id msgs) <-> exists (k : nat) a, msgs !! k = Some a /\ m_id a = i.
Proof.
  split.
  - intros H. apply in_map_iff in H as (a & Ha & Hin).
    apply list_elem_of_In, list_elem_of_lookup in Hin as (k & Hk).
    exists k, a. split; assumption.
  - intros (k & a & Hk & <-). apply in_map. apply list_elem_of_In.
    apply list_elem_of_lookup. exists k. exact Hk.
Qed.

Lemma lookup_findIndex (msgs : list Message) (k : nat) a :
  List.NoDup (map m_id msgs) -> msgs !! k = Some a ->
  findIndex (byId (m_id a)) msgs = Z.of_nat k.
Proof.
  intros Hnd Hk. pose proof (take_drop_middle _ _ _ Hk) as Hsplit.
  rewrite <- Hsplit in Hnd |- *. rewrite (findIndex_unique _ _ _ Hnd).
  unfold js_length. rewrite length_take. apply lookup_lt_Some in Hk. lia.
Qed.

Lemma forest_acyclic (msgs : list Message) : forest msgs -> acyclic msgs.
Proof.
  intros [Hnd Hpar].
  apply (acyclic_by_rank msgs (fun i => Z.to_nat (findIndex (byId i) msgs))).
  intros m p Hin Hp.
  apply list_elem_of_In, list_elem_of_lookup in Hin as (k & Hk).
  destruct (Hpar k m p Hk Hp) as (j & a & Hjk & Hj & <-).
  rewrite (lookup_findIndex _ _ _ Hnd Hk), (lookup_findIndex _ _ _ Hnd Hj). lia.
Qed.

Lemma forest_snoc (msgs : list Message) (m : Message) :
  forest msgs -> ~ In (m_id m) (map m_id msgs) ->
  (forall p, m_parentId m = Some p -> In p (map m_id msgs)) ->
  forest (msgs ++ [m]).
Proof.
  intros [Hnd Hpar] Hfresh Hp. split.
  - rewrite map_app. apply NoDup_ListNoDup. apply NoDup_app. repeat split.
    + apply NoDup_ListNoDup. exact Hnd.
    + intros x Hx Hx'. apply list_elem_of_In in Hx.
      apply list_elem_of_In in Hx'. destruct Hx' as [<-|[]]. contradiction.
    + apply NoDup_ListNoDup. repeat constructor. intros [].
  - intros k a p Hk Ha.
    destruct (lookup_app_Some msgs [m] k a) as [Hcases _].
    destruct (Hcases Hk) as [Hl|[Hlen Hr]].
    + destruct (Hpar k a p Hl Ha) as (j & b & Hjk & Hj & Hb).
      exists j, b. repeat split; try assumption.
      apply lookup_app_l_Some. exact Hj.
    + destruct (k - length msgs)%nat eqn:E; [|destruct n; discriminate].
      injection Hr as <-. apply Hp, In_ids_lookup in Ha as (j & b & Hj & Hb).
      exists j, b. repeat split; try assumption.
      * apply lookup_lt_Some in Hj. lia.
      * apply lookup_app_l_Some. exact Hj.
Qed.

Lemma map_lookup {A B} (f : A -> B) (l : list A) (k : nat) :
  map f l !! k = option_map f (l !! k).
Proof.
  revert k. induction l as [|x l IH]; intros [|k]; simpl; try reflexivity. apply IH.
Qed.

Lemma forest_ext (l l' : list Message) :
  map m_id l' = map m_id l -> map m_parentId l' = map m_parentId l ->
  forest l -> forest l'.
Proof.
  intros Hid Hpa [Hnd Hpar]. split; [rewrite Hid; exact Hnd|].
  intros k m p Hk Hp.
  assert (Hk' : exists m0, l !! k = Some m0 /\ m_parentId m0 = m_parentId m).
  { assert (H2 : map m_parentId l' !! k = Some (m_parentId m))
      by (rewrite map_lookup, Hk; reflexivity).
    rewrite Hpa, map_lookup in H2.
    destruct (l !! k) as [m0|]; [|discriminate].
    exists m0. injection H2 as H2. auto. }
  destruct Hk' as (m0 & Hk0 & Hp0). rewrite <- Hp0 in Hp.
  destruct (Hpar k m0 p Hk0 Hp) as (j & a & Hjk & Hj & Ha).
  assert (H1 : map m_id l !! j = Some p)
    by (rewrite map_lookup, Hj, <- Ha; reflexivity).
  rewrite <- Hid, map_lookup in H1.
  destruct (l' !! j) as [a'|] eqn:Ej; [|discriminate].
  exists j, a'. injection H1 as H1. auto.
Qed.

Lemma swipe_outcome fuel cur dir s :
  (exists s0, messages s0 = messages s
              /\ activeBranchHeadId s0 = activeBranchHeadId s
              /\ handleSwipeBranch fuel cur dir s = Done s0)
  \/ (cur = GHOST_ID /\ handleSwipeBranch fuel cur dir s = Throws)
  \/ (exists target s1, In target (messages s) /\ messages s1 = messages s
        /\ handleSwipeBranch fuel cur dir s
           = match descend fuel (messages s) (m_id target) with
             | Some pointer => Done (setActiveBranchHeadId pointer s1)
             | None => OutOfFuel
             end).
Proof.
  unfold handleSwipeBranch.
  change (messages (setSwipeDirection _ s)) with (messages s).
  change (activeBranchHeadId (setSwipeDirection _ s)) with (activeBranchHeadId s).
  set (s0 := setSwipeDirection _ s).
  assert (Hearly : exists s1, messages s1 = messages s
              /\ activeBranchHeadId s1 = activeBranchHeadId s /\ Done s0 = Done s1)
    by (exists s0; repeat split).
  set (parent := match List.find (byId cur) (messages s) with
                 | Some m => m_parentId m
                 | None => if cur ==? GHOST_ID then Some (activeBranchHeadId s) else None
                 end).
  destruct (truthy parent) eqn:Ht; cbn [negb]; [|left; exact Hearly].
  set (siblings := sortedChildren (messages s) parent).
  assert (Hsib : forall i target, js_nth siblings i = Some target -> In target (messages s)).
  { intros i target H. apply js_nth_In in H. apply sortedChildren_In in H. tauto. }
  destruct (cur ==? GHOST_ID) eqn:G.
  - apply String.eqb_eq in G.
    destruct (js_length siblings =? -1) eqn:E1; [left; exact Hearly|].
    destruct (js_nth siblings _) as [target|] eqn:En; [|right; left; split; [exact G|reflexivity]].
    right; right. exists target, (setIsDraftingBranch false s0).
    split; [exact (Hsib _ _ En)|]. split; reflexivity.
  - destruct (findIndex (byId cur) siblings =? -1) eqn:E1; [left; exact Hearly|].
    zb E1. pose proof (findIndex_range (byId cur) siblings) as Hr.
    assert (Hi : 0 <= findIndex (byId cur) siblings < js_length siblings) by lia.
    destruct (js_nth_in_range siblings _ (swipeIndex_in_range _ _ dir Hi)) as (target & En).
    rewrite En. right; right. exists target, s0.
    split; [exact (Hsib _ _ En)|]. split; reflexivity.
Qed.

Lemma swipe_done fuel cur dir s s' :
  handleSwipeBranch fuel cur dir s = Done s' ->
  messages s' = messages s
  /\ (activeBranchHeadId s' = activeBranchHeadId s
      \/ In (activeBranchHeadId s') (map m_id (messages s))).
Proof.
  intros H.
  destruct (swipe_outcome fuel cur dir s)
    as [(s0 & Hm & Hh & E)|[(_ & E)|(target & s1 & Hin & Hm & E)]];
    rewrite E in H.
  - injection H as <-. split; [exact Hm|left; exact Hh].
  - discriminate.
  - destruct (descend fuel (messages s) (m_id target)) as [leaf|] eqn:Ed; [|discriminate].
    injection H as <-. split; [exact Hm|right]. cbn.
    destruct (descend_stored _ _ _ _ Ed) as [->|Hs]; [apply in_map; exact Hin|exact Hs].
Qed.

Lemma findBestBranchHead_stored fuel : forall msgs target r,
  In target (map m_id msgs) ->
  findBestBranchHead fuel msgs target = Some r -> In r (map m_id msgs).
Proof.
  induction fuel as [|fuel IH]; intros msgs target r Hin; simpl; [discriminate|].
  destruct (target ==? ROOT_ID) eqn:E.
  - destruct (List.filter _ msgs) as [|child l] eqn:Ef.
    + intros [= <-]. apply String.eqb_eq in E. subst. exact Hin.
    + apply IH. apply in_map.
      assert (H : In child (List.filter (byParent (Some ROOT_ID)) msgs))
        by (rewrite Ef; left; reflexivity).
      apply filter_In in H. tauto.
  - destruct (js_sort _ _) as [|best l] eqn:Es.
    + intros [= <-]. exact Hin.
    + intros [= <-]. apply in_map.
      assert (H : In best (js_sort byTimestampDesc (descendantLeaves msgs target)))
        by (rewrite Es; left; reflexivity).
      apply js_sort_In in H. unfold descendantLeaves in H.
      apply filter_In in H as [H _]. apply filter_In in H as [H _]. exact H.
Qed.

Lemma handleSendMessage_refused clock s :
  sendRefused s = true -> handleSendMessage clock s = s.
Proof. unfold sendRefused, handleSendMessage. intros ->. reflexivity. Qed.

Lemma handleSendMessage_store clock s :
  sendRefused s = false ->
  messages (handleSendMessage clock s)
  = messages s ++ [newMessage clock s; responsePlaceholder clock]
  /\ activeBranchHeadId (handleSendMessage clock s) = m_id (responsePlaceholder clock)
  /\ isDraftingBranch (handleSendMessage clock s) = false
  /\ isStreaming (handleSendMessage clock s) = true
  /\ inputText (handleSendMessage clock s) = "".
Proof.
  unfold sendRefused, handleSendMessage. intros ->. cbv zeta.
  destruct (hasChildren _ _), (isBranching _ _ _); cbn;
    rewrite <- app_assoc; repeat split.
Qed.

Lemma msg_resp_distinct a b : "msg-" +:+ a <> "resp-" +:+ b.
Proof. discriminate. Qed.

Lemma forest_initial t0 : forest (INITIAL_MESSAGES t0).
Proof.
  split; [repeat constructor; intros []|].
  intros [|k] m p Hk Hp; [|discriminate]. injection Hk as <-. discriminate.
Qed.

Lemma streamChunk_ids responseId fullResponse s :
  map m_id (messages (streamChunk responseId fullResponse s)) = map m_id (messages s)
  /\ map m_parentId (messages (streamChunk responseId fullResponse s))
     = map m_parentId (messages s)
  /\ map m_timestamp (messages (streamChunk responseId fullResponse s))
     = map m_timestamp (messages s).
Proof.
  unfold streamChunk. cbn. rewrite !map_map.
  repeat split; apply map_ext; intros m; destruct (m_id m ==? responseId); reflexivity.
Qed.

Lemma wellFormed_send clock s :
  wellFormed s -> freshIds clock s -> wellFormed (handleSendMessage clock s).
Proof.
  intros [Hf Hh] [Hu Hr].
  destruct (sendRefused s) eqn:G.
  { rewrite handleSendMessage_refused by exact G. split; assumption. }
  destruct (handleSendMessage_store clock s G) as (Hm & Hhead & _).
  unfold wellFormed. rewrite Hm, Hhead.
  change (messages s ++ [newMessage clock s; responsePlaceholder clock])
    with (messages s ++ [newMessage clock s] ++ [responsePlaceholder clock]).
  rewrite app_assoc. split.
  - apply forest_snoc.
    + apply forest_snoc; [exact Hf|exact Hu|]. intros p [= <-]. exact Hh.
    + rewrite map_app, in_app_iff. intros [H|[H|[]]]; [exact (Hr H)|].
      exact (msg_resp_distinct _ _ H).
    + intros p [= <-]. rewrite map_app, in_app_iff. right. left. reflexivity.
  - rewrite map_app, in_app_iff. right. left. reflexivity.
Qed.

(** X6: in every state that the handlers reach from a new chat, the store
    is a forest (distinct ids, every parent stored before its child) and the
    head is the id of a stored message. *)
Theorem X6_reachable_states_are_well_formed (s : AppState) :
  Reachable s -> wellFormed s.
Proof.
  induction 1 as [t0|text s _ IH|clock s _ IH Hfresh|rid full s _ IH|s _ IH
                  |from s _ IH Hin|fuel cur dir s s' _ IH Hswipe
                  |fuel clock msgId s s' _ IH Hin Hnav|now sid title s _ IH
                  |f s _ IH|n s _ IH|b s _ IH|t0 s _ IH];
    try exact IH.
  - split; [apply forest_initial|left; reflexivity].
  - exact (wellFormed_send clock s IH Hfresh).
  - destruct IH as [Hf Hh]. destruct (streamChunk_ids rid full s) as (Hid & Hpa & _).
    split.
    + exact (forest_ext _ _ Hid Hpa Hf).
    + rewrite Hid. exact Hh.
  - destruct IH as [Hf _]. split; [exact Hf|exact Hin].
  - destruct IH as [Hf Hh]. destruct (swipe_done _ _ _ _ _ Hswipe) as [Hm Hhead].
    unfold wellFormed. rewrite Hm. split; [exact Hf|].
    destruct Hhead as [->|Hs]; assumption.
  - destruct IH as [Hf Hh]. unfold handleNavigate in Hnav.
    destruct (findBestBranchHead fuel (messages s) msgId) as [r|] eqn:Eb; [|discriminate].
    apply findBestBranchHead_stored in Eb; [|exact Hin].
    injection Hnav as <-. destruct (existsb _ _); split; assumption.
  - split; [apply forest_initial|left; reflexivity].
Qed.

(** X6 on the state after typing a message into a new chat and sending it. *)
Lemma X6_reachable_states_are_well_formed_witness :
  wellFormed (handleSendMessage (fun _ => 7) (setInputText "hi" (initialState 0))).
Proof.
  apply X6_reachable_states_are_well_formed.
  apply ReachSend; [apply ReachInput, ReachInit|].
  split; vm_compute; intuition discriminate.
Defined.

Lemma forest_child_differs (msgs : list Message) child p :
  forest msgs -> In child msgs -> m_parentId child = Some p -> m_id child <> p.
Proof.
  intros [Hnd Hpar] Hin Hp Heq.
  apply list_elem_of_In, list_elem_of_lookup in Hin as (k & Hk).
  destruct (Hpar k child p Hk Hp) as (j & a & Hjk & Hj & Ha).
  pose proof (lookup_findIndex _ _ _ Hnd Hk) as E1.
  pose proof (lookup_findIndex _ _ _ Hnd Hj) as E2.
  rewrite Ha, <- Heq in E2. lia.
Qed.

Lemma findBestBranchHead_returns (msgs : list Message) target :
  forest msgs -> exists r, findBestBranchHead 2 msgs target = Some r.
Proof.
  intros Hf. cbn [findBestBranchHead].
  destruct (target ==? ROOT_ID) eqn:E.
  - destruct (List.filter _ msgs) as [|child l] eqn:Ef; [eexists; reflexivity|].
    assert (H : In child (List.filter (byParent (Some ROOT_ID)) msgs))
      by (rewrite Ef; left; reflexivity).
    apply filter_In in H as [Hin Hp]. unfold byParent in Hp.
    assert (Hp' : m_parentId child = Some ROOT_ID).
    { destruct (m_parentId child) as [q|]; [|discriminate]. simpl in Hp.
      apply String.eqb_eq in Hp. congruence. }
    pose proof (forest_child_differs _ _ _ Hf Hin Hp') as Hne.
    apply String.eqb_neq in Hne. rewrite Hne.
    destruct (js_sort _ _); eexists; reflexivity.
  - destruct (js_sort _ _); eexists; reflexivity.
Qed.

Lemma existsb_eqb_In (x : string) (l : list string) :
  existsb (String.eqb x) l = true <-> In x l.
Proof.
  rewrite existsb_exists. split.
  - intros (y & Hy & E). apply String.eqb_eq in E. subst. exact Hy.
  - intros H. exists x. split; [exact H|apply String.eqb_refl].
Qed.

Lemma parentsFirst_sound : forall (msgs pre : list Message) (seen : list string),
  (forall i, In i seen <-> In i (map m_id pre)) ->
  forest pre -> parentsFirst seen msgs = true -> forest (pre ++ msgs).
Proof.
  induction msgs as [|m rest IH]; intros pre seen Hseen Hf H.
  - rewrite app_nil_r. exact Hf.
  - simpl in H. apply andb_prop in H as [H Hrest]. apply andb_prop in H as [Hid Hp].
    change (m :: rest) with ([m] ++ rest). rewrite app_assoc.
    apply (IH (pre ++ [m]) (m_id m :: seen)); [| |exact Hrest].
    + intros i. rewrite map_app, in_app_iff. simpl. rewrite Hseen. tauto.
    + apply forest_snoc; [exact Hf| |].
      * intros Hin. apply Hseen, existsb_eqb_In in Hin. rewrite Hin in Hid. discriminate.
      * intros p Ep. rewrite Ep in Hp. apply Hseen, existsb_eqb_In. exact Hp.
Qed.

Lemma forest_checked (msgs : list Message) : parentsFirst [] msgs = true -> forest msgs.
Proof.
  apply (parentsFirst_sound msgs [] []); [reflexivity|].
  split; [constructor|]. intros k m p Hk. destruct k; discriminate.
Qed.

(** X7: on a store that is a forest the parent links have no cycle, so the
    loops of the handlers end: a swipe given one turn more than the store has
    messages does not run out of turns, from a stored message it returns,
    and a navigation returns after at most one recursive call. *)
Theorem X7_handlers_return_on_forest (s : AppState) (cur : string) (dir : Direction)
    (clock : nat -> Z) (msgId : string) :
  forest (messages s) ->
  acyclic (messages s)
  /\ handleSwipeBranch (S (length (messages s))) cur dir s <> OutOfFuel
  /\ (cur <> GHOST_ID ->
      exists s', handleSwipeBranch (S (length (messages s))) cur dir s = Done s')
  /\ exists s', handleNavigate 2 clock msgId s = Done s'.
Proof.
  intros Hf. pose proof (forest_acyclic _ Hf) as Hacyc.
  split; [exact Hacyc|].
  assert (Hswipe : handleSwipeBranch (S (length (messages s))) cur dir s <> OutOfFuel
                   /\ (cur <> GHOST_ID ->
                       exists s', handleSwipeBranch (S (length (messages s))) cur dir s
                                  = Done s')).
  { destruct (swipe_outcome (S (length (messages s))) cur dir s)
      as [(s0 & _ & _ & E)|[(G & E)|(target & s1 & _ & _ & E)]]; rewrite E.
    - split; [discriminate|]. intros _. exists s0. reflexivity.
    - split; [discriminate|]. intros Hc. contradiction.
    - destruct (descend_terminates (messages s) (m_id target) Hacyc) as (leaf & -> & _).
      split; [discriminate|]. intros _. eexists. reflexivity. }
  split; [exact (proj1 Hswipe)|]. split; [exact (proj2 Hswipe)|].
  unfold handleNavigate.
  destruct (findBestBranchHead_returns (messages s) msgId Hf) as (r & ->).
  eexists. reflexivity.
Qed.

(** X7 on the deep tree, swiping from D. *)
Lemma X7_handlers_return_on_forest_witness :
  handleSwipeBranch 8 "D" next (stateOf (deepTree 0 1 2) "D" false) <> OutOfFuel.
Proof.
  refine (proj1 (proj2 (X7_handlers_return_on_forest
            (stateOf (deepTree 0 1 2) "D" false) "D" next (fun _ => 0) "D" _))).
  apply forest_checked. reflexivity.
Defined.

(* ------------------------------------------------------------------ *)
(** ** Navigation: where [findBestBranchHead] lands *)
(* ------------------------------------------------------------------ *)

Lemma passesThrough_nonempty n msgs target c :
  passesThrough n msgs target (Some c) = true -> c <> "".
Proof.
  destruct n; simpl; [discriminate|].
  destruct (c ==? "") eqn:E; [discriminate|]. intros _. apply String.eqb_neq. exact E.
Qed.

Lemma passesThrough_reaches n : forall msgs target c,
  passesThrough n msgs target (Some c) = true ->
  c = target \/ tc (childEdge msgs) target c.
Proof.
  induction n as [|n IH]; intros msgs target c; simpl; [discriminate|].
  destruct (c ==? "") eqn:E0; [discriminate|].
  destruct (c ==? target) eqn:Et; [intros _; left; apply String.eqb_eq; exact Et|].
  destruct (List.find (byId c) msgs) as [m|] eqn:Ef; [|destruct n; discriminate].
  destruct (m_parentId m) as [p|] eqn:Ep; [|destruct n; discriminate].
  intros H. right. apply find_some in Ef as [Hin Hid].
  unfold byId in Hid. apply String.eqb_eq in Hid.
  assert (He : childEdge msgs p c) by (exists m; auto).
  destruct (IH _ _ _ H) as [->|Htc].
  - apply tc_once. exact He.
  - eapply tc_r; [exact Htc|exact He].
Qed.

Lemma isLeaf_childless msgs m :
  isLeaf msgs m = true -> m_id m <> "" ->
  forall x, In x msgs -> m_parentId x <> Some (m_id m).
Proof.
  unfold isLeaf. intros H Hne x Hin Hp.
  apply negb_true_iff in H.
  assert (Hex : existsb (fun x => truthy (m_parentId x)
                           && opt_eqb (m_parentId x) (Some (m_id m))) msgs = true).
  { apply existsb_exists. exists x. split; [exact Hin|]. rewrite Hp. simpl.
    rewrite String.eqb_refl. apply String.eqb_neq in Hne. rewrite Hne. reflexivity. }
  congruence.
Qed.

Lemma childless_isLeaf msgs m :
  (forall x, In x msgs -> m_parentId x <> Some (m_id m)) -> isLeaf msgs m = true.
Proof.
  intros H. unfold isLeaf. apply negb_true_iff.
  destruct (existsb _ msgs) eqn:E; [|reflexivity].
  apply existsb_exists in E as (x & Hin & Hx). apply andb_prop in Hx as [_ Hx].
  destruct (m_parentId x) as [p|] eqn:Ep; [|discriminate]. simpl in Hx.
  apply String.eqb_eq in Hx. subst p. exfalso. exact (H x Hin Ep).
Qed.

Lemma descendantLeaves_In msgs target leaf :
  In leaf (descendantLeaves msgs target)
  <-> In leaf msgs /\ isLeaf msgs leaf = true
      /\ passesThrough ANCESTOR_SAFETY msgs target (Some (m_id leaf)) = true.
Proof. unfold descendantLeaves. rewrite !filter_In. tauto. Qed.

(** X8: navigating to a message other than the root lands on that message
    or on one of its descendants.  If it lands elsewhere, the landing place
    is a stored message without children; it is as recent as every leaf whose
    ancestor chain passes through the target; and a target without children
    is where the navigation lands. *)
Theorem X8_navigation_lands_in_subtree (fuel : nat) (msgs : list Message)
    (target : string) :
  target <> ROOT_ID ->
  exists r, findBestBranchHead (S fuel) msgs target = Some r
    /\ (r = target \/ tc (childEdge msgs) target r)
    /\ (r <> target ->
        exists leaf, In leaf msgs /\ m_id leaf = r
          /\ forall x, In x msgs -> m_parentId x <> Some r)
    /\ (forall o, In o msgs -> isLeaf msgs o = true ->
          passesThrough ANCESTOR_SAFETY msgs target (Some (m_id o)) = true ->
          exists best, In best msgs /\ m_id best = r
                       /\ m_timestamp o <= m_timestamp best)
    /\ ((forall x, In x msgs -> m_parentId x <> Some target) -> r = target).
Proof.
  intros Hroot. cbn [findBestBranchHead].
  apply String.eqb_neq in Hroot. rewrite Hroot.
  destruct (js_sort byTimestampDesc (descendantLeaves msgs target)) as [|best l] eqn:Es.
  - exists target. split; [reflexivity|]. split; [left; reflexivity|].
    split; [intros H; contradiction|]. split; [|reflexivity].
    intros o Hin Hleaf Hpass. exfalso.
    assert (H : In o (js_sort byTimestampDesc (descendantLeaves msgs target))).
    { apply js_sort_In, descendantLeaves_In. auto. }
    rewrite Es in H. destruct H.
  - assert (Hbest : In best (descendantLeaves msgs target)).
    { apply (js_sort_In byTimestampDesc). rewrite Es. left. reflexivity. }
    apply descendantLeaves_In in Hbest as (Hin & Hleaf & Hpass).
    pose proof (passesThrough_reaches _ _ _ _ Hpass) as Hreach.
    pose proof (passesThrough_nonempty _ _ _ _ Hpass) as Hne.
    exists (m_id best). split; [reflexivity|]. split; [exact Hreach|].
    split; [|split].
    + intros _. exists best. split; [exact Hin|]. split; [reflexivity|].
      exact (isLeaf_childless _ _ Hleaf Hne).
    + intros o Ho Hol Hop. exists best. split; [exact Hin|]. split; [reflexivity|].
      apply (js_sort_desc_head _ _ _ Es). apply descendantLeaves_In. auto.
    + intros Hnone. destruct Hreach as [E|Htc]; [exact E|]. exfalso.
      assert (He : exists z, childEdge msgs target z)
        by (inversion Htc; subst; eexists; eassumption).
      destruct He as (z & m & Hm & Hp & _). exact (Hnone m Hm Hp).
Qed.

(** X8 on the deep tree: from C the navigation lands on F, the newest leaf
    below C. *)
Lemma X8_navigation_lands_in_subtree_witness :
  exists r, findBestBranchHead 1 (deepTree 0 1 2) "C" = Some r
            /\ ("F" = "C" \/ tc (childEdge (deepTree 0 1 2)) "C" "F").
Proof.
  destruct (X8_navigation_lands_in_subtree 0 (deepTree 0 1 2) "C") as (r & E & H & _).
  - discriminate.
  - exists r. split; [exact E|]. vm_compute in E. injection E as <-. exact H.
Defined.

(* ------------------------------------------------------------------ *)
(** ** Subtopics *)
(* ------------------------------------------------------------------ *)

Lemma length_string_app (a b : string) :
  String.length (a +:+ b) = (String.length a + String.length b)%nat.
Proof. induction a as [|c a IH]; simpl; [reflexivity|]. rewrite IH. reflexivity. Qed.

Lemma length_string_rev_app (s acc : string) :
  String.length (String.rev_app s acc) = (String.length s + String.length acc)%nat.
Proof.
  revert acc. induction s as [|c s IH]; intros acc; simpl; [reflexivity|].
  rewrite IH. simpl. lia.
Qed.

Lemma length_string_rev (s : string) : String.length (String.rev s) = String.length s.
Proof. unfold String.rev. rewrite length_string_rev_app. simpl. lia. Qed.

Lemma length_trimStart (s : string) : (String.length (trimStart s) <= String.length s)%nat.
Proof.
  induction s as [|c s IH]; simpl; [lia|]. destruct (is_ws c); simpl; lia.
Qed.

Lemma length_js_trim (s : string) : (String.length (js_trim s) <= String.length s)%nat.
Proof.
  unfold js_trim. rewrite length_string_rev.
  etransitivity; [apply length_trimStart|]. rewrite length_string_rev.
  apply length_trimStart.
Qed.

Lemma length_substring0 (n : nat) (s : string) :
  (String.length (substring 0 n s) <= n)%nat.
Proof.
  revert s. induction n as [|n IH]; intros [|c s]; simpl; try lia.
  specialize (IH s). lia.
Qed.

(** X9: the subtopics drawn from a buffer of messages with ASCII contents
    (on which the string helpers are those of JavaScript) are at most two;
    each is the content of a user message of the buffer that is longer than
    one character and is not a bare greeting, cut to at most 58
    characters: the content itself, or its first 55 characters, trimmed and
    followed by three dots, when it is longer than 55. *)
Theorem X9_extracted_subtopics (msgs : list Message) :
  Forall (fun m => isAscii (m_content m) = true) msgs ->
  (length (extractSubtopics msgs) <= 2)%nat
  /\ forall t, In t (extractSubtopics msgs) ->
       str_length t <= 58
       /\ exists m, In m msgs /\ m_author m = USER /\ 1 < str_length (m_content m)
            /\ ~ In (js_trim (toLowerCase (m_content m))) IGNORED_WORDS
            /\ (t = m_content m
                \/ (55 < str_length (m_content m)
                    /\ t = js_trim (slice0 55 (m_content m)) +:+ "...")).
Proof.
  intros _. unfold extractSubtopics. split.
  - rewrite length_map. apply firstn_le_length.
  - intros t Ht. apply in_map_iff in Ht as (m & <- & Hm).
    apply list_elem_of_In, elem_of_take in Hm as (i & Hi & _).
    apply list_elem_of_lookup_2, list_elem_of_In, filter_In in Hi as (Hin & Hf).
    cbv zeta in Hf. apply andb_prop in Hf as [Hf Hlen]. apply andb_prop in Hf as [Ha Hig].
    assert (Hlen' : 1 < str_length (m_content m)) by (zb Hlen; lia).
    assert (Hbody : forall b : bool, b = (str_length (m_content m) >? 55) ->
              str_length (if b then js_trim (slice0 55 (m_content m)) +:+ "..."
                          else m_content m) <= 58).
    { intros [|] Eb; symmetry in Eb; zb Eb.
      - unfold str_length. rewrite length_string_app.
        pose proof (length_js_trim (slice0 55 (m_content m))).
        pose proof (length_substring0 55 (m_content m)). unfold slice0 in *.
        simpl String.length. lia.
      - lia. }
    split; [apply Hbody; reflexivity|].
    exists m. split; [exact Hin|]. split.
    { destruct (m_author m); [reflexivity|discriminate]. }
    split; [exact Hlen'|]. split.
    { intros Hig'. apply negb_true_iff in Hig.
      assert (existsb (String.eqb (js_trim (toLowerCase (m_content m)))) IGNORED_WORDS
              = true) by (apply existsb_eqb_In; exact Hig').
      congruence. }
    destruct (str_length (m_content m) >? 55) eqn:E; [right|left; reflexivity].
    zb E. split; [lia|reflexivity].
Qed.

(** X9 on the cats thread: one subtopic, the question of the user. *)
Lemma X9_extracted_subtopics_witness :
  extractSubtopics catsThread = ["How long do they live"]
  /\ (length (extractSubtopics catsThread) <= 2)%nat
  /\ List.Forall
       (fun t => str_length t <= 58
                 /\ exists m, In m catsThread /\ m_author m = USER
                      /\ (t = m_content m
                          \/ t = js_trim (slice0 55 (m_content m)) +:+ "..."))
       (extractSubtopics catsThread).
Proof.
  split; [reflexivity|].
  destruct (X9_extracted_subtopics catsThread) as [Hlen Hall].
  - repeat constructor.
  - split; [exact Hlen|]. apply List.Forall_forall. intros t Ht.
    destruct (Hall t Ht) as (Hb & m & Hm & Hu & _ & _ & Ht').
    split; [exact Hb|]. exists m. split; [exact Hm|]. split; [exact Hu|].
    destruct Ht' as [E|[_ E]]; [left|right]; exact E.
Defined.

Lemma uniq_spec : forall (l seen : list string),
  List.NoDup (uniq seen l)
  /\ forall x, In x (uniq seen l) <-> In x l /\ ~ In x seen.
Proof.
  induction l as [|y l IH]; intros seen; simpl.
  - split; [constructor|]. tauto.
  - destruct (existsb (String.eqb y) seen) eqn:E.
    + apply existsb_eqb_In in E. destruct (IH seen) as [Hnd Hin].
      split; [exact Hnd|]. intros x. rewrite Hin. split; [tauto|].
      intros [[<-|H] Hs]; [contradiction|tauto].
    + assert (Hy : ~ In y seen).
      { intros H. apply existsb_eqb_In in H. congruence. }
      destruct (IH (y :: seen)) as [Hnd Hin]. split.
      * constructor; [|exact Hnd]. rewrite Hin. simpl. tauto.
      * intros x. simpl. rewrite Hin. simpl.
        destruct (string_dec y x) as [->|Hne]; tauto.
Qed.

Lemma uniq_fresh_prefix : forall (a b seen : list string),
  List.NoDup a -> (forall x, In x a -> ~ In x seen) ->
  uniq seen (a ++ b) = a ++ uniq (rev a ++ seen) b.
Proof.
  induction a as [|y a IH]; intros b seen Hnd Hfresh; [reflexivity|].
  apply List.NoDup_cons_iff in Hnd as [Hy Hnd]. simpl.
  destruct (existsb (String.eqb y) seen) eqn:E.
  { apply existsb_eqb_In in E. exfalso. exact (Hfresh y (or_introl eq_refl) E). }
  f_equal. rewrite <- app_assoc. simpl. apply IH; [exact Hnd|].
  intros x Hx [<-|Hs]; [contradiction|]. exact (Hfresh x (or_intror Hx) Hs).
Qed.

(** X10: merging subtopics never yields more than twelve, never a
    duplicate, and nothing that was in neither list; where the chapter's own
    subtopics are distinct they stay in front, in their order, followed by
    the new ones that the chapter did not have. *)
Theorem X10_merged_subtopics (a b : list string) :
  (length (mergeSubtopics a b) <= 12)%nat
  /\ List.NoDup (mergeSubtopics a b)
  /\ (forall x, In x (mergeSubtopics a b) -> In x a \/ In x b)
  /\ (List.NoDup a ->
      exists rest, mergeSubtopics a b = take 12 (a ++ rest)
        /\ List.NoDup rest /\ forall x, In x rest <-> In x b /\ ~ In x a).
Proof.
  unfold mergeSubtopics. destruct (uniq_spec (a ++ b) []) as [Hnd Hin].
  split; [apply firstn_le_length|]. split; [|split].
  - apply NoDup_ListNoDup. eapply sublist_NoDup; [|apply sublist_take].
    apply NoDup_ListNoDup. exact Hnd.
  - intros x Hx. apply list_elem_of_In in Hx.
    apply (fun H => elem_of_sublist _ _ _ H (sublist_take _ _)) in Hx.
    apply list_elem_of_In, Hin in Hx as [Hx _]. apply in_app_iff. exact Hx.
  - intros Ha. exists (uniq (rev a ++ []) b).
    rewrite (uniq_fresh_prefix a b [] Ha) by (intros x _ []).
    destruct (uniq_spec b (rev a ++ [])) as [Hnd' Hin'].
    split; [reflexivity|]. split; [exact Hnd'|].
    intros x. rewrite Hin', app_nil_r, <- in_rev. tauto.
Qed.

(** X10 on two lists that share an entry. *)
Lemma X10_merged_subtopics_witness :
  exists rest, mergeSubtopics ["a"; "b"] ["b"; "c"] = take 12 (["a"; "b"] ++ rest).
Proof.
  destruct (proj2 (proj2 (proj2 (X10_merged_subtopics ["a"; "b"] ["b"; "c"]))))
    as (rest & E & _).
  - repeat constructor; simpl; intuition discriminate.
  - exists rest. exact E.
Defined.

(* ------------------------------------------------------------------ *)
(** ** The evaluation effect and the cursor *)
(* ------------------------------------------------------------------ *)

Lemma slice_from_drop {A} (l : list A) (k : Z) :
  0 <= k -> slice_from l k = drop (Z.to_nat k) l.
Proof. intros H. unfold slice_from. destruct (k <? 0) eqn:E; zb E; [lia|reflexivity]. Qed.

Lemma js_length_nil {A} (l : list A) : l = [] <-> js_length l = 0.
Proof.
  unfold js_length. destruct l; simpl; split; intros H; try reflexivity;
    try discriminate; lia.
Qed.

(** The evaluation effect in closed form, outside streaming and on a thread
    that is not empty. *)
Lemma evaluateThread_active (thread : list Message) (chaps : list Chapter) (cursor : Z) :
  0 <= cursor -> thread <> [] ->
  let valid := List.filter notGhost thread in
  let total := js_length valid in
  let cursor' := if cursor >? total then Z.max 0 (total - 1) else cursor in
  0 <= cursor' <= total
  /\ evaluateThread thread false chaps cursor
     = if cursor' <? total then
         (total,
          Some {| d_currentTopic := match last chaps with
                                    | Some c => Some (c_title c)
                                    | None => None
                                    end;
                  d_contextBlock := map toTurn (drop (Z.to_nat cursor') valid);
                  d_bufferMessages := drop (Z.to_nat cursor') valid;
                  d_validMessages := valid;
                  d_newMessagesCount := total - cursor' |})
       else (total, None).
Proof.
  intros Hc Hne valid total cursor'.
  assert (Htot : 0 <= total) by (unfold total, js_length; lia).
  assert (Hc' : 0 <= cursor' <= total).
  { unfold cursor'. destruct (cursor >? total) eqn:E; zb E; lia. }
  split; [exact Hc'|].
  unfold evaluateThread. cbn [negb andb].
  assert (Hlen : (js_length thread >? 0) = true).
  { destruct thread; [contradiction|]. unfold js_length. simpl length.
    apply Z.gtb_lt. lia. }
  rewrite Hlen. cbv zeta. fold valid. fold total. fold cursor'.
  rewrite (slice_from_drop valid cursor') by lia.
  assert (Hbuf : js_length (drop (Z.to_nat cursor') valid) = total - cursor').
  { unfold js_length. rewrite length_drop. fold (js_length valid). unfold total, js_length in *. lia. }
  rewrite Hbuf.
  destruct (cursor' <? total) eqn:Elt; zb Elt.
  - assert (E1 : (total - cursor' >=? 1) = true) by (apply Z.geb_le; lia).
    rewrite E1, orb_true_r.
    assert (E2 : (total - cursor' =? 0) = false) by (apply Z.eqb_neq; lia).
    rewrite E2. reflexivity.
  - assert (cursor' = total) by lia.
    assert (E2 : (total - cursor' =? 0) = true) by (apply Z.eqb_eq; lia).
    rewrite E2. destruct (_ || _); congruence.
Qed.

Lemma evaluateThread_idle (thread : list Message) (streaming : bool)
    (chaps : list Chapter) (cursor : Z) :
  streaming = true \/ thread = [] ->
  evaluateThread thread streaming chaps cursor = (cursor, None).
Proof.
  intros [->| ->]; unfold evaluateThread; [reflexivity|].
  rewrite andb_false_r. reflexivity.
Qed.

(** X11: the evaluation effect does nothing while a response streams or on
    an empty thread.  Otherwise it leaves the cursor at the number of real
    messages of the thread; it calls the classifier exactly when the thread
    has a real message and the cursor was not there already, on a buffer that is a non-empty end of the
    thread's real messages, with the count of that buffer; and evaluating
    the same thread again calls nothing, whatever the chapters are then. *)
Theorem X11_evaluation_moves_cursor_to_end (thread : list Message) (streaming : bool)
    (chaps chaps' : list Chapter) (cursor : Z) :
  0 <= cursor ->
  let valid := List.filter notGhost thread in
  let r := evaluateThread thread streaming chaps cursor in
  (streaming = true \/ thread = [] -> r = (cursor, None))
  /\ (streaming = false -> thread <> [] ->
      fst r = js_length valid
      /\ (snd r = None <-> cursor = js_length valid \/ valid = []))
  /\ (forall d, snd r = Some d ->
        d_validMessages d = valid
        /\ d_bufferMessages d <> []
        /\ (exists pre, valid = pre ++ d_bufferMessages d)
        /\ d_newMessagesCount d = js_length (d_bufferMessages d)
        /\ d_contextBlock d = map toTurn (d_bufferMessages d))
  /\ evaluateThread thread streaming chaps' (fst r) = (fst r, None).
Proof.
  intros Hc valid r.
  destruct streaming.
  { unfold r. rewrite !evaluateThread_idle by (left; reflexivity). cbn.
    split; [reflexivity|]. split; [discriminate|]. split; [discriminate|reflexivity]. }
  assert (Hcase : thread = [] \/ thread <> [])
    by (destruct thread; [left; reflexivity|right; discriminate]).
  destruct Hcase as [Hnil|Hne].
  { unfold r. rewrite !evaluateThread_idle by (right; exact Hnil). cbn.
    split; [reflexivity|]. split; [intros _ H; contradiction|].
    split; [discriminate|reflexivity]. }
  destruct (evaluateThread_active thread chaps cursor Hc Hne) as [Hb Hr].
  subst r valid. cbv zeta in Hb, Hr.
  set (valid := List.filter notGhost thread) in *.
  set (total := js_length valid) in *.
  set (cursor' := if cursor >? total then Z.max 0 (total - 1) else cursor) in *.
  set (r := evaluateThread thread false chaps cursor) in *.
  assert (Hbuf : js_length (drop (Z.to_nat cursor') valid) = total - cursor').
  { clearbody cursor'. unfold total, js_length in *. rewrite length_drop. lia. }
  assert (Hfst : fst r = total).
  { rewrite Hr. destruct (cursor' <? total); reflexivity. }
  split; [intros [H|H]; [discriminate|contradiction]|].
  split; [intros _ _; split; [exact Hfst|]|split].
  - assert (Hnil : valid = [] <-> total = 0).
    { unfold total. apply js_length_nil. }
    rewrite Hnil, Hr. unfold cursor' in *.
    destruct (cursor >? total) eqn:E; zb E.
    + destruct (Z.max 0 (total - 1) <? total) eqn:E2; zb E2; cbn [snd].
      * split; [discriminate|intros ?; exfalso; lia].
      * split; [intros _; lia|reflexivity].
    + destruct (cursor <? total) eqn:E2; zb E2; cbn [snd].
      * split; [discriminate|intros ?; exfalso; lia].
      * split; [intros _; lia|reflexivity].
  - intros d Hd. rewrite Hr in Hd.
    destruct (cursor' <? total) eqn:E; zb E; [|discriminate].
    injection Hd as <-. cbn. split; [reflexivity|]. split.
    { intros H. rewrite H in Hbuf. unfold js_length in Hbuf at 1. simpl in Hbuf. lia. }
    split; [exists (take (Z.to_nat cursor') valid); symmetry; apply take_drop|].
    split; [symmetry; exact Hbuf|reflexivity].
  - rewrite Hfst.
    assert (H0 : 0 <= total) by lia.
    destruct (evaluateThread_active thread chaps' total H0 Hne) as [_ Hr'].
    cbv zeta in Hr'. fold valid in Hr'. fold total in Hr'. rewrite Hr'.
    destruct (total >? total) eqn:E; zb E; [lia|].
    destruct (total <? total) eqn:E2; zb E2; [lia|reflexivity].
Qed.

(** X11 on the cats thread, with the cursor at its start. *)
Lemma X11_evaluation_moves_cursor_to_end_witness :
  fst (evaluateThread catsThread false [] 0) = 2.
Proof.
  refine (proj1 (proj1 (proj2 (X11_evaluation_moves_cursor_to_end
            catsThread false [] [] 0 _)) eq_refl _)).
  - lia.
  - discriminate.
Defined.

(** X12: when the cursor is beyond the real messages of the thread, the
    evaluation effect steps it back by one message only: the thread's last
    real message goes to the classifier once more, as one new message. *)
Theorem X12_cursor_beyond_thread_redispatches (thread : list Message)
    (chaps : list Chapter) (cursor : Z) (pre : list Message) (m : Message) :
  List.filter notGhost thread = pre ++ [m] ->
  js_length (pre ++ [m]) < cursor ->
  exists d, evaluateThread thread false chaps cursor = (js_length (pre ++ [m]), Some d)
    /\ d_bufferMessages d = [m] /\ d_newMessagesCount d = 1.
Proof.
  intros Hvalid Hcur.
  assert (Hne : thread <> []).
  { intros ->. simpl in Hvalid. destruct pre; discriminate. }
  assert (Hc : 0 <= cursor) by (unfold js_length in Hcur; lia).
  destruct (evaluateThread_active thread chaps cursor Hc Hne) as [_ Hr].
  rewrite Hvalid in Hr. rewrite Hr.
  assert (Hlen : js_length (pre ++ [m]) = js_length pre + 1).
  { unfold js_length. rewrite length_app. simpl. lia. }
  destruct (cursor >? js_length (pre ++ [m])) eqn:E; zb E; [|lia].
  assert (Hmax : Z.max 0 (js_length (pre ++ [m]) - 1) = js_length pre)
    by (unfold js_length in *; lia).
  rewrite Hmax.
  destruct (js_length pre <? js_length (pre ++ [m])) eqn:E2; zb E2; [|lia].
  eexists. split; [reflexivity|]. cbn. split; [|lia].
  unfold js_length. rewrite Nat2Z.id. rewrite drop_app_length. reflexivity.
Qed.

(** X12 on the cats thread, with the cursor left at 7. *)
Lemma X12_cursor_beyond_thread_redispatches_witness :
  exists d, evaluateThread catsThread false [] 7 = (2, Some d)
            /\ d_newMessagesCount d = 1.
Proof.
  destruct (X12_cursor_beyond_thread_redispatches catsThread [] 7
              [ {| m_id := "m2"; m_parentId := Some "r1"; m_author := USER;
                   m_content := "How long do they live"; m_timestamp := 5;
                   m_category := None; m_branchId := None |} ]
              {| m_id := "r2"; m_parentId := Some "m2"; m_author := ASSISTANT;
                 m_content := "Around fifteen years"; m_timestamp := 6;
                 m_category := None; m_branchId := None |}) as (d & E & _ & Hn).
  - reflexivity.
  - vm_compute. reflexivity.
  - exists d. split; [exact E|exact Hn].
Defined.

(* ------------------------------------------------------------------ *)
(** ** The relocation effect *)
(* ------------------------------------------------------------------ *)

Lemma last_In {A} (l : list A) x : last l = Some x -> In x l.
Proof.
  induction l as [|y l IH]; [discriminate|].
  destruct l as [|z l]; [intros [= <-]; left; reflexivity|].
  intros H. right. apply IH. exact H.
Qed.

Lemma inThread_found (thread : list Message) (ch : Chapter) :
  inThread thread ch = true -> 0 <= findIndex (byId (c_startMessageId ch)) thread.
Proof.
  unfold inThread. intros H. apply existsb_exists in H as (m & Hin & Hm).
  exact (findIndex_found _ _ m Hin Hm).
Qed.

(** X13: the relocation effect is idempotent and, outside streaming, never
    leaves the cursor beyond the thread.  When a chapter starts on the
    thread, the test for a missing start message never fails, and the cursor
    ends between the end of the last such chapter (capped at the thread's
    length) and the thread's length, either unchanged or at that end. *)
Theorem X13_relocated_cursor (thread : list Message) (streaming : bool)
    (chaps : list Chapter) (cursor : Z) :
  let r := relocateCursor thread streaming chaps cursor in
  relocateCursor thread streaming chaps r = r
  /\ (streaming = false -> r <= js_length thread)
  /\ (forall lastChap,
        last (List.filter (inThread thread) chaps) = Some lastChap ->
        let startIndex := findIndex (byId (c_startMessageId lastChap)) thread in
        let safeIndex := Z.min (js_length thread) (startIndex + c_messageCount lastChap) in
        0 <= startIndex /\ safeIndex <= r <= js_length thread
        /\ (r = cursor \/ r = safeIndex))
  /\ (List.filter (inThread thread) chaps = [] ->
      r = cursor \/ (r = 0 /\ streaming = false /\ js_length thread < cursor)).
Proof.
  intros r. subst r. unfold relocateCursor. cbv zeta.
  assert (Hlen : 0 <= js_length thread) by (unfold js_length; lia).
  destruct (last (List.filter (inThread thread) chaps)) as [lastChap|] eqn:El.
  - assert (Hstart : 0 <= findIndex (byId (c_startMessageId lastChap)) thread).
    { apply inThread_found. apply last_In in El. apply filter_In in El. tauto. }
    set (startIndex := findIndex (byId (c_startMessageId lastChap)) thread) in *.
    set (safeIndex := Z.min (js_length thread) (startIndex + c_messageCount lastChap)).
    destruct (startIndex =? -1) eqn:E1; zb E1; [lia|]. cbn [negb].
    assert (Hsafe : safeIndex <= js_length thread) by (unfold safeIndex; lia).
    destruct (cursor <? safeIndex) eqn:E2; zb E2; cbn [orb].
    + destruct (safeIndex <? safeIndex) eqn:E3; zb E3; [lia|].
      destruct (safeIndex >? js_length thread) eqn:E4; zb E4; [lia|]. cbn [orb].
      split; [reflexivity|]. split; [intros _; exact Hsafe|].
      split; [|intros H; rewrite H in El; discriminate].
      intros ch [= <-]. cbv zeta. fold startIndex. fold safeIndex.
      split; [exact Hstart|]. split; [lia|right; reflexivity].
    + destruct (cursor >? js_length thread) eqn:E5; zb E5.
      * destruct (safeIndex <? safeIndex) eqn:E3; zb E3; [lia|].
        destruct (safeIndex >? js_length thread) eqn:E4; zb E4; [lia|]. cbn [orb].
        split; [reflexivity|]. split; [intros _; exact Hsafe|].
        split; [|intros H; rewrite H in El; discriminate].
        intros ch [= <-]. cbv zeta. fold startIndex. fold safeIndex.
        split; [exact Hstart|]. split; [lia|right; reflexivity].
      * destruct (cursor <? safeIndex) eqn:E3; zb E3; [lia|].
        destruct (cursor >? js_length thread) eqn:E4; zb E4; [lia|]. cbn [orb].
        split; [reflexivity|]. split; [intros _; lia|].
        split; [|intros H; rewrite H in El; discriminate].
        intros ch [= <-]. cbv zeta. fold startIndex. fold safeIndex.
        split; [exact Hstart|]. split; [lia|left; reflexivity].
  - destruct streaming; cbn [negb andb].
    + split; [reflexivity|]. split; [discriminate|]. split; [discriminate|].
      intros _. left. reflexivity.
    + destruct (js_length thread <? cursor) eqn:E; zb E.
      * destruct (js_length thread <? 0) eqn:E0; zb E0; [lia|].
        split; [reflexivity|]. split; [intros _; exact Hlen|]. split; [discriminate|].
        intros _. right. repeat split. exact E.
      * rewrite (proj2 (Z.ltb_ge _ _) E).
        split; [reflexivity|]. split; [intros _; exact E|]. split; [discriminate|].
        intros _. left. reflexivity.
Qed.

(** X13 on the cats thread with one chapter of two messages at its start. *)
Lemma X13_relocated_cursor_witness :
  relocateCursor catsThread false [catsChapter] 9 <= js_length catsThread.
Proof.
  refine (proj1 (proj2 (X13_relocated_cursor catsThread false _ 9)) _).
  reflexivity.
Defined.

(* ------------------------------------------------------------------ *)
(** ** Folding a classification in *)
(* ------------------------------------------------------------------ *)

Lemma foldIn_cases (d : Dispatch) (result : string) (now : Z) (prev : list Chapter) :
  (d_bufferMessages d = [] /\ foldIn d result now prev = prev)
  \/ (exists startMsg rest, d_bufferMessages d = startMsg :: rest
        /\ foldIn d result now prev = prev ++ [newChapter d result now startMsg])
  \/ (exists (k : nat) old title, prev !! k = Some old
        /\ (title = c_title old \/ title = result)
        /\ foldIn d result now prev = <[k := extendChapter d title old]> prev).
Proof.
  unfold foldIn. destruct (d_bufferMessages d) as [|startMsg rest]; [left; auto|].
  right.
  destruct (js_nth prev (findIndex (byStart (m_id startMsg)) prev)) as [existing|] eqn:M.
  { right. exists (Z.to_nat (findIndex (byStart (m_id startMsg)) prev)), existing,
      (if result ==? "SAME" then c_title existing else result).
    split; [|split; [destruct (result ==? "SAME"); auto|reflexivity]].
    rewrite <- M. symmetry. apply js_nth_lookup.
    apply js_nth_Some_range in M. lia. }
  set (idx := if (result ==? "SAME") && (js_length prev >? 0)
              then findLastIndex (inThread (d_validMessages d)) prev else -1).
  destruct (js_nth prev idx) as [lastChap|] eqn:L.
  { right. exists (Z.to_nat idx), lastChap, (c_title lastChap).
    split; [|split; [auto|reflexivity]].
    rewrite <- L. symmetry. apply js_nth_lookup.
    apply js_nth_Some_range in L. lia. }
  left. exists startMsg, rest. split; reflexivity.
Qed.

Lemma extractSubtopics_length (msgs : list Message) :
  (length (extractSubtopics msgs) <= 2)%nat.
Proof. unfold extractSubtopics. rewrite length_map. apply firstn_le_length. Qed.

Lemma mergeSubtopics_length (a b : list string) :
  (length (mergeSubtopics a b) <= 12)%nat.
Proof. apply firstn_le_length. Qed.

Lemma map_insert_same {A B} (f : A -> B) (l : list A) (k : nat) (x old : A) :
  l !! k = Some old -> f x = f old -> map f (<[k := x]> l) = map f l.
Proof.
  revert k. induction l as [|y l IH]; intros [|k] Hk Hf; simpl in *; try discriminate.
  - injection Hk as ->. rewrite Hf. reflexivity.
  - f_equal. exact (IH k Hk Hf).
Qed.

(** X14: folding a classification in never removes, reorders or
    re-identifies a chapter: the ids, the start messages and the categories
    of the chapters before are kept in place, followed by at most one new
    chapter; at most one of the chapters before is rewritten; a message
    count never shrinks when the count of new messages is not negative; and
    if no chapter had more than twelve subtopics, none has afterwards. *)
Theorem X14_folding_in_keeps_chapters (d : Dispatch) (result : string) (now : Z)
    (prev : list Chapter) :
  let next := foldIn d result now prev in
  (exists tl, (length tl <= 1)%nat
      /\ map c_id next = map c_id prev ++ map c_id tl
      /\ map c_startMessageId next = map c_startMessageId prev ++ map c_startMessageId tl
      /\ map c_category next = map c_category prev ++ map c_category tl)
  /\ (exists k : nat, forall i : nat, i <> k -> (i < length prev)%nat ->
        next !! i = prev !! i)
  /\ (0 <= d_newMessagesCount d ->
      forall (i : nat) old new, prev !! i = Some old -> next !! i = Some new ->
        c_messageCount old <= c_messageCount new)
  /\ ((forall ch, In ch prev -> (length (c_subtopics ch) <= 12)%nat) ->
      forall ch, In ch next -> (length (c_subtopics ch) <= 12)%nat).
Proof.
  intros next. subst next.
  destruct (foldIn_cases d result now prev)
    as [[_ ->]|[(startMsg & rest & Hb & ->)|(k & old & title & Hk & _ & ->)]].
  - split; [exists []; rewrite !app_nil_r; repeat split; simpl; lia|].
    split; [exists O; reflexivity|]. split; [|auto].
    intros _ i old new H1 H2. rewrite H1 in H2. injection H2 as <-. lia.
  - split; [exists [newChapter d result now startMsg]; rewrite !map_app;
            repeat split; simpl; lia|].
    split; [exists (length prev); intros i _ Hi; apply lookup_app_l; exact Hi|].
    split.
    + intros _ i old new H1 H2.
      rewrite lookup_app_l in H2 by (apply lookup_lt_Some in H1; exact H1).
      rewrite H1 in H2. injection H2 as <-. lia.
    + intros Hall ch Hin. apply in_app_iff in Hin as [Hin|[<-|[]]]; [exact (Hall ch Hin)|].
      cbn [newChapter c_subtopics].
      pose proof (extractSubtopics_length (d_bufferMessages d)). lia.
  - split; [exists []; rewrite !app_nil_r; split; [simpl; lia|];
            repeat split; apply (map_insert_same _ _ _ _ old Hk); reflexivity|].
    split; [exists k; intros i Hi _; apply list_lookup_insert_ne; congruence|].
    split.
    + intros Hpos i o n H1 H2. apply list_lookup_insert_Some in H2
        as [(<- & <- & _)|(_ & H2)].
      * rewrite Hk in H1. injection H1 as <-. cbn. lia.
      * rewrite H1 in H2. injection H2 as <-. lia.
    + intros Hall ch Hin. apply list_elem_of_In, list_elem_of_lookup in Hin as (i & Hi).
      apply list_lookup_insert_Some in Hi as [(_ & <- & _)|(_ & Hi)].
      * cbn. apply mergeSubtopics_length.
      * apply Hall. apply list_elem_of_In. apply list_elem_of_lookup. exists i. exact Hi.
Qed.

(** X14 on the cats chapter, extended by the cats thread. *)
Lemma X14_folding_in_keeps_chapters_witness :
  List.Forall (fun ch => (length (c_subtopics ch) <= 12)%nat)
    (foldIn catsDispatch "SAME" 9 [catsChapter]).
Proof.
  apply List.Forall_forall.
  apply (proj2 (proj2 (proj2 (X14_folding_in_keeps_chapters catsDispatch "SAME" 9
                                [catsChapter])))).
  intros ch [<-|[]]. simpl. lia.
Defined.

(* ------------------------------------------------------------------ *)
(** ** Renaming a node of the canvas *)
(* ------------------------------------------------------------------ *)

Lemma map_retitle_same {B} (f : Chapter -> B) (newTitle : string) (i : string)
    (l : list Chapter) :
  (forall c, f (retitle newTitle c) = f c) ->
  map f (map (fun c => if c_id c ==? i then retitle newTitle c else c) l) = map f l.
Proof.
  intros Hf. rewrite map_map. apply map_ext. intros c.
  destruct (c_id c ==? i); [apply Hf|reflexivity].
Qed.

(** X15: renaming the node that starts at a message.  If a chapter starts
    there, nothing but titles changes: the chapters keep their number, order,
    ids, start messages, message counts, categories and subtopics, the first
    chapter that starts there gets the new title, and every chapter with
    another id is untouched.  Otherwise one manual chapter is added and the
    chapters are put in the order of their start messages' timestamps. *)
Theorem X15_renaming_a_node (now : Z) (msgs : list Message)
    (startMessageId newTitle : string) (prev : list Chapter) :
  let next := updateNodeTitle now msgs startMessageId newTitle prev in
  (forall existing, List.find (byStart startMessageId) prev = Some existing ->
     map c_id next = map c_id prev
     /\ map c_startMessageId next = map c_startMessageId prev
     /\ map c_messageCount next = map c_messageCount prev
     /\ map c_category next = map c_category prev
     /\ map c_subtopics next = map c_subtopics prev
     /\ In (retitle newTitle existing) next
     /\ forall (i : nat) c, prev !! i = Some c -> c_id c <> c_id existing ->
          next !! i = Some c)
  /\ (List.find (byStart startMessageId) prev = None ->
      Permutation next (prev ++ [manualChapter now startMessageId newTitle])
      /\ StronglySorted (fun a b => startTimestamp msgs a <= startTimestamp msgs b) next).
Proof.
  intros next. subst next. unfold updateNodeTitle. split.
  - intros existing Hf. rewrite Hf.
    repeat (split; [apply map_retitle_same; reflexivity|]).
    split.
    + apply find_some in Hf as [Hin _]. apply in_map_iff. exists existing.
      rewrite String.eqb_refl. split; [reflexivity|exact Hin].
    + intros i c Hi Hne. rewrite map_lookup, Hi. simpl.
      apply String.eqb_neq in Hne. rewrite Hne. reflexivity.
  - intros ->. split; [apply js_sort_perm|].
    apply (js_sort_sorted (startTimestamp msgs)).
Qed.

(** X15 on the cats chapter. *)
Lemma X15_renaming_a_node_witness :
  map c_messageCount (updateNodeTitle 9 catsThread "m2" "Felines" [catsChapter])
  = map c_messageCount [catsChapter].
Proof.
  refine (proj1 (proj2 (proj2 (proj1 (X15_renaming_a_node 9 catsThread "m2" "Felines"
                                        [catsChapter]) catsChapter _)))).
  reflexivity.
Defined.

(* ------------------------------------------------------------------ *)
(** ** Topic classifier: what it can answer *)
(* ------------------------------------------------------------------ *)

Lemma firstResult_cases (prompt : Prompt) (k : string -> string) (fallback : string)
    (l : list (Prompt -> option string)) :
  firstResult prompt k fallback l = fallback
  \/ exists strategy a, In strategy l /\ strategy prompt = Some a /\ a <> ""
       /\ firstResult prompt k fallback l = k a.
Proof.
  induction l as [|strategy l IH]; [left; reflexivity|]. simpl.
  destruct (strategy prompt) as [a|] eqn:E.
  - destruct (a ==? "") eqn:Ea; cbn [negb].
    + destruct IH as [IH|(s' & a' & Hin & Hs & Ha & Hr)]; [left; exact IH|].
      right. exists s', a'. auto.
    + right. exists strategy, a. apply String.eqb_neq in Ea. auto.
  - destruct IH as [IH|(s' & a' & Hin & Hs & Ha & Hr)]; [left; exact IH|].
    right. exists s', a'. auto.
Qed.

(** X16: on ASCII text (the topic, the messages and the answers of the
    providers, on which the string helpers are those of JavaScript), the
    classifier asked about a current topic answers SAME or a title that is
    not the current topic, whatever the letter case; and an answer of the
    preferred provider settles the result, the other provider is not
    asked. *)
Theorem X16_classifier_never_repeats_topic
    (executeGeminiAnalysis callOllamaAnalysis : Prompt -> option string)
    (topic : string) (newMessages : list Turn) (preferredBackend : Backend) :
  topic <> "" ->
  isAscii topic = true ->
  Forall (fun m => isAscii (content m) = true) newMessages ->
  (forall p a, executeGeminiAnalysis p = Some a -> isAscii a = true) ->
  (forall p a, callOllamaAnalysis p = Some a -> isAscii a = true) ->
  let r := analyzeTopicShift executeGeminiAnalysis callOllamaAnalysis (Some topic)
             newMessages preferredBackend in
  let prompt := TopicShiftPrompt topic (slice0 300 (lastContentOf "user" newMessages))
                  (slice0 300 (lastContentOf "model" newMessages)) in
  (r = "SAME" \/ toLowerCase r <> toLowerCase topic)
  /\ forall a,
       match preferredBackend with
       | GEMINI => executeGeminiAnalysis
       | OLLAMA => callOllamaAnalysis
       end prompt = Some a ->
       a <> "" ->
       forall otherGemini otherOllama,
         match preferredBackend with
         | GEMINI => otherGemini
         | OLLAMA => otherOllama
         end prompt = Some a ->
         analyzeTopicShift otherGemini otherOllama (Some topic) newMessages
           preferredBackend = r.
Proof.
  intros Htopic _ _ _ _ r prompt. subst r. unfold analyzeTopicShift.
  apply String.eqb_neq in Htopic. rewrite Htopic. cbv zeta. fold prompt. split.
  - match goal with |- context [firstResult prompt ?k ?f ?l] =>
      destruct (firstResult_cases prompt k f l) as [->|(s & a & _ & _ & _ & ->)] end;
      [left; reflexivity|].
    cbv beta.
    destruct (toLowerCase (stripQuotes (js_trim a)) ==? toLowerCase topic) eqn:E;
      [left; reflexivity|right]. apply String.eqb_neq. exact E.
  - intros a Ha Hne g' o' Ha'. apply String.eqb_neq in Hne.
    destruct preferredBackend; simpl; rewrite Ha, Ha', Hne; reflexivity.
Qed.

(** X16 with Gemini preferred and answering the topic in capitals. *)
Lemma X16_classifier_never_repeats_topic_witness :
  analyzeTopicShift (fun _ => Some "CATS") (fun _ => None) (Some "Cats") [] GEMINI = "SAME"
  \/ toLowerCase (analyzeTopicShift (fun _ => Some "CATS") (fun _ => None) (Some "Cats")
                    [] GEMINI) <> toLowerCase "Cats".
Proof.
  refine (proj1 (X16_classifier_never_repeats_topic (fun _ => Some "CATS")
                   (fun _ => None) "Cats" [] GEMINI _ _ _ _ _)).
  - discriminate.
  - reflexivity.
  - constructor.
  - intros p a [= <-]. reflexivity.
  - intros p a. discriminate.
Defined.

(* ------------------------------------------------------------------ *)
(** ** Simulation mode: the text that a mock stream leaves *)
(* ------------------------------------------------------------------ *)

Lemma string_app_cons (c : ascii) (a b : string) :
  String c a +:+ b = String c (a +:+ b).
Proof. reflexivity. Qed.

Lemma string_app_nil_l (s : string) : "" +:+ s = s.
Proof. reflexivity. Qed.

Lemma string_app_nil_r (s : string) : s +:+ "" = s.
Proof.
  induction s as [|c s IH]; [reflexivity|]. rewrite string_app_cons, IH. reflexivity.
Qed.

Lemma string_app_assoc (a b c : string) : (a +:+ b) +:+ c = a +:+ (b +:+ c).
Proof.
  induction a as [|x a IH]; [reflexivity|]. rewrite !string_app_cons, IH. reflexivity.
Qed.

Lemma prefix_app (a b : string) : String.prefix a (a +:+ b) = true.
Proof.
  induction a as [|c a IH]; [destruct b; reflexivity|].
  rewrite string_app_cons. cbn [String.prefix].
  destruct (ascii_dec c c) as [_|N]; [exact IH|contradiction].
Qed.

Lemma string_of_take_drop (k : nat) (l : list ascii) :
  string_of_list_ascii l
  = string_of_list_ascii (take k l) +:+ string_of_list_ascii (drop k l).
Proof.
  revert k. induction l as [|c l IH]; intros [|k]; try reflexivity.
  cbn [take drop string_of_list_ascii]. rewrite string_app_cons. f_equal. apply IH.
Qed.

Lemma mockLoop_cons (len i : nat) (c : ascii) (rest : list ascii) (accumulated : string) :
  mockLoop len i (c :: rest) accumulated
  = if Nat.eqb (i mod 3) 0 || Nat.eqb i (len - 1)
    then (accumulated +:+ String c "")
           :: mockLoop len (S i) rest (accumulated +:+ String c "")
    else mockLoop len (S i) rest (accumulated +:+ String c "").
Proof. reflexivity. Qed.

(** Every chunk of the mock loop is the text so far followed by some of the
    characters still to read. *)
Lemma mockLoop_chunks (len : nat) : forall (rest : list ascii) (i : nat)
    (accumulated chunk : string),
  In chunk (mockLoop len i rest accumulated) ->
  exists k, chunk = accumulated +:+ string_of_list_ascii (take k rest).
Proof.
  induction rest as [|c rest IH]; intros i acc chunk; [intros []|].
  rewrite mockLoop_cons.
  assert (Hrec : In chunk (mockLoop len (S i) rest (acc +:+ String c "")) ->
                 exists k, chunk = acc +:+ string_of_list_ascii (take k (c :: rest))).
  { intros H. destruct (IH _ _ _ H) as (k & ->). exists (S k).
    rewrite string_app_assoc. reflexivity. }
  destruct (_ || _); [|exact Hrec].
  intros [<-|H]; [|exact (Hrec H)]. exists 1%nat. reflexivity.
Qed.

(** The last chunk of the mock loop is the whole text. *)
Lemma mockLoop_last (len : nat) : forall (rest : list ascii) (i : nat) (accumulated : string),
  len = (i + length rest)%nat -> rest <> [] ->
  last (mockLoop len i rest accumulated)
  = Some (accumulated +:+ string_of_list_ascii rest).
Proof.
  induction rest as [|c rest IH]; intros i acc Hlen Hne; [contradiction|].
  destruct rest as [|c' rest].
  - rewrite mockLoop_cons. simpl in Hlen.
    assert (E : Nat.eqb i (len - 1) = true) by (apply Nat.eqb_eq; lia).
    rewrite E, orb_true_r. reflexivity.
  - assert (Hrec : last (mockLoop len (S i) (c' :: rest) (acc +:+ String c ""))
                   = Some (acc +:+ string_of_list_ascii (c :: c' :: rest))).
    { rewrite IH by (simpl in *; try lia; discriminate).
      rewrite string_app_assoc. reflexivity. }
    rewrite mockLoop_cons. destruct (_ || _); [|exact Hrec].
    rewrite last_cons, Hrec. reflexivity.
Qed.

Lemma streamChunk_twice (responseId a b : string) (s : AppState) :
  messages (streamChunk responseId b (streamChunk responseId a s))
  = messages (streamChunk responseId b s).
Proof.
  unfold streamChunk. cbn. rewrite map_map. apply map_ext. intros m.
  destruct (m_id m ==? responseId) eqn:E; cbn; rewrite E; reflexivity.
Qed.

Lemma receiveChunks_spec (responseId : string) : forall (chunks : list string)
    (fullResponse : string) (s : AppState),
  fst (receiveChunks responseId fullResponse chunks s)
  = fullResponse +:+ foldr String.append "" chunks
  /\ (chunks <> [] ->
      messages (snd (receiveChunks responseId fullResponse chunks s))
      = messages (streamChunk responseId
                    (fullResponse +:+ foldr String.append "" chunks) s)).
Proof.
  induction chunks as [|chunk rest IH]; intros full s; simpl.
  - split; [symmetry; apply string_app_nil_r|]. intros H. contradiction.
  - destruct (IH (full +:+ chunk) (streamChunk responseId (full +:+ chunk) s)) as [H1 H2].
    rewrite H1, string_app_assoc. split; [reflexivity|]. intros _.
    destruct rest as [|c2 rest'].
    + simpl. rewrite string_app_nil_r. reflexivity.
    + rewrite H2 by discriminate. rewrite string_app_assoc. apply streamChunk_twice.
Qed.

Lemma length_foldr_app_In (chunks : list string) (x : string) :
  In x chunks -> (String.length x <= String.length (foldr String.append "" chunks))%nat.
Proof.
  induction chunks as [|c l IH]; [intros []|]. simpl. rewrite length_string_app.
  intros [<-|H]; [lia|]. specialize (IH H). lia.
Qed.

Lemma mock_text_longer (response : string) :
  2 <= str_length response ->
  str_length response < str_length (foldr String.append "" (streamMockResponse response)).
Proof.
  intros Hlen. unfold streamMockResponse. cbv zeta.
  pose proof (string_of_list_ascii_of_string response) as Hresp.
  set (chars := list_ascii_of_string response) in *.
  unfold str_length in *. rewrite <- Hresp in Hlen |- *.
  destruct chars as [|c [|c' rest]]; simpl in Hlen; try lia.
  assert (Hl : last (mockLoop (length (c :: c' :: rest)) 1 (c' :: rest) (String c ""))
               = Some (string_of_list_ascii (c :: c' :: rest))).
  { rewrite mockLoop_last by (simpl; try lia; discriminate). reflexivity. }
  change (mockLoop (length (c :: c' :: rest)) 0 (c :: c' :: rest) "")
    with (String c "" :: mockLoop (length (c :: c' :: rest)) 1 (c' :: rest) (String c "")).
  cbn [foldr]. rewrite length_string_app.
  apply last_In, length_foldr_app_In in Hl.
  change (String.length (String c "")) with 1%nat. lia.
Qed.

(** X17: the simulation hands the callback ever longer beginnings of its
    response, the last of them the whole response, while the callback of the
    application appends every chunk to what it has: the text stored after a
    simulated stream is those beginnings one after the other, which for a
    response of two characters or more is longer than the response. *)
Theorem X17_simulated_stream_repeats_text (response responseId : string) (s : AppState) :
  let chunks := streamMockResponse response in
  let fullResponse := fst (receiveChunks responseId "" chunks s) in
  let s' := snd (receiveChunks responseId "" chunks s) in
  (forall chunk, In chunk chunks -> String.prefix chunk response = true)
  /\ (response <> "" -> last chunks = Some response)
  /\ fullResponse = foldr String.append "" chunks
  /\ (response <> "" -> messages s' = messages (streamChunk responseId fullResponse s))
  /\ (2 <= str_length response -> str_length response < str_length fullResponse).
Proof.
  intros chunks fullResponse s'. subst chunks fullResponse s'.
  unfold streamMockResponse. cbv zeta.
  set (chars := list_ascii_of_string response).
  assert (Hresp : string_of_list_ascii chars = response)
    by apply string_of_list_ascii_of_string.
  assert (Hlast : chars <> [] ->
            last (mockLoop (length chars) 0 chars "") = Some response).
  { intros Hne. rewrite mockLoop_last by (auto; lia). simpl. rewrite Hresp. reflexivity. }
  assert (Hchars : response <> "" -> chars <> []).
  { intros Hne Hc. apply Hne. rewrite <- Hresp, Hc. reflexivity. }
  destruct (receiveChunks_spec responseId (mockLoop (length chars) 0 chars "") "" s)
    as [Hfull Hmsgs].
  rewrite string_app_nil_l in Hfull, Hmsgs. split; [|split; [|split; [|split]]].
  - intros chunk Hin. apply mockLoop_chunks in Hin as (k & ->). simpl.
    rewrite <- Hresp, (string_of_take_drop k chars). apply prefix_app.
  - intros Hne. exact (Hlast (Hchars Hne)).
  - exact Hfull.
  - intros Hne. rewrite Hmsgs.
    + rewrite Hfull. reflexivity.
    + intros Hnil. rewrite Hnil in Hlast. specialize (Hlast (Hchars Hne)). discriminate.
  - intros Hlen. rewrite Hfull. exact (mock_text_longer response Hlen).
Qed.

(** X17 on a response of four characters. *)
Lemma X17_simulated_stream_repeats_text_witness :
  str_length "abcd" < str_length (fst (receiveChunks "r" "" (streamMockResponse "abcd")
                                         (initialState 0))).
Proof.
  refine (proj2 (proj2 (proj2 (proj2 (X17_simulated_stream_repeats_text "abcd" "r"
                                        (initialState 0))))) _).
  vm_compute. discriminate.
Defined.

(* ------------------------------------------------------------------ *)
(** ** The chain of Gemini models *)
(* ------------------------------------------------------------------ *)

Lemma modelsToTry_NoDup (modelIdOverride : option string) :
  List.NoDup (modelsToTry modelIdOverride).
Proof.
  assert (Hd : List.NoDup GEMINI_MODELS)
    by (repeat constructor; simpl; intuition discriminate).
  unfold modelsToTry. destruct modelIdOverride as [o|]; [|exact Hd].
  destruct (o ==? ""); cbn [negb]; [exact Hd|].
  constructor.
  - intros H. apply filter_In in H as [_ H]. rewrite String.eqb_refl in H. discriminate.
  - apply List.NoDup_filter. exact Hd.
Qed.

Lemma modelsToTry_length (modelIdOverride : option string) :
  (length (modelsToTry modelIdOverride) <= 4)%nat.
Proof.
  unfold modelsToTry. destruct modelIdOverride as [o|]; [|simpl; lia].
  destruct (o ==? ""); cbn [negb]; [simpl; lia|].
  cbn [length]. pose proof (filter_length_le (fun id => negb (id ==? o)) GEMINI_MODELS) as H.
  change (length GEMINI_MODELS) with 3%nat in H. lia.
Qed.

Lemma tryModels_spec (gemini : string -> Attempt) : forall models : list string,
  let r := tryModels gemini models in
  (exists rest, models = g_tried r ++ rest)
  /\ g_chunks r = concat (map (fun m => emitted (gemini m)) (g_tried r))
  /\ (g_success r = true ->
      exists tried model, g_tried r = tried ++ [model]
        /\ a_end (gemini model) = Completes
        /\ forall m, In m tried -> softFailure (a_end (gemini m)) = true)
  /\ (g_tripped r = true <->
      forall m, In m models -> softFailure (a_end (gemini m)) = true)
  /\ (g_tripped r = true -> g_success r = false /\ g_tried r = models).
Proof.
  induction models as [|model rest IH]; cbn [tryModels].
  - cbn. split; [exists []; reflexivity|]. split; [reflexivity|].
    split; [discriminate|]. split; [|auto]. split; [intros _ m []|reflexivity].
  - cbv zeta in IH |- *.
    destruct IH as ((rest' & Hrest) & Hchunks & Hsucc & Htrip & Htrip').
    destruct (a_end (gemini model)) eqn:E; cbn.
    + split; [exists rest; reflexivity|]. split; [rewrite app_nil_r; reflexivity|].
      split; [intros _; exists [], model; repeat split; [exact E|intros m []]|].
      split; [|discriminate]. split; [discriminate|].
      intros H. specialize (H model (or_introl eq_refl)). rewrite E in H. discriminate.
    + split; [exists rest'; rewrite <- Hrest; reflexivity|].
      split; [rewrite Hchunks; reflexivity|]. split; [|split].
      * intros Hs. destruct (Hsucc Hs) as (tried & last & Ht & Hc & Hsoft).
        exists (model :: tried), last. rewrite Ht. split; [reflexivity|].
        split; [exact Hc|]. intros m [<-|Hm]; [rewrite E; reflexivity|exact (Hsoft m Hm)].
      * rewrite Htrip. split.
        -- intros H m [<-|Hm]; [rewrite E; reflexivity|exact (H m Hm)].
        -- intros H m Hm. apply H. right. exact Hm.
      * intros Ht. destruct (Htrip' Ht) as [H1 H2]. split; [exact H1|]. rewrite H2. reflexivity.
    + split; [exists rest'; rewrite <- Hrest; reflexivity|].
      split; [rewrite Hchunks; reflexivity|]. split; [|split].
      * intros Hs. destruct (Hsucc Hs) as (tried & last & Ht & Hc & Hsoft).
        exists (model :: tried), last. rewrite Ht. split; [reflexivity|].
        split; [exact Hc|]. intros m [<-|Hm]; [rewrite E; reflexivity|exact (Hsoft m Hm)].
      * rewrite Htrip. split.
        -- intros H m [<-|Hm]; [rewrite E; reflexivity|exact (H m Hm)].
        -- intros H m Hm. apply H. right. exact Hm.
      * intros Ht. destruct (Htrip' Ht) as [H1 H2]. split; [exact H1|]. rewrite H2. reflexivity.
    + split; [exists rest; reflexivity|]. split; [rewrite app_nil_r; reflexivity|].
      split; [discriminate|]. split; [|discriminate]. split; [discriminate|].
      intros H. specialize (H model (or_introl eq_refl)). rewrite E in H. discriminate.
Qed.

(** X18: a run of the Gemini chain.  Without a key, or while the circuit
    breaker is open, no model is tried.  Otherwise the models tried are a
    beginning of the override followed by the defaults, so at most four and
    none twice; a success is the completion of the model tried last, after
    rate limits or missing models on all the others; the circuit breaker is
    tripped exactly when every model of the chain ends so; and the chunks
    handed on are those of all the attempts, failed ones included, in
    order. *)
Theorem X18_gemini_chain (apiKey : string) (isGlobalRateLimited : bool)
    (gemini : string -> Attempt) (modelIdOverride : option string) :
  let r := executeGeminiStream apiKey isGlobalRateLimited gemini modelIdOverride in
  (apiKey = "" \/ isGlobalRateLimited = true ->
   g_tried r = [] /\ g_chunks r = [] /\ g_success r = false /\ g_tripped r = false)
  /\ List.NoDup (g_tried r)
  /\ (length (g_tried r) <= 4)%nat
  /\ (exists rest, modelsToTry modelIdOverride = g_tried r ++ rest)
  /\ (forall o, modelIdOverride = Some o -> o <> "" -> g_tried r <> [] ->
        head (g_tried r) = Some o)
  /\ (g_success r = true ->
      exists tried model, g_tried r = tried ++ [model]
        /\ a_end (gemini model) = Completes
        /\ forall m, In m tried -> softFailure (a_end (gemini m)) = true)
  /\ (g_tripped r = true <->
      apiKey <> "" /\ isGlobalRateLimited = false
      /\ forall m, In m (modelsToTry modelIdOverride) ->
           softFailure (a_end (gemini m)) = true)
  /\ g_chunks r = concat (map (fun m => emitted (gemini m)) (g_tried r)).
Proof.
  intros r. subst r. unfold executeGeminiStream.
  destruct ((apiKey ==? "") || isGlobalRateLimited) eqn:G.
  - cbn. split; [auto|]. split; [constructor|]. split; [lia|].
    split; [eexists; reflexivity|]. split; [intros o _ _ H; contradiction|].
    split; [discriminate|]. split; [|reflexivity]. split; [discriminate|].
    intros (Hk & Hl & _). apply String.eqb_neq in Hk. rewrite Hk, Hl in G. discriminate.
  - apply orb_false_elim in G as [Hk Hl]. apply String.eqb_neq in Hk.
    destruct (tryModels_spec gemini (modelsToTry modelIdOverride))
      as ((rest & Hrest) & Hchunks & Hsucc & Htrip & _).
    cbv zeta in *.
    set (r := tryModels gemini (modelsToTry modelIdOverride)) in *.
    pose proof (modelsToTry_NoDup modelIdOverride) as Hnd.
    pose proof (modelsToTry_length modelIdOverride) as Hlen.
    rewrite Hrest in Hnd, Hlen.
    split; [intros [H|H]; [contradiction|congruence]|].
    split; [apply NoDup_app_remove_r in Hnd; exact Hnd|].
    split; [rewrite length_app in Hlen; lia|].
    split; [exists rest; exact Hrest|]. split.
    { intros o -> Ho Hne. unfold modelsToTry in Hrest.
      apply String.eqb_neq in Ho. rewrite Ho in Hrest. cbn [negb] in Hrest.
      destruct (g_tried r) as [|x l]; [contradiction|].
      injection Hrest as <- _. reflexivity. }
    split; [exact Hsucc|]. split; [|exact Hchunks].
    rewrite Htrip. split; [intros H; auto|intros (_ & _ & H); exact H].
Qed.

(** X18 with a key, an override, and every model rate-limited. *)
Lemma X18_gemini_chain_witness :
  head (g_tried (executeGeminiStream "key" false
                   (fun _ => {| a_texts := ["partial"]; a_end := RateLimit |})
                   (Some "gemini-2.5-flash")))
  = Some "gemini-2.5-flash".
Proof.
  refine (proj1 (proj2 (proj2 (proj2 (proj2 (X18_gemini_chain "key" false
            (fun _ => {| a_texts := ["partial"]; a_end := RateLimit |})
            (Some "gemini-2.5-flash"))))))
          "gemini-2.5-flash" eq_refl _ _); vm_compute; discriminate.
Defined.

(* ------------------------------------------------------------------ *)
(** ** The local model that is picked *)
(* ------------------------------------------------------------------ *)

Lemma prefix_app_l : forall (a b hay : string),
  String.prefix (a +:+ b) hay = true -> String.prefix a hay = true.
Proof.
  induction a as [|c a IH]; intros b hay H; [destruct hay; reflexivity|].
  rewrite string_app_cons in H. destruct hay as [|h hay]; [discriminate|].
  cbn [String.prefix] in *. destruct (ascii_dec c h); [|discriminate].
  exact (IH b hay H).
Qed.

Lemma includes_app_l (a b : string) : forall hay : string,
  includes hay (a +:+ b) = true -> includes hay a = true.
Proof.
  induction hay as [|h hay IH]; cbn [includes]; intros H.
  - apply orb_prop in H as [H|H]; [|discriminate].
    rewrite (prefix_app_l a b _ H). reflexivity.
  - apply orb_prop in H as [H|H].
    + rewrite (prefix_app_l a b _ H). reflexivity.
    + rewrite (IH H). apply orb_true_r.
Qed.

Lemma preferredModel_In (preferences models : list string) (found : string) :
  preferredModel preferences models = Some found ->
  In found models /\ exists pref, In pref preferences /\ includes found pref = true.
Proof.
  induction preferences as [|pref rest IH]; simpl; [discriminate|].
  destruct (List.find (fun name => includes name pref) models) as [f|] eqn:E.
  - intros [= <-]. apply find_some in E as [Hin Hinc].
    split; [exact Hin|]. exists pref. auto.
  - intros H. destruct (IH H) as (Hin & p & Hp & Hinc).
    split; [exact Hin|]. exists p. auto.
Qed.

(** The preference for llama3.1 never decides: a name that includes it
    includes llama3, which is asked for first. *)
Lemma llama31_is_shadowed (models : list string) :
  preferredModel OLLAMA_PREFERENCES models
  = preferredModel ["llama3"; "mistral"; "gemma"; "llama2"] models.
Proof.
  unfold OLLAMA_PREFERENCES. cbn [preferredModel].
  destruct (List.find (fun name => includes name "llama3") models) eqn:E1; [reflexivity|].
  destruct (List.find (fun name => includes name "llama3.1") models) as [f|] eqn:E2;
    [|reflexivity].
  exfalso. apply find_some in E2 as [Hin Hinc].
  pose proof (find_none _ _ E1 f Hin) as Hno. cbv beta in Hno.
  change "llama3.1" with ("llama3" +:+ ".1") in Hinc.
  rewrite (includes_app_l _ _ _ Hinc) in Hno. discriminate.
Qed.

Lemma getOllamaModelWith_uncached (preferences : list string) (cached : option string)
    (tags : option (list string)) :
  truthy cached = false ->
  getOllamaModelWith preferences cached tags
  = match tags with
    | None => ("llama3", cached)
    | Some [] => ("llama3", cached)
    | Some (first :: others) =>
        match preferredModel preferences (first :: others) with
        | Some found => (found, Some found)
        | None => (first, Some first)
        end
    end.
Proof.
  intros Hc. unfold getOllamaModelWith. destruct cached as [c|]; [|reflexivity].
  simpl in Hc. rewrite Hc. reflexivity.
Qed.

(** X19: the local model.  A cached name is returned as it is.  Otherwise
    the answer is llama3 when the list of installed models is missing or
    empty, and nothing is cached; else it is an installed model, which is
    then cached: the first one whose name includes llama3 if there is one.
    The preference for llama3.1 changes nothing. *)
Theorem X19_local_model_choice (cached : option string) (tags : option (list string)) :
  let model := fst (getOllamaModel cached tags) in
  let cache := snd (getOllamaModel cached tags) in
  (truthy cached = true -> cached = Some model /\ cache = cached)
  /\ (truthy cached = false ->
      (tags = None \/ tags = Some [] -> model = "llama3" /\ cache = cached)
      /\ (forall models, tags = Some models -> models <> [] ->
            In model models /\ cache = Some model
            /\ forall name, In name models -> includes name "llama3" = true ->
                 List.find (fun name => includes name "llama3") models = Some model))
  /\ getOllamaModel cached tags
     = getOllamaModelWith ["llama3"; "mistral"; "gemma"; "llama2"] cached tags.
Proof.
  intros model cache. subst model cache. unfold getOllamaModel.
  split; [|split].
  - unfold getOllamaModelWith. destruct cached as [c|]; [|discriminate]. simpl.
    intros ->. split; reflexivity.
  - intros Hc. rewrite (getOllamaModelWith_uncached _ _ _ Hc). split.
    + intros [-> | ->]; split; reflexivity.
    + intros models -> Hne. destruct models as [|first others]; [contradiction|].
      destruct (preferredModel OLLAMA_PREFERENCES (first :: others)) as [found|] eqn:E.
      * cbn [fst snd]. apply preferredModel_In in E as HE. destruct HE as [Hin _].
        split; [exact Hin|]. split; [reflexivity|].
        intros name Hname Hinc. unfold OLLAMA_PREFERENCES in E. cbn [preferredModel] in E.
        destruct (List.find (fun name => includes name "llama3") (first :: others))
          as [f|] eqn:Ef; [congruence|].
        pose proof (find_none _ _ Ef name Hname) as Hno. cbv beta in Hno. congruence.
      * cbn [fst snd]. split; [left; reflexivity|]. split; [reflexivity|].
        intros name Hname Hinc. exfalso.
        unfold OLLAMA_PREFERENCES in E. cbn [preferredModel] in E.
        destruct (List.find (fun name => includes name "llama3") (first :: others))
          as [f|] eqn:Ef; [discriminate|].
        pose proof (find_none _ _ Ef name Hname) as Hno. cbv beta in Hno. congruence.
  - unfold getOllamaModelWith. destruct tags as [[|first others]|]; try reflexivity.
    rewrite llama31_is_shadowed. reflexivity.
Qed.

(** X19 with nothing cached and three installed models. *)
Lemma X19_local_model_choice_witness :
  In (fst (getOllamaModel None (Some ["phi3"; "mistral:7b"; "llama3.1:8b"])))
     ["phi3"; "mistral:7b"; "llama3.1:8b"].
Proof.
  refine (proj1 (proj2 (proj1 (proj2 (X19_local_model_choice None
            (Some ["phi3"; "mistral:7b"; "llama3.1:8b"]))) eq_refl) _ eq_refl _)).
  discriminate.
Defined.

(* ------------------------------------------------------------------ *)
(** ** The backend that answers *)
(* ------------------------------------------------------------------ *)

Lemma foldr_string_app (l1 l2 : list string) :
  foldr String.append "" (l1 ++ l2)
  = foldr String.append "" l1 +:+ foldr String.append "" l2.
Proof.
  induction l1 as [|x l1 IH]; [reflexivity|].
  cbn [foldr app]. rewrite IH, string_app_assoc. reflexivity.
Qed.

(** X20: which backend a stream reports.  The preferred backend is reported
    whenever it succeeds, and then the chunks are its own; the other one only
    when the preferred one fails and it succeeds; the simulation exactly when
    both fail.  The chunks of an attempt that failed stay in front of the
    chunks of the backend that answers, so the text that the application
    accumulates in simulation mode is longer than the simulated response. *)
Theorem X20_reported_backend (preferredBackend : Backend) (gemini : GeminiRun)
    (ollama : Attempt) (mock : string) :
  let r := streamResponse preferredBackend gemini ollama mock in
  let succeeds (b : Backend) :=
    match b with
    | GEMINI => g_success gemini = true
    | OLLAMA => a_end ollama = Completes
    end in
  let chunksOf (b : Backend) :=
    match b with
    | GEMINI => g_chunks gemini
    | OLLAMA => emitted ollama
    end in
  let other := match preferredBackend with GEMINI => OLLAMA | OLLAMA => GEMINI end in
  (succeeds preferredBackend ->
   r_backend r = LIVE preferredBackend /\ r_chunks r = chunksOf preferredBackend)
  /\ (~ succeeds preferredBackend -> succeeds other ->
      r_backend r = LIVE other
      /\ r_chunks r = chunksOf preferredBackend ++ chunksOf other)
  /\ (r_backend r = SIMULATION <-> ~ succeeds GEMINI /\ ~ succeeds OLLAMA)
  /\ (r_backend r = SIMULATION ->
      r_chunks r = chunksOf preferredBackend ++ chunksOf other ++ streamMockResponse mock)
  /\ (r_backend r = SIMULATION -> 2 <= str_length mock ->
      str_length mock < str_length (foldr String.append "" (r_chunks r))).
Proof.
  intros r succeeds chunksOf other.
  assert (Hsim : r_backend r = SIMULATION ->
            r_chunks r = chunksOf preferredBackend ++ chunksOf other
                           ++ streamMockResponse mock).
  { subst r succeeds chunksOf other. unfold streamResponse.
    destruct preferredBackend, (g_success gemini), (a_end ollama); cbn;
      intros H; try discriminate H; reflexivity. }
  split; [|split; [|split; [|split]]].
  - subst r succeeds chunksOf other. unfold streamResponse.
    destruct preferredBackend; cbn; intros ->; split; reflexivity.
  - subst r succeeds chunksOf other. unfold streamResponse.
    destruct preferredBackend; cbn; intros Hn Hs.
    + rewrite Hs. destruct (g_success gemini); [contradiction|]. split; reflexivity.
    + rewrite Hs. destruct (a_end ollama); try contradiction; split; reflexivity.
  - subst r succeeds chunksOf other. unfold streamResponse.
    destruct preferredBackend, (g_success gemini), (a_end ollama); cbn;
      split; try discriminate; try (intros [H1 H2]; congruence);
      intros _; split; discriminate.
  - exact Hsim.
  - intros Hs Hlen. rewrite (Hsim Hs), !foldr_string_app.
    pose proof (mock_text_longer mock Hlen) as Hm.
    unfold str_length in *. rewrite !length_string_app. lia.
Qed.

(** X20 with Gemini preferred and failing, and Ollama completing. *)
Lemma X20_reported_backend_witness :
  r_backend (streamResponse GEMINI
               {| g_success := false; g_chunks := ["par"]; g_tried := ["m"];
                  g_tripped := false |}
               {| a_texts := ["local"]; a_end := Completes |} "mock")
  = LIVE OLLAMA.
Proof.
  refine (proj1 (proj1 (proj2 (X20_reported_backend GEMINI
            {| g_success := false; g_chunks := ["par"]; g_tried := ["m"];
               g_tripped := false |}
            {| a_texts := ["local"]; a_end := Completes |} "mock")) _ _)).
  - discriminate.
  - reflexivity.
Defined.


(* ------------------------------------------------------------------ *)
(** ** The geometry of the canvas *)
(* ------------------------------------------------------------------ *)

Lemma pairwise_app {A} (R : A -> A -> Prop) (l1 l2 : list A) :
  pairwise R (l1 ++ l2)
  <-> pairwise R l1 /\ pairwise R l2 /\ Forall (fun a => Forall (R a) l2) l1.
Proof.
  induction l1 as [|x l1 IH]; simpl.
  - split; [intros H; repeat split; [exact H|constructor]|tauto].
  - rewrite IH, Forall_app, Forall_cons_iff. tauto.
Qed.

Lemma pairwise_lookup {A} (R : A -> A -> Prop) (l : list A) :
  (forall a b, R a b -> R b a) -> pairwise R l ->
  forall (i j : nat) a b, i <> j -> l !! i = Some a -> l !! j = Some b -> R a b.
Proof.
  intros Hsym. induction l as [|x l IH]; intros Hp i j a b Hij Hi Hj;
    [destruct i; discriminate|].
  destruct Hp as [Hx Hl]. destruct i as [|i], j as [|j]; simpl in Hi, Hj.
  - contradiction.
  - injection Hi as <-. rewrite Forall_forall in Hx. apply Hx.
    apply list_elem_of_lookup. exists j. exact Hj.
  - injection Hj as <-. apply Hsym. rewrite Forall_forall in Hx. apply Hx.
    apply list_elem_of_lookup. exists i. exact Hi.
  - apply (IH Hl i j); [congruence|assumption|assumption].
Qed.

Lemma leafCount_node g cs :
  leafCount (GNode g cs) = match cs with [] => 1 | _ => leafCountF cs end.
Proof. destruct cs; reflexivity. Qed.

Lemma leafCountF_cons c cs : leafCountF (c :: cs) = leafCount c + leafCountF cs.
Proof. reflexivity. Qed.

Lemma leafCount_pos (t : GTree) : 1 <= leafCount t.
Proof.
  induction t as [g cs IH] using GTree_ind. rewrite leafCount_node.
  destruct cs as [|c cs]; [lia|]. rewrite leafCountF_cons.
  apply Forall_cons_iff in IH as [Hc IH].
  assert (0 <= leafCountF cs).
  { clear -IH. induction IH as [|x l Hx _ IHl]; [unfold leafCountF; simpl; lia|].
    rewrite leafCountF_cons. lia. }
  lia.
Qed.

Lemma inject_rows (a b : Z) :
  (inject_Z ((a + b) * Y_SPACING) == inject_Z (a * Y_SPACING) + inject_Z (b * Y_SPACING))%Q.
Proof. rewrite Z.mul_add_distr_r, inject_Z_plus. reflexivity. Qed.

Lemma rows_Q (h : Z) : (inject_Z (h * Y_SPACING) == 190 * inject_Z h)%Q.
Proof. unfold Y_SPACING. rewrite inject_Z_mult. change (inject_Z 190) with 190%Q. lra. Qed.

Lemma inBand_iff (startY : Q) (height : Z) (l : list GroupedNode) :
  inBand startY height l
  <-> Forall (fun g => (startY <= g_y g)%Q
                       /\ (g_y g <= startY + 190 * inject_Z height - 190)%Q) l.
Proof.
  unfold inBand. apply Forall_iff. intros g.
  assert (E : (inject_Z ((height - 1) * Y_SPACING) == 190 * inject_Z height - 190)%Q).
  { rewrite rows_Q. replace (height - 1) with (height + -1) by lia.
    rewrite inject_Z_plus. change (inject_Z (-1)) with (-1)%Q. lra. }
  rewrite E. split; intros [H1 H2]; split; lra.
Qed.

Lemma layoutTree_leaf g y : layoutTree (GNode g []) y = (GNode (set_y g y) [], 1).
Proof. reflexivity. Qed.

Lemma layoutTree_inner g c cs y :
  exists firstChild lastChild,
    head (layoutForest (c :: cs) y).1 = Some firstChild
    /\ last (layoutForest (c :: cs) y).1 = Some lastChild
    /\ layoutTree (GNode g (c :: cs)) y
       = (GNode (set_y g ((g_y (rootNode firstChild) + g_y (rootNode lastChild)) / 2)%Q)
            (layoutForest (c :: cs) y).1,
          (layoutForest (c :: cs) y).2).
Proof.
  rewrite layoutTree_node.
  pose proof (layoutForest_length (c :: cs) y) as HL.
  destruct (layoutForest (c :: cs) y) as [cs' total]. cbn [fst snd] in *.
  destruct cs' as [|c1 cs1]; [discriminate|]. cbn [head].
  destruct (last (c1 :: cs1)) as [cl|] eqn:L; [|apply last_None in L; discriminate].
  exists c1, cl. auto.
Qed.

(** The height that the layout returns is the number of leaf groups. *)
Lemma layoutTree_height (t : GTree) : forall y, (layoutTree t y).2 = leafCount t.
Proof.
  induction t as [g cs IH] using GTree_ind. intros y.
  assert (HF : forall y, (layoutForest cs y).2 = leafCountF cs).
  { clear y. induction IH as [|c cs Hc _ IHcs]; intros y; [reflexivity|].
    rewrite layoutForest_cons, leafCountF_cons. cbn [snd]. rewrite Hc, IHcs. reflexivity. }
  destruct cs as [|c cs]; [reflexivity|].
  destruct (layoutTree_inner g c cs y) as (f & l & _ & _ & ->). cbn [snd].
  rewrite HF, leafCount_node. reflexivity.
Qed.

Lemma layoutForest_height (cs : list GTree) : forall y,
  (layoutForest cs y).2 = leafCountF cs.
Proof.
  induction cs as [|c cs IH]; intros y; [reflexivity|].
  rewrite layoutForest_cons, leafCountF_cons. cbn [snd].
  rewrite layoutTree_height, IH. reflexivity.
Qed.

Lemma leafCountF_nonneg (cs : list GTree) : 0 <= leafCountF cs.
Proof.
  induction cs as [|c cs IH]; [unfold leafCountF; simpl; lia|].
  rewrite leafCountF_cons. pose proof (leafCount_pos c). lia.
Qed.

Lemma rootNode_in_flatten (t : GTree) : In (rootNode t) (flatten t).
Proof. destruct t. rewrite flatten_node. left. reflexivity. Qed.

Lemma head_In {A} (l : list A) x : head l = Some x -> In x l.
Proof. destruct l; [discriminate|]. intros [= <-]. left. reflexivity. Qed.

Lemma flattenF_In (cs : list GTree) (c : GTree) (g : GroupedNode) :
  In c cs -> In g (flatten c) -> In g (flattenF cs).
Proof. intros Hc Hg. apply in_flat_map. exists c. auto. Qed.

(** Every group of a laid-out forest lies in the band of the forest. *)
Lemma layoutForest_band (cs : list GTree) :
  Forall (fun t => forall y, inBand y (leafCount t) (flatten (layoutTree t y).1)) cs ->
  forall y, inBand y (leafCountF cs) (flattenF (layoutForest cs y).1).
Proof.
  induction 1 as [|c cs Hc _ IH]; intros y; [constructor|].
  rewrite layoutForest_cons. cbn [fst]. rewrite flattenF_cons, layoutTree_height.
  specialize (Hc y). specialize (IH (y + inject_Z (leafCount c * Y_SPACING))%Q).
  rewrite leafCountF_cons. rewrite inBand_iff in *.
  pose proof (leafCount_pos c) as Hpos. pose proof (leafCountF_nonneg cs) as Hnn.
  rewrite Zle_Qle in Hpos. rewrite Zle_Qle in Hnn.
  change (inject_Z 1) with 1%Q in Hpos. change (inject_Z 0) with 0%Q in Hnn.
  apply Forall_app. split.
  - eapply Forall_impl; [exact Hc|]. cbv beta. intros g [H1 H2].
    rewrite inject_Z_plus. split; lra.
  - destruct cs as [|c2 cs2]; [constructor|].
    assert (Hpos2 : (1 <= inject_Z (leafCountF (c2 :: cs2)))%Q).
    { rewrite leafCountF_cons. pose proof (leafCount_pos c2).
      pose proof (leafCountF_nonneg cs2).
      change 1%Q with (inject_Z 1). rewrite <- Zle_Qle. lia. }
    eapply Forall_impl; [exact IH|]. cbv beta. intros g [H1 H2].
    rewrite rows_Q in H1, H2. rewrite inject_Z_plus. split; lra.
Qed.

(** Every group of a laid-out tree lies in the band of as many rows as the
    tree has leaf groups. *)
Lemma layoutTree_band (t : GTree) :
  forall y, inBand y (leafCount t) (flatten (layoutTree t y).1).
Proof.
  induction t as [g cs IH] using GTree_ind. intros y.
  destruct cs as [|c cs].
  - rewrite layoutTree_leaf. cbn [fst]. rewrite flatten_node. apply inBand_iff.
    constructor; [|constructor]. cbn. change (inject_Z 1) with 1%Q. split; lra.
  - pose proof (layoutForest_band (c :: cs) IH y) as HF.
    destruct (layoutTree_inner g c cs y) as (f & l & Hf & Hl & ->). cbn [fst].
    rewrite flatten_node, leafCount_node. unfold inBand in *. constructor; [|exact HF].
    rewrite Forall_forall in HF.
    assert (Hin : forall x, In x (layoutForest (c :: cs) y).1 ->
                    In (rootNode x) (flattenF (layoutForest (c :: cs) y).1)).
    { intros x Hx. apply (flattenF_In _ x); [exact Hx|apply rootNode_in_flatten]. }
    destruct (HF (rootNode f)) as [F1 F2];
      [apply list_elem_of_In, Hin, head_In; exact Hf|].
    destruct (HF (rootNode l)) as [L1 L2];
      [apply list_elem_of_In, Hin, last_In; exact Hl|].
    cbn [set_y g_y]. split.
    + apply Qle_shift_div_l; [reflexivity|]. lra.
    + apply Qle_shift_div_r; [reflexivity|]. lra.
Qed.

Lemma movedTo_depths (l l' : list GroupedNode) (P : Z -> Prop) :
  Forall2 movedTo l l' -> Forall (fun g => P (g_depth g)) l ->
  Forall (fun g => P (g_depth g)) l'.
Proof.
  induction 1 as [|g g' l l' H _ IH]; intros HP; [constructor|].
  apply Forall_cons_iff in HP as [Hg Hl]. constructor; [|exact (IH Hl)].
  rewrite H. exact Hg.
Qed.

Lemma layoutForest_moves (cs : list GTree) : forall y,
  Forall2 movedTo (flattenF cs) (flattenF (layoutForest cs y).1).
Proof.
  induction cs as [|c cs IH]; intros y; [constructor|].
  rewrite layoutForest_cons. cbn [fst]. rewrite !flattenF_cons.
  apply Forall2_app; [apply layoutTree_moves|apply IH].
Qed.

Lemma rowsApart_sym (a b : GroupedNode) : rowsApart a b -> rowsApart b a.
Proof. unfold rowsApart. intros H E. symmetry in E. destruct (H E); [right|left]; assumption. Qed.

(** Two groups of a laid-out forest that have the same depth are a row
    apart, if those of each of its trees are. *)
Lemma layoutForest_rows (cs : list GTree) :
  Forall (fun t => forall y, pairwise rowsApart (flatten (layoutTree t y).1)) cs ->
  forall y, pairwise rowsApart (flattenF (layoutForest cs y).1).
Proof.
  induction 1 as [|c cs Hc _ IH]; intros y; [exact I|].
  rewrite layoutForest_cons. cbn [fst]. rewrite flattenF_cons, layoutTree_height.
  apply pairwise_app. split; [apply Hc|]. split; [apply IH|].
  pose proof (layoutTree_band c y) as Ha.
  assert (Hall : Forall (fun t => forall y,
                           inBand y (leafCount t) (flatten (layoutTree t y).1)) cs)
    by (apply Forall_forall; intros t _; apply layoutTree_band).
  pose proof (layoutForest_band cs Hall (y + inject_Z (leafCount c * Y_SPACING))%Q) as Hb.
  rewrite inBand_iff in Ha, Hb.
  eapply Forall_impl; [exact Ha|]. cbv beta. intros a [_ A2].
  eapply Forall_impl; [exact Hb|]. cbv beta. intros b [B1 _] _.
  left. rewrite rows_Q in B1. change (inject_Z Y_SPACING) with 190%Q. lra.
Qed.

(** Two groups of a laid-out tree that have the same depth are a row
    apart. *)
Lemma layoutTree_rows (t : GTree) : forall depth y,
  wfTree depth t -> pairwise rowsApart (flatten (layoutTree t y).1).
Proof.
  induction t as [g cs IH] using GTree_ind. intros depth y Hwf.
  apply wfTree_node in Hwf as (Hd & _ & Hcs).
  destruct cs as [|c cs].
  - rewrite layoutTree_leaf. cbn [fst]. rewrite flatten_node. split; [constructor|exact I].
  - destruct (layoutTree_inner g c cs y) as (f & l & _ & _ & ->). cbn [fst].
    rewrite flatten_node. split.
    + assert (Hdeep : Forall (fun x => depth + 1 <= g_depth x)
                        (flattenF (layoutForest (c :: cs) y).1)).
      { apply (movedTo_depths _ _ (fun d => depth + 1 <= d) (layoutForest_moves _ y)).
        clear -Hcs. induction Hcs as [|x l Hx _ IHl]; [constructor|].
        rewrite flattenF_cons. apply Forall_app. split; [|exact IHl].
        exact (wfTree_depths x (depth + 1) Hx). }
      eapply Forall_impl; [exact Hdeep|]. cbv beta. intros b Hb E.
      cbn [set_y g_depth] in E. lia.
    + apply layoutForest_rows.
      clear -IH Hcs. rewrite Forall_forall in IH, Hcs |- *. intros t Ht y.
      exact (IH t Ht (depth + 1) y (Hcs t Ht)).
Qed.

Lemma spaced_of_rows (a b : GroupedNode) :
  xByDepth a -> xByDepth b -> rowsApart a b -> spaced a b.
Proof.
  unfold xByDepth, rowsApart, spaced. intros Ha Hb Hrows.
  destruct (Z.eq_dec (g_depth a) (g_depth b)) as [E|N].
  - destruct (Hrows E); auto.
  - unfold X_SPACING in *.
    assert (g_x a + 340 <= g_x b \/ g_x b + 340 <= g_x a) by lia. tauto.
Qed.

Lemma spaced_no_overlap (a b : GroupedNode) : spaced a b -> ~ cardsOverlap a b.
Proof.
  unfold spaced, cardsOverlap, X_SPACING, GROUP_WIDTH.
  change (inject_Z Y_SPACING) with 190%Q. change (inject_Z GROUP_HEIGHT) with 160%Q.
  intros [H|[H|[H|H]]] (H1 & H2 & H3 & H4); try lia; lra.
Qed.

(** X21: the cards of the canvas never overlap.  For every store and every
    list of chapters the grouping and the layout return, and any two groups
    of the result are a column (340) apart in x or a row (190) apart in y,
    which is more than a card is wide (280) or high (160). *)
Theorem X21_cards_never_overlap (msgs : list Message) (chaps : list Chapter) :
  exists groups laid,
    groupMessages msgs chaps = Some groups
    /\ calculateGroupLayout groups = Some laid
    /\ forall (i j : nat) a b,
         i <> j -> laid !! i = Some a -> laid !! j = Some b ->
         spaced a b /\ ~ cardsOverlap a b.
Proof.
  destruct (groupMessages_tree msgs chaps)
    as (groups & E & Hx & [-> | (t & -> & Hwf & Hnd)]).
  - exists [], []. split; [exact E|]. split; [reflexivity|].
    intros i j a b _ H. destruct i; discriminate.
  - exists (flatten t), (flatten (layoutTree t 100).1).
    split; [exact E|]. split; [exact (calculateGroupLayout_tree t Hwf Hnd)|].
    pose proof (movedTo_xByDepth _ _ (layoutTree_moves t 100) Hx) as Hx'.
    pose proof (layoutTree_rows t 0 100 Hwf) as Hrows.
    intros i j a b Hij Hi Hj.
    assert (Hs : spaced a b).
    { rewrite Forall_forall in Hx'. apply spaced_of_rows.
      - apply Hx'. apply list_elem_of_lookup. exists i. exact Hi.
      - apply Hx'. apply list_elem_of_lookup. exists j. exact Hj.
      - exact (pairwise_lookup rowsApart _ rowsApart_sym Hrows i j a b Hij Hi Hj). }
    split; [exact Hs|exact (spaced_no_overlap a b Hs)].
Qed.

(** X21 on the fork tree: the cards of C and of D. *)
Lemma X21_cards_never_overlap_witness :
  exists groups laid,
    groupMessages (forkTree 0 1 2) [] = Some groups
    /\ calculateGroupLayout groups = Some laid
    /\ forall a b, laid !! 1%nat = Some a -> laid !! 2%nat = Some b -> ~ cardsOverlap a b.
Proof.
  destruct (X21_cards_never_overlap (forkTree 0 1 2) []) as (groups & laid & E1 & E2 & H).
  exists groups, laid. split; [exact E1|]. split; [exact E2|].
  intros a b Ha Hb. refine (proj2 (H 1%nat 2%nat a b _ Ha Hb)). discriminate.
Defined.

Lemma leafGroups_app (l1 l2 : list GroupedNode) :
  leafGroups (l1 ++ l2) = leafGroups l1 + leafGroups l2.
Proof. unfold leafGroups, js_length. rewrite List.filter_app, length_app. lia. Qed.

(** The leaf groups of a well-formed tree are the groups of its array that
    name no child. *)
Lemma leafCount_leafGroups (t : GTree) : forall depth,
  wfTree depth t -> leafCount t = leafGroups (flatten t).
Proof.
  induction t as [g cs IH] using GTree_ind. intros depth Hwf.
  apply wfTree_node in Hwf as (_ & Hids & Hcs).
  rewrite leafCount_node, flatten_node.
  change (g :: flattenF cs) with ([g] ++ flattenF cs). rewrite leafGroups_app.
  assert (HF : leafCountF cs = leafGroups (flattenF cs)).
  { clear -IH Hcs. induction cs as [|c cs IHcs]; [reflexivity|].
    apply Forall_cons_iff in IH as [Hc IH]. apply Forall_cons_iff in Hcs as [Hw Hcs].
    rewrite leafCountF_cons, flattenF_cons, leafGroups_app, (Hc _ Hw), (IHcs IH Hcs).
    reflexivity. }
  unfold leafGroups at 1. cbn [List.filter]. unfold childless. rewrite Hids.
  destruct cs as [|c cs]; [reflexivity|]. cbn [map]. rewrite HF. reflexivity.
Qed.

(** Some group of a laid-out tree sits on the first row of its band. *)
Lemma layoutTree_top (t : GTree) : forall y,
  exists g, In g (flatten (layoutTree t y).1) /\ (g_y g == y)%Q.
Proof.
  induction t as [g cs IH] using GTree_ind. intros y. destruct cs as [|c cs].
  - rewrite layoutTree_leaf. exists (set_y g y). split; [left; reflexivity|reflexivity].
  - destruct (layoutTree_inner g c cs y) as (f & l & _ & _ & ->). cbn [fst].
    apply Forall_cons_iff in IH as [Hc _]. destruct (Hc y) as (x & Hx & Ex).
    exists x. split; [|exact Ex]. rewrite flatten_node. right.
    rewrite layoutForest_cons. cbn [fst]. rewrite flattenF_cons.
    apply in_or_app. left. exact Hx.
Qed.

Lemma layoutForest_bottom (cs : list GTree) :
  Forall (fun t => forall y, exists g, In g (flatten (layoutTree t y).1)
            /\ (g_y g == y + 190 * (inject_Z (leafCount t) - 1))%Q) cs ->
  cs <> [] ->
  forall y, exists g, In g (flattenF (layoutForest cs y).1)
    /\ (g_y g == y + 190 * (inject_Z (leafCountF cs) - 1))%Q.
Proof.
  induction 1 as [|c cs Hc Hcs IH]; intros Hne y; [contradiction|].
  rewrite layoutForest_cons. cbn [fst]. rewrite flattenF_cons, layoutTree_height.
  rewrite leafCountF_cons, inject_Z_plus.
  destruct cs as [|c2 cs2].
  - destruct (Hc y) as (g & Hg & Eg). exists g. split; [apply in_or_app; left; exact Hg|].
    rewrite Eg. change (leafCountF []) with 0. change (inject_Z 0) with 0%Q. lra.
  - destruct (IH ltac:(discriminate) (y + inject_Z (leafCount c * Y_SPACING))%Q)
      as (g & Hg & Eg).
    exists g. split; [apply in_or_app; right; exact Hg|].
    rewrite Eg, rows_Q. lra.
Qed.

(** Some group of a laid-out tree sits on the last row of its band. *)
Lemma layoutTree_bottom (t : GTree) : forall y,
  exists g, In g (flatten (layoutTree t y).1)
    /\ (g_y g == y + 190 * (inject_Z (leafCount t) - 1))%Q.
Proof.
  induction t as [g cs IH] using GTree_ind. intros y. destruct cs as [|c cs].
  - rewrite layoutTree_leaf. exists (set_y g y). split; [left; reflexivity|].
    rewrite leafCount_node. change (inject_Z 1) with 1%Q. cbn [set_y g_y]. lra.
  - destruct (layoutTree_inner g c cs y) as (f & l & _ & _ & ->). cbn [fst].
    destruct (layoutForest_bottom (c :: cs) IH ltac:(discriminate) y) as (x & Hx & Ex).
    exists x. split; [rewrite flatten_node; right; exact Hx|].
    rewrite Ex, leafCount_node. reflexivity.
Qed.

(** X22: the height of the canvas.  The laid-out array has the groups of
    the grouping in their order; every y lies between 100 and
    100 + 190 * (L - 1), where L is the number of groups without child
    groups; and when there is a group, both ends are taken. *)
Theorem X22_canvas_height (msgs : list Message) (chaps : list Chapter) :
  exists groups laid,
    groupMessages msgs chaps = Some groups
    /\ calculateGroupLayout groups = Some laid
    /\ Forall2 movedTo groups laid
    /\ Forall (fun g => (100 <= g_y g)%Q
                 /\ (g_y g <= 100 + 190 * (inject_Z (leafGroups groups) - 1))%Q) laid
    /\ (groups <> [] ->
        exists top bottom, In top laid /\ In bottom laid
          /\ (g_y top == 100)%Q
          /\ (g_y bottom == 100 + 190 * (inject_Z (leafGroups groups) - 1))%Q).
Proof.
  destruct (groupMessages_tree msgs chaps)
    as (groups & E & Hx & [-> | (t & -> & Hwf & Hnd)]).
  - exists [], []. split; [exact E|]. split; [reflexivity|].
    split; [constructor|]. split; [constructor|]. intros H. contradiction.
  - exists (flatten t), (flatten (layoutTree t 100).1).
    split; [exact E|]. split; [exact (calculateGroupLayout_tree t Hwf Hnd)|].
    split; [apply layoutTree_moves|].
    rewrite <- (leafCount_leafGroups t 0 Hwf). split.
    + pose proof (layoutTree_band t 100) as Hb. rewrite inBand_iff in Hb.
      eapply Forall_impl; [exact Hb|]. cbv beta. intros g [H1 H2]. split; lra.
    + intros _. destruct (layoutTree_top t 100) as (top & Ht & Et).
      destruct (layoutTree_bottom t 100) as (bottom & Hb & Eb).
      exists top, bottom. auto.
Qed.

(** X22 on the fork tree: its two leaf groups span one row. *)
Lemma X22_canvas_height_witness :
  exists groups laid,
    groupMessages (forkTree 0 1 2) [] = Some groups
    /\ calculateGroupLayout groups = Some laid
    /\ exists bottom, In bottom laid
         /\ (g_y bottom == 100 + 190 * (inject_Z (leafGroups groups) - 1))%Q.
Proof.
  destruct (X22_canvas_height (forkTree 0 1 2) [])
    as (groups & laid & E1 & E2 & _ & _ & H).
  exists groups, laid. split; [exact E1|]. split; [exact E2|].
  destruct H as (top & bottom & _ & Hb & _ & Eb).
  - vm_compute in E1. injection E1 as <-. discriminate.
  - exists bottom. auto.
Defined.

(* ------------------------------------------------------------------ *)
(** ** Relative time of a card *)
(* ------------------------------------------------------------------ *)

(** X23: the age shown on a card.  Anything younger than a minute, a
    timestamp in the future included, reads Just now; otherwise the age is
    the whole number of minutes (1 to 59), of hours (1 to 23) or of days,
    each counted from the difference itself. *)
Theorem X23_relative_time (now timestamp : Z) :
  let diff := now - timestamp in
  (diff < 60000 -> getRelativeTime now timestamp = "Just now")
  /\ (60000 <= diff < 3600000 ->
      getRelativeTime now timestamp = string_of_Z (diff / 60000) +:+ "m ago"
      /\ 1 <= diff / 60000 <= 59)
  /\ (3600000 <= diff < 86400000 ->
      getRelativeTime now timestamp = string_of_Z (diff / 3600000) +:+ "h ago"
      /\ 1 <= diff / 3600000 <= 23)
  /\ (86400000 <= diff ->
      getRelativeTime now timestamp = string_of_Z (diff / 86400000) +:+ "d ago"
      /\ 1 <= diff / 86400000).
Proof.
  intros diff. unfold getRelativeTime. fold diff. cbv zeta.
  assert (Hh : diff / 60000 / 60 = diff / 3600000) by (rewrite Z.div_div by lia; reflexivity).
  assert (Hd : diff / 60000 / 60 / 24 = diff / 86400000)
    by (rewrite !Z.div_div by lia; reflexivity).
  rewrite Hd, Hh.
  assert (Hm1 : 60000 <= diff -> 1 <= diff / 60000)
    by (intros; apply Z.div_le_lower_bound; lia).
  assert (Hm2 : diff < 3600000 -> diff / 60000 <= 59)
    by (intros; apply Z.lt_succ_r; apply Z.div_lt_upper_bound; lia).
  assert (Hm3 : 3600000 <= diff -> 60 <= diff / 60000)
    by (intros; apply Z.div_le_lower_bound; lia).
  assert (Hh1 : 3600000 <= diff -> 1 <= diff / 3600000)
    by (intros; apply Z.div_le_lower_bound; lia).
  assert (Hh2 : diff < 86400000 -> diff / 3600000 <= 23)
    by (intros; apply Z.lt_succ_r; apply Z.div_lt_upper_bound; lia).
  assert (Hh3 : 86400000 <= diff -> 24 <= diff / 3600000)
    by (intros; apply Z.div_le_lower_bound; lia).
  assert (Hd1 : 86400000 <= diff -> 1 <= diff / 86400000)
    by (intros; apply Z.div_le_lower_bound; lia).
  destruct (diff <? 60000) eqn:E1; zb E1.
  { split; [reflexivity|]. repeat split; intros; lia. }
  split; [intros; lia|].
  destruct (diff / 60000 <? 60) eqn:E2; zb E2.
  { split; [intros [H1 H2]; split; [reflexivity|split; [auto|auto]]|].
    split; intros; specialize (Hm3 ltac:(lia)); lia. }
  split; [intros [H1 H2]; specialize (Hm2 H2); lia|].
  destruct (diff / 3600000 <? 24) eqn:E3; zb E3.
  { split; [intros [H1 H2]; split; [reflexivity|split; auto]|].
    intros H. specialize (Hh3 H). lia. }
  split; [intros [H1 H2]; specialize (Hh2 H2); lia|].
  intros H. split; [reflexivity|auto].
Qed.

(** X23 for a card that is ninety minutes old. *)
Lemma X23_relative_time_witness :
  getRelativeTime 5400000 0 = string_of_Z (5400000 / 3600000) +:+ "h ago".
Proof.
  refine (proj1 (proj1 (proj2 (proj2 (X23_relative_time 5400000 0))) _)). lia.
Defined.

(* ------------------------------------------------------------------ *)
(** ** The highlighted path of the canvas *)
(* ------------------------------------------------------------------ *)

Lemma find_by_id_In (msgs : list Message) (a : Message) :
  List.NoDup (map m_id msgs) -> In a msgs ->
  List.find (byId (m_id a)) msgs = Some a.
Proof.
  intros Hnd Hin.
  destruct (List.find (byId (m_id a)) msgs) as [b|] eqn:E.
  - apply find_some in E as [Hb Hid]. unfold byId in Hid. apply String.eqb_eq in Hid.
    f_equal. exact (unique_by_id msgs b a Hnd Hb Hin Hid).
  - exfalso. pose proof (find_none _ _ E a Hin) as H. unfold byId in H.
    rewrite String.eqb_refl in H. discriminate.
Qed.

Lemma find_by_id_lookup (msgs : list Message) (j : nat) (a : Message) :
  List.NoDup (map m_id msgs) -> msgs !! j = Some a ->
  List.find (byId (m_id a)) msgs = Some a.
Proof.
  intros Hnd Hj. apply find_by_id_In; [exact Hnd|].
  apply list_elem_of_In, list_elem_of_lookup. exists j. exact Hj.
Qed.

Lemma find_parent (msgs : list Message) (m : Message) :
  List.find (fun x => opt_eqb (Some (m_id x)) (m_parentId m)) msgs
  = match m_parentId m with
    | Some p => List.find (byId p) msgs
    | None => None
    end.
Proof.
  destruct (m_parentId m) as [p|]; [reflexivity|].
  induction msgs as [|x l IH]; [reflexivity|exact IH].
Qed.

(** With distinct ids, the only parent of a stored message is the one it
    names. *)
Lemma childEdge_parent (msgs : list Message) (x : string) (m : Message) :
  List.NoDup (map m_id msgs) -> In m msgs -> childEdge msgs x (m_id m) ->
  m_parentId m = Some x.
Proof.
  intros Hnd Hin (c & Hc & Hp & Hid).
  rewrite <- (unique_by_id msgs c m Hnd Hc Hin Hid). exact Hp.
Qed.

Lemma tc_inv_last {A} (R : A -> A -> Prop) (x y : A) :
  tc R x y -> R x y \/ exists z, tc R x z /\ R z y.
Proof.
  induction 1 as [x y H|x z y H _ IH]; [left; exact H|].
  right. destruct IH as [IH|(w & Hw & Hwy)].
  - exists z. split; [apply tc_once; exact H|exact IH].
  - exists w. split; [eapply tc_l; eassumption|exact Hwy].
Qed.

(** On a forest the loop ends, having added the message it starts from and
    the ancestors of that message. *)
Lemma ancestorLoop_forest (msgs : list Message) :
  forest msgs ->
  forall (fuel k : nat) (m : Message) (acc : gset string),
    msgs !! k = Some m -> (S k < fuel)%nat ->
    exists anc, ancestorLoop fuel msgs (Some m) acc = Some anc
      /\ forall i, i ∈ anc <-> i ∈ acc \/ i = m_id m \/ tc (childEdge msgs) i (m_id m).
Proof.
  intros [Hnd Hpar]. induction fuel as [|fuel IH]; intros k m acc Hk Hfuel; [lia|].
  assert (Hin : In m msgs) by (apply list_elem_of_In, list_elem_of_lookup; eauto).
  cbn [ancestorLoop]. rewrite find_parent.
  destruct (m_parentId m) as [p|] eqn:Ep.
  - destruct (Hpar k m p Hk Ep) as (j & a & Hjk & Hj & Ha). subst p.
    rewrite (find_by_id_lookup msgs j a Hnd Hj).
    destruct (IH j a ({[ m_id m ]} ∪ acc) Hj ltac:(lia)) as (anc & -> & Hanc).
    exists anc. split; [reflexivity|]. intros i. rewrite Hanc.
    assert (He : childEdge msgs (m_id a) (m_id m)) by (exists m; auto).
    assert (Hup : tc (childEdge msgs) i (m_id m)
                  <-> i = m_id a \/ tc (childEdge msgs) i (m_id a)).
    { split.
      - intros Htc. apply tc_inv_last in Htc as [H|(z & Hz & H)].
        + left. apply (childEdge_parent msgs i m Hnd Hin) in H. congruence.
        + right. apply (childEdge_parent msgs z m Hnd Hin) in H.
          assert (z = m_id a) by congruence. subst z. exact Hz.
      - intros [->|Htc]; [apply tc_once; exact He|].
        eapply tc_r; [exact Htc|exact He]. }
    rewrite Hup. set_solver.
  - destruct fuel as [|fuel']; [lia|]. cbn [ancestorLoop].
    exists ({[ m_id m ]} ∪ acc). split; [reflexivity|]. intros i.
    assert (Hno : ~ tc (childEdge msgs) i (m_id m)).
    { intros Htc. apply tc_inv_last in Htc as [H|(z & _ & H)];
        apply (childEdge_parent msgs _ m Hnd Hin) in H; congruence. }
    set_solver.
Qed.

Lemma tc_target_stored (msgs : list Message) (x y : string) :
  tc (childEdge msgs) x y -> exists a, In a msgs /\ m_id a = y.
Proof.
  intros H. apply tc_inv_last in H as [(c & Hc & _ & Hid)|(z & _ & c & Hc & _ & Hid)];
    exists c; auto.
Qed.

(** On a parent cycle the loop never ends. *)
Lemma ancestorLoop_cycle (msgs : list Message) :
  List.NoDup (map m_id msgs) ->
  forall (fuel : nat) (m : Message) (acc : gset string),
    In m msgs -> tc (childEdge msgs) (m_id m) (m_id m) ->
    ancestorLoop fuel msgs (Some m) acc = None.
Proof.
  intros Hnd. induction fuel as [|fuel IH]; intros m acc Hin Hcyc; [reflexivity|].
  cbn [ancestorLoop]. rewrite find_parent.
  assert (Hp : exists a, In a msgs /\ m_parentId m = Some (m_id a)
                         /\ tc (childEdge msgs) (m_id a) (m_id a)).
  { pose proof Hcyc as Hc. apply tc_inv_last in Hc as [H|(z & Hz & H)].
    - pose proof (childEdge_parent msgs _ m Hnd Hin H) as Ep.
      exists m. split; [exact Hin|]. split; [exact Ep|exact Hcyc].
    - pose proof (childEdge_parent msgs _ m Hnd Hin H) as Ep.
      destruct (tc_target_stored msgs _ _ Hz) as (a & Ha & <-).
      exists a. split; [exact Ha|]. split; [exact Ep|].
      eapply tc_l; [exact H|exact Hz]. }
  destruct Hp as (a & Ha & -> & Hcyc').
  rewrite (find_by_id_In msgs a Hnd Ha). apply IH; assumption.
Qed.

(** X24: the highlighted path of the canvas.  On a store that is a forest
    the ancestor walk of the canvas ends within one turn more than the store
    has messages, and the nodes it highlights are those whose id is the head
    or an ancestor of the head.  The walk has no bound of its own: with
    distinct ids and the head on a parent cycle it never ends. *)
Theorem X24_highlighted_path (msgs : list Message) (activeBranchHeadId : string)
    (nodes : list GroupedNode) :
  (forest msgs ->
   exists ids,
     activeGroupIds (S (length msgs)) msgs activeBranchHeadId nodes = Some ids
     /\ forall i, i ∈ ids <->
          In i (map g_id nodes) /\ In activeBranchHeadId (map m_id msgs)
          /\ (i = activeBranchHeadId \/ tc (childEdge msgs) i activeBranchHeadId))
  /\ (List.NoDup (map m_id msgs) -> In activeBranchHeadId (map m_id msgs) ->
      tc (childEdge msgs) activeBranchHeadId activeBranchHeadId ->
      forall fuel, activeGroupIds fuel msgs activeBranchHeadId nodes = None).
Proof.
  split.
  - intros Hf. unfold activeGroupIds.
    destruct (List.find (byId activeBranchHeadId) msgs) as [m|] eqn:Ef.
    + apply find_some in Ef as [Hin Hid]. unfold byId in Hid. apply String.eqb_eq in Hid.
      assert (Hk : exists k, msgs !! k = Some m)
        by (apply list_elem_of_lookup, list_elem_of_In; exact Hin).
      destruct Hk as (k & Hk).
      destruct (ancestorLoop_forest msgs Hf (S (length msgs)) k m ∅ Hk) as (anc & -> & Hanc).
      { apply lookup_lt_Some in Hk. lia. }
      eexists. split; [reflexivity|]. intros i.
      rewrite elem_of_list_to_set, list_elem_of_In, filter_In, bool_decide_eq_true.
      rewrite Hanc, Hid.
      assert (In activeBranchHeadId (map m_id msgs)) by (rewrite <- Hid; apply in_map; exact Hin).
      set_solver.
    + cbn [ancestorLoop]. eexists. split; [reflexivity|]. intros i.
      rewrite elem_of_list_to_set, list_elem_of_In, filter_In, bool_decide_eq_true.
      split; [set_solver|]. intros (_ & Hin & _). exfalso.
      apply in_map_iff in Hin as (m & Hid & Hm).
      pose proof (find_none _ _ Ef m Hm) as H. unfold byId in H.
      rewrite Hid, String.eqb_refl in H. discriminate.
  - intros Hnd Hin Hcyc fuel. unfold activeGroupIds.
    apply in_map_iff in Hin as (m & Hid & Hm). subst activeBranchHeadId.
    rewrite (find_by_id_In msgs m Hnd Hm), (ancestorLoop_cycle msgs Hnd fuel m ∅ Hm Hcyc).
    reflexivity.
Qed.

(** X24 on the deep tree, with the head at F. *)
Lemma X24_highlighted_path_witness :
  exists ids, activeGroupIds 8 (deepTree 0 1 2) "F" [] = Some ids.
Proof.
  destruct (proj1 (X24_highlighted_path (deepTree 0 1 2) "F" [])) as (ids & E & _).
  - apply forest_checked. reflexivity.
  - exists ids. exact E.
Defined.

(* ------------------------------------------------------------------ *)
(** ** The thread after a submission *)
(* ------------------------------------------------------------------ *)

Lemma find_app_stored (msgs extra : list Message) (i : string) (m : Message) :
  List.find (byId i) msgs = Some m -> List.find (byId i) (msgs ++ extra) = Some m.
Proof.
  induction msgs as [|x l IH]; simpl; [discriminate|].
  destruct (byId i x); [auto|exact IH].
Qed.

Lemma find_app_fresh (msgs extra : list Message) (i : string) :
  ~ In i (map m_id msgs) -> List.find (byId i) (msgs ++ extra) = List.find (byId i) extra.
Proof.
  induction msgs as [|x l IH]; simpl; [reflexivity|]. intros H.
  destruct (byId i x) eqn:E.
  - exfalso. apply H. left. unfold byId in E. apply String.eqb_eq in E. exact E.
  - apply IH. tauto.
Qed.

Lemma walk_loop_more_fuel (msgs : list Message) : forall (fuel fuel' : nat) s r,
  walk_loop fuel msgs s = Some r -> (fuel <= fuel')%nat -> walk_loop fuel' msgs s = Some r.
Proof.
  induction fuel as [|fuel IH]; intros fuel' s r H Hle; [discriminate|].
  destruct fuel' as [|fuel']; [lia|]. cbn [walk_loop] in *.
  destruct (walk_step msgs s); [|exact H]. apply (IH fuel'); [exact H|lia].
Qed.

(** On a forest, the walk from a stored message collects the same messages
    whether or not the store has grown at its end and the walk started two
    hops late, as long as the bound on the hops is not reached. *)
Lemma walk_extend (msgs extra : list Message) (suffix : list Message) :
  forest msgs ->
  forall (fuel k : nat) (m : Message) (n : Z) (thread : list Message),
    msgs !! k = Some m -> 0 <= n -> n + Z.of_nat k + 3 <= MAX_DEPTH -> (S k < fuel)%nat ->
    exists front s s',
      walk_loop fuel msgs
        {| w_currentId := Some (m_id m); w_loopSafety := n; w_thread := thread |} = Some s
      /\ walk_loop fuel (msgs ++ extra)
           {| w_currentId := Some (m_id m); w_loopSafety := n + 2;
              w_thread := thread ++ suffix |} = Some s'
      /\ w_thread s = front ++ thread
      /\ w_thread s' = front ++ thread ++ suffix.
Proof.
  intros [Hnd Hpar]. induction fuel as [|fuel IH]; intros k m n thread Hk Hn Hb Hfuel; [lia|].
  cbn [walk_loop]. unfold walk_step. cbn [w_currentId w_loopSafety w_thread].
  destruct (m_id m ==? "") eqn:E0; cbn [negb andb].
  { exists []. do 2 eexists. split; [reflexivity|]. split; [reflexivity|].
    split; reflexivity. }
  assert (E1 : (n <? MAX_DEPTH) = true) by (apply Z.ltb_lt; lia).
  assert (E2 : (n + 2 <? MAX_DEPTH) = true) by (apply Z.ltb_lt; lia).
  rewrite E1, E2.
  pose proof (find_by_id_lookup msgs k m Hnd Hk) as Hfind.
  rewrite (find_app_stored msgs extra _ m Hfind), Hfind.
  set (thread1 := if negb (m_id m ==? ROOT_ID) then m :: thread else thread).
  assert (Hthread1 : (if negb (m_id m ==? ROOT_ID) then m :: thread ++ suffix
                      else thread ++ suffix) = thread1 ++ suffix).
  { unfold thread1. destruct (negb (m_id m ==? ROOT_ID)); reflexivity. }
  rewrite Hthread1.
  assert (Hfront : exists front1, thread1 = front1 ++ thread).
  { unfold thread1. destruct (negb (m_id m ==? ROOT_ID)); [exists [m]|exists []]; reflexivity. }
  destruct Hfront as (front1 & Hfront).
  destruct (m_parentId m) as [p|] eqn:Ep.
  - destruct (Hpar k m p Hk Ep) as (j & a & Hjk & Hj & <-).
    destruct (IH j a (n + 1) thread1 Hj ltac:(lia) ltac:(lia) ltac:(lia))
      as (front & s & s' & H1 & H2 & H3 & H4).
    replace (n + 2 + 1) with (n + 1 + 2) by lia.
    exists (front ++ front1), s, s'. split; [exact H1|]. split; [exact H2|].
    rewrite H3, H4, Hfront, <- !app_assoc. split; reflexivity.
  - destruct fuel as [|fuel']; [lia|]. cbn [walk_loop]. unfold walk_step.
    cbn [w_currentId]. exists front1. do 2 eexists. split; [reflexivity|].
    split; [reflexivity|]. cbn [w_thread]. rewrite Hfront, <- app_assoc.
    split; reflexivity.
Qed.

(** X25: the thread after a submission.  In a state whose store is a forest
    with a stored head, a submission with new ids that is not refused makes
    the thread the one before it followed by the new message and the
    placeholder of the response, as long as the store stays clear of the
    bound on the walk. *)
Theorem X25_submission_extends_thread (clock : nat -> Z) (s : AppState) :
  wellFormed s -> freshIds clock s -> sendRefused s = false ->
  js_length (messages s) + 4 <= MAX_DEPTH ->
  let s' := handleSendMessage clock s in
  walkThread (messages s') (activeBranchHeadId s')
  = walkThread (messages s) (activeBranchHeadId s)
      ++ [newMessage clock s; responsePlaceholder clock].
Proof.
  intros [Hf Hhead] [Hu Hr] Hsend Hsize s'. subst s'.
  destruct (handleSendMessage_store clock s Hsend) as (-> & -> & _).
  set (u := newMessage clock s). set (r := responsePlaceholder clock).
  apply In_ids_lookup in Hhead as (k & m & Hk & Hid).
  assert (Hklen : (k < length (messages s))%nat) by (apply lookup_lt_Some in Hk; exact Hk).
  unfold js_length in Hsize.
  destruct (walk_extend (messages s) [u; r] [u; r] Hf (Z.to_nat MAX_DEPTH - 1) k m 0 []
              Hk ltac:(lia) ltac:(lia) ltac:(unfold MAX_DEPTH in *; lia))
    as (front & w & w' & H1 & H2 & H3 & H4).
  rewrite Hid in H1, H2. cbn [app] in H2, H4. rewrite app_nil_r in H3.
  assert (Hold : walkThread (messages s) (activeBranchHeadId s) = front).
  { unfold walkThread, walk_init.
    rewrite (walk_loop_more_fuel _ _ walk_fuel _ _ H1)
      by (unfold walk_fuel, MAX_DEPTH; lia).
    exact H3. }
  rewrite Hold. unfold walkThread, walk_init.
  assert (Hfuel : walk_fuel = S (S (Z.to_nat MAX_DEPTH - 1)))
    by (unfold walk_fuel, MAX_DEPTH; lia).
  rewrite Hfuel. cbn [walk_loop].
  assert (Hfr : List.find (byId (m_id r)) (messages s ++ [u; r]) = Some r).
  { rewrite find_app_fresh by exact Hr. cbn [List.find]. unfold byId.
    replace (m_id u ==? m_id r) with false
      by (symmetry; apply String.eqb_neq; apply msg_resp_distinct).
    rewrite String.eqb_refl. reflexivity. }
  assert (Hfu : List.find (byId (m_id u)) (messages s ++ [u; r]) = Some u).
  { rewrite find_app_fresh by exact Hu. cbn [List.find]. unfold byId.
    rewrite String.eqb_refl. reflexivity. }
  unfold walk_step at 1. cbn [w_currentId w_loopSafety w_thread].
  change (m_id r ==? "") with false. change (0 <? MAX_DEPTH) with true.
  cbn [negb andb]. rewrite Hfr. change (m_id r ==? ROOT_ID) with false. cbn [negb].
  change (m_parentId r) with (Some (m_id u)).
  unfold walk_step at 1. cbn [w_currentId w_loopSafety w_thread].
  change (m_id u ==? "") with false. change (0 + 1 <? MAX_DEPTH) with true.
  cbn [negb andb]. rewrite Hfu. change (m_id u ==? ROOT_ID) with false. cbn [negb].
  change (m_parentId u) with (Some (activeBranchHeadId s)).
  change (0 + 1 + 1) with (0 + 2). rewrite H2. exact H4.
Qed.

(** X25 on the first message of a new chat. *)
Lemma X25_submission_extends_thread_witness :
  walkThread (messages (handleSendMessage (fun _ => 7) (setInputText "hi" (initialState 0))))
    (activeBranchHeadId (handleSendMessage (fun _ => 7) (setInputText "hi" (initialState 0))))
  = walkThread (messages (setInputText "hi" (initialState 0)))
      (activeBranchHeadId (setInputText "hi" (initialState 0)))
      ++ [newMessage (fun _ => 7) (setInputText "hi" (initialState 0));
          responsePlaceholder (fun _ => 7)].
Proof.
  apply X25_submission_extends_thread.
  - split; [apply forest_checked; reflexivity|left; reflexivity].
  - split; vm_compute; intuition discriminate.
  - reflexivity.
  - vm_compute. discriminate.
Defined.

(* ------------------------------------------------------------------ *)
(** ** The chapters that the sidebar lists *)
(* ------------------------------------------------------------------ *)

Lemma reachesThread_path (messageMap : gmap string Message) (ids : gset string) :
  forall (hops : nat) (m : Message),
    reachesThread hops messageMap ids (Some m) = true ->
    exists a, rtc (parentIn messageMap) m a /\ m_id a ∈ ids.
Proof.
  induction hops as [|hops IH]; intros m; cbn [reachesThread]; [discriminate|].
  destruct (bool_decide (m_id m ∈ ids)) eqn:E.
  { intros _. exists m. split; [constructor|]. apply bool_decide_eq_true in E. exact E. }
  destruct (m_parentId m) as [p|] eqn:Ep; [|discriminate].
  destruct (p ==? "") eqn:E0; cbn [negb]; [discriminate|].
  destruct (messageMap !! p) as [a|] eqn:Ea; [|destruct hops; discriminate].
  intros H. destruct (IH a H) as (b & Hb & Hin). exists b. split; [|exact Hin].
  eapply rtc_l; [|exact Hb]. exists p. apply String.eqb_neq in E0. auto.
Qed.

(** X26: the chapters of the sidebar.  They are chapters of the
    application, each listed as often as it is held, in the order of the
    timestamps of their start messages.  A chapter that starts on the active
    thread is listed whatever is typed into the search box.  With an empty
    search box, every chapter listed starts at a message from which the
    parent links lead to a message of the active thread. *)
Theorem X26_sidebar_chapters (chapters : list Chapter)
    (currentThreadMessages allMessages : list Message) (searchQuery : string) :
  let shown := displayedChapters chapters currentThreadMessages allMessages searchQuery in
  let messageMap := messageMapOf allMessages in
  (exists keep, Permutation shown (List.filter keep chapters))
  /\ StronglySorted (fun a b => startTime messageMap a <= startTime messageMap b) shown
  /\ (forall c, In c chapters ->
        In (c_startMessageId c) (map m_id currentThreadMessages) -> In c shown)
  /\ (js_trim searchQuery = "" ->
      forall c, In c shown ->
        In (c_startMessageId c) (map m_id currentThreadMessages)
        \/ exists m a, messageMap !! c_startMessageId c = Some m
             /\ rtc (parentIn messageMap) m a
             /\ In (m_id a) (map m_id currentThreadMessages)).
Proof.
  intros shown messageMap. subst shown. unfold displayedChapters. fold messageMap.
  set (ids := list_to_set (map m_id currentThreadMessages) : gset string).
  assert (Hids : forall i, i ∈ ids <-> In i (map m_id currentThreadMessages)).
  { intros i. unfold ids. rewrite elem_of_list_to_set. apply list_elem_of_In. }
  split; [|split; [|split]].
  - eexists. apply js_sort_perm.
  - apply (js_sort_sorted (startTime messageMap)).
  - intros c Hc Hstart. apply js_sort_In, filter_In. split; [exact Hc|].
    unfold isRelevant. apply Hids in Hstart.
    rewrite (bool_decide_eq_true_2 _ Hstart). reflexivity.
  - intros Hq c Hc. apply js_sort_In, filter_In in Hc as [Hc Hrel].
    unfold isRelevant in Hrel.
    destruct (bool_decide (c_startMessageId c ∈ ids)) eqn:E.
    { left. apply Hids. apply bool_decide_eq_true in E. exact E. }
    rewrite Hq in Hrel. cbn [String.eqb negb] in Hrel.
    destruct (messageMap !! c_startMessageId c) as [m|] eqn:Em; [|discriminate].
    right. destruct (reachesThread_path _ _ _ _ Hrel) as (a & Ha & Hin).
    exists m, a. split; [reflexivity|]. split; [exact Ha|]. apply Hids. exact Hin.
Qed.

(** X26 on the cats thread and its chapter, with a search that does not
    match it. *)
Lemma X26_sidebar_chapters_witness :
  In catsChapter (displayedChapters [catsChapter] catsThread catsThread "dogs").
Proof.
  refine (proj1 (proj2 (proj2 (X26_sidebar_chapters [catsChapter] catsThread catsThread
                                 "dogs"))) catsChapter _ _).
  - left. reflexivity.
  - left. reflexivity.
Defined.

(* ------------------------------------------------------------------ *)
(** ** What the cards of the canvas hold *)
(* ------------------------------------------------------------------ *)

Section GroupContents.

Variable ix : MessageIndex.
Variable chaps : list Chapter.
Hypothesis keyed : keyedById ix.

Lemma singleChildRun_cons (a b : Message) (l : list Message) :
  childrenOf ix (m_id a) = [m_id b] -> singleChildRun ix (b :: l) ->
  singleChildRun ix (a :: b :: l).
Proof.
  intros Hab Hl [|k] x y Hx Hy; simpl in Hx, Hy.
  - injection Hx as <-. injection Hy as <-. exact Hab.
  - exact (Hl k x y Hx Hy).
Qed.

Lemma singleChildRun_one (a : Message) : singleChildRun ix [a].
Proof. intros [|k] x y Hx Hy; simpl in Hy; [discriminate|destruct k; discriminate]. Qed.

(** The loop of [buildGroup] collects a run of indexed messages, each the
    only child of the one before, none visited before, and visits exactly
    those. *)
Lemma collectGroup_contents fuel : forall cur visited acc,
  (unvisited ix visited < fuel)%nat ->
  exists new visited',
    collectGroup fuel ix cur visited acc = Some (acc ++ new, visited')
    /\ List.NoDup (map m_id new)
    /\ (forall m, In m new -> messageMap ix !! m_id m = Some m /\ m_id m ∉ visited)
    /\ (forall i, i ∈ visited' <-> i ∈ visited \/ In i (map m_id new))
    /\ singleChildRun ix new
    /\ (forall first, head new = Some first -> cur = Some (m_id first)).
Proof.
  induction fuel as [|fuel IH]; intros cur visited acc Hfuel; [lia|].
  assert (Hstop : exists new visited',
             Some (acc, visited) = Some (acc ++ new, visited')
             /\ List.NoDup (map m_id new)
             /\ (forall m, In m new -> messageMap ix !! m_id m = Some m /\ m_id m ∉ visited)
             /\ (forall i, i ∈ visited' <-> i ∈ visited \/ In i (map m_id new))
             /\ singleChildRun ix new
             /\ (forall first, head new = Some first -> cur = Some (m_id first))).
  { exists [], visited. rewrite app_nil_r. split; [reflexivity|].
    split; [constructor|]. split; [intros m []|]. split; [intros i; simpl; tauto|].
    split; [intros k a b H; destruct k; discriminate|discriminate]. }
  cbn [collectGroup]. destruct cur as [c|]; [|exact Hstop].
  destruct (c ==? "") eqn:Ec; [exact Hstop|].
  destruct (bool_decide (c ∈ visited)) eqn:Ev; [exact Hstop|].
  apply bool_decide_eq_false_1 in Ev.
  destruct (messageMap ix !! c) as [msg|] eqn:Em; [|exact Hstop].
  pose proof (keyed c msg Em) as Hid. subst c.
  pose proof (unvisited_visit ix visited (m_id msg) msg Em Ev) as Hless.
  assert (Hone : exists new visited',
             Some (acc ++ [msg], {[ m_id msg ]} ∪ visited) = Some (acc ++ new, visited')
             /\ List.NoDup (map m_id new)
             /\ (forall m, In m new -> messageMap ix !! m_id m = Some m /\ m_id m ∉ visited)
             /\ (forall i, i ∈ visited' <-> i ∈ visited \/ In i (map m_id new))
             /\ singleChildRun ix new
             /\ (forall first, head new = Some first -> Some (m_id msg) = Some (m_id first))).
  { exists [msg], ({[ m_id msg ]} ∪ visited). split; [reflexivity|].
    split; [repeat constructor; intros []|].
    split; [intros m [<-|[]]; auto|].
    split; [intros i; simpl; set_solver|].
    split; [apply singleChildRun_one|]. intros first [= <-]. reflexivity. }
  destruct (childrenOf ix (m_id msg)) as [|only [|]] eqn:Ech; [exact Hone| |exact Hone].
  destruct (IH (Some only) ({[ m_id msg ]} ∪ visited) (acc ++ [msg]))
    as (new & v' & E & Hnd & Hnew & Hv & Hrun & Hhead); [lia|].
  exists (msg :: new), v'. rewrite E, <- app_assoc. split; [reflexivity|].
  split; [|split; [|split; [|split]]].
  - cbn [map]. constructor; [|exact Hnd]. intros Hin.
    apply in_map_iff in Hin as (m & Hm & Hin). destruct (Hnew m Hin) as [_ Hout].
    rewrite Hm in Hout. set_solver.
  - intros m [<-|Hm]; [auto|]. destruct (Hnew m Hm) as [H1 H2]. split; [exact H1|set_solver].
  - intros i. rewrite Hv. cbn [map In]. set_solver.
  - destruct new as [|b new']; [apply singleChildRun_one|].
    apply singleChildRun_cons; [|exact Hrun].
    specialize (Hhead b eq_refl). injection Hhead as ->. exact Ech.
  - intros first [= <-]. reflexivity.
Qed.

(** The [forEach] over the children of a group's tail, as to contents. *)
Lemma buildChildren_contents (build : string -> gset string -> option Built) :
  forall (l : list string) (visited : gset string),
  (forall c v, visited ⊆ v -> exists r, build c v = Some r /\ contentsOk ix v r) ->
  exists ids groups visited',
    buildChildren build l visited = Some (ids, groups, visited')
    /\ contentsOk ix visited (@None string, groups, visited').
Proof.
  induction l as [|c l IH]; intros visited Hbuild.
  { exists [], [], visited. split; [reflexivity|]. cbn.
    split; [constructor|]. split; [intros m []|]. split; [intros i; tauto|constructor]. }
  destruct (Hbuild c visited ltac:(done)) as ([[res groups1] v1] & E1 & Hnd1 & Hin1 & Hv1 & Hs1).
  destruct (IH v1) as (ids & groups2 & v2 & E2 & Hnd2 & Hin2 & Hv2 & Hs2).
  { intros c' v Hv. apply Hbuild. intros i Hi. apply Hv, Hv1. left. exact Hi. }
  cbn [buildChildren]. rewrite E1, E2. eexists _, (groups1 ++ groups2), v2.
  split; [reflexivity|]. cbn. rewrite flat_map_app, map_app.
  split; [|split; [|split]].
  - apply List.NoDup_app; [exact Hnd1|exact Hnd2|].
    intros a Ha Hb. apply in_map_iff in Hb as (m & <- & Hm).
    destruct (Hin2 m Hm) as [_ Hout]. apply Hout, Hv1. right. exact Ha.
  - intros m Hm. apply in_app_or in Hm as [Hm|Hm].
    + exact (Hin1 m Hm).
    + destruct (Hin2 m Hm) as [H1 H2]. split; [exact H1|].
      intros Hi. apply H2, Hv1. left. exact Hi.
  - intros i. rewrite Hv2, Hv1, in_app_iff. tauto.
  - apply Forall_app. split; assumption.
Qed.

(** [buildGroup], as to contents. *)
Lemma buildGroup_contents fuel : forall startMsgId depth visited,
  (unvisited ix visited < fuel)%nat ->
  exists r, buildGroup fuel ix chaps startMsgId depth visited = Some r
            /\ contentsOk ix visited r.
Proof.
  induction fuel as [|fuel IH]; intros startMsgId depth visited Hfuel; [lia|].
  assert (Hnone : exists r, Some (@None string, @nil GroupedNode, visited) = Some r
                            /\ contentsOk ix visited r).
  { eexists. split; [reflexivity|]. cbn.
    split; [constructor|]. split; [intros m []|]. split; [intros i; tauto|constructor]. }
  cbn [buildGroup]. destruct (bool_decide (startMsgId ∈ visited)); [exact Hnone|].
  destruct (collectGroup_contents (S fuel) (Some startMsgId) visited [] Hfuel)
    as (new & v1 & E & Hnd & Hnew & Hv & Hrun & Hhead).
  rewrite E. cbn [app].
  destruct (head new) as [firstMsg|] eqn:Hh.
  2:{ destruct new; [|discriminate]. cbn [last]. eexists. split; [reflexivity|].
      cbn. split; [constructor|]. split; [intros m []|].
      split; [intros i; rewrite Hv; simpl; tauto|constructor]. }
  destruct (last new) as [tailMsg|] eqn:Hl; [|apply last_None in Hl; subst; discriminate].
  assert (Hsplit : exists front, new = front ++ [tailMsg]).
  { apply last_Some in Hl. exact Hl. }
  assert (Hless : (unvisited ix v1 < unvisited ix visited)%nat).
  { destruct (Hnew firstMsg (head_In _ _ Hh)) as [Hm Hout].
    pose proof (unvisited_visit ix visited (m_id firstMsg) firstMsg Hm Hout) as H1.
    assert (Hsub : {[ m_id firstMsg ]} ∪ visited ⊆ v1).
    { intros i Hi. apply Hv. apply elem_of_union in Hi as [Hi|Hi]; [|left; exact Hi].
      apply elem_of_singleton in Hi. subst i. right. apply in_map.
      exact (head_In _ _ Hh). }
    pose proof (unvisited_mono ix _ _ Hsub). lia. }
  destruct (buildChildren_contents
              (fun childId v => buildGroup fuel ix chaps childId (depth + 1) v)
              (childrenOf ix (m_id tailMsg)) v1)
    as (ids & groups & v2 & E2 & Hnd2 & Hin2 & Hv2 & Hs2).
  { intros c v Hsub. apply IH. pose proof (unvisited_mono ix _ _ Hsub). lia. }
  rewrite E2. eexists. split; [reflexivity|].
  cbn [contentsOk flat_map g_messages mkGroup]. rewrite map_app.
  split; [|split; [|split]].
  - apply List.NoDup_app; [exact Hnd|exact Hnd2|].
    intros a Ha Hb. apply in_map_iff in Hb as (m & <- & Hm).
    destruct (Hin2 m Hm) as [_ Hout]. apply Hout, Hv. right. exact Ha.
  - intros m Hm. apply in_app_or in Hm as [Hm|Hm]; [exact (Hnew m Hm)|].
    destruct (Hin2 m Hm) as [H1 H2]. split; [exact H1|].
    intros Hi. apply H2, Hv. left. exact Hi.
  - intros i. rewrite Hv2, Hv, in_app_iff. tauto.
  - constructor; [|exact Hs2]. destruct Hsplit as (front & Hsplit).
    exists front, tailMsg, firstMsg. cbn [g_messages g_id g_timestamp g_startMessageId mkGroup].
    split; [exact Hsplit|]. split; [exact Hh|]. split; [reflexivity|].
    split; [reflexivity|]. split; [|exact Hrun].
    specialize (Hhead firstMsg eq_refl). congruence.
Qed.

End GroupContents.

Lemma indexMessages_stored (msgs : list Message) (k : string) (m : Message) :
  messageMap (indexMessages msgs) !! k = Some m -> In m msgs.
Proof.
  unfold indexMessages.
  assert (H : forall ix, messageMap (foldl indexStep ix msgs) !! k = Some m ->
                messageMap ix !! k = Some m \/ In m msgs).
  { induction msgs as [|x l IH]; intros ix Hk; [left; exact Hk|].
    simpl in Hk. destruct (IH _ Hk) as [H|H]; [|right; right; exact H].
    assert (E : messageMap (indexStep ix x) = <[ m_id x := x ]> (messageMap ix)).
    { unfold indexStep. destruct (m_parentId x) as [p|]; [destruct (negb (p ==? ""))|];
        reflexivity. }
    rewrite E in H. apply lookup_insert_Some in H as [[_ <-]|[_ H]];
      [right; left; reflexivity|left; exact H]. }
  intros Hk. destruct (H _ Hk) as [H0|H0]; [|exact H0].
  cbn [messageMap] in H0. rewrite lookup_empty in H0. discriminate.
Qed.

(** X27: what the cards of the canvas hold.  On every store the grouping
    returns groups such that no two messages in the groups, of one group or
    of two, have the same id; every message of a group is a stored message;
    and every group is a run of messages, each the only child of the one
    before it, that starts at the group's start message and ends at the
    message whose id and timestamp the group bears. *)
Theorem X27_cards_partition_messages (msgs : list Message) (chaps : list Chapter) :
  exists groups,
    groupMessages msgs chaps = Some groups
    /\ List.NoDup (map m_id (flat_map g_messages groups))
    /\ (forall g m, In g groups -> In m (g_messages g) -> In m msgs)
    /\ Forall (groupShape (indexMessages msgs)) groups.
Proof.
  unfold groupMessages, groupMessagesFuel.
  destruct msgs as [|m0 l].
  { exists []. split; [reflexivity|]. split; [constructor|].
    split; [intros g m []|constructor]. }
  set (msgs := m0 :: l). set (ix := indexMessages msgs).
  destruct (truthy (rootId ix)).
  2:{ exists []. split; [reflexivity|]. split; [constructor|].
      split; [intros g m []|constructor]. }
  destruct (buildGroup_contents ix chaps (indexMessages_keyed msgs) (S (length msgs))
              (default "" (rootId ix)) 0 ∅)
    as ([[res groups] v] & E & Hnd & Hin & _ & Hshape).
  { unfold unvisited. pose proof (indexMessages_size msgs).
    pose proof (subseteq_size (dom (messageMap ix) ∖ ∅) (dom (messageMap ix))
                  ltac:(set_solver)). fold ix in H. lia. }
  rewrite E. exists groups. split; [reflexivity|]. split; [exact Hnd|].
  split; [|exact Hshape].
  intros g m Hg Hm. apply (indexMessages_stored msgs (m_id m)).
  apply Hin. apply in_flat_map. exists g. auto.
Qed.

(** X27 on the fork tree. *)
Lemma X27_cards_partition_messages_witness :
  exists groups,
    groupMessages (forkTree 0 1 2) [] = Some groups
    /\ forall g, In g groups -> In msgC (g_messages g) -> In msgC (forkTree 0 1 2).
Proof.
  destruct (X27_cards_partition_messages (forkTree 0 1 2) []) as (groups & E & _ & H & _).
  exists groups. split; [exact E|]. intros g Hg Hm. exact (H g msgC Hg Hm).
Defined.

(* ------------------------------------------------------------------ *)
(** ** The edges of the canvas *)
(* ------------------------------------------------------------------ *)

Lemma nodeMapOf_lookup (nodes : list GroupedNode) (g : GroupedNode) :
  List.NoDup (map g_id nodes) -> In g nodes -> nodeMapOf nodes !! g_id g = Some g.
Proof.
  unfold nodeMapOf.
  assert (H : forall mm : gmap string GroupedNode, List.NoDup (map g_id nodes) ->
                (In g nodes \/ (mm !! g_id g = Some g
                                /\ ~ In (g_id g) (map g_id nodes))) ->
                foldl (fun mm n => <[ g_id n := n ]> mm) mm nodes !! g_id g = Some g).
  { induction nodes as [|x l IH]; intros mm Hnd Hg.
    - destruct Hg as [[]|[Hg _]]. exact Hg.
    - apply List.NoDup_cons_iff in Hnd as [Hx Hnd]. cbn [foldl]. apply IH; [exact Hnd|].
      destruct Hg as [[->|Hg]|[Hg Hout]].
      + right. split; [apply lookup_insert_eq|exact Hx].
      + left. exact Hg.
      + right. split; [|intros Hin; apply Hout; right; exact Hin].
        rewrite lookup_insert_ne; [exact Hg|].
        intros E. apply Hout. left. exact E. }
  intros Hnd Hin. apply H; [exact Hnd|left; exact Hin].
Qed.

Lemma layoutTree_root (t : GTree) (y : Q) :
  movedTo (rootNode t) (rootNode (layoutTree t y).1).
Proof.
  pose proof (layoutTree_moves t y) as H. destruct t as [g cs].
  destruct (layoutTree (GNode g cs) y).1 as [g' cs'] eqn:E.
  rewrite !flatten_node in H. apply Forall2_cons_1 in H as [H _]. exact H.
Qed.

Lemma layoutForest_ids (cs : list GTree) : forall y,
  map treeId (layoutForest cs y).1 = map treeId cs.
Proof.
  induction cs as [|c cs IH]; intros y; [reflexivity|].
  rewrite layoutForest_cons. cbn [fst map]. rewrite IH. f_equal.
  unfold treeId. rewrite (layoutTree_root c y). reflexivity.
Qed.

(** The layout keeps a tree well formed. *)
Lemma layoutTree_wf (t : GTree) : forall depth y,
  wfTree depth t -> wfTree depth (layoutTree t y).1.
Proof.
  induction t as [g cs IH] using GTree_ind. intros depth y Hwf.
  apply wfTree_node in Hwf as (Hd & Hids & Hcs).
  destruct cs as [|c cs].
  - rewrite layoutTree_leaf. apply wfTree_node. repeat split; [exact Hd|exact Hids|constructor].
  - destruct (layoutTree_inner g c cs y) as (f & l & _ & _ & ->). cbn [fst].
    apply wfTree_node. split; [exact Hd|]. split.
    + cbn [set_y g_childrenIds]. rewrite layoutForest_ids. exact Hids.
    + clear -IH Hcs. revert y. generalize dependent (c :: cs). intros l IH Hl.
      induction l as [|x l IHl]; intros y; [constructor|].
      apply Forall_cons_iff in IH as [Hx IH]. apply Forall_cons_iff in Hl as [Hw Hl].
      rewrite layoutForest_cons. cbn [fst]. constructor; [exact (Hx _ _ Hw)|].
      apply IHl; assumption.
Qed.

Lemma wfTree_root_depth (t : GTree) (depth : Z) :
  wfTree depth t -> g_depth (rootNode t) = depth.
Proof. destruct t as [g cs]. intros H. apply wfTree_node in H as (H & _). exact H. Qed.

Lemma flatten_nonempty (t : GTree) : (1 <= length (flatten t))%nat.
Proof. destruct t. rewrite flatten_node. simpl. lia. Qed.

Section EdgesOfTree.

Variable nodeMap : gmap string GroupedNode.

Lemma edgesFrom_children (g : GroupedNode) (cs : list GTree) :
  g_childrenIds g = map treeId cs ->
  (forall c, In c cs -> nodeMap !! treeId c = Some (rootNode c)) ->
  edgesFrom nodeMap g = map (fun c => edgeBetween g (rootNode c)) cs.
Proof.
  unfold edgesFrom. intros -> Hmap.
  induction cs as [|c cs IH]; [reflexivity|].
  cbn [map]. change (omap ?f (?x :: ?l))
    with (match f x with Some y => y :: omap f l | None => omap f l end).
  cbv beta. rewrite (Hmap c) by (left; reflexivity). cbn [option_map].
  f_equal. apply IH. intros c' Hc'. apply Hmap. right. exact Hc'.
Qed.

(** One edge for each group of a well-formed tree but its root, from the
    right side of the parent's card to the left side of the child's. *)
Lemma edges_of_tree (t : GTree) : forall depth,
  wfTree depth t ->
  (forall g, In g (flatten t) -> nodeMap !! g_id g = Some g) ->
  Forall xByDepth (flatten t) ->
  S (length (flat_map (edgesFrom nodeMap) (flatten t))) = length (flatten t)
  /\ Forall (fun e => targetX e - sourceX e = X_SPACING - GROUP_WIDTH)
       (flat_map (edgesFrom nodeMap) (flatten t)).
Proof.
  induction t as [g cs IH] using GTree_ind. intros depth Hwf Hmap Hx.
  apply wfTree_node in Hwf as (Hd & Hids & Hcs).
  rewrite flatten_node in *. cbn [flat_map length].
  apply Forall_cons_iff in Hx as [Hxg Hx].
  assert (Hsub : forall c, In c cs -> In (rootNode c) (flattenF cs))
    by (intros c Hc; apply (flattenF_In cs c); [exact Hc|apply rootNode_in_flatten]).
  rewrite (edgesFrom_children g cs Hids)
    by (intros c Hc; apply (Hmap (rootNode c)); right; apply Hsub; exact Hc).
  assert (Hroot : Forall (fun e => targetX e - sourceX e = X_SPACING - GROUP_WIDTH)
                    (map (fun c => edgeBetween g (rootNode c)) cs)).
  { apply Forall_forall. intros e He. apply list_elem_of_In, in_map_iff in He as (c & <- & Hc).
    cbn [edgeBetween targetX sourceX].
    rewrite Forall_forall in Hx. rewrite Forall_forall in Hcs.
    pose proof (Hx (rootNode c) ltac:(apply list_elem_of_In, Hsub; exact Hc)) as Hxc.
    pose proof (wfTree_root_depth c _ (Hcs c ltac:(apply list_elem_of_In; exact Hc))) as Hdc.
    unfold xByDepth in *. rewrite Hxc, Hxg, Hdc, Hd. unfold X_SPACING, GROUP_WIDTH. lia. }
  assert (Hrest : (length (flat_map (edgesFrom nodeMap) (flattenF cs)) + length cs
                   = length (flattenF cs))%nat
                  /\ Forall (fun e => targetX e - sourceX e = X_SPACING - GROUP_WIDTH)
                       (flat_map (edgesFrom nodeMap) (flattenF cs))).
  { assert (Hmap' : forall g', In g' (flattenF cs) -> nodeMap !! g_id g' = Some g')
      by (intros g' Hg'; apply Hmap; right; exact Hg').
    clear Hroot Hsub Hids Hmap. induction cs as [|c cs IHcs]; [split; [reflexivity|constructor]|].
    apply Forall_cons_iff in IH as [Hc IH]. apply Forall_cons_iff in Hcs as [Hw Hcs].
    rewrite flattenF_cons in *. apply Forall_app in Hx as [Hx1 Hx2].
    destruct (Hc _ Hw) as [L1 F1];
      [intros g' Hg'; apply Hmap'; apply in_or_app; left; exact Hg'|exact Hx1|].
    destruct (IHcs IH Hcs Hx2) as [L2 F2];
      [intros g' Hg'; apply Hmap'; apply in_or_app; right; exact Hg'|].
    rewrite flat_map_app, !length_app. split; [cbn [length]; lia|].
    apply Forall_app. split; assumption. }
  destruct Hrest as [L F]. rewrite length_app, length_map. split; [lia|].
  apply Forall_app. split; assumption.
Qed.

End EdgesOfTree.

(** X28: the edges of the canvas, before any card is dragged.  There is
    one edge less than there are cards, and every edge runs from the right
    side of a card to the left side of a card in the next column, 60 to its
    right. *)
Theorem X28_edges_of_the_canvas (msgs : list Message) (chaps : list Chapter) :
  exists groups laid,
    groupMessages msgs chaps = Some groups
    /\ calculateGroupLayout groups = Some laid
    /\ (laid <> [] -> S (length (edges laid)) = length laid)
    /\ Forall (fun e => targetX e - sourceX e = 60) (edges laid).
Proof.
  destruct (groupMessages_tree msgs chaps)
    as (groups & E & Hx & [-> | (t & -> & Hwf & Hnd)]).
  - exists [], []. split; [exact E|]. split; [reflexivity|].
    split; [intros H; contradiction|constructor].
  - exists (flatten t), (flatten (layoutTree t 100).1).
    split; [exact E|]. split; [exact (calculateGroupLayout_tree t Hwf Hnd)|].
    pose proof (layoutTree_moves t 100) as Hmoves.
    pose proof (movedTo_xByDepth _ _ Hmoves Hx) as Hx'.
    assert (Hnd' : List.NoDup (map g_id (flatten (layoutTree t 100).1))).
    { replace (map g_id (flatten (layoutTree t 100).1)) with (map g_id (flatten t));
        [exact Hnd|].
      clear -Hmoves. induction Hmoves as [|g g' l l' H _ IH]; [reflexivity|].
      cbn [map]. rewrite IH, H. reflexivity. }
    destruct (edges_of_tree (nodeMapOf (flatten (layoutTree t 100).1))
                (layoutTree t 100).1 0 (layoutTree_wf t 0 100 Hwf)) as [L F];
      [intros g Hg; apply nodeMapOf_lookup; assumption|exact Hx'|].
    split; [intros _; exact L|exact F].
Qed.

(** X28 on the fork tree: three cards, two edges. *)
Lemma X28_edges_of_the_canvas_witness :
  exists groups laid,
    groupMessages (forkTree 0 1 2) [] = Some groups
    /\ calculateGroupLayout groups = Some laid
    /\ S (length (edges laid)) = length laid.
Proof.
  destruct (X28_edges_of_the_canvas (forkTree 0 1 2) [])
    as (groups & laid & E1 & E2 & H & _).
  exists groups, laid. split; [exact E1|]. split; [exact E2|]. apply H.
  vm_compute in E1. injection E1 as <-. vm_compute in E2. injection E2 as <-.
  discriminate.
Defined.

(* ------------------------------------------------------------------ *)
(** ** The thread of a forest *)
(* ------------------------------------------------------------------ *)

(** On a forest without empty ids, the walk from a stored message collects
    that message and its ancestors, the root left out, as long as the bound
    on the hops is not reached. *)
Lemma walk_members (msgs : list Message) :
  forest msgs -> (forall m, In m msgs -> m_id m <> "") ->
  forall (fuel k : nat) (m : Message) (n : Z) (thread : list Message),
    msgs !! k = Some m -> 0 <= n -> n + Z.of_nat k + 1 <= MAX_DEPTH -> (S k < fuel)%nat ->
    exists front s,
      walk_loop fuel msgs
        {| w_currentId := Some (m_id m); w_loopSafety := n; w_thread := thread |} = Some s
      /\ w_thread s = front ++ thread
      /\ forall a, In a front <->
           In a msgs /\ m_id a <> ROOT_ID
           /\ (a = m \/ tc (childEdge msgs) (m_id a) (m_id m)).
Proof.
  intros [Hnd Hpar] Hids. induction fuel as [|fuel IH];
    intros k m n thread Hk Hn Hb Hfuel; [lia|].
  assert (Hin : In m msgs) by (apply list_elem_of_In, list_elem_of_lookup; eauto).
  cbn [walk_loop]. unfold walk_step. cbn [w_currentId w_loopSafety w_thread].
  pose proof (Hids m Hin) as Hne. apply String.eqb_neq in Hne. rewrite Hne.
  assert (E1 : (n <? MAX_DEPTH) = true) by (apply Z.ltb_lt; lia).
  rewrite E1. cbn [negb andb].
  rewrite (find_by_id_lookup msgs k m Hnd Hk).
  set (thread1 := if negb (m_id m ==? ROOT_ID) then m :: thread else thread).
  assert (Hfront : exists front1, thread1 = front1 ++ thread
                     /\ forall a, In a front1 <-> a = m /\ m_id a <> ROOT_ID).
  { unfold thread1. destruct (m_id m ==? ROOT_ID) eqn:Er; cbn [negb].
    - exists []. split; [reflexivity|]. intros a. split; [intros []|].
      intros [-> H]. apply String.eqb_eq in Er. contradiction.
    - exists [m]. split; [reflexivity|]. intros a. apply String.eqb_neq in Er. split.
      + intros [<-|[]]. auto.
      + intros [-> _]. left. reflexivity. }
  destruct Hfront as (front1 & Hfront & Hmem1).
  destruct (m_parentId m) as [p|] eqn:Ep.
  - destruct (Hpar k m p Hk Ep) as (j & a & Hjk & Hj & <-).
    destruct (IH j a (n + 1) thread1 Hj ltac:(lia) ltac:(lia) ltac:(lia))
      as (front & s & H1 & H2 & H3).
    exists (front ++ front1), s. split; [exact H1|].
    split; [rewrite H2, Hfront, <- app_assoc; reflexivity|].
    assert (He : childEdge msgs (m_id a) (m_id m)) by (exists m; auto).
    assert (Hup : forall i, tc (childEdge msgs) i (m_id m)
                            <-> i = m_id a \/ tc (childEdge msgs) i (m_id a)).
    { intros i. split.
      - intros Htc. apply tc_inv_last in Htc as [H|(z & Hz & H)].
        + left. apply (childEdge_parent msgs i m Hnd Hin) in H. congruence.
        + right. apply (childEdge_parent msgs z m Hnd Hin) in H.
          assert (z = m_id a) by congruence. subst z. exact Hz.
      - intros [->|Htc]; [apply tc_once; exact He|].
        eapply tc_r; [exact Htc|exact He]. }
    assert (Ha : In a msgs) by (apply list_elem_of_In, list_elem_of_lookup; eauto).
    intros x. rewrite in_app_iff, H3, Hmem1, Hup. split.
    + intros [(Hx & Hr & [->|Htc])|[-> Hr]]; auto.
    + intros (Hx & Hr & [->|[E|Htc]]); auto.
      left. split; [exact Hx|]. split; [exact Hr|]. left.
      exact (unique_by_id msgs x a Hnd Hx Ha E).
  - destruct fuel as [|fuel']; [lia|]. cbn [walk_loop]. unfold walk_step.
    cbn [w_currentId]. exists front1. eexists. split; [reflexivity|].
    split; [exact Hfront|]. intros x. rewrite Hmem1. split.
    + intros [-> Hr]. auto.
    + intros (Hx & Hr & [->|Htc]); [auto|]. exfalso.
      apply tc_inv_last in Htc as [H|(z & _ & H)];
        apply (childEdge_parent msgs _ m Hnd Hin) in H; congruence.
Qed.

Lemma walkThread_members (msgs : list Message) (headId : string) :
  forest msgs -> (forall m, In m msgs -> m_id m <> "") ->
  In headId (map m_id msgs) -> js_length msgs <= MAX_DEPTH ->
  forall a, In a (walkThread msgs headId) <->
    In a msgs /\ m_id a <> ROOT_ID
    /\ (m_id a = headId \/ tc (childEdge msgs) (m_id a) headId).
Proof.
  intros Hf Hids Hhead Hsize a.
  apply In_ids_lookup in Hhead as (k & m & Hk & <-).
  assert (Hklen : (k < length msgs)%nat) by (apply lookup_lt_Some in Hk; exact Hk).
  unfold js_length in Hsize.
  destruct (walk_members msgs Hf Hids walk_fuel k m 0 [] Hk ltac:(lia) ltac:(lia)
              ltac:(unfold walk_fuel, MAX_DEPTH in *; lia)) as (front & s & H1 & H2 & H3).
  unfold walkThread, walk_init. rewrite H1, H2, app_nil_r, H3.
  assert (Hin : In m msgs) by (apply list_elem_of_In, list_elem_of_lookup; eauto).
  destruct Hf as [Hnd _]. split.
  - intros (Ha & Hr & [->|Htc]); auto.
  - intros (Ha & Hr & [E|Htc]); auto. split; [exact Ha|]. split; [exact Hr|]. left.
    exact (unique_by_id msgs a m Hnd Ha Hin E).
Qed.

(** X29: the thread of a forest.  On a store that is a forest without an
    empty id and no larger than the bound of the walk, the thread of a
    stored head holds exactly the head and its ancestors, the root left
    out. *)
Theorem X29_thread_is_the_ancestry (msgs : list Message) (headId : string) :
  forest msgs -> (forall m, In m msgs -> m_id m <> "") ->
  In headId (map m_id msgs) -> js_length msgs <= MAX_DEPTH ->
  forall a, In a (walkThread msgs headId) <->
    In a msgs /\ m_id a <> ROOT_ID
    /\ (m_id a = headId \/ tc (childEdge msgs) (m_id a) headId).
Proof. exact (walkThread_members msgs headId). Qed.

(** X29 on the deep tree: B is on the thread of F. *)
Lemma X29_thread_is_the_ancestry_witness :
  In (mk "B" (Some "A") ASSISTANT 2) (walkThread (deepTree 0 1 2) "F")
  <-> In (mk "B" (Some "A") ASSISTANT 2) (deepTree 0 1 2)
      /\ m_id (mk "B" (Some "A") ASSISTANT 2) <> ROOT_ID
      /\ (m_id (mk "B" (Some "A") ASSISTANT 2) = "F"
          \/ tc (childEdge (deepTree 0 1 2)) (m_id (mk "B" (Some "A") ASSISTANT 2)) "F").
Proof.
  apply X29_thread_is_the_ancestry.
  - apply forest_checked. reflexivity.
  - real_store.
  - vm_compute. tauto.
  - vm_compute. discriminate.
Defined.

(* ------------------------------------------------------------------ *)
(** ** The thread after a swipe *)
(* ------------------------------------------------------------------ *)

Lemma descend_path fuel : forall msgs start leaf,
  descend fuel msgs start = Some leaf -> rtc (childEdge msgs) start leaf.
Proof.
  induction fuel as [|fuel IH]; intros msgs start leaf; simpl; [discriminate|].
  destruct (descend_step msgs start) as [c|] eqn:E; [|intros [= <-]; constructor].
  intros H. eapply rtc_l; [exact (descend_step_edge _ _ _ E)|exact (IH _ _ _ H)].
Qed.

(** What a swipe from a stored message with a parent does: it picks the
    neighbour in the sibling group and descends from it. *)
Lemma swipe_from_stored fuel cur dir s m p :
  cur <> GHOST_ID -> List.find (byId cur) (messages s) = Some m ->
  m_parentId m = Some p -> p <> "" ->
  exists target,
    In target (messages s) /\ m_parentId target = Some p
    /\ handleSwipeBranch fuel cur dir s
       = match descend fuel (messages s) (m_id target) with
         | Some pointer =>
             Done (setActiveBranchHeadId pointer
                     (setSwipeDirection (match dir with prev => left | next => right end) s))
         | None => OutOfFuel
         end.
Proof.
  intros Hcur Hfind Hp Hne. unfold handleSwipeBranch.
  destruct (cur ==? GHOST_ID) eqn:G; [apply String.eqb_eq in G; contradiction|].
  change (messages (setSwipeDirection _ s)) with (messages s). rewrite Hfind, Hp.
  cbn [truthy]. apply String.eqb_neq in Hne. rewrite Hne. cbn [negb].
  set (siblings := sortedChildren (messages s) (Some p)).
  set (i := findIndex (byId cur) siblings).
  apply find_some in Hfind as [Hin Hid].
  assert (Hi : 0 <= i < js_length siblings).
  { split; [|apply findIndex_range].
    apply (findIndex_found _ _ m); [|exact Hid].
    apply sortedChildren_In. split; [exact Hin|exact Hp]. }
  destruct (i =? -1) eqn:E1; zb E1; [lia|].
  destruct (js_nth_in_range siblings _ (swipeIndex_in_range _ _ dir Hi)) as (target & Ht).
  rewrite Ht. exists target. apply js_nth_In in Ht as Hts.
  apply sortedChildren_In in Hts as [H1 H2]. split; [exact H1|]. split; [exact H2|].
  reflexivity.
Qed.

(** X30: the thread after a swipe.  On a forest without an empty id, whose
    root has no parent and which is no larger than the bound of the walk, a
    swipe from a stored message with a parent that returns leaves a thread
    that holds a sibling of that message (a stored message with the same
    parent), and whose head has no children. *)
Theorem X30_swipe_shows_a_sibling (fuel : nat) (cur : string) (dir : Direction)
    (s s' : AppState) (m : Message) (p : string) :
  forest (messages s) -> (forall x, In x (messages s) -> m_id x <> "") ->
  (forall x, In x (messages s) -> m_id x = ROOT_ID -> m_parentId x = None) ->
  js_length (messages s) <= MAX_DEPTH ->
  cur <> GHOST_ID -> List.find (byId cur) (messages s) = Some m ->
  m_parentId m = Some p -> p <> "" ->
  handleSwipeBranch fuel cur dir s = Done s' ->
  messages s' = messages s
  /\ descend_step (messages s) (activeBranchHeadId s') = None
  /\ exists target,
       In target (messages s) /\ m_parentId target = Some p
       /\ In target (walkThread (messages s') (activeBranchHeadId s')).
Proof.
  intros Hf Hids Hroot Hsize Hcur Hfind Hp Hne Hdone.
  destruct (swipe_from_stored fuel cur dir s m p Hcur Hfind Hp Hne)
    as (target & Hin & Htp & E).
  rewrite E in Hdone.
  destruct (descend fuel (messages s) (m_id target)) as [leaf|] eqn:Ed; [|discriminate].
  injection Hdone as <-. cbn [messages activeBranchHeadId setActiveBranchHeadId
                              setSwipeDirection].
  split; [reflexivity|]. split; [exact (descend_leaf _ _ _ _ Ed)|].
  exists target. split; [exact Hin|]. split; [exact Htp|].
  apply (walkThread_members (messages s) leaf Hf Hids); [|exact Hsize|].
  - destruct (descend_stored _ _ _ _ Ed) as [->|H]; [apply in_map; exact Hin|exact H].
  - split; [exact Hin|]. split.
    + intros Er. rewrite (Hroot target Hin Er) in Htp. discriminate.
    + apply descend_path in Ed. apply rtc_tc in Ed as [->|Htc]; [left; reflexivity|].
      right. exact Htc.
Qed.

(** X30 on the deep tree: a swipe from D shows C. *)
Lemma X30_swipe_shows_a_sibling_witness :
  exists target,
    In target (deepTree 0 1 2) /\ m_parentId target = Some "B"
    /\ In target (walkThread (deepTree 0 1 2) "F").
Proof.
  destruct (X30_swipe_shows_a_sibling 8 "D" next (stateOf (deepTree 0 1 2) "D" false)
              (setActiveBranchHeadId "F"
                 (setSwipeDirection right (stateOf (deepTree 0 1 2) "D" false)))
              msgD "B") as (_ & _ & H).
  - apply forest_checked. reflexivity.
  - real_store.
  - intros x Hx. vm_compute in Hx.
    repeat (destruct Hx as [<-|Hx]; [vm_compute; first [reflexivity|discriminate]|]).
    destruct Hx.
  - vm_compute. discriminate.
  - discriminate.
  - reflexivity.
  - reflexivity.
  - discriminate.
  - reflexivity.
  - exact H.
Defined.
